(** * Verification of the dialogue tutorial (tutorial3_seq2seq_dialog)

    The development embeds, from the source cells of the notebook,

    - [softmax_masked], the masked soft-attention normalisation;
    - [Seq2SeqModel] and [Seq2SeqAttentionModel] ([encode], [decode],
      [forward]);
    - [SubtitlesDialogDataset] (the constructor, [_pad_sentnece],
      [_process_sent], [__getitem__], [__len__]);
    - [Vocab] ([add_document], [add_documents], [prune_vocab], [save],
      [load]);
    - [create_embeddings_matrix] and [generate_response].

    Modelling conventions.

    - Float tensors have two models.  In the first a float tensor is a
      (nested) list of real numbers: arithmetic is exact, so rounding,
      overflow, infinities and NaN are outside it, and where IEEE
      arithmetic would leave the reals (a division by zero) it stops with
      [None].  It carries the properties of shapes, indices and control
      flow, which do not depend on the values of the floats, and the
      properties that are stated of exact real arithmetic.
    - In the second ([Float32], [Softmax32], [Seq2SeqAttentionModel32]) a
      float is a binary32 value of IEEE 754 ([SpecFloat]), with rounding
      to nearest even, infinities and NaN; [torch.exp] and [torch.tanh]
      are arguments.  It carries what is said of the values of
      [softmax_masked] and of the attention of [decode].
    - The start index passes through a float32 tensor in [decode]
      ([torch.full_like] of the hidden states, then [.long()]); it is
      rounded as float32 rounds it in both models ([Policy.start_token]).
    - A long tensor is a (nested) list of [Z].
    - A batch is the list of its rows; all batched torch operators used by
      the source act on the rows independently.
    - Python exceptions ([IndexError], [KeyError], [TypeError], a
      [RuntimeError] of torch) are the [None] of the option monad.
    - The layers of [torch.nn] ([Embedding], [GRUCell], [Linear]) hold
      learned parameters; they are fields of the model record, as functions
      on rows.
    - [np.random.rand()] is an input: [rand i] is the value drawn in
      iteration [i] of a decoding loop.
    - The CSV file of a vocabulary is the list of its rows; the text layer
      of the file turns the carriage returns of a token into line feeds
      ([Vocab.read_back]). *)

From Stdlib Require Import Ascii String.
From Stdlib Require Import Reals Lra List ZArith Lia Bool Arith Sorted.
From Stdlib Require Import SpecFloat.
Import ListNotations.

Set Implicit Arguments.

(** ** The option monad, used for every fallible operation *)

Definition bind {A B : Type} (m : option A) (f : A -> option B) : option B :=
  match m with
  | Some a => f a
  | None => None
  end.

Notation "x <- m ;; k" := (bind m (fun x => k))
  (at level 61, m at next level, right associativity).
Notation "' p <- m ;; k" := (bind m (fun x => match x with p => k end))
  (at level 61, p pattern, m at next level, right associativity).

Fixpoint mapM {A B : Type} (f : A -> option B) (l : list A) : option (list B) :=
  match l with
  | [] => Some []
  | a :: l' =>
      b <- f a ;;
      bs <- mapM f l' ;;
      Some (b :: bs)
  end.

(** Two tensors combined position by position; torch refuses operands whose
    sizes along the dimension differ. *)
Fixpoint zipM {A B C : Type} (f : A -> B -> option C)
         (l1 : list A) (l2 : list B) : option (list C) :=
  match l1, l2 with
  | [], [] => Some []
  | a :: l1', b :: l2' =>
      c <- f a b ;;
      cs <- zipM f l1' l2' ;;
      Some (c :: cs)
  | _, _ => None
  end.

(** ** Tensors *)

Module Tensor.

Local Open Scope R_scope.

Abbreviation Tensor1 := (list R).
Abbreviation Tensor2 := (list (list R)).
Abbreviation Tensor3 := (list (list (list R))).
Abbreviation LongTensor1 := (list Z).
Abbreviation LongTensor2 := (list (list Z)).

(** [t.sum()] along the only dimension of a row. *)
Definition sum_list (t : Tensor1) : R := fold_right Rplus 0 t.

(** [a / b] on reals. *)
Definition tdiv (a b : R) : option R :=
  if Req_dec_T b 0 then None else Some (a / b).

(** [a * b], elementwise, on two rows of the same size. *)
Definition tmul (a b : Tensor1) : option Tensor1 :=
  zipM (fun x y => Some (x * y)) a b.

(** [mask.float()]. *)
Definition to_float (mask : LongTensor1) : Tensor1 := map IZR mask.

Definition zeros (n : nat) : Tensor1 := repeat 0 n.

(** [a + b], elementwise. *)
Fixpoint vadd (a b : Tensor1) : Tensor1 :=
  match a, b with
  | x :: a', y :: b' => (x + y) :: vadd a' b'
  | _, _ => []
  end.

(** A row multiplied by a scalar (broadcasting of a size-1 dimension). *)
Definition vscale (w : R) (a : Tensor1) : Tensor1 := map (fun x => x * w) a.

(** [t.argmax()] over a row: the index of the first maximal entry;
    torch refuses an empty row. *)
Fixpoint argmax_from (best : R) (best_i cur_i : nat) (t : Tensor1) : nat :=
  match t with
  | [] => best_i
  | x :: t' =>
      if Rlt_dec best x
      then argmax_from x cur_i (S cur_i) t'
      else argmax_from best best_i (S cur_i) t'
  end.

Definition argmax (t : Tensor1) : option nat :=
  match t with
  | [] => None
  | x :: t' => Some (argmax_from x 0%nat 1%nat t')
  end.

(** [logits.argmax(dim=1).long()] on a batch of rows. *)
Definition argmax_rows (t : Tensor2) : option LongTensor1 :=
  mapM (fun row => option_map Z.of_nat (argmax row)) t.

(** [t[:, i]]: entry [i] of every row; an [IndexError] when a row is too
    short. *)
Definition column {A : Type} (i : nat) (t : list (list A)) : option (list A) :=
  mapM (fun row => nth_error row i) t.

(** [torch.sum(t, dim=0)] of a matrix that has at least one row: the sum of
    its rows.  ([decode] sums over the encoder positions after it has read
    position 0, so there is a row.) *)
Definition sum_rows (t : Tensor2) : Tensor1 :=
  match t with
  | [] => []
  | row :: rows => fold_left vadd rows row
  end.

(** [torch.stack(ts, dim=1)] of a Python list of batches: entry [b] of the
    result lists row [b] of every batch.  torch refuses an empty list and
    batches of different sizes. *)
Fixpoint stack_dim1 {A : Type} (ts : list (list A)) : option (list (list A)) :=
  match ts with
  | [] => None
  | [t] => Some (map (fun row => [row]) t)
  | t :: ts' =>
      rest <- stack_dim1 ts' ;;
      zipM (fun row rows => Some (row :: rows)) t rest
  end.

(** [torch.nn.GRU] (one layer, one direction, [batch_first]) on one row of
    the batch: the cell is run along the sequence from the initial hidden
    state, and the output holds the hidden state after every position. *)
Fixpoint gru_outputs (cell : Tensor1 -> Tensor1 -> Tensor1) (h : Tensor1)
  (xs : Tensor2) : Tensor2 :=
  match xs with
  | [] => []
  | x :: xs' => let h' := cell x h in h' :: gru_outputs cell h' xs'
  end.

(** The same on a row that has a position: torch refuses a sequence
    without positions ([sequence_length = 0]). *)
Definition gru (cell : Tensor1 -> Tensor1 -> Tensor1) (h : Tensor1)
  (xs : Tensor2) : option Tensor2 :=
  match xs with
  | [] => None
  | _ :: _ => Some (gru_outputs cell h xs)
  end.

(** Python's [l[i]] for an integer [i]: negative indices count from the
    end, anything outside is an [IndexError]. *)
Definition py_index {A : Type} (l : list A) (i : Z) : option A :=
  let n := Z.of_nat (length l) in
  if (0 <=? i)%Z then nth_error l (Z.to_nat i)
  else if (- n <=? i)%Z then nth_error l (Z.to_nat (n + i))
  else None.

(** Python's [l[:n]] for an integer [n]. *)
Definition py_slice_to {A : Type} (l : list A) (n : Z) : list A :=
  if (0 <=? n)%Z then firstn (Z.to_nat n) l
  else firstn (Z.to_nat (Z.of_nat (length l) + n)) l.

End Tensor.

Import Tensor.

(** ** float32

    torch keeps a float tensor in IEEE 754 binary32.  Where the code depends
    on the rounding, the overflow or the NaN of that format, a float is a
    [float32]: a [spec_float] of the Standard Library, with its arithmetic
    at precision 24 and maximal exponent 128. *)

Module Float32.

Definition prec : Z := 24.
Definition emax : Z := 128.

Abbreviation float32 := spec_float.

Definition add : float32 -> float32 -> float32 := SFadd prec emax.
Definition mul : float32 -> float32 -> float32 := SFmul prec emax.
Definition div : float32 -> float32 -> float32 := SFdiv prec emax.

(** The float32 an integer is stored as ([t.float()] of a long tensor, a
    Python integer written into a float32 tensor): the nearest float32, the
    one of even mantissa when two are as near. *)
Definition of_long (z : Z) : float32 := binary_normalize prec emax z 0 false.

Definition int64_min : Z := (- 2 ^ 63)%Z.

(** [t.long()] of a float32: the fraction is dropped; what int64 cannot
    hold (and NaN) is read as the least int64, as the conversion of x86-64
    does. *)
Definition to_long (x : float32) : Z :=
  match x with
  | S754_zero _ => 0%Z
  | S754_finite s m e =>
      let a := Z.shiftl (Zpos m) e in
      let z := if s then (- a)%Z else a in
      if ((int64_min <=? z) && (z <? 2 ^ 63))%Z then z else int64_min
  | _ => int64_min
  end.

(** An integer float32 holds exactly. *)
Definition exact_long (z : Z) : Prop := to_long (of_long z) = z.

Definition zero : float32 := S754_zero false.

(** [x >= 0]: a zero, a positive float or the positive infinity, and no
    NaN. *)
Definition nonnegative (x : float32) : bool :=
  match x with
  | S754_zero _ | S754_finite false _ _ | S754_infinity false => true
  | _ => false
  end.

(** [x > 0], the positive infinity included. *)
Definition above_zero (x : float32) : bool :=
  match x with
  | S754_finite false _ _ | S754_infinity false => true
  | _ => false
  end.

(** Neither an infinity nor a NaN. *)
Definition is_finite (x : float32) : bool :=
  match x with
  | S754_zero _ | S754_finite _ _ _ => true
  | _ => false
  end.

Definition is_zero (x : float32) : bool :=
  match x with
  | S754_zero _ => true
  | _ => false
  end.

Definition is_nan (x : float32) : bool :=
  match x with
  | S754_nan => true
  | _ => false
  end.

(** A positive number of the format: the mantissa and the exponent are
    those of a float32. *)
Definition is_positive (x : float32) : bool :=
  match x with
  | S754_finite false m e => bounded prec emax m e
  | _ => false
  end.

(** A number of the format that is not negative: what [torch.exp] returns
    on a score it does not overflow on. *)
Definition finite_nonnegative (x : float32) : bool :=
  valid_binary prec emax x && is_finite x && nonnegative x.

(** [t.sum()] of a row: the entries are added one after the other to
    zero, from the first.  (On a long row the kernel of torch adds partial
    sums, which can change the rounding of the sum.) *)
Definition sum (t : list float32) : float32 := fold_left add t zero.

(** [a + b], elementwise. *)
Fixpoint vadd (a b : list float32) : list float32 :=
  match a, b with
  | x :: a', y :: b' => add x y :: vadd a' b'
  | _, _ => []
  end.

(** A row multiplied by a scalar. *)
Definition vscale (w : float32) (a : list float32) : list float32 :=
  map (fun x => mul x w) a.

(** [torch.sum(t, dim=0)] of a matrix that has a row: as in [sum], the
    rows are added one after the other to zeros. *)
Definition sum_rows (t : list (list float32)) : list float32 :=
  match t with
  | [] => []
  | row :: _ => fold_left vadd t (map (fun _ => zero) row)
  end.

(** What [argmax] replaces its candidate [b] by a later entry [a] for:
    [a > b], or [a] is a NaN and [b] is not. *)
Definition greater_or_nan (a b : float32) : bool :=
  match a, b with
  | S754_nan, S754_nan => false
  | S754_nan, _ => true
  | _, _ => SFltb b a
  end.

(** [t.argmax()] over a row: the index of the first NaN, and without a NaN
    of the first maximal entry; torch refuses an empty row. *)
Fixpoint argmax_from (best : float32) (best_i cur_i : nat)
  (t : list float32) : nat :=
  match t with
  | [] => best_i
  | x :: t' =>
      if greater_or_nan x best
      then argmax_from x cur_i (S cur_i) t'
      else argmax_from best best_i (S cur_i) t'
  end.

Definition argmax (t : list float32) : option nat :=
  match t with
  | [] => None
  | x :: t' => Some (argmax_from x 0%nat 1%nat t')
  end.

Definition argmax_rows (t : list (list float32)) : option LongTensor1 :=
  mapM (fun row => option_map Z.of_nat (argmax row)) t.

End Float32.

(** ** softmax_masked *)

Module Softmax.

Local Open Scope R_scope.

(** The default of the keyword argument [epsilon=0.000001]. *)
Definition default_epsilon : R := 1 / 1000000.

(** One row of [softmax_masked(inputs, mask, dim=1, epsilon)]:
<<
    inputs_exp = torch.exp(inputs)
    inputs_exp = inputs_exp * mask.float()
    inputs_exp_sum = inputs_exp.sum(dim=dim)
    inputs_attention = inputs_exp / (inputs_exp_sum.unsqueeze(dim) + epsilon)
>> *)
Definition softmax_masked_row (inputs : Tensor1) (mask : LongTensor1)
  (epsilon : R) : option Tensor1 :=
  let inputs_exp := map exp inputs in
  inputs_exp <- tmul inputs_exp (to_float mask) ;;
  let inputs_exp_sum := sum_list inputs_exp in
  mapM (fun e => tdiv e (inputs_exp_sum + epsilon)) inputs_exp.

(** [softmax_masked] on a batch, [dim=1]: every row is normalised on its
    own. *)
Definition softmax_masked (inputs : Tensor2) (mask : LongTensor2)
  (epsilon : R) : option Tensor2 :=
  zipM (fun row mrow => softmax_masked_row row mrow epsilon) inputs mask.

(** A 0/1 mask. *)
Definition binary_mask (mask : LongTensor1) : Prop :=
  Forall (fun m => m = 0%Z \/ m = 1%Z) mask.

(** The masked sum of exponentials, the quantity the weights are
    divided by (before [epsilon] is added). *)
Fixpoint masked_exp_sum (inputs : Tensor1) (mask : LongTensor1) : R :=
  match inputs, mask with
  | x :: inputs', m :: mask' => exp x * IZR m + masked_exp_sum inputs' mask'
  | _, _ => 0
  end.

End Softmax.

(** ** softmax_masked on float32 tensors

    The same function with every float a [float32]; [torch.exp] belongs to
    torch and is the argument [exp]. *)

Module Softmax32.

Import Float32.

(** The default of the keyword argument [epsilon=0.000001], as the float32
    it is added as: 8796093 * 2^-43, the float32 nearest to 0.000001. *)
Definition default_epsilon : float32 := S754_finite false 8796093 (-43).

(** [torch.exp(inputs) * mask.float()] on one row. *)
Definition masked_exp (exp : float32 -> float32) (inputs : list float32)
  (mask : LongTensor1) : option (list float32) :=
  zipM (fun x m => Some (mul x (of_long m))) (map exp inputs) mask.

(** [inputs_exp_sum + epsilon] on one row. *)
Definition denominator (inputs_exp : list float32) (epsilon : float32)
  : float32 :=
  add (sum inputs_exp) epsilon.

(** One row of [softmax_masked(inputs, mask, dim=1, epsilon)]. *)
Definition softmax_masked_row (exp : float32 -> float32)
  (inputs : list float32) (mask : LongTensor1) (epsilon : float32)
  : option (list float32) :=
  inputs_exp <- masked_exp exp inputs mask ;;
  Some (map (fun e => div e (denominator inputs_exp epsilon)) inputs_exp).

Definition softmax_masked (exp : float32 -> float32)
  (inputs : list (list float32)) (mask : LongTensor2) (epsilon : float32)
  : option (list (list float32)) :=
  zipM (fun row mrow => softmax_masked_row exp row mrow epsilon) inputs mask.

End Softmax32.

(** ** The decoding policy shared by the two decoders

    Both [decode] loops end with the same statement:
<<
    if np.random.rand() < self.teacher_forcing and targets is not None:
        decoder_inputs = targets[:, i]
    else:
        decoder_inputs = decoder_output_logit.argmax(dim=1).long()
>>
    The value of [np.random.rand()] is an argument ([draw]). *)

Module Policy.

Local Open Scope R_scope.

(** The condition of the [if]. *)
Definition teacher_forced (teacher_forcing : R) (targets : option LongTensor2)
  (draw : R) : bool :=
  (if Rlt_dec draw teacher_forcing then true else false)
  && (match targets with Some _ => true | None => false end).

(** The new value of [decoder_inputs]. *)
Definition next_decoder_inputs (teacher_forcing : R)
  (targets : option LongTensor2) (draw : R) (i : nat)
  (decoder_output_logit : Tensor2) : option LongTensor1 :=
  if teacher_forced teacher_forcing targets draw
  then
    targets <- targets ;;
    column i targets
  else argmax_rows decoder_output_logit.

(** The token [full_like] and [long] make of [start_index]:
    [decoder_hidden] is a float32 tensor, so the index is stored as a
    float32 and read back. *)
Definition start_token (start_index : Z) : Z :=
  Float32.to_long (Float32.of_long start_index).

(** [torch.full_like(decoder_hidden[:, 0], start_index).long()]; torch
    refuses a Python integer that int64 cannot hold. *)
Definition start_inputs {A : Type} (start_index : Z)
  (decoder_hidden : list (list A)) : option LongTensor1 :=
  col <- column 0 decoder_hidden ;;
  if ((Float32.int64_min <=? start_index) && (start_index <? 2 ^ 63))%Z
  then Some (map (fun _ => start_token start_index) col)
  else None.

(** [torch.nn.Embedding(vocab_size, ...)] applied to one token id: row [id]
    of the weight matrix, an [IndexError] outside [0 .. vocab_size - 1]. *)
Definition embedding_lookup (vocab_size : nat) (weight : Z -> Tensor1)
  (id : Z) : option Tensor1 :=
  if ((0 <=? id) && (id <? Z.of_nat vocab_size))%Z
  then Some (weight id)
  else None.

(** [range(max_len)]. *)
Definition range (max_len : Z) : list nat := seq 0 (Z.to_nat max_len).

End Policy.

Import Policy.

(** ** Seq2SeqModel *)

Module Seq2SeqModel.

Local Open Scope R_scope.

(** The attributes of the module; the layers are functions on rows. *)
Record t := {
  vocab_size : nat;
  hidden_size : nat;
  teacher_forcing : R;
  max_len : Z;
  start_index : Z;
  end_index : Z;
  pad_index : Z;
  embedding_weight : Z -> Tensor1;
  encoder : Tensor1 -> Tensor1 -> Tensor1;
  decoder : Tensor1 -> Tensor1 -> Tensor1;
  decoder_projection : Tensor1 -> Tensor1
}.

Definition embedding (M : t) : Z -> option Tensor1 :=
  embedding_lookup (vocab_size M) (embedding_weight M).

(** [encode]: the encoder output at the last position that is not padding.
    (A sequence without positions, which the GRU refuses, has no last
    position either: the index below raises for it.) *)
Definition encode (M : t) (inputs : LongTensor2) : option Tensor2 :=
  let inputs_lengths :=
    map (fun row =>
           fold_right Z.add 0%Z
             (map (fun x => if (x =? pad_index M)%Z then 0%Z else 1%Z) row))
        inputs in
  inputs_emb <- mapM (mapM (embedding M)) inputs ;;
  let outputs :=
    map (gru_outputs (encoder M) (zeros (hidden_size M))) inputs_emb in
  zipM (fun out len => py_index out (len - 1)%Z) outputs inputs_lengths.

(** The local variables of one iteration of the loop of [decode]. *)
Record Step := {
  s_decoder_inputs : LongTensor1;
  s_decoder_hidden : Tensor2;
  s_decoder_output_logit : Tensor2;
  s_next_inputs : LongTensor1
}.

(** The body of the loop, from the state [(decoder_hidden, decoder_inputs)]. *)
Definition decode_step (M : t) (targets : option LongTensor2) (draw : R)
  (i : nat) (decoder_hidden : Tensor2) (decoder_inputs : LongTensor1)
  : option Step :=
  decoder_inputs_emb <- mapM (embedding M) decoder_inputs ;;
  decoder_hidden <-
    zipM (fun x h => Some (decoder M x h)) decoder_inputs_emb decoder_hidden ;;
  let decoder_output_logit := map (decoder_projection M) decoder_hidden in
  next <- next_decoder_inputs (teacher_forcing M) targets draw i
            decoder_output_logit ;;
  Some {| s_decoder_inputs := decoder_inputs;
          s_decoder_hidden := decoder_hidden;
          s_decoder_output_logit := decoder_output_logit;
          s_next_inputs := next |}.

Fixpoint decode_loop (M : t) (targets : option LongTensor2) (rand : nat -> R)
  (steps : list nat) (decoder_hidden : Tensor2) (decoder_inputs : LongTensor1)
  : option (list Step) :=
  match steps with
  | [] => Some []
  | i :: steps' =>
      s <- decode_step M targets (rand i) i decoder_hidden decoder_inputs ;;
      rest <- decode_loop M targets rand steps'
                (s_decoder_hidden s) (s_next_inputs s) ;;
      Some (s :: rest)
  end.

(** The iterations [decode] goes through; [rand i] is the value the call of
    [np.random.rand()] returns in iteration [i]. *)
Definition decode_steps (M : t) (decoder_hidden : Tensor2)
  (targets : option LongTensor2) (rand : nat -> R) : option (list Step) :=
  decoder_inputs <- start_inputs (start_index M) decoder_hidden ;;
  decode_loop M targets rand (range (max_len M)) decoder_hidden decoder_inputs.

Definition decode (M : t) (decoder_hidden : Tensor2)
  (targets : option LongTensor2) (rand : nat -> R) : option Tensor3 :=
  steps <- decode_steps M decoder_hidden targets rand ;;
  stack_dim1 (map s_decoder_output_logit steps).

Definition forward (M : t) (inputs : LongTensor2)
  (targets : option LongTensor2) (rand : nat -> R) : option Tensor3 :=
  decoder_hidden <- encode M inputs ;;
  decode M decoder_hidden targets rand.

End Seq2SeqModel.

(** ** Seq2SeqAttentionModel *)

Module Seq2SeqAttentionModel.

Local Open Scope R_scope.

Record t := {
  vocab_size : nat;
  hidden_size : nat;
  teacher_forcing : R;
  max_len : Z;
  start_index : Z;
  end_index : Z;
  pad_index : Z;
  embedding_weight : Z -> Tensor1;
  encoder : Tensor1 -> Tensor1 -> Tensor1;
  decoder : Tensor1 -> Tensor1 -> Tensor1;
  attention_decoder : Tensor1 -> Tensor1;
  attention_encoder : Tensor1 -> Tensor1;
  attention_reduce : Tensor1 -> R;
  decoder_hidden_combine : Tensor1 -> Tensor1;
  decoder_projection : Tensor1 -> Tensor1
}.

Definition embedding (M : t) : Z -> option Tensor1 :=
  embedding_lookup (vocab_size M) (embedding_weight M).

(** [(inputs != self.pad_index).long()]. *)
Definition inputs_mask_of (M : t) (inputs : LongTensor2) : LongTensor2 :=
  map (map (fun x => if (x =? pad_index M)%Z then 0%Z else 1%Z)) inputs.

(** [encode]: the encoder output at every position, and the mask. *)
Definition encode (M : t) (inputs : LongTensor2)
  : option (Tensor3 * LongTensor2) :=
  let inputs_mask := inputs_mask_of M inputs in
  inputs_emb <- mapM (mapM (embedding M)) inputs ;;
  outputs <- mapM (gru (encoder M) (zeros (hidden_size M))) inputs_emb ;;
  Some (outputs, inputs_mask).

(** The local variables of one iteration of the loop of [decode];
    [s_decoder_hidden_in] and [s_decoder_inputs] are [decoder_hidden] and
    [decoder_inputs] as the iteration finds them, [s_decoder_hidden] and
    [s_next_inputs] as it leaves them. *)
Record Step := {
  s_decoder_inputs : LongTensor1;
  s_decoder_hidden_in : Tensor2;
  s_decoder_inputs_emb : Tensor2;
  s_att_normazlied : Tensor2;
  s_decoder_hidden_att : Tensor2;
  s_decoder_hidden_combined : Tensor2;
  s_decoder_hidden : Tensor2;
  s_decoder_output_logit : Tensor2;
  s_next_inputs : LongTensor1
}.

(** [torch.sum(encoder_hiddens * att_normazlied.unsqueeze(-1), dim=1)] for
    one row of the batch. *)
Definition attend (encoder_hiddens : Tensor2) (att_normazlied : Tensor1)
  : option Tensor1 :=
  weighted <- zipM (fun h w => Some (vscale w h)) encoder_hiddens
                att_normazlied ;;
  Some (sum_rows weighted).

Definition decode_step (M : t) (encoder_hiddens : Tensor3)
  (inputs_mask : LongTensor2) (targets : option LongTensor2) (draw : R)
  (i : nat) (decoder_hidden : Tensor2) (decoder_inputs : LongTensor1)
  : option Step :=
  decoder_inputs_emb <- mapM (embedding M) decoder_inputs ;;
  let att_enc := map (map (attention_encoder M)) encoder_hiddens in
  let att_dec := map (attention_decoder M) decoder_hidden in
  att <- zipM (fun enc dec => Some (map (fun e => map tanh (vadd e dec)) enc))
           att_enc att_dec ;;
  let att_reduced := map (map (attention_reduce M)) att in
  att_normazlied <- Softmax.softmax_masked att_reduced inputs_mask
                      Softmax.default_epsilon ;;
  decoder_hidden_att <- zipM attend encoder_hiddens att_normazlied ;;
  cat <- zipM (fun h c => Some (h ++ c)) decoder_hidden decoder_hidden_att ;;
  let decoder_hidden_combined := map (decoder_hidden_combine M) cat in
  decoder_hidden' <-
    zipM (fun x h => Some (decoder M x h)) decoder_inputs_emb
      decoder_hidden_combined ;;
  let decoder_output_logit := map (decoder_projection M) decoder_hidden' in
  next <- next_decoder_inputs (teacher_forcing M) targets draw i
            decoder_output_logit ;;
  Some {| s_decoder_inputs := decoder_inputs;
          s_decoder_hidden_in := decoder_hidden;
          s_decoder_inputs_emb := decoder_inputs_emb;
          s_att_normazlied := att_normazlied;
          s_decoder_hidden_att := decoder_hidden_att;
          s_decoder_hidden_combined := decoder_hidden_combined;
          s_decoder_hidden := decoder_hidden';
          s_decoder_output_logit := decoder_output_logit;
          s_next_inputs := next |}.

Fixpoint decode_loop (M : t) (encoder_hiddens : Tensor3)
  (inputs_mask : LongTensor2) (targets : option LongTensor2)
  (rand : nat -> R) (steps : list nat) (decoder_hidden : Tensor2)
  (decoder_inputs : LongTensor1) : option (list Step) :=
  match steps with
  | [] => Some []
  | i :: steps' =>
      s <- decode_step M encoder_hiddens inputs_mask targets (rand i) i
             decoder_hidden decoder_inputs ;;
      rest <- decode_loop M encoder_hiddens inputs_mask targets rand steps'
                (s_decoder_hidden s) (s_next_inputs s) ;;
      Some (s :: rest)
  end.

(** The iterations [decode] goes through; [rand i] is the value the call of
    [np.random.rand()] returns in iteration [i]. *)
Definition decode_steps (M : t) (encoder_hiddens : Tensor3)
  (inputs_mask : LongTensor2) (targets : option LongTensor2)
  (rand : nat -> R) : option (list Step) :=
  first <- column 0 encoder_hiddens ;;
  let decoder_hidden := map (map (fun _ => 0)) first in
  decoder_inputs <- start_inputs (start_index M) decoder_hidden ;;
  decode_loop M encoder_hiddens inputs_mask targets rand (range (max_len M))
    decoder_hidden decoder_inputs.

Definition decode (M : t) (encoder_hiddens : Tensor3)
  (inputs_mask : LongTensor2) (targets : option LongTensor2)
  (rand : nat -> R) : option Tensor3 :=
  steps <- decode_steps M encoder_hiddens inputs_mask targets rand ;;
  stack_dim1 (map s_decoder_output_logit steps).

(** The iterations of the [decode] that [forward] runs. *)
Definition forward_steps (M : t) (inputs : LongTensor2)
  (targets : option LongTensor2) (rand : nat -> R) : option (list Step) :=
  '(encoder_hiddens, inputs_mask) <- encode M inputs ;;
  decode_steps M encoder_hiddens inputs_mask targets rand.

Definition forward (M : t) (inputs : LongTensor2)
  (targets : option LongTensor2) (rand : nat -> R) : option Tensor3 :=
  '(encoder_hiddens, inputs_mask) <- encode M inputs ;;
  decode M encoder_hiddens inputs_mask targets rand.

End Seq2SeqAttentionModel.

(** ** Seq2SeqAttentionModel on float32 tensors

    The same methods with every float a [float32], for the statements that
    depend on the arithmetic of the format.  [torch.exp] and [torch.tanh]
    belong to torch and are the arguments [exp] and [tanh]; the layers are
    functions on rows of [float32]. *)

Module Seq2SeqAttentionModel32.

Import Float32.

Record t := {
  vocab_size : nat;
  hidden_size : nat;
  teacher_forcing : R;
  max_len : Z;
  start_index : Z;
  end_index : Z;
  pad_index : Z;
  embedding_weight : Z -> list float32;
  encoder : list float32 -> list float32 -> list float32;
  decoder : list float32 -> list float32 -> list float32;
  attention_decoder : list float32 -> list float32;
  attention_encoder : list float32 -> list float32;
  attention_reduce : list float32 -> float32;
  decoder_hidden_combine : list float32 -> list float32;
  decoder_projection : list float32 -> list float32
}.

Definition embedding (M : t) (id : Z) : option (list float32) :=
  if ((0 <=? id) && (id <? Z.of_nat (vocab_size M)))%Z
  then Some (embedding_weight M id)
  else None.

(** [(inputs != self.pad_index).long()]. *)
Definition inputs_mask_of (M : t) (inputs : LongTensor2) : LongTensor2 :=
  map (map (fun x => if (x =? pad_index M)%Z then 0%Z else 1%Z)) inputs.

(** [torch.nn.GRU] on one row of the batch; torch refuses a sequence
    without positions. *)
Fixpoint gru_outputs (cell : list float32 -> list float32 -> list float32)
  (h : list float32) (xs : list (list float32)) : list (list float32) :=
  match xs with
  | [] => []
  | x :: xs' => let h' := cell x h in h' :: gru_outputs cell h' xs'
  end.

Definition gru (cell : list float32 -> list float32 -> list float32)
  (h : list float32) (xs : list (list float32))
  : option (list (list float32)) :=
  match xs with
  | [] => None
  | _ :: _ => Some (gru_outputs cell h xs)
  end.

Definition encode (M : t) (inputs : LongTensor2)
  : option (list (list (list float32)) * LongTensor2) :=
  let inputs_mask := inputs_mask_of M inputs in
  inputs_emb <- mapM (mapM (embedding M)) inputs ;;
  outputs <- mapM (gru (encoder M) (repeat zero (hidden_size M)))
               inputs_emb ;;
  Some (outputs, inputs_mask).

(** The local variables of one iteration of the loop of [decode]. *)
Record Step := {
  s_decoder_inputs : LongTensor1;
  s_decoder_hidden_in : list (list float32);
  s_att_reduced : list (list float32);
  s_att_normazlied : list (list float32);
  s_decoder_hidden_att : list (list float32);
  s_decoder_hidden : list (list float32);
  s_decoder_output_logit : list (list float32);
  s_next_inputs : LongTensor1
}.

(** [torch.sum(encoder_hiddens * att_normazlied.unsqueeze(-1), dim=1)] for
    one row of the batch. *)
Definition attend (encoder_hiddens : list (list float32))
  (att_normazlied : list float32) : option (list float32) :=
  weighted <- zipM (fun h w => Some (vscale w h)) encoder_hiddens
                att_normazlied ;;
  Some (sum_rows weighted).

(** The new value of [decoder_inputs]. *)
Definition next_decoder_inputs (teacher_forcing : R)
  (targets : option LongTensor2) (draw : R) (i : nat)
  (decoder_output_logit : list (list float32)) : option LongTensor1 :=
  if teacher_forced teacher_forcing targets draw
  then
    targets <- targets ;;
    column i targets
  else argmax_rows decoder_output_logit.

Section Torch.

Variables exp tanh : float32 -> float32.

Definition decode_step (M : t) (encoder_hiddens : list (list (list float32)))
  (inputs_mask : LongTensor2) (targets : option LongTensor2) (draw : R)
  (i : nat) (decoder_hidden : list (list float32))
  (decoder_inputs : LongTensor1) : option Step :=
  decoder_inputs_emb <- mapM (embedding M) decoder_inputs ;;
  let att_enc := map (map (attention_encoder M)) encoder_hiddens in
  let att_dec := map (attention_decoder M) decoder_hidden in
  att <- zipM (fun enc dec => Some (map (fun e => map tanh (vadd e dec)) enc))
           att_enc att_dec ;;
  let att_reduced := map (map (attention_reduce M)) att in
  att_normazlied <- Softmax32.softmax_masked exp att_reduced inputs_mask
                      Softmax32.default_epsilon ;;
  decoder_hidden_att <- zipM attend encoder_hiddens att_normazlied ;;
  cat <- zipM (fun h c => Some (h ++ c)) decoder_hidden decoder_hidden_att ;;
  let decoder_hidden_combined := map (decoder_hidden_combine M) cat in
  decoder_hidden' <-
    zipM (fun x h => Some (decoder M x h)) decoder_inputs_emb
      decoder_hidden_combined ;;
  let decoder_output_logit := map (decoder_projection M) decoder_hidden' in
  next <- next_decoder_inputs (teacher_forcing M) targets draw i
            decoder_output_logit ;;
  Some {| s_decoder_inputs := decoder_inputs;
          s_decoder_hidden_in := decoder_hidden;
          s_att_reduced := att_reduced;
          s_att_normazlied := att_normazlied;
          s_decoder_hidden_att := decoder_hidden_att;
          s_decoder_hidden := decoder_hidden';
          s_decoder_output_logit := decoder_output_logit;
          s_next_inputs := next |}.

Fixpoint decode_loop (M : t) (encoder_hiddens : list (list (list float32)))
  (inputs_mask : LongTensor2) (targets : option LongTensor2)
  (rand : nat -> R) (steps : list nat) (decoder_hidden : list (list float32))
  (decoder_inputs : LongTensor1) : option (list Step) :=
  match steps with
  | [] => Some []
  | i :: steps' =>
      s <- decode_step M encoder_hiddens inputs_mask targets (rand i) i
             decoder_hidden decoder_inputs ;;
      rest <- decode_loop M encoder_hiddens inputs_mask targets rand steps'
                (s_decoder_hidden s) (s_next_inputs s) ;;
      Some (s :: rest)
  end.

(** The iterations [decode] goes through; [rand i] is the value the call of
    [np.random.rand()] returns in iteration [i]. *)
Definition decode_steps (M : t) (encoder_hiddens : list (list (list float32)))
  (inputs_mask : LongTensor2) (targets : option LongTensor2)
  (rand : nat -> R) : option (list Step) :=
  first <- column 0 encoder_hiddens ;;
  let decoder_hidden := map (map (fun _ => zero)) first in
  decoder_inputs <- start_inputs (start_index M) decoder_hidden ;;
  decode_loop M encoder_hiddens inputs_mask targets rand (range (max_len M))
    decoder_hidden decoder_inputs.

Definition decode (M : t) (encoder_hiddens : list (list (list float32)))
  (inputs_mask : LongTensor2) (targets : option LongTensor2)
  (rand : nat -> R) : option (list (list (list float32))) :=
  steps <- decode_steps M encoder_hiddens inputs_mask targets rand ;;
  stack_dim1 (map s_decoder_output_logit steps).

(** The iterations of the [decode] that [forward] runs. *)
Definition forward_steps (M : t) (inputs : LongTensor2)
  (targets : option LongTensor2) (rand : nat -> R) : option (list Step) :=
  '(encoder_hiddens, inputs_mask) <- encode M inputs ;;
  decode_steps M encoder_hiddens inputs_mask targets rand.

Definition forward (M : t) (inputs : LongTensor2)
  (targets : option LongTensor2) (rand : nat -> R)
  : option (list (list (list float32))) :=
  '(encoder_hiddens, inputs_mask) <- encode M inputs ;;
  decode M encoder_hiddens inputs_mask targets rand.

End Torch.

End Seq2SeqAttentionModel32.

(** ** Python dictionaries

    A [dict] keeps its keys in insertion order; assigning to a key that is
    present keeps its place.  It is modelled by the list of its items, in
    that order. *)

Module Dict.

Abbreviation dict K V := (list (K * V)).

Section Dict.

Variables K V : Type.
Variable eq_dec : forall x y : K, {x = y} + {x <> y}.

Definition keys (d : dict K V) : list K := map fst d.

(** [d.get(k)]; [d[k]] raises [KeyError] where this is [None]. *)
Fixpoint get (d : dict K V) (k : K) : option V :=
  match d with
  | [] => None
  | (k', v) :: d' => if eq_dec k k' then Some v else get d' k
  end.

(** [k in d]. *)
Definition contains (d : dict K V) (k : K) : bool :=
  match get d k with
  | Some _ => true
  | None => false
  end.

(** [d[k] = v]. *)
Fixpoint set (d : dict K V) (k : K) (v : V) : dict K V :=
  match d with
  | [] => [(k, v)]
  | (k', v') :: d' =>
      if eq_dec k k' then (k', v) :: d' else (k', v') :: set d' k v
  end.

(** [d.pop(k)], for its effect on [d]; a [KeyError] when [k] is absent. *)
Fixpoint pop (d : dict K V) (k : K) : option (dict K V) :=
  match d with
  | [] => None
  | (k', v') :: d' =>
      if eq_dec k k' then Some d'
      else
        d'' <- pop d' k ;;
        Some ((k', v') :: d'')
  end.

End Dict.

End Dict.

(** [enumerate(l)]. *)
Definition enumerate {A : Type} (l : list A) : list (nat * A) :=
  combine (seq 0 (length l)) l.

(** ** Vocab *)

Module Vocab.

Definition END_TOKEN : string := "<end>"%string.
Definition START_TOKEN : string := "<start>"%string.
Definition PAD_TOKEN : string := "<pad>"%string.
Definition UNK_TOKEN : string := "<unk>"%string.

Record t := {
  special_tokens : option (list string);
  token2id : Dict.dict string nat;
  id2token : Dict.dict nat string;
  token_counts : Dict.dict string Z
}.

(** [counter[token]] of a [Counter]: 0 for a token that was never counted. *)
Definition count (c : Dict.dict string Z) (token : string) : Z :=
  match Dict.get string_dec c token with
  | Some n => n
  | None => 0%Z
  end.

(** [{i: t for t, i in self.token2id.items()}]. *)
Definition _rebuild_id2token (v : t) : t :=
  {| special_tokens := special_tokens v;
     token2id := token2id v;
     id2token :=
       fold_left (fun d '(tok, i) => Dict.set Nat.eq_dec d i tok)
         (token2id v) [];
     token_counts := token_counts v |}.

(** The body of the loop of [add_document]. *)
Definition add_token (v : t) (token : string) : t :=
  {| special_tokens := special_tokens v;
     token2id :=
       if Dict.contains string_dec (token2id v) token
       then token2id v
       else Dict.set string_dec (token2id v) token (length (token2id v));
     id2token := id2token v;
     token_counts :=
       Dict.set string_dec (token_counts v) token
         (count (token_counts v) token + 1)%Z |}.

Definition add_document (v : t) (document : list string) (rebuild : bool)
  : t :=
  let v := fold_left add_token document v in
  if rebuild then _rebuild_id2token v else v.

Definition add_documents (v : t) (documents : list (list string)) : t :=
  _rebuild_id2token
    (fold_left (fun v doc => add_document v doc false) documents v).

(** [Vocab(special_tokens)]. *)
Definition __init__ (special_tokens : option (list string)) : t :=
  let v := {| special_tokens := special_tokens;
              token2id := [];
              id2token := [];
              token_counts := [] |} in
  match special_tokens with
  | Some sp => add_document v sp true
  | None => v
  end.

(** [Counter.most_common(n)]: the items by decreasing count, items of equal
    count in insertion order, cut after [n] items. *)
Fixpoint insert_by_count (x : string * Z) (l : list (string * Z))
  : list (string * Z) :=
  match l with
  | [] => [x]
  | y :: l' =>
      if (snd y <=? snd x)%Z then x :: l else y :: insert_by_count x l'
  end.

Definition most_common (c : Dict.dict string Z) (n : Z) : list (string * Z) :=
  firstn (Z.to_nat n) (fold_right insert_by_count [] c).

Definition mem (x : string) (l : list string) : bool :=
  if in_dec string_dec x l then true else false.

(** [prune_vocab].  Python leaves the iteration order of a [set] open;
    [set_iter l] is the order in which the set of the elements of [l] is
    iterated. *)
Definition prune_vocab (set_iter : list string -> list string) (v : t)
  (max_size : Z) : option t :=
  let tokens_all := Dict.keys (token2id v) in
  sp <- special_tokens v ;;
  let common := map fst (most_common (token_counts v) max_size) in
  let tokens_most_common := filter (fun tok => negb (mem tok sp)) common in
  let tokens_to_delete :=
    filter (fun tok => negb (mem tok tokens_most_common) && negb (mem tok sp))
      tokens_all in
  counts <-
    fold_left (fun c tok => c <- c ;; Dict.pop string_dec c tok)
      (set_iter tokens_to_delete) (Some (token_counts v)) ;;
  let token2id1 :=
    fold_left (fun d '(i, tok) => Dict.set string_dec d tok i)
      (enumerate sp) [] in
  let token2id2 :=
    fold_left (fun d '(i, tok) => Dict.set string_dec d tok (i + length sp))
      (enumerate (set_iter tokens_most_common)) token2id1 in
  Some (_rebuild_id2token
          {| special_tokens := Some sp;
             token2id := token2id2;
             id2token := id2token v;
             token_counts := counts |}).

Definition get (v : t) (item : string) : option nat :=
  Dict.get string_dec (token2id v) item.

(** [vocab[item]], a [KeyError] for an unknown token. *)
Definition __getitem__ (v : t) (item : string) : option nat :=
  Dict.get string_dec (token2id v) item.

Definition __contains__ (v : t) (item : string) : bool :=
  Dict.contains string_dec (token2id v) item.

Definition __len__ (v : t) : nat := length (token2id v).

(** One row of the CSV file, with the fields [token], [counts] and
    [is_special].  The file is modelled by the rows that follow its header:
    [save] hands the rows to [csv.DictWriter], [load] gets the rows from
    [csv.DictReader]. *)
Record Row := {
  row_token : string;
  row_counts : Z;
  row_is_special : Z
}.



(** [save]: the rows written, [None] when an exception stops the loop. *)
Definition save (v : t) : option (list Row) :=
  mapM (fun idx =>
          token <- Dict.get Nat.eq_dec (id2token v) idx ;;
          sp <- special_tokens v ;;
          let is_special := if mem token sp then 1%Z else 0%Z in
          Some {| row_token := token;
                  row_counts := count (token_counts v) token;
                  row_is_special := is_special |})
       (seq 0 (length (token2id v))).

(** The loop of [load] over the rows. *)
Definition load_row
  (acc : Dict.dict string nat * Dict.dict string Z * list string)
  (irow : nat * Row) :=
  let '(token2id, tokens_counts, special_tokens) := acc in
  let '(i, row) := irow in
  (Dict.set string_dec token2id (row_token row) i,
   Dict.set string_dec tokens_counts (row_token row) (row_counts row),
   if negb (row_is_special row =? 0)%Z
   then special_tokens ++ [row_token row]
   else special_tokens).

Definition load (file : list Row) : t :=
  let '(token2id, tokens_counts, special_tokens) :=
    fold_left load_row (enumerate file) ([], [], []) in
  _rebuild_id2token
    {| special_tokens := Some special_tokens;
       token2id := token2id;
       id2token := [];
       token_counts := tokens_counts |}.

End Vocab.

(** ** SubtitlesDialogDataset *)

Module SubtitlesDialogDataset.

Record t := {
  lines : list (list string);
  max_lines : Z;
  vocab : Vocab.t;
  max_len : Z
}.

Definition _pad_sentnece (self : t) (sent : list string) : list string :=
  let sent := py_slice_to sent (max_len self - 1) ++ [Vocab.END_TOKEN] in
  let nb_pad := (max_len self - Z.of_nat (length sent))%Z in
  sent ++ repeat Vocab.PAD_TOKEN (Z.to_nat nb_pad).

(** The element of the comprehension of [_process_sent]:
    [self.vocab[t] if t in self.vocab else self.vocab[Vocab.UNK_TOKEN]]. *)
Definition lookup (self : t) (tok : string) : option nat :=
  if Vocab.__contains__ (vocab self) tok
  then Vocab.__getitem__ (vocab self) tok
  else Vocab.__getitem__ (vocab self) Vocab.UNK_TOKEN.

Definition _process_sent (self : t) (sent : list string) : option (list Z) :=
  let sent := _pad_sentnece self sent in
  sent <- mapM (lookup self) sent ;;
  Some (map Z.of_nat sent).

Definition __getitem__ (self : t) (index : Z)
  : option (list Z * list Z) :=
  query <- py_index (lines self) index ;;
  response <- py_index (lines self) (index + 1) ;;
  query <- _process_sent self query ;;
  response <- _process_sent self response ;;
  Some (query, response).

Definition __len__ (self : t) : Z := (max_lines self - 1)%Z.

End SubtitlesDialogDataset.

(** ** Definitions for the statements: the words of the specification and
    the invariants of the proofs *)

Module Spec.

Local Open Scope R_scope.

(** Component [j] of the context vector: the sum over the encoder positions
    of the attention weight at the position times component [j] of the
    encoder hidden state at the position. *)
Fixpoint context_entry (encoder_hiddens : Tensor2) (weights : Tensor1)
  (j : nat) : R :=
  match encoder_hiddens, weights with
  | h :: hs, w :: ws => w * nth j h 0 + context_entry hs ws j
  | _, _ => 0
  end.

(** Component [j] of the sum of the rows of a matrix. *)
Definition col_sum (rows : Tensor2) (j : nat) : R :=
  fold_right (fun row r => nth j row 0 + r) 0 rows.

(** The context vector for hidden states of [n] components. *)
Definition context_vector (encoder_hiddens : Tensor2) (weights : Tensor1)
  (n : nat) : Tensor1 :=
  map (context_entry encoder_hiddens weights) (seq 0 n).

(** The same on float32 tensors, where the order counts: the products are
    added one after the other to zero, from the first position. *)
Definition context_entry32 (encoder_hiddens : list (list Float32.float32))
  (weights : list Float32.float32) (j : nat) : Float32.float32 :=
  Float32.sum
    (map (fun hw => Float32.mul (snd hw) (nth j (fst hw) Float32.zero))
       (combine encoder_hiddens weights)).

Definition context_vector32 (encoder_hiddens : list (list Float32.float32))
  (weights : list Float32.float32) (n : nat) : list Float32.float32 :=
  map (context_entry32 encoder_hiddens weights) (seq 0 n).

Section DecodingPolicy.

Variable Step : Type.
Variables inputs_of next_of : Step -> LongTensor1.
Variable logits_of : Step -> Tensor2.

(** The decoding policy on the iterations of a loop: the first iteration is
    fed the start token; the token an iteration hands on is the target
    token of its position when targets are given and its draw is below the
    rate, and the argmax of its logits otherwise; and the next iteration is
    fed the token handed on. *)
Definition follows_policy (teacher_forcing : R) (start_index : Z)
  (targets : option LongTensor2) (rand : nat -> R) (steps : list Step)
  : Prop :=
  (forall s, nth_error steps 0 = Some s ->
             Forall (fun x => x = start_index) (inputs_of s))
  /\ forall i s, nth_error steps i = Some s ->
       (forall t, targets = Some t -> rand i < teacher_forcing ->
                  column i t = Some (next_of s))
       /\ (targets = None \/ ~ rand i < teacher_forcing ->
           argmax_rows (logits_of s) = Some (next_of s))
       /\ (forall s', nth_error steps (S i) = Some s' ->
                      inputs_of s' = next_of s).

End DecodingPolicy.

(** The position of the end token in a padded sentence:
    [min(len(sent), max_len - 1)]. *)
Definition end_position (self : SubtitlesDialogDataset.t)
  (sent : list string) : nat :=
  Nat.min (length sent) (Z.to_nat (SubtitlesDialogDataset.max_len self - 1)).

(** The draws [0/n, 1/n, ..., (n-1)/n], equally likely under the uniform
    distribution on that grid of [[0, 1)]. *)
Definition grid (n : nat) : list R := map (fun j => INR j / INR n) (seq 0 n).


(** The exponentials of the scores of a row suit its mask: none is a NaN or
    negative, and none is infinite where the mask is 0. *)
Definition no_overflow_where_masked (exp : Float32.float32 -> Float32.float32)
  (scores : list Float32.float32) (mask : LongTensor1) : Prop :=
  Forall2 (fun x m => Float32.nonnegative (exp x) = true
                      /\ (m = 0%Z -> Float32.is_finite (exp x) = true))
    scores mask.


(** An iteration order of Python sets: the elements of the set, each
    once. *)
Definition set_iter_ok (set_iter : list string -> list string) : Prop :=
  forall l, NoDup (set_iter l) /\ forall x, In x (set_iter l) <-> In x l.

(** The vocabularies the methods of [Vocab] build from the special tokens
    [sp]: the constructor, then [add_document] with [rebuild=True] (the
    default), [add_documents] and [prune_vocab].  ([add_document] with
    [rebuild=False] leaves [id2token] behind and is not among them.) *)
Inductive built (sp : list string) : Vocab.t -> Prop :=
| built_init : built sp (Vocab.__init__ (Some sp))
| built_add_document v document :
    built sp v -> built sp (Vocab.add_document v document true)
| built_add_documents v documents :
    built sp v -> built sp (Vocab.add_documents v documents)
| built_prune_vocab set_iter v max_size v' :
    set_iter_ok set_iter ->
    built sp v ->
    Vocab.prune_vocab set_iter v max_size = Some v' ->
    built sp v'.

(** The state the methods of [Vocab] keep: the tokens have the ids
    [0, 1, ...] in the order of [token2id], every token of [token2id] is
    counted and no other, and the special tokens come first. *)
Definition vocab_core (v : Vocab.t) : Prop :=
  NoDup (Dict.keys (Vocab.token2id v))
  /\ map snd (Vocab.token2id v) = seq 0 (length (Vocab.token2id v))
  /\ NoDup (Dict.keys (Vocab.token_counts v))
  /\ forall tok, In tok (Dict.keys (Vocab.token2id v))
                 <-> In tok (Dict.keys (Vocab.token_counts v)).

Definition vocab_wf (sp : list string) (v : Vocab.t) : Prop :=
  Vocab.special_tokens v = Some sp
  /\ vocab_core v
  /\ Vocab.id2token v = map (fun p => (snd p, fst p)) (Vocab.token2id v)
  /\ exists rest, Dict.keys (Vocab.token2id v) = sp ++ rest.

End Spec.

(** ** Well-shaped models and inputs *)

Module Shape.

(** A token id the embedding table has a row for. *)
Definition token_ok (vocab_size : nat) (x : Z) : Prop :=
  (0 <= x < Z.of_nat vocab_size)%Z.

(** The layers have the sizes the constructor gives them: the projection
    returns [vocab_size] logits, the encoder cell [hidden_size] >= 1
    components; the start token is in the vocabulary, [max_len] is at least
    1, and float32 holds the index of the start token exactly ([decode]
    writes it into a float32 tensor). *)
Definition attention_model_ok (M : Seq2SeqAttentionModel.t) : Prop :=
  (forall h, length (Seq2SeqAttentionModel.decoder_projection M h)
             = Seq2SeqAttentionModel.vocab_size M)
  /\ (forall x h, length (Seq2SeqAttentionModel.encoder M x h)
                  = Seq2SeqAttentionModel.hidden_size M)
  /\ (1 <= Seq2SeqAttentionModel.hidden_size M)%nat
  /\ token_ok (Seq2SeqAttentionModel.vocab_size M)
       (Seq2SeqAttentionModel.start_index M)
  /\ (1 <= Seq2SeqAttentionModel.max_len M)%Z
  /\ Float32.exact_long (Seq2SeqAttentionModel.start_index M).

(** A batch of token ids of shape [(batch_size, sequence_length)] with
    [sequence_length >= 1]. *)
Definition inputs_ok (vocab_size : nat) (sequence_length : nat)
  (inputs : LongTensor2) : Prop :=
  (1 <= sequence_length)%nat
  /\ Forall (fun row => length row = sequence_length
                        /\ Forall (token_ok vocab_size) row) inputs.

(** Targets, when given, have a row per row of the batch and at least
    [max_len] token ids per row. *)
Definition targets_ok (vocab_size batch_size : nat) (max_len : Z)
  (targets : option LongTensor2) : Prop :=
  match targets with
  | None => True
  | Some t =>
      length t = batch_size
      /\ Forall (fun row => (Z.to_nat max_len <= length row)%nat
                            /\ Forall (token_ok vocab_size) row) t
  end.

(** A tensor of shape [(b, l, v)]. *)
Definition has_shape3 (out : Tensor3) (b l v : nat) : Prop :=
  length out = b
  /\ Forall (fun row => length row = l
                        /\ Forall (fun x => length x = v) row) out.

End Shape.

(** ** Concrete models and inputs, for the examples *)

Module Examples.

Local Open Scope R_scope.

(** An attention model over three tokens (0 is the padding, 1 the start and
    2 the end token) whose projection always predicts the end token. *)
Definition attention_model : Seq2SeqAttentionModel.t :=
  {| Seq2SeqAttentionModel.vocab_size := 3;
     Seq2SeqAttentionModel.hidden_size := 1;
     Seq2SeqAttentionModel.teacher_forcing := 1 / 2;
     Seq2SeqAttentionModel.max_len := 2;
     Seq2SeqAttentionModel.start_index := 1;
     Seq2SeqAttentionModel.end_index := 2;
     Seq2SeqAttentionModel.pad_index := 0;
     Seq2SeqAttentionModel.embedding_weight := fun _ => [0];
     Seq2SeqAttentionModel.encoder := fun _ _ => [1];
     Seq2SeqAttentionModel.decoder := fun _ h => h;
     Seq2SeqAttentionModel.attention_decoder := fun h => h;
     Seq2SeqAttentionModel.attention_encoder := fun e => e;
     Seq2SeqAttentionModel.attention_reduce := fun _ => 0;
     Seq2SeqAttentionModel.decoder_hidden_combine := fun _ => [1];
     Seq2SeqAttentionModel.decoder_projection := fun _ => [0; 0; 1] |}.

(** One sentence of one token, padded to two positions. *)
Definition padded_inputs : LongTensor2 := [[1; 0]]%Z.

Definition some_targets : option LongTensor2 := Some [[2; 0]]%Z.

(** Every draw is 0. *)
Definition zero_draws : nat -> R := fun _ => 0.

(** A model without attention over one token. *)
Definition plain_model : Seq2SeqModel.t :=
  {| Seq2SeqModel.vocab_size := 1;
     Seq2SeqModel.hidden_size := 1;
     Seq2SeqModel.teacher_forcing := 1 / 2;
     Seq2SeqModel.max_len := 1;
     Seq2SeqModel.start_index := 0;
     Seq2SeqModel.end_index := 0;
     Seq2SeqModel.pad_index := 0;
     Seq2SeqModel.embedding_weight := fun _ => [0];
     Seq2SeqModel.encoder := fun _ _ => [1];
     Seq2SeqModel.decoder := fun _ h => h;
     Seq2SeqModel.decoder_projection := fun _ => [0] |}.



(** [torch.exp] at the scores of the examples: [exp(0) = 1]; [exp(100)],
    above the largest float32, is the infinity; and [exp] of a NaN is a
    NaN.  The examples use no other score; the table answers NaN there
    too. *)
Definition exp_table (x : Float32.float32) : Float32.float32 :=
  match x with
  | S754_zero _ => Float32.of_long 1
  | _ =>
      if SFeqb x (Float32.of_long 100) then S754_infinity false else S754_nan
  end.

(** [torch.tanh] at the value the examples use: [tanh(0) = 0]. *)
Definition tanh_table (x : Float32.float32) : Float32.float32 :=
  match x with
  | S754_zero s => S754_zero s
  | _ => S754_nan
  end.

(** The attention model of the examples on float32 tensors, with states
    that are zero. *)
Definition attention_model32 : Seq2SeqAttentionModel32.t :=
  {| Seq2SeqAttentionModel32.vocab_size := 3;
     Seq2SeqAttentionModel32.hidden_size := 1;
     Seq2SeqAttentionModel32.teacher_forcing := 1 / 2;
     Seq2SeqAttentionModel32.max_len := 2;
     Seq2SeqAttentionModel32.start_index := 1;
     Seq2SeqAttentionModel32.end_index := 2;
     Seq2SeqAttentionModel32.pad_index := 0;
     Seq2SeqAttentionModel32.embedding_weight := fun _ => [Float32.zero];
     Seq2SeqAttentionModel32.encoder := fun _ _ => [Float32.zero];
     Seq2SeqAttentionModel32.decoder := fun _ h => h;
     Seq2SeqAttentionModel32.attention_decoder := fun h => h;
     Seq2SeqAttentionModel32.attention_encoder := fun e => e;
     Seq2SeqAttentionModel32.attention_reduce := fun _ => Float32.zero;
     Seq2SeqAttentionModel32.decoder_hidden_combine :=
       fun _ => [Float32.zero];
     Seq2SeqAttentionModel32.decoder_projection :=
       fun _ => [Float32.zero; Float32.zero; Float32.of_long 1] |}.

(** The iteration of its [decode] that is fed the token [tok], on one
    sentence of one token padded to two positions. *)
Definition attention_step32 (tok : Z) : Seq2SeqAttentionModel32.Step :=
  {| Seq2SeqAttentionModel32.s_decoder_inputs := [tok];
     Seq2SeqAttentionModel32.s_decoder_hidden_in := [[Float32.zero]];
     Seq2SeqAttentionModel32.s_att_reduced := [[Float32.zero; Float32.zero]];
     Seq2SeqAttentionModel32.s_att_normazlied :=
       [[S754_finite false 16777200 (-24); Float32.zero]];
     Seq2SeqAttentionModel32.s_decoder_hidden_att := [[Float32.zero]];
     Seq2SeqAttentionModel32.s_decoder_hidden := [[Float32.zero]];
     Seq2SeqAttentionModel32.s_decoder_output_logit :=
       [[Float32.zero; Float32.zero; Float32.of_long 1]];
     Seq2SeqAttentionModel32.s_next_inputs := [2%Z] |}.



(** The vocabulary of two subtitle lines, with the four special tokens. *)
Definition example_vocab : Vocab.t :=
  Vocab.add_documents
    (Vocab.__init__
       (Some [Vocab.PAD_TOKEN; Vocab.START_TOKEN; Vocab.END_TOKEN;
              Vocab.UNK_TOKEN]))
    [["a"; "b"; "a"]; ["c"; "a"; "b"]]%string.

(** A dataset of two lines, padded to three tokens; "z" is unknown to the
    vocabulary. *)
Definition example_dataset : SubtitlesDialogDataset.t :=
  {| SubtitlesDialogDataset.lines := [["a"; "z"; "b"; "c"]; ["c"]]%string;
     SubtitlesDialogDataset.max_lines := 2;
     SubtitlesDialogDataset.vocab := example_vocab;
     SubtitlesDialogDataset.max_len := 3 |}.

End Examples.

(** ** SubtitlesDialogDataset: the constructor

    [gzip.open] and [word_tokenize] are not the notebook's: the file is given
    by the token lists of its lines, in order.  [max_len] is optional as in
    the source ([max_len=None]). *)

Module DatasetConstruction.

Definition default_special_tokens : list string :=
  [Vocab.PAD_TOKEN; Vocab.START_TOKEN; Vocab.END_TOKEN; Vocab.UNK_TOKEN].

(** [SubtitlesDialogDataset(filename, vocab, max_lines, max_len,
    max_vocab_size)].  The loop over the file stops at line [max_lines];
    without a vocabulary one is built from the lines and pruned; with
    [max_len=None] the constructor reads [self.sentences], an attribute no
    statement assigns, which is an [AttributeError]. *)
Definition __init__ (set_iter : list string -> list string)
  (file_lines : list (list string)) (vocab : option Vocab.t) (max_lines : Z)
  (max_len : option Z) (max_vocab_size : Z)
  : option SubtitlesDialogDataset.t :=
  let lines := firstn (Z.to_nat max_lines) file_lines in
  let max_lines := Z.min (Z.of_nat (length lines)) max_lines in
  vocab <- match vocab with
           | Some vocab => Some vocab
           | None =>
               let vocab := Vocab.__init__ (Some default_special_tokens) in
               let vocab := Vocab.add_documents vocab lines in
               Vocab.prune_vocab set_iter vocab max_vocab_size
           end ;;
  max_len <- max_len ;;
  Some {| SubtitlesDialogDataset.lines := lines;
          SubtitlesDialogDataset.max_lines := max_lines;
          SubtitlesDialogDataset.vocab := vocab;
          SubtitlesDialogDataset.max_len := max_len |}.

End DatasetConstruction.

(** ** create_embeddings_matrix

    The pretrained embeddings are a dictionary from tokens to vectors.
    [np.random.uniform] is an input: [rand k j] is component [j] of the
    vector its call number [k] returns. *)

Module Embeddings.

Local Open Scope R_scope.

(** [np.random.uniform(-0.3, 0.3, size)], call number [call]. *)
Definition uniform (rand : nat -> nat -> R) (call size : nat) : Tensor1 :=
  map (rand call) (seq 0 size).

(** [l] with entry [i] replaced. *)
Fixpoint set_nth {A : Type} (l : list A) (i : nat) (x : A) : list A :=
  match l, i with
  | [], _ => []
  | _ :: l', O => x :: l'
  | y :: l', S i' => y :: set_nth l' i' x
  end.

(** [W_emb[i] = row] for a matrix of [embedding_size] columns: an
    [IndexError] when there is no row [i]; the vector must have
    [embedding_size] components, or one, which numpy repeats. *)
Definition assign_row (W_emb : Tensor2) (i : nat) (row : Tensor1)
  (embedding_size : nat) : option Tensor2 :=
  if (i <? length W_emb)%nat then
    if (length row =? embedding_size)%nat then Some (set_nth W_emb i row)
    else
      match row with
      | [x] => Some (set_nth W_emb i (repeat x embedding_size))
      | _ => None
      end
  else None.

(** The body of the loop over [vocab.id2token.items()], on the state
    [(W_emb, nb_unk)]. *)
Definition embed_token (rand : nat -> nat -> R)
  (word_embeddings special_tokens : Dict.dict string Tensor1)
  (embedding_size : nat) (state : Tensor2 * nat) (item : nat * string)
  : option (Tensor2 * nat) :=
  let '(W_emb, nb_unk) := state in
  let '(i, t) := item in
  if Dict.contains string_dec special_tokens t then
    row <- Dict.get string_dec special_tokens t ;;
    W_emb <- assign_row W_emb i row embedding_size ;;
    Some (W_emb, nb_unk)
  else if Dict.contains string_dec word_embeddings t then
    row <- Dict.get string_dec word_embeddings t ;;
    W_emb <- assign_row W_emb i row embedding_size ;;
    Some (W_emb, nb_unk)
  else
    W_emb <- assign_row W_emb i (uniform rand (S nb_unk) embedding_size)
               embedding_size ;;
    Some (W_emb, S nb_unk).

(** [create_embeddings_matrix(word_embeddings, vocab)]: the matrix, and the
    number [nb_unk] the function prints. *)
Definition create_embeddings_matrix (rand : nat -> nat -> R)
  (word_embeddings : Dict.dict string Tensor1) (vocab : Vocab.t)
  : option (Tensor2 * nat) :=
  first <- nth_error (Dict.keys word_embeddings) 0 ;;
  first <- Dict.get string_dec word_embeddings first ;;
  let embedding_size := length first in
  let W_emb := repeat (zeros embedding_size) (Vocab.__len__ vocab) in
  let special_tokens :=
    Dict.set string_dec
      [(Vocab.UNK_TOKEN, uniform rand 0 embedding_size)]
      Vocab.PAD_TOKEN (zeros embedding_size) in
  fold_left (fun state item =>
               state <- state ;;
               embed_token rand word_embeddings special_tokens
                 embedding_size state item)
    (Vocab.id2token vocab) (Some (W_emb, 0%nat)).

End Embeddings.

(** ** generate_response

    The query is a list of tokens (the function tokenizes a string first,
    with [word_tokenize]); [model] is the call [model(inputs)] of a module,
    without targets. *)

Module Response.

(** [response_logits.argmax(dim=-1)] after [squeeze(0)], read as the loop
    [for idx in response_indices] and [int(idx)] read it: a batch of one row
    gives the index of every step; any other batch is not squeezed, and
    [int] accepts only rows of one index. *)
Definition response_indices (out : Tensor3) : option LongTensor1 :=
  match out with
  | [response_logits] => argmax_rows response_logits
  | _ =>
      indices <- mapM argmax_rows out ;;
      mapM (fun row => match row with [idx] => Some idx | _ => None end)
        indices
  end.

(** [dataset.vocab.id2token[int(idx)]]. *)
Definition id_to_token (vocab : Vocab.t) (idx : Z) : option string :=
  if (0 <=? idx)%Z
  then Dict.get Nat.eq_dec (Vocab.id2token vocab) (Z.to_nat idx)
  else None.

(** The tokens of the response, before they are joined. *)
Definition response_tokens (model : LongTensor2 -> option Tensor3)
  (dataset : SubtitlesDialogDataset.t) (query : list string)
  : option (list string) :=
  query <- SubtitlesDialogDataset._process_sent dataset query ;;
  out <- model [query] ;;
  indices <- response_indices out ;;
  response <- mapM (id_to_token (SubtitlesDialogDataset.vocab dataset))
                indices ;;
  match response with
  | [] => Some []
  | _ =>
      sp <- Vocab.special_tokens (SubtitlesDialogDataset.vocab dataset) ;;
      Some (filter (fun t => negb (Vocab.mem t sp)) response)
  end.

(** [generate_response(query, model, dataset)]. *)
Definition generate_response (model : LongTensor2 -> option Tensor3)
  (dataset : SubtitlesDialogDataset.t) (query : list string)
  : option string :=
  response <- response_tokens model dataset query ;;
  Some (String.concat " " response).

End Response.

(** ** Views of the decoding loops, for the statements *)

Module Views.

Local Open Scope R_scope.

(** What an iteration of the attention decoder hands to the rest of the
    computation: everything but the attention weights. *)
Definition observe (s : Seq2SeqAttentionModel.Step)
  : LongTensor1 * Tensor2 * Tensor2 * Tensor2 * LongTensor1 :=
  (Seq2SeqAttentionModel.s_decoder_inputs s,
   Seq2SeqAttentionModel.s_decoder_hidden_in s,
   Seq2SeqAttentionModel.s_decoder_hidden s,
   Seq2SeqAttentionModel.s_decoder_output_logit s,
   Seq2SeqAttentionModel.s_next_inputs s).

(** The context vector of one row of the batch, from the encoder states and
    the mask of the row and the decoder state of the row. *)
Definition context_row (M : Seq2SeqAttentionModel.t) (enc : Tensor2)
  (mask : LongTensor1) (h : Tensor1) : option Tensor1 :=
  let att :=
    map (fun e => map tanh
                    (vadd (Seq2SeqAttentionModel.attention_encoder M e)
                       (Seq2SeqAttentionModel.attention_decoder M h)))
      enc in
  w <- Softmax.softmax_masked_row
         (map (Seq2SeqAttentionModel.attention_reduce M) att) mask
         Softmax.default_epsilon ;;
  Seq2SeqAttentionModel.attend enc w.

(** [tokens_most_common] and [tokens_to_delete] of [prune_vocab], as
    lists. *)
Definition kept (v : Vocab.t) (sp : list string) (max_size : Z)
  : list string :=
  filter (fun tok => negb (Vocab.mem tok sp))
    (map fst (Vocab.most_common (Vocab.token_counts v) max_size)).

Definition deleted (v : Vocab.t) (sp : list string) (max_size : Z)
  : list string :=
  filter (fun tok => negb (Vocab.mem tok (kept v sp max_size))
                     && negb (Vocab.mem tok sp))
    (Dict.keys (Vocab.token2id v)).

(** The order of [Counter.most_common]: [a] is counted at least as often
    as [b]. *)
Definition by_count (a b : string * Z) : Prop := (snd b <= snd a)%Z.

(** [k] more padding tokens at the end of every row. *)
Definition pad_more (pad_index : Z) (k : nat) (inputs : LongTensor2)
  : LongTensor2 :=
  map (fun row => row ++ repeat pad_index k) inputs.

(** The context vectors of a batch, row by row. *)
Fixpoint context_rows (M : Seq2SeqAttentionModel.t) (enc : Tensor3)
  (mask : LongTensor2) (h : Tensor2) : option Tensor2 :=
  match enc, mask, h with
  | [], [], [] => Some []
  | e :: enc', m :: mask', x :: h' =>
      c <- Views.context_row M e m x ;;
      cs <- context_rows M enc' mask' h' ;;
      Some (c :: cs)
  | _, _, _ => None
  end.

(** The encoder states of a row before and after [k] more positions: the
    states of the row, which has a position, followed by [k] more; every
    state has [n] components. *)
Definition padded_states (k n : nat) (e e' : Tensor2) : Prop :=
  exists ext,
    e' = e ++ ext /\ length ext = k /\ e <> []
    /\ Forall (fun x => length x = n) e
    /\ Forall (fun x => length x = n) ext.

(** The logits among what an iteration hands on. *)
Definition observed_logits
  (o : LongTensor1 * Tensor2 * Tensor2 * Tensor2 * LongTensor1) : Tensor2 :=
  let '(_, _, _, logits, _) := o in logits.

(** The layers of a [Seq2SeqModel] have the sizes the constructor gives
    them: the projection returns [vocab_size] logits, the encoder cell
    [hidden_size] >= 1 components; the start token is in the vocabulary,
    [max_len] is at least 1, and float32 holds the index of the start token
    exactly. *)
Definition plain_model_ok (M : Seq2SeqModel.t) : Prop :=
  (forall h, length (Seq2SeqModel.decoder_projection M h)
             = Seq2SeqModel.vocab_size M)
  /\ (forall x h, length (Seq2SeqModel.encoder M x h)
                  = Seq2SeqModel.hidden_size M)
  /\ (1 <= Seq2SeqModel.hidden_size M)%nat
  /\ Shape.token_ok (Seq2SeqModel.vocab_size M) (Seq2SeqModel.start_index M)
  /\ (1 <= Seq2SeqModel.max_len M)%Z
  /\ Float32.exact_long (Seq2SeqModel.start_index M).


(** Whether [create_embeddings_matrix] draws a vector for a token: the token
    is neither the unknown nor the padding token and has no pretrained
    vector. *)
Definition drawn (word_embeddings : Dict.dict string Tensor1) (t : string)
  : bool :=
  negb (Vocab.mem t [Vocab.UNK_TOKEN; Vocab.PAD_TOKEN])
  && negb (Dict.contains string_dec word_embeddings t).

(** Row [i] of the matrix, for the token [t] of id [i] of a vocabulary whose
    tokens are [toks] in the order of their ids: the vector drawn first for
    the unknown token, zeros for the padding token, the pretrained vector
    of a token that has one, and otherwise the next vector drawn. *)
Definition embedding_row (rand : nat -> nat -> R)
  (word_embeddings : Dict.dict string Tensor1) (embedding_size : nat)
  (toks : list string) (i : nat) (t : string) : Tensor1 :=
  if string_dec t Vocab.UNK_TOKEN
  then Embeddings.uniform rand 0 embedding_size
  else if string_dec t Vocab.PAD_TOKEN then zeros embedding_size
  else match Dict.get string_dec word_embeddings t with
       | Some vec => vec
       | None =>
           Embeddings.uniform rand
             (S (length (filter (drawn word_embeddings) (firstn i toks))))
             embedding_size
       end.

End Views.

(** ** Further models, for the examples *)

Module FurtherExamples.

Local Open Scope R_scope.

(** A model without attention over two tokens; 0 is the padding token. *)
Definition plain_model_two : Seq2SeqModel.t :=
  {| Seq2SeqModel.vocab_size := 2;
     Seq2SeqModel.hidden_size := 1;
     Seq2SeqModel.teacher_forcing := 1 / 2;
     Seq2SeqModel.max_len := 1;
     Seq2SeqModel.start_index := 1;
     Seq2SeqModel.end_index := 1;
     Seq2SeqModel.pad_index := 0;
     Seq2SeqModel.embedding_weight := fun _ => [0];
     Seq2SeqModel.encoder := fun _ _ => [1];
     Seq2SeqModel.decoder := fun _ h => h;
     Seq2SeqModel.decoder_projection := fun _ => [0; 1] |}.

(** An attention model over [V] tokens that decodes [L] steps; 0 is the
    padding, 1 the start and 2 the end token. *)
Definition attention_model_of (V : nat) (L : Z) : Seq2SeqAttentionModel.t :=
  {| Seq2SeqAttentionModel.vocab_size := V;
     Seq2SeqAttentionModel.hidden_size := 1;
     Seq2SeqAttentionModel.teacher_forcing := 1 / 2;
     Seq2SeqAttentionModel.max_len := L;
     Seq2SeqAttentionModel.start_index := 1;
     Seq2SeqAttentionModel.end_index := 2;
     Seq2SeqAttentionModel.pad_index := 0;
     Seq2SeqAttentionModel.embedding_weight := fun _ => [0];
     Seq2SeqAttentionModel.encoder := fun _ _ => [1];
     Seq2SeqAttentionModel.decoder := fun _ h => h;
     Seq2SeqAttentionModel.attention_decoder := fun h => h;
     Seq2SeqAttentionModel.attention_encoder := fun e => e;
     Seq2SeqAttentionModel.attention_reduce := fun _ => 0;
     Seq2SeqAttentionModel.decoder_hidden_combine := fun _ => [1];
     Seq2SeqAttentionModel.decoder_projection := fun _ => repeat 0 V |}.

End FurtherExamples.

(** * Properties *)

(** ** The option monad and the list combinators *)

Module MonadFacts.

Lemma bind_some {A B : Type} (m : option A) (f : A -> option B) (b : B) :
  bind m f = Some b -> exists a, m = Some a /\ f a = Some b.
Proof.
  destruct m as [a|]; simpl; intros H; [exists a; auto | discriminate].
Qed.

Lemma mapM_length {A B : Type} (f : A -> option B) (l : list A) (r : list B) :
  mapM f l = Some r -> length r = length l.
Proof.
  revert r; induction l as [|a l IH]; simpl; intros r H.
  - now inversion H.
  - apply bind_some in H as (b & _ & H).
    apply bind_some in H as (bs & Hbs & H).
    inversion H; subst; simpl; f_equal; auto.
Qed.

Lemma mapM_nth {A B : Type} (f : A -> option B) (l : list A) (r : list B)
  (i : nat) (a : A) :
  mapM f l = Some r -> nth_error l i = Some a ->
  exists b, nth_error r i = Some b /\ f a = Some b.
Proof.
  revert r i; induction l as [|x l IH]; simpl; intros r i H Hi.
  - destruct i; discriminate.
  - apply bind_some in H as (b & Hb & H).
    apply bind_some in H as (bs & Hbs & H).
    inversion H; subst; clear H.
    destruct i as [|i]; simpl in *.
    + inversion Hi; subst; eauto.
    + eauto.
Qed.

Lemma mapM_nth_inv {A B : Type} (f : A -> option B) (l : list A) (r : list B)
  (i : nat) (b : B) :
  mapM f l = Some r -> nth_error r i = Some b ->
  exists a, nth_error l i = Some a /\ f a = Some b.
Proof.
  revert r i; induction l as [|x l IH]; simpl; intros r i H Hi.
  - inversion H; subst. destruct i; discriminate.
  - apply bind_some in H as (y & Hy & H).
    apply bind_some in H as (bs & Hbs & H).
    inversion H; subst; clear H.
    destruct i as [|i]; simpl in *.
    + inversion Hi; subst; eauto.
    + eauto.
Qed.

Lemma mapM_total {A B : Type} (f : A -> option B) (g : A -> B) (l : list A) :
  (forall a, In a l -> f a = Some (g a)) -> mapM f l = Some (map g l).
Proof.
  induction l as [|a l IH]; simpl; intros H; [reflexivity|].
  rewrite (H a) by auto. simpl. rewrite IH by auto. reflexivity.
Qed.

Lemma mapM_some {A B : Type} (f : A -> option B) (l : list A) :
  (forall a, In a l -> exists b, f a = Some b) ->
  exists r, mapM f l = Some r.
Proof.
  induction l as [|a l IH]; simpl; intros H; [eauto|].
  destruct (H a) as (b & Hb); auto.
  destruct IH as (r & Hr); auto.
  rewrite Hb, Hr. simpl. eauto.
Qed.

Lemma zipM_length {A B C : Type} (f : A -> B -> option C) l1 l2 r :
  zipM f l1 l2 = Some r -> length l1 = length l2 /\ length r = length l1.
Proof.
  revert l2 r; induction l1 as [|a l1 IH]; intros [|b l2] r H;
    simpl in H; try discriminate.
  - inversion H; auto.
  - apply bind_some in H as (c & _ & H).
    apply bind_some in H as (cs & Hcs & H).
    inversion H; subst. apply IH in Hcs as []. simpl. auto.
Qed.

Lemma zipM_nth {A B C : Type} (f : A -> B -> option C) l1 l2 r i c :
  zipM f l1 l2 = Some r -> nth_error r i = Some c ->
  exists a b, nth_error l1 i = Some a /\ nth_error l2 i = Some b
              /\ f a b = Some c.
Proof.
  revert l2 r i; induction l1 as [|a l1 IH]; intros [|b l2] r i H Hi;
    simpl in H; try discriminate.
  - inversion H; subst. destruct i; discriminate.
  - apply bind_some in H as (y & Hy & H).
    apply bind_some in H as (cs & Hcs & H).
    inversion H; subst; clear H.
    destruct i as [|i]; simpl in *.
    + inversion Hi; subst; eauto.
    + eauto.
Qed.

Lemma zipM_total {A B C : Type} (f : A -> B -> option C) (g : A -> B -> C)
  l1 l2 :
  length l1 = length l2 ->
  (forall a b, In (a, b) (combine l1 l2) -> f a b = Some (g a b)) ->
  zipM f l1 l2 = Some (map (fun p => g (fst p) (snd p)) (combine l1 l2)).
Proof.
  revert l2; induction l1 as [|a l1 IH]; intros [|b l2] Hlen H;
    simpl in *; try discriminate; [reflexivity|].
  rewrite (H a b) by auto. simpl.
  rewrite IH by auto. reflexivity.
Qed.

Lemma zipM_some {A B C : Type} (f : A -> B -> option C) l1 l2 :
  length l1 = length l2 ->
  (forall a b, In (a, b) (combine l1 l2) -> exists c, f a b = Some c) ->
  exists r, zipM f l1 l2 = Some r.
Proof.
  revert l2; induction l1 as [|a l1 IH]; intros [|b l2] Hlen H;
    simpl in *; try discriminate; [eauto|].
  destruct (H a b) as (c & Hc); auto.
  destruct (IH l2) as (r & Hr); auto.
  rewrite Hc, Hr. simpl. eauto.
Qed.

Lemma zipM_nth_left {A B C : Type} (f : A -> B -> option C) l1 l2 r i a :
  zipM f l1 l2 = Some r -> nth_error l1 i = Some a ->
  exists b c, nth_error l2 i = Some b /\ nth_error r i = Some c
              /\ f a b = Some c.
Proof.
  intros H Ha. pose proof (zipM_length _ _ _ H) as [_ Hl].
  destruct (nth_error r i) as [c|] eqn:Hc.
  - destruct (zipM_nth _ _ _ _ H Hc) as (a' & b & Ha' & Hb & Hf).
    assert (a' = a) by congruence. subst a'. eauto.
  - apply nth_error_None in Hc.
    assert (i < length l1)%nat by (apply nth_error_Some; congruence).
    lia.
Qed.

(** The GRU on the rows of a batch. *)
Lemma gru_rows_inv (cell : Tensor1 -> Tensor1 -> Tensor1) (h : Tensor1)
  (emb outs : Tensor3) :
  mapM (gru cell h) emb = Some outs ->
  outs = map (gru_outputs cell h) emb /\ Forall (fun e => e <> []) emb.
Proof.
  revert outs; induction emb as [|e emb IH]; intros outs H; simpl in H.
  - inversion H; subst. split; [reflexivity | constructor].
  - apply bind_some in H as (o & Ho & H).
    apply bind_some in H as (os & Hos & H).
    inversion H; subst; clear H.
    destruct (IH _ Hos) as [-> Hne].
    destruct e as [|x e]; [discriminate|].
    inversion Ho; subst. split; [reflexivity|].
    constructor; [discriminate | exact Hne].
Qed.

Lemma gru_rows_total (cell : Tensor1 -> Tensor1 -> Tensor1) (h : Tensor1)
  (emb : Tensor3) :
  Forall (fun e => e <> []) emb ->
  mapM (gru cell h) emb = Some (map (gru_outputs cell h) emb).
Proof.
  induction 1 as [|e emb He _ IH]; [reflexivity|].
  cbn [mapM map]. rewrite IH.
  destruct e as [|x e]; [congruence | reflexivity].
Qed.

End MonadFacts.

Import MonadFacts.

(** ** softmax_masked *)

Module SoftmaxFacts.

Import Softmax.

Local Open Scope R_scope.

(** The products [exp(x) * m] of a row, as [tmul] computes them. *)
Lemma tmul_exp_inv (inputs : Tensor1) (mask : LongTensor1) (e : Tensor1) :
  tmul (map exp inputs) (to_float mask) = Some e ->
  length inputs = length mask
  /\ e = map (fun p => exp (fst p) * IZR (snd p)) (combine inputs mask).
Proof.
  unfold tmul, to_float.
  revert mask e; induction inputs as [|x inputs IH]; intros [|m mask] e H;
    simpl in H; try discriminate.
  - inversion H; auto.
  - apply bind_some in H as (es & Hes & H). inversion H; subst.
    apply IH in Hes as [Hl ->]. simpl. auto.
Qed.

Lemma tmul_exp_total (inputs : Tensor1) (mask : LongTensor1) :
  length inputs = length mask ->
  tmul (map exp inputs) (to_float mask)
  = Some (map (fun p => exp (fst p) * IZR (snd p)) (combine inputs mask)).
Proof.
  unfold tmul, to_float.
  revert mask; induction inputs as [|x inputs IH]; intros [|m mask] H;
    simpl in *; try discriminate; [reflexivity|].
  rewrite IH by lia. reflexivity.
Qed.

Lemma sum_masked (inputs : Tensor1) (mask : LongTensor1) :
  sum_list (map (fun p => exp (fst p) * IZR (snd p)) (combine inputs mask))
  = masked_exp_sum inputs mask.
Proof.
  revert mask; induction inputs as [|x inputs IH]; intros [|m mask];
    simpl; try reflexivity.
  unfold sum_list in IH. rewrite IH. reflexivity.
Qed.

Lemma masked_exp_sum_nonneg (inputs : Tensor1) (mask : LongTensor1) :
  binary_mask mask -> 0 <= masked_exp_sum inputs mask.
Proof.
  intros Hm; revert inputs; induction Hm as [|m mask Hm _ IH];
    intros [|x inputs]; simpl; try lra.
  specialize (IH inputs). pose proof (exp_pos x).
  destruct Hm; subst; simpl; lra.
Qed.

(** A mask with a 1 somewhere makes the masked sum positive. *)
Lemma masked_exp_sum_pos (inputs : Tensor1) (mask : LongTensor1) :
  binary_mask mask -> length inputs = length mask -> In 1%Z mask ->
  0 < masked_exp_sum inputs mask.
Proof.
  intros Hm; revert inputs; induction Hm as [|m mask Hm Hrest IH];
    intros [|x inputs] Hlen Hin; simpl in *; try discriminate;
    try contradiction.
  pose proof (exp_pos x).
  pose proof (masked_exp_sum_nonneg inputs Hrest).
  destruct Hin as [->|Hin].
  - simpl. lra.
  - specialize (IH inputs ltac:(lia) Hin).
    destruct Hm; subst; simpl; lra.
Qed.

Lemma masked_exp_sum_zero (inputs : Tensor1) (mask : LongTensor1) :
  Forall (fun m => m = 0%Z) mask -> masked_exp_sum inputs mask = 0.
Proof.
  intros Hm; revert inputs; induction Hm as [|m mask Hm _ IH];
    intros [|x inputs]; simpl; try reflexivity.
  subst. rewrite IH. simpl. lra.
Qed.

Lemma mapM_tdiv (d : R) (l : Tensor1) :
  d <> 0 -> mapM (fun e => tdiv e d) l = Some (map (fun e => e / d) l).
Proof.
  intros Hd. apply mapM_total. intros a _. unfold tdiv.
  destruct (Req_dec_T d 0); [contradiction | reflexivity].
Qed.

Lemma tdiv_some (a d q : R) : tdiv a d = Some q -> d <> 0 /\ q = a / d.
Proof.
  unfold tdiv. destruct (Req_dec_T d 0); intros H; inversion H; auto.
Qed.

(** What a row of [softmax_masked] evaluates to. *)
Lemma softmax_masked_row_total (inputs : Tensor1) (mask : LongTensor1)
  (epsilon : R) :
  length inputs = length mask ->
  masked_exp_sum inputs mask + epsilon <> 0 ->
  softmax_masked_row inputs mask epsilon
  = Some (map (fun p => exp (fst p) * IZR (snd p)
                        / (masked_exp_sum inputs mask + epsilon))
              (combine inputs mask)).
Proof.
  intros Hlen Hd. unfold softmax_masked_row.
  rewrite tmul_exp_total by assumption. simpl.
  rewrite sum_masked, mapM_tdiv by assumption.
  rewrite map_map. reflexivity.
Qed.

Lemma softmax_masked_row_inv (inputs : Tensor1) (mask : LongTensor1)
  (epsilon : R) (w : Tensor1) :
  softmax_masked_row inputs mask epsilon = Some w ->
  length inputs = length mask
  /\ w = map (fun p => exp (fst p) * IZR (snd p)
                       / (masked_exp_sum inputs mask + epsilon))
             (combine inputs mask)
  /\ (inputs <> [] -> masked_exp_sum inputs mask + epsilon <> 0).
Proof.
  unfold softmax_masked_row. intros H.
  apply bind_some in H as (e & He & H).
  apply tmul_exp_inv in He as [Hlen ->].
  rewrite sum_masked in H. split; [assumption|].
  destruct inputs as [|x inputs]; destruct mask as [|m mask];
    simpl in Hlen; try discriminate.
  - simpl in H. inversion H. split; [reflexivity | congruence].
  - assert (Hd : masked_exp_sum (x :: inputs) (m :: mask) + epsilon <> 0).
    { simpl combine in H. simpl map in H. simpl mapM in H.
      apply bind_some in H as (q & Hq & _).
      apply tdiv_some in Hq as [Hd _]. exact Hd. }
    rewrite mapM_tdiv in H by assumption. inversion H.
    rewrite map_map. auto.
Qed.

(** The weight at a masked-out position. *)
Lemma softmax_masked_row_zero (inputs : Tensor1) (mask : LongTensor1)
  (epsilon : R) (w : Tensor1) (i : nat) :
  softmax_masked_row inputs mask epsilon = Some w ->
  nth_error mask i = Some 0%Z ->
  nth_error w i = Some 0.
Proof.
  intros H Hi. apply softmax_masked_row_inv in H as (Hlen & -> & _).
  assert (Hlt : (i < length mask)%nat)
    by (apply nth_error_Some; congruence).
  destruct (nth_error inputs i) as [x|] eqn:Hx.
  2:{ apply nth_error_None in Hx. lia. }
  rewrite nth_error_map.
  assert (Hc : nth_error (combine inputs mask) i = Some (x, 0%Z)).
  { clear - Hx Hi. revert mask i Hx Hi.
    induction inputs as [|y inputs IH]; intros [|m mask] [|i] Hx Hi;
      simpl in *; try discriminate.
    - congruence.
    - auto. }
  rewrite Hc. simpl. f_equal. unfold Rdiv. ring.
Qed.

Lemma softmax_masked_zero (inputs : Tensor2) (mask : LongTensor2)
  (epsilon : R) (out : Tensor2) (b i : nat) (mrow : LongTensor1) :
  softmax_masked inputs mask epsilon = Some out ->
  nth_error mask b = Some mrow ->
  nth_error mrow i = Some 0%Z ->
  exists orow, nth_error out b = Some orow /\ nth_error orow i = Some 0.
Proof.
  unfold softmax_masked. intros H Hb Hi.
  pose proof (zipM_length _ _ _ H) as [Hl1 Hl2].
  destruct (nth_error out b) as [orow|] eqn:Ho.
  2:{ apply nth_error_None in Ho.
      assert (b < length mask)%nat by (apply nth_error_Some; congruence).
      lia. }
  exists orow. split; [reflexivity|].
  destruct (zipM_nth _ _ _ _ H Ho) as (row & mrow' & _ & Hm & Hrow).
  assert (mrow' = mrow) by congruence. subst.
  eapply softmax_masked_row_zero; eauto.
Qed.

Lemma sum_list_div (d : R) (l : Tensor1) :
  sum_list (map (fun e => e / d) l) = sum_list l / d.
Proof.
  unfold sum_list. induction l as [|x l IH]; simpl.
  - unfold Rdiv. ring.
  - rewrite IH. unfold Rdiv. ring.
Qed.

Lemma sum_list_row (inputs : Tensor1) (mask : LongTensor1) (d : R) :
  sum_list (map (fun p => exp (fst p) * IZR (snd p) / d)
              (combine inputs mask))
  = masked_exp_sum inputs mask / d.
Proof.
  rewrite <- sum_masked, <- sum_list_div, map_map. reflexivity.
Qed.

Lemma weights_nonneg (inputs : Tensor1) (mask : LongTensor1) (d : R) :
  binary_mask mask -> 0 < d ->
  Forall (fun x => 0 <= x)
    (map (fun p => exp (fst p) * IZR (snd p) / d) (combine inputs mask)).
Proof.
  intros Hm Hd. revert inputs; induction Hm as [|m mask Hm _ IH];
    intros [|x inputs]; simpl; try constructor.
  - pose proof (exp_pos x).
    assert (0 <= exp x * IZR m) by (destruct Hm; subst; simpl; lra).
    apply Rmult_le_pos; [assumption|].
    apply Rlt_le, Rinv_0_lt_compat; assumption.
  - apply IH.
Qed.

(** A row under a 0/1 mask of its size and a positive [epsilon]. *)
Lemma softmax_masked_row_binary (inputs : Tensor1) (mask : LongTensor1)
  (epsilon : R) :
  0 < epsilon -> binary_mask mask -> length inputs = length mask ->
  softmax_masked_row inputs mask epsilon
  = Some (map (fun p => exp (fst p) * IZR (snd p)
                        / (masked_exp_sum inputs mask + epsilon))
              (combine inputs mask)).
Proof.
  intros He Hm Hlen. apply softmax_masked_row_total; [assumption|].
  pose proof (masked_exp_sum_nonneg inputs Hm). lra.
Qed.

(** The sum of the weights of a row whose mask has a 1. *)
Lemma softmax_masked_row_sum (inputs : Tensor1) (mask : LongTensor1)
  (epsilon : R) (w : Tensor1) :
  0 < epsilon -> binary_mask mask -> In 1%Z mask ->
  softmax_masked_row inputs mask epsilon = Some w ->
  Forall (fun x => 0 <= x) w
  /\ sum_list w
     = masked_exp_sum inputs mask / (masked_exp_sum inputs mask + epsilon)
  /\ 0 < sum_list w < 1.
Proof.
  intros He Hm H1 H.
  apply softmax_masked_row_inv in H as (Hlen & -> & _).
  pose proof (masked_exp_sum_pos inputs Hm Hlen H1) as Hpos.
  split; [apply weights_nonneg; [assumption | lra]|].
  rewrite sum_list_row. split; [reflexivity|].
  generalize dependent (masked_exp_sum inputs mask). intros total Hpos.
  split.
  - apply Rdiv_lt_0_compat; lra.
  - apply (Rmult_lt_reg_r (total + epsilon)); [lra|].
    unfold Rdiv. rewrite Rmult_assoc, Rinv_l by lra. lra.
Qed.

Lemma all_zero_binary (mask : LongTensor1) :
  Forall (fun m => m = 0%Z) mask -> binary_mask mask.
Proof.
  unfold binary_mask. intros H.
  eapply Forall_impl; [|exact H]. simpl. auto.
Qed.

(** A row whose mask is all zeros. *)
Lemma softmax_masked_row_all_zero (inputs : Tensor1) (mask : LongTensor1)
  (epsilon : R) :
  0 < epsilon -> Forall (fun m => m = 0%Z) mask ->
  length inputs = length mask ->
  softmax_masked_row inputs mask epsilon = Some (map (fun _ => 0) inputs).
Proof.
  intros He Hm Hlen.
  rewrite softmax_masked_row_binary; auto using all_zero_binary.
  f_equal. rewrite (masked_exp_sum_zero inputs Hm).
  clear He. revert inputs Hlen.
  induction Hm as [|m mask Hm _ IH]; intros [|x inputs] Hlen;
    simpl in *; try discriminate; [reflexivity|].
  subst. rewrite IH by lia. f_equal. simpl. unfold Rdiv. ring.
Qed.

Lemma Forall2_combine {A B : Type} (P : A -> B -> Prop) l1 l2 a b :
  Forall2 P l1 l2 -> In (a, b) (combine l1 l2) -> P a b.
Proof.
  induction 1 as [|x y l1 l2 Hxy _ IH]; simpl; [contradiction|].
  intros [Heq|Hin]; [inversion Heq; subst; assumption | auto].
Qed.

Lemma map_fst_combine {A B C : Type} (f : A -> C) (l1 : list A)
  (l2 : list B) :
  length l1 = length l2 ->
  map (fun p => f (fst p)) (combine l1 l2) = map f l1.
Proof.
  revert l2; induction l1 as [|a l1 IH]; intros [|b l2] H;
    simpl in *; try discriminate; [reflexivity|].
  rewrite IH by lia. reflexivity.
Qed.

(** The batch under 0/1 masks of the shape of the inputs. *)
Lemma softmax_masked_binary (inputs : Tensor2) (mask : LongTensor2)
  (epsilon : R) :
  0 < epsilon ->
  Forall2 (fun row mrow => length row = length mrow) inputs mask ->
  Forall binary_mask mask ->
  exists out, softmax_masked inputs mask epsilon = Some out.
Proof.
  intros He Hshape Hm. unfold softmax_masked.
  apply zipM_some; [eapply Forall2_length; eauto|].
  intros row mrow Hin. eexists.
  apply softmax_masked_row_binary; [assumption| |].
  - rewrite Forall_forall in Hm. apply Hm.
    eapply in_combine_r; eauto.
  - exact (@Forall2_combine _ _ _ _ _ _ _ Hshape Hin).
Qed.

Lemma softmax_masked_all_zero (inputs : Tensor2) (mask : LongTensor2)
  (epsilon : R) :
  0 < epsilon ->
  Forall2 (fun row mrow => length row = length mrow) inputs mask ->
  Forall (Forall (fun m => m = 0%Z)) mask ->
  softmax_masked inputs mask epsilon = Some (map (map (fun _ => 0)) inputs).
Proof.
  intros He Hshape Hm. unfold softmax_masked.
  eapply eq_trans;
    [apply zipM_total with (g := fun row _ => map (fun _ => 0) row)|].
  - eapply Forall2_length; eauto.
  - intros row mrow Hin.
    apply softmax_masked_row_all_zero; [assumption| |].
    + rewrite Forall_forall in Hm. apply Hm.
      eapply in_combine_r; eauto.
    + exact (@Forall2_combine _ _ _ _ _ _ _ Hshape Hin).
  - f_equal. apply map_fst_combine. eapply Forall2_length; eauto.
Qed.

(** Closes [binary_mask l] for an explicit list [l]. *)
Ltac binary_mask_tac :=
  unfold binary_mask;
  repeat (apply Forall_cons;
          [first [left; reflexivity | right; reflexivity]|]);
  apply Forall_nil.

Lemma default_epsilon_pos : 0 < default_epsilon.
Proof. unfold default_epsilon. lra. Qed.

(** One score 0 under the mask [1]: the weight is [1 / (1 + epsilon)]. *)
Lemma softmax_masked_single :
  softmax_masked [[0]] [[1%Z]] default_epsilon
  = Some [[1000000 / 1000001]].
Proof.
  unfold softmax_masked. simpl.
  rewrite softmax_masked_row_binary;
    [| exact default_epsilon_pos | binary_mask_tac | reflexivity].
  simpl. rewrite exp_0. do 3 f_equal.
  unfold default_epsilon. field.
Qed.

(** In exact real arithmetic too the weights of a row do not sum to 1: with
    the single score 0 and the mask [1] the weights of [softmax_masked] are
    [1000000/1000001]. *)
Lemma softmax_masked_sum_is_not_one :
  softmax_masked [[0]] [[1%Z]] default_epsilon = Some [[1000000 / 1000001]]
  /\ Forall (fun m => m = 0%Z \/ m = 1%Z) [1%Z]
  /\ In 1%Z [1%Z]
  /\ sum_list [1000000 / 1000001] <> 1.
Proof.
  split; [exact softmax_masked_single|].
  split; [binary_mask_tac|].
  split; [simpl; auto|].
  unfold sum_list. simpl. lra.
Qed.

(** X26: in exact real arithmetic (floats as real numbers, without rounding,
    overflow or NaN), for a positive [epsilon] and 0/1 masks of the shape of
    the inputs [softmax_masked] returns weights; in every row whose mask has
    a 1 they are non-negative and sum to [s / (s + epsilon)], where [s] is
    the masked sum of the exponentials: the sum is positive and strictly
    below 1. *)
Theorem exact_softmax_masked_normalization (inputs : Tensor2) (mask : LongTensor2)
  (epsilon : R) :
  0 < epsilon ->
  Forall2 (fun row mrow => length row = length mrow) inputs mask ->
  Forall binary_mask mask ->
  exists out,
    softmax_masked inputs mask epsilon = Some out
    /\ forall b row mrow,
         nth_error inputs b = Some row ->
         nth_error mask b = Some mrow ->
         In 1%Z mrow ->
         exists w,
           nth_error out b = Some w
           /\ Forall (fun x => 0 <= x) w
           /\ sum_list w
              = masked_exp_sum row mrow / (masked_exp_sum row mrow + epsilon)
           /\ 0 < sum_list w < 1.
Proof.
  intros He Hshape Hm.
  destruct (softmax_masked_binary He Hshape Hm) as (out & H).
  exists out. split; [assumption|].
  intros b row mrow Hrow Hmrow H1.
  pose proof (zipM_length _ _ _ H) as [_ Hlen].
  destruct (nth_error out b) as [w|] eqn:Hw.
  2:{ apply nth_error_None in Hw.
      assert (b < length inputs)%nat by (apply nth_error_Some; congruence).
      lia. }
  exists w. split; [reflexivity|].
  destruct (zipM_nth _ _ _ _ H Hw) as (row' & mrow' & Hr' & Hm' & Hsm).
  assert (row' = row) by congruence.
  assert (mrow' = mrow) by congruence. subst.
  eapply softmax_masked_row_sum; eauto.
  rewrite Forall_forall in Hm. apply Hm. eapply nth_error_In; eauto.
Qed.

Lemma exact_softmax_masked_normalization_witness :
  exists out,
    softmax_masked [[0]] [[1%Z]] default_epsilon = Some out
    /\ forall b row mrow,
         nth_error [[0]] b = Some row ->
         nth_error [[1%Z]] b = Some mrow ->
         In 1%Z mrow ->
         exists w,
           nth_error out b = Some w
           /\ Forall (fun x => 0 <= x) w
           /\ sum_list w
              = masked_exp_sum row mrow
                / (masked_exp_sum row mrow + default_epsilon)
           /\ 0 < sum_list w < 1.
Proof.
  apply (@exact_softmax_masked_normalization [[0]] [[1%Z]] default_epsilon).
  - exact default_epsilon_pos.
  - repeat constructor.
  - repeat constructor; binary_mask_tac.
Defined.

(** X27: in exact real arithmetic (floats as real numbers, without rounding,
    overflow or NaN), for a positive [epsilon] (the default is) and 0/1
    masks of the shape of the inputs, [softmax_masked] returns a result, the
    division does not fail; and when the masks are all zeros the result is
    all zeros. *)
Theorem exact_softmax_masked_all_zero_mask (inputs : Tensor2) (mask : LongTensor2)
  (epsilon : R) :
  0 < epsilon ->
  Forall2 (fun row mrow => length row = length mrow) inputs mask ->
  Forall binary_mask mask ->
  exists out,
    softmax_masked inputs mask epsilon = Some out
    /\ (Forall (Forall (fun m => m = 0%Z)) mask ->
        out = map (map (fun _ => 0)) inputs).
Proof.
  intros He Hshape Hm.
  destruct (softmax_masked_binary He Hshape Hm) as (out & Hout).
  exists out. split; [assumption|].
  intros Hz. rewrite (softmax_masked_all_zero He Hshape Hz) in Hout.
  congruence.
Qed.

Lemma exact_softmax_masked_all_zero_mask_witness :
  exists out,
    softmax_masked [[3; -2]] [[0%Z; 0%Z]] default_epsilon = Some out
    /\ (Forall (Forall (fun m => m = 0%Z)) [[0%Z; 0%Z]] ->
        out = map (map (fun _ => 0)) [[3; -2]]).
Proof.
  apply (@exact_softmax_masked_all_zero_mask [[3; -2]] [[0%Z; 0%Z]]
           default_epsilon).
  - exact default_epsilon_pos.
  - repeat constructor.
  - repeat constructor; binary_mask_tac.
Defined.

End SoftmaxFacts.

(** ** The decoding policy *)

Module PolicyFacts.

Local Open Scope R_scope.

Lemma teacher_forced_true (tf : R) (targets : option LongTensor2) (draw : R) :
  teacher_forced tf targets draw = true <-> draw < tf /\ targets <> None.
Proof.
  unfold teacher_forced.
  destruct (Rlt_dec draw tf); destruct targets; simpl; split;
    try discriminate; try tauto; intros []; try congruence.
  split; [assumption | discriminate].
Qed.

Lemma teacher_forced_false (tf : R) (targets : option LongTensor2) (draw : R) :
  teacher_forced tf targets draw = false <-> targets = None \/ ~ draw < tf.
Proof.
  unfold teacher_forced.
  destruct (Rlt_dec draw tf); destruct targets; simpl; split;
    try discriminate; try tauto; intros []; try congruence; tauto.
Qed.

Lemma next_decoder_inputs_forced (tf : R) (t : LongTensor2) (draw : R)
  (i : nat) (logits : Tensor2) :
  draw < tf ->
  next_decoder_inputs tf (Some t) draw i logits = column i t.
Proof.
  intros H. unfold next_decoder_inputs.
  assert (Hc : teacher_forced tf (Some t) draw = true)
    by (apply teacher_forced_true; split; [assumption | discriminate]).
  rewrite Hc. reflexivity.
Qed.

Lemma next_decoder_inputs_free (tf : R) (targets : option LongTensor2)
  (draw : R) (i : nat) (logits : Tensor2) :
  targets = None \/ ~ draw < tf ->
  next_decoder_inputs tf targets draw i logits = argmax_rows logits.
Proof.
  intros H. unfold next_decoder_inputs.
  apply teacher_forced_false in H. rewrite H. reflexivity.
Qed.

Lemma start_inputs_all (start_index : Z) (h : Tensor2) (inp : LongTensor1) :
  start_inputs start_index h = Some inp ->
  inp = repeat (start_token start_index) (length h).
Proof.
  unfold start_inputs. intros H.
  apply bind_some in H as (col & Hcol & H).
  destruct ((Float32.int64_min <=? start_index)
            && (start_index <? 2 ^ 63))%Z; [|discriminate].
  inversion H; subst.
  apply mapM_length in Hcol.
  transitivity (repeat (start_token start_index) (length col));
    [| f_equal; exact Hcol].
  clear. induction col; simpl; congruence.
Qed.

(** An integer float32 holds exactly is an int64. *)
Lemma exact_long_int64 (z : Z) :
  Float32.exact_long z ->
  ((Float32.int64_min <=? z) && (z <? 2 ^ 63))%Z = true.
Proof.
  unfold Float32.exact_long, Float32.to_long. intros H.
  assert (Hmin : ((Float32.int64_min <=? Float32.int64_min)
                  && (Float32.int64_min <? 2 ^ 63))%Z = true)
    by reflexivity.
  destruct (Float32.of_long z) as [s | s | | s m e].
  - subst z. reflexivity.
  - subst z. exact Hmin.
  - subst z. exact Hmin.
  - cbv zeta in H.
    destruct ((Float32.int64_min
               <=? (if s then - Z.shiftl (Z.pos m) e
                    else Z.shiftl (Z.pos m) e))
              && ((if s then - Z.shiftl (Z.pos m) e
                   else Z.shiftl (Z.pos m) e) <? 2 ^ 63))%Z eqn:E.
    + rewrite <- H. exact E.
    + subst z. exact Hmin.
Qed.

Lemma start_inputs_exact (start_index : Z) (h : Tensor2) (col : Tensor1) :
  Float32.exact_long start_index ->
  column 0 h = Some col ->
  start_inputs start_index h = Some (map (fun _ => start_index) col).
Proof.
  intros Hex Hcol. unfold start_inputs. rewrite Hcol. cbn [bind].
  rewrite (exact_long_int64 Hex). unfold start_token. rewrite Hex.
  reflexivity.
Qed.

Lemma range_nth (max_len : Z) (k i : nat) :
  nth_error (range max_len) k = Some i -> i = k.
Proof.
  unfold range. rewrite nth_error_seq.
  destruct (k <? Z.to_nat max_len)%nat; intros H; inversion H; reflexivity.
Qed.

Lemma range_length (max_len : Z) :
  length (range max_len) = Z.to_nat max_len.
Proof. unfold range. apply length_seq. Qed.

(** The grid draws that fall below a rate on the grid. *)
Lemma count_below (n k : nat) (start : nat) :
  (k <= start + n)%nat -> (start <= k)%nat ->
  length (filter (fun j => (j <? k)%nat) (seq start n)) = (k - start)%nat.
Proof.
  revert start; induction n as [|n IH]; intros start H1 H2; simpl.
  - lia.
  - destruct (start <? k)%nat eqn:E.
    + apply Nat.ltb_lt in E. simpl. rewrite IH by lia. lia.
    + apply Nat.ltb_ge in E. replace k with start by lia.
      rewrite Nat.sub_diag.
      clear. assert (H : forall m s, (start <= s)%nat ->
                 filter (fun j => (j <? start)%nat) (seq s m) = []).
      { induction m; intros s Hs; simpl; [reflexivity|].
        destruct (s <? start)%nat eqn:E;
          [apply Nat.ltb_lt in E; lia | apply IHm; lia]. }
      rewrite H by lia. reflexivity.
Qed.

Lemma grid_draw_below (n j k : nat) :
  (0 < n)%nat -> (INR j / INR n < INR k / INR n <-> (j < k)%nat).
Proof.
  intros Hn. assert (0 < INR n) by (apply lt_0_INR; assumption).
  split.
  - intros H0. apply INR_lt.
    apply (Rmult_lt_reg_r (/ INR n));
      [apply Rinv_0_lt_compat; assumption | exact H0].
  - intros H0. apply Rmult_lt_compat_r;
      [apply Rinv_0_lt_compat; assumption | apply lt_INR; assumption].
Qed.

Lemma grid_forced_count (n k : nat) (t : LongTensor2) :
  (0 < n)%nat -> (k <= n)%nat ->
  length (filter (teacher_forced (INR k / INR n) (Some t)) (Spec.grid n)) = k.
Proof.
  intros Hn Hk. unfold Spec.grid.
  assert (Hlen : forall (A B : Type) (f : A -> B) (p : B -> bool) l,
             length (filter p (map f l))
             = length (filter (fun x => p (f x)) l)).
  { intros A B f p l. induction l as [|x l IH]; simpl; [reflexivity|].
    destruct (p (f x)); simpl; congruence. }
  rewrite Hlen.
  rewrite (filter_ext _ (fun j => (j <? k)%nat)).
  - rewrite count_below by lia. lia.
  - intros j. destruct (j <? k)%nat eqn:E.
    + apply Nat.ltb_lt in E. apply teacher_forced_true.
      split; [apply grid_draw_below; assumption | discriminate].
    + apply Nat.ltb_ge in E. apply teacher_forced_false. right.
      rewrite grid_draw_below by assumption. lia.
Qed.

End PolicyFacts.

Import PolicyFacts.

(** ** Seq2SeqAttentionModel: the iterations of decode *)

Module AttentionFacts.

Import Seq2SeqAttentionModel.

Local Open Scope R_scope.

(** What an iteration computes, read off its record. *)
Lemma decode_step_inv (M : t) (enc : Tensor3) (mask : LongTensor2)
  (targets : option LongTensor2) (draw : R) (i : nat) (h : Tensor2)
  (inp : LongTensor1) (s : Step) :
  decode_step M enc mask targets draw i h inp = Some s ->
  s_decoder_inputs s = inp
  /\ s_decoder_hidden_in s = h
  /\ mapM (embedding M) inp = Some (s_decoder_inputs_emb s)
  /\ (exists att,
         zipM (fun e d => Some (map (fun x => map tanh (vadd x d)) e))
           (map (map (attention_encoder M)) enc)
           (map (attention_decoder M) h) = Some att
         /\ Softmax.softmax_masked (map (map (attention_reduce M)) att) mask
              Softmax.default_epsilon = Some (s_att_normazlied s))
  /\ zipM attend enc (s_att_normazlied s) = Some (s_decoder_hidden_att s)
  /\ (exists cat,
         zipM (fun a c => Some (a ++ c)) h (s_decoder_hidden_att s) = Some cat
         /\ s_decoder_hidden_combined s = map (decoder_hidden_combine M) cat)
  /\ zipM (fun x a => Some (decoder M x a)) (s_decoder_inputs_emb s)
       (s_decoder_hidden_combined s) = Some (s_decoder_hidden s)
  /\ s_decoder_output_logit s = map (decoder_projection M) (s_decoder_hidden s)
  /\ next_decoder_inputs (teacher_forcing M) targets draw i
       (s_decoder_output_logit s) = Some (s_next_inputs s).
Proof.
  unfold decode_step. intros H.
  apply bind_some in H as (emb & Hemb & H).
  apply bind_some in H as (att & Hatt & H).
  apply bind_some in H as (w & Hw & H).
  apply bind_some in H as (ctx & Hctx & H).
  apply bind_some in H as (cat & Hcat & H).
  apply bind_some in H as (h' & Hh' & H).
  apply bind_some in H as (next & Hnext & H).
  inversion H; subst; clear H; simpl.
  repeat split; eauto.
Qed.

(** The iterations of the loop, one after the other. *)
Lemma decode_loop_nth (M : t) (enc : Tensor3) (mask : LongTensor2)
  (targets : option LongTensor2) (rand : nat -> R) (steps : list nat) :
  forall (h : Tensor2) (inp : LongTensor1) (trace : list Step),
    decode_loop M enc mask targets rand steps h inp = Some trace ->
    length trace = length steps
    /\ forall k s, nth_error trace k = Some s ->
         exists i h' inp',
           nth_error steps k = Some i
           /\ decode_step M enc mask targets (rand i) i h' inp' = Some s
           /\ match k with
              | O => h' = h /\ inp' = inp
              | S k' => exists s', nth_error trace k' = Some s'
                                   /\ h' = s_decoder_hidden s'
                                   /\ inp' = s_next_inputs s'
              end.
Proof.
  induction steps as [|i steps IH]; intros h inp trace H; simpl in H.
  - inversion H; subst. split; [reflexivity|].
    intros [|k] s Hk; discriminate.
  - apply bind_some in H as (s0 & Hs0 & H).
    apply bind_some in H as (rest & Hrest & H).
    inversion H; subst; clear H.
    destruct (IH _ _ _ Hrest) as [Hlen Hnth].
    split; [simpl; congruence|].
    intros [|k] s Hk; simpl in Hk.
    + inversion Hk; subst. exists i, h, inp. auto.
    + destruct (Hnth _ _ Hk) as (j & h' & inp' & Hj & Hstep & Hprev).
      exists j, h', inp'. split; [assumption|]. split; [assumption|].
      destruct k as [|k].
      * destruct Hprev as [-> ->]. exists s0. auto.
      * destruct Hprev as (s' & Hs' & -> & ->). exists s'. auto.
Qed.

(** The same for [decode_steps], whose loop runs over [range(max_len)]. *)
Lemma decode_steps_nth (M : t) (enc : Tensor3) (mask : LongTensor2)
  (targets : option LongTensor2) (rand : nat -> R) (trace : list Step) :
  decode_steps M enc mask targets rand = Some trace ->
  length trace = Z.to_nat (max_len M)
  /\ forall k s, nth_error trace k = Some s ->
       exists h' inp',
         decode_step M enc mask targets (rand k) k h' inp' = Some s
         /\ match k with
            | O => inp' = repeat (start_token (start_index M)) (length enc)
            | S k' => exists s', nth_error trace k' = Some s'
                                 /\ h' = s_decoder_hidden s'
                                 /\ inp' = s_next_inputs s'
            end.
Proof.
  unfold decode_steps. intros H.
  apply bind_some in H as (first & Hfirst & H).
  apply bind_some in H as (inp & Hinp & H).
  apply decode_loop_nth in H as [Hlen Hnth].
  split; [rewrite Hlen; apply range_length|].
  intros k s Hk.
  destruct (Hnth _ _ Hk) as (i & h' & inp' & Hi & Hstep & Hprev).
  apply range_nth in Hi. subst i.
  exists h', inp'. split; [assumption|].
  destruct k as [|k]; [|assumption].
  destruct Hprev as [-> ->].
  apply start_inputs_all in Hinp. rewrite Hinp, length_map.
  apply mapM_length in Hfirst. unfold Tensor.column in Hfirst.
  congruence.
Qed.

Lemma encode_inv (M : t) (inputs : LongTensor2) (enc : Tensor3)
  (mask : LongTensor2) :
  encode M inputs = Some (enc, mask) ->
  mask = inputs_mask_of M inputs
  /\ exists emb,
       mapM (mapM (embedding M)) inputs = Some emb
       /\ enc = map (gru_outputs (encoder M) (zeros (hidden_size M))) emb
       /\ Forall (fun e => e <> []) emb.
Proof.
  unfold encode. intros H.
  apply bind_some in H as (emb & Hemb & H).
  apply bind_some in H as (outs & Houts & H).
  inversion H; subst.
  apply gru_rows_inv in Houts as [-> Hne]. eauto.
Qed.

Lemma forward_steps_inv (M : t) (inputs : LongTensor2)
  (targets : option LongTensor2) (rand : nat -> R) (trace : list Step) :
  forward_steps M inputs targets rand = Some trace ->
  exists enc,
    encode M inputs = Some (enc, inputs_mask_of M inputs)
    /\ decode_steps M enc (inputs_mask_of M inputs) targets rand = Some trace.
Proof.
  unfold forward_steps. intros H.
  apply bind_some in H as ([enc mask] & Henc & H).
  pose proof (encode_inv _ _ Henc) as [-> _]. eauto.
Qed.

(** The mask at a padded position. *)
Lemma inputs_mask_pad (M : t) (inputs : LongTensor2) (b i : nat)
  (row : LongTensor1) :
  nth_error inputs b = Some row ->
  nth_error row i = Some (pad_index M) ->
  exists mrow, nth_error (inputs_mask_of M inputs) b = Some mrow
               /\ nth_error mrow i = Some 0%Z.
Proof.
  intros Hb Hi. unfold inputs_mask_of.
  eexists. split.
  - rewrite nth_error_map, Hb. reflexivity.
  - rewrite nth_error_map, Hi. simpl. rewrite Z.eqb_refl. reflexivity.
Qed.

(** The attention weights of an iteration at a position the mask excludes. *)
Lemma decode_attention_masked (M : t) (enc : Tensor3) (mask : LongTensor2)
  (targets : option LongTensor2) (rand : nat -> R) (trace : list Step)
  (k : nat) (s : Step) (b i : nat) (mrow : LongTensor1) :
  decode_steps M enc mask targets rand = Some trace ->
  nth_error trace k = Some s ->
  nth_error mask b = Some mrow ->
  nth_error mrow i = Some 0%Z ->
  exists att, nth_error (s_att_normazlied s) b = Some att
              /\ nth_error att i = Some 0.
Proof.
  intros H Hk Hb Hi.
  apply decode_steps_nth in H as [_ Hnth].
  destruct (Hnth _ _ Hk) as (h' & inp' & Hstep & _).
  apply decode_step_inv in Hstep
    as (_ & _ & _ & (att & _ & Hsm) & _).
  eapply SoftmaxFacts.softmax_masked_zero; eauto.
Qed.

End AttentionFacts.

(** ** Shapes *)

Module ShapeFacts.

Import Shape.

Local Open Scope R_scope.

Lemma zipM_shape {B C D : Type} (f : list D -> B -> option (list C))
  (l1 : list (list D)) (l2 : list B) (r : list (list C)) :
  zipM f l1 l2 = Some r ->
  (forall a b c, f a b = Some c -> length c = length a) ->
  map (@length C) r = map (@length D) l1.
Proof.
  revert l2 r; induction l1 as [|a l1 IH]; intros [|b l2] r H Hf;
    simpl in H; try discriminate.
  - inversion H; reflexivity.
  - apply bind_some in H as (c & Hc & H).
    apply bind_some in H as (cs & Hcs & H).
    inversion H; subst. simpl. f_equal; eauto.
Qed.

Lemma map_length_combine {A B : Type} (l1 : list (list A))
  (l2 : list (list B)) (a : list A) (b : list B) :
  map (@length A) l1 = map (@length B) l2 ->
  In (a, b) (combine l1 l2) -> length a = length b.
Proof.
  revert l2; induction l1 as [|x l1 IH]; intros [|y l2] H Hin;
    simpl in *; try contradiction; try discriminate.
  inversion H. destruct Hin as [Heq|Hin]; [inversion Heq; subst; auto|eauto].
Qed.

Lemma map_length_Forall2 {A B : Type} (l1 : list (list A))
  (l2 : list (list B)) :
  map (@length A) l1 = map (@length B) l2 ->
  Forall2 (fun a b => length a = length b) l1 l2.
Proof.
  revert l2; induction l1 as [|x l1 IH]; intros [|y l2] H;
    simpl in *; try discriminate; constructor; inversion H; auto.
Qed.

Lemma map_length_eq {A B : Type} (l1 : list (list A)) (l2 : list (list B)) :
  map (@length A) l1 = map (@length B) l2 -> length l1 = length l2.
Proof.
  intros H. apply (f_equal (@length nat)) in H.
  now rewrite !length_map in H.
Qed.

Lemma argmax_from_bound (t : Tensor1) :
  forall best bi ci, (bi < ci)%nat ->
    (argmax_from best bi ci t < ci + length t)%nat.
Proof.
  induction t as [|x t IH]; intros best bi ci H; simpl.
  - lia.
  - destruct (Rlt_dec best x).
    + specialize (IH x ci (S ci) ltac:(lia)). lia.
    + specialize (IH best bi (S ci) ltac:(lia)). lia.
Qed.

Lemma argmax_bound (t : Tensor1) :
  t <> [] -> exists n, argmax t = Some n /\ (n < length t)%nat.
Proof.
  destruct t as [|x t]; [congruence|]. intros _.
  eexists. split; [reflexivity|]. simpl.
  pose proof (@argmax_from_bound t x 0%nat 1%nat ltac:(lia)). lia.
Qed.

Lemma argmax_rows_total (vocab_size : nat) (logits : Tensor2) :
  (1 <= vocab_size)%nat ->
  Forall (fun row => length row = vocab_size) logits ->
  exists next, argmax_rows logits = Some next
               /\ length next = length logits
               /\ Forall (token_ok vocab_size) next.
Proof.
  intros Hv. induction 1 as [|row logits Hrow _ IH].
  - exists []. repeat split; constructor.
  - destruct IH as (next & Hnext & Hlen & Hok).
    destruct (@argmax_bound row) as (n & Hn & Hlt).
    { destruct row; simpl in *; [lia | congruence]. }
    exists (Z.of_nat n :: next). unfold argmax_rows in *. simpl.
    rewrite Hn, Hnext. simpl. repeat split; [congruence|].
    constructor; [unfold token_ok; lia | assumption].
Qed.

Lemma column_total (vocab_size : nat) (i : nat) (t : LongTensor2) :
  Forall (fun row => (i < length row)%nat
                     /\ Forall (token_ok vocab_size) row) t ->
  exists col, column i t = Some col
              /\ length col = length t
              /\ Forall (token_ok vocab_size) col.
Proof.
  induction 1 as [|row t [Hlt Hok] _ IH].
  - exists []. repeat split; constructor.
  - destruct IH as (col & Hcol & Hlen & Hcok).
    destruct (nth_error row i) as [x|] eqn:Hx.
    2:{ apply nth_error_None in Hx. lia. }
    exists (x :: col). unfold column in *. simpl.
    rewrite Hx, Hcol. simpl. repeat split; [congruence|].
    constructor; [|assumption].
    rewrite Forall_forall in Hok. apply Hok.
    eapply nth_error_In; eauto.
Qed.

Lemma embedding_lookup_ok (vocab_size : nat) (weight : Z -> Tensor1)
  (x : Z) :
  token_ok vocab_size x ->
  embedding_lookup vocab_size weight x = Some (weight x).
Proof.
  unfold token_ok, embedding_lookup. intros H.
  replace ((0 <=? x)%Z && (x <? Z.of_nat vocab_size)%Z) with true;
    [reflexivity|].
  symmetry. apply andb_true_iff. split; [apply Z.leb_le | apply Z.ltb_lt]; lia.
Qed.

Lemma embedding_rows (vocab_size : nat) (weight : Z -> Tensor1)
  (inp : LongTensor1) :
  Forall (token_ok vocab_size) inp ->
  mapM (embedding_lookup vocab_size weight) inp = Some (map weight inp).
Proof.
  intros H. apply mapM_total. intros a Ha.
  apply embedding_lookup_ok. rewrite Forall_forall in H. auto.
Qed.

Lemma gru_outputs_length (cell : Tensor1 -> Tensor1 -> Tensor1)
  (xs : Tensor2) :
  forall h, length (gru_outputs cell h xs) = length xs.
Proof.
  induction xs as [|x xs IH]; intros h; simpl; [reflexivity|].
  now rewrite IH.
Qed.

Lemma gru_outputs_sizes (cell : Tensor1 -> Tensor1 -> Tensor1) (n : nat)
  (xs : Tensor2) :
  (forall x h, length (cell x h) = n) ->
  forall h, Forall (fun o => length o = n) (gru_outputs cell h xs).
Proof.
  intros Hc. induction xs as [|x xs IH]; intros h; simpl; constructor; auto.
Qed.

(** [torch.stack] of at least one batch, all of [b] rows. *)
Lemma stack_dim1_total {A : Type} (ts : list (list A)) (b : nat) :
  ts <> [] ->
  Forall (fun t => length t = b) ts ->
  exists out,
    stack_dim1 ts = Some out
    /\ length out = b
    /\ Forall (fun row => length row = length ts
                          /\ forall x, In x row -> exists t, In t ts /\ In x t)
         out.
Proof.
  induction ts as [|t ts IH]; [congruence|]. intros _ Hall.
  inversion Hall as [|? ? Ht Hts]; subst.
  destruct ts as [|t' ts].
  - exists (map (fun row => [row]) t). simpl.
    split; [reflexivity|]. split; [apply length_map|].
    apply Forall_forall. intros row Hrow.
    apply in_map_iff in Hrow as (x & <- & Hx). split; [reflexivity|].
    intros y [<-|[]]. exists t. simpl; auto.
  - destruct IH as (rest & Hrest & Hlen & Hrows); [congruence|assumption|].
    destruct (@zipM_some A (list A) (list A)
                (fun row rows => Some (row :: rows)) t rest)
      as (out & Hout); [congruence | eauto |].
    exists out. split.
    { change (stack_dim1 (t :: t' :: ts))
        with (bind (stack_dim1 (t' :: ts))
                (fun rest => zipM (fun row rows => Some (row :: rows)) t rest)).
      rewrite Hrest. exact Hout. }
    pose proof (zipM_length _ _ _ Hout) as [_ Hl]. split; [congruence|].
    apply Forall_forall. intros row Hrow.
    apply In_nth_error in Hrow as (k & Hk).
    destruct (zipM_nth _ _ _ _ Hout Hk) as (x & rows & Hx & Hr & Heq).
    inversion Heq; subst.
    rewrite Forall_forall in Hrows.
    destruct (Hrows rows (nth_error_In _ _ Hr)) as [Hrl Hrin].
    split; [simpl in *; congruence|].
    intros y [<-|Hy].
    + exists t. split; [left; reflexivity | eapply nth_error_In; eauto].
    + destruct (Hrin y Hy) as (t0 & Ht0 & Hy0).
      exists t0. split; [right; assumption | assumption].
Qed.

(** The hidden state at a position: the cell on the input of the position
    and the state of the position before. *)
Lemma gru_outputs_nth (cell : Tensor1 -> Tensor1 -> Tensor1) (xs : Tensor2) :
  forall (h : Tensor1) (i : nat) (x : Tensor1),
    nth_error xs i = Some x ->
    nth_error (gru_outputs cell h xs) i
    = Some (cell x (match i with
                    | O => h
                    | S j => nth j (gru_outputs cell h xs) []
                    end)).
Proof.
  induction xs as [|a xs IH]; intros h [|i] x Hx; simpl in *;
    try discriminate.
  - inversion Hx; reflexivity.
  - rewrite (IH _ _ _ Hx). destruct i; reflexivity.
Qed.

(** Column [i] of [torch.stack(ts, dim=1)] is entry [i] of [ts]. *)
Lemma stack_dim1_column {A : Type} (ts : list (list A)) :
  forall (out : list (list A)) (i : nat) (t : list A),
    stack_dim1 ts = Some out ->
    nth_error ts i = Some t ->
    column i out = Some t.
Proof.
  induction ts as [|t0 ts IH]; intros out i t H Hi; [discriminate|].
  destruct ts as [|t1 ts].
  - cbn [stack_dim1] in H. inversion H; subst; clear H.
    destruct i as [|i]; [|destruct i; discriminate].
    inversion Hi; subst. unfold column. clear.
    induction t as [|x t IHt]; [reflexivity|].
    simpl. simpl in IHt. rewrite IHt. reflexivity.
  - change (stack_dim1 (t0 :: t1 :: ts))
      with (bind (stack_dim1 (t1 :: ts))
              (fun rest => zipM (fun row rows => Some (row :: rows)) t0 rest))
      in H.
    apply bind_some in H as (rest & Hrest & Hzip).
    assert (Hcols : column 0 out = Some t0
                    /\ forall j, column (S j) out = column j rest).
    { clear - Hzip. unfold column.
      revert rest out Hzip. induction t0 as [|x t0 IHt];
        intros [|r rest] out Hzip; simpl in Hzip; try discriminate.
      - inversion Hzip; subst. split; reflexivity.
      - apply bind_some in Hzip as (cs & Hcs & Hzip).
        inversion Hzip; subst; clear Hzip.
        destruct (IHt _ _ Hcs) as [H0 HS].
        split.
        + simpl. simpl in H0. rewrite H0. reflexivity.
        + intros j. specialize (HS j). simpl. simpl in HS.
          rewrite HS. reflexivity. }
    destruct Hcols as [H0 HS].
    destruct i as [|i].
    + inversion Hi; subst. exact H0.
    + rewrite HS. apply (IH _ _ _ Hrest). exact Hi.
Qed.

End ShapeFacts.

(** ** Seq2SeqAttentionModel: decode returns, and the shape of its result *)

Module AttentionShape.

Import Seq2SeqAttentionModel Shape ShapeFacts.

Local Open Scope R_scope.

Lemma softmax_masked_row_length (inputs : Tensor1) (mask : LongTensor1)
  (epsilon : R) (w : Tensor1) :
  Softmax.softmax_masked_row inputs mask epsilon = Some w ->
  length w = length inputs.
Proof.
  intros H. apply SoftmaxFacts.softmax_masked_row_inv in H as (Hlen & -> & _).
  rewrite length_map, length_combine. lia.
Qed.

Lemma attend_total (enc : Tensor2) (w : Tensor1) :
  length enc = length w -> exists ctx, attend enc w = Some ctx.
Proof.
  intros H. unfold attend.
  destruct (@zipM_some _ _ _ (fun h x => Some (vscale x h)) enc w)
    as (weighted & Hw); [assumption | eauto |].
  rewrite Hw. simpl. eauto.
Qed.

Lemma next_inputs_total (V : nat) (B : nat) (tf : R) (L : Z)
  (targets : option LongTensor2) (draw : R) (i : nat) (logits : Tensor2) :
  (1 <= V)%nat ->
  targets_ok V B L targets ->
  (i < Z.to_nat L)%nat ->
  length logits = B ->
  Forall (fun row => length row = V) logits ->
  exists next,
    next_decoder_inputs tf targets draw i logits = Some next
    /\ length next = B
    /\ Forall (token_ok V) next.
Proof.
  intros HV Ht Hi Hlen Hrows. unfold next_decoder_inputs.
  destruct (teacher_forced tf targets draw) eqn:E.
  - apply teacher_forced_true in E as [_ Hsome].
    destruct targets as [t|]; [|congruence]. simpl.
    destruct Ht as [HB Hall].
    destruct (@column_total V i t) as (col & Hcol & Hcl & Hok).
    { eapply Forall_impl; [|exact Hall]. simpl. intros row [H1 H2].
      split; [lia | assumption]. }
    exists col. repeat split; [assumption | congruence | assumption].
  - destruct (argmax_rows_total HV Hrows) as (next & Hn & Hl & Hok).
    exists next. repeat split; [assumption | congruence | assumption].
Qed.

(** One iteration from a state of the right shape. *)
Lemma decode_step_total (M : t) (enc : Tensor3) (mask : LongTensor2)
  (targets : option LongTensor2) (draw : R) (i : nat) (h : Tensor2)
  (inp : LongTensor1) :
  (forall x, length (decoder_projection M x) = vocab_size M) ->
  (1 <= vocab_size M)%nat ->
  map (@length Tensor1) enc = map (@length Z) mask ->
  Forall Softmax.binary_mask mask ->
  targets_ok (vocab_size M) (length enc) (max_len M) targets ->
  (i < Z.to_nat (max_len M))%nat ->
  length h = length enc ->
  length inp = length enc ->
  Forall (token_ok (vocab_size M)) inp ->
  exists s,
    decode_step M enc mask targets draw i h inp = Some s
    /\ length (s_decoder_hidden s) = length enc
    /\ length (s_next_inputs s) = length enc
    /\ Forall (token_ok (vocab_size M)) (s_next_inputs s)
    /\ length (s_decoder_output_logit s) = length enc
    /\ Forall (fun row => length row = vocab_size M)
         (s_decoder_output_logit s).
Proof.
  intros Hproj HV Hshape Hbin Ht Hi Hh Hinp Hok.
  unfold decode_step, embedding.
  rewrite (embedding_rows _ Hok). cbn [bind].
  (* att *)
  destruct (@zipM_some _ _ _
              (fun e d => Some (map (fun x => map tanh (vadd x d)) e))
              (map (map (attention_encoder M)) enc)
              (map (attention_decoder M) h))
    as (att & Hatt); [rewrite !length_map; congruence | eauto |].
  rewrite Hatt. cbn [bind].
  assert (Hattshape : map (@length Tensor1) att = map (@length Tensor1) enc).
  { rewrite (@zipM_shape _ _ _ _ _ _ _ Hatt).
    - rewrite map_map. apply map_ext. intros a. apply length_map.
    - intros a b c Hc. inversion Hc. apply length_map. }
  (* att_normazlied *)
  destruct (@SoftmaxFacts.softmax_masked_binary
              (map (map (attention_reduce M)) att) mask
              Softmax.default_epsilon)
    as (w & Hw);
    [exact SoftmaxFacts.default_epsilon_pos | | assumption |].
  { apply map_length_Forall2. rewrite <- Hshape, <- Hattshape.
    rewrite map_map. apply map_ext. intros a. apply length_map. }
  rewrite Hw. cbn [bind].
  assert (Hwshape : map (@length R) w = map (@length Tensor1) enc).
  { unfold Softmax.softmax_masked in Hw.
    rewrite (@zipM_shape _ _ _ _ _ _ _ Hw).
    - rewrite <- Hattshape, map_map. apply map_ext. intros a.
      apply length_map.
    - intros a b c Hc. eapply softmax_masked_row_length; eauto. }
  (* decoder_hidden_att *)
  destruct (@zipM_some _ _ _ attend enc w)
    as (ctx & Hctx).
  { symmetry. eapply map_length_eq; eauto. }
  { intros a b Hin. apply attend_total.
    symmetry in Hwshape. apply (@map_length_combine _ _ _ _ _ _ Hwshape Hin). }
  rewrite Hctx. cbn [bind].
  pose proof (zipM_length _ _ _ Hctx) as [_ Hctxlen].
  (* cat *)
  destruct (@zipM_some _ _ _ (fun a c => Some (a ++ c))
              h ctx) as (cat & Hcat); [congruence | eauto |].
  rewrite Hcat. cbn [bind].
  pose proof (zipM_length _ _ _ Hcat) as [_ Hcatlen].
  (* decoder *)
  destruct (@zipM_some _ _ _
              (fun x a => Some (decoder M x a))
              (map (embedding_weight M) inp)
              (map (decoder_hidden_combine M) cat))
    as (h' & Hh'); [rewrite !length_map; congruence | eauto |].
  rewrite Hh'. cbn [bind].
  pose proof (zipM_length _ _ _ Hh') as [_ Hh'len].
  rewrite length_map in Hh'len.
  (* next inputs *)
  destruct (@next_inputs_total (vocab_size M) (length enc)
              (teacher_forcing M) (max_len M) targets draw i
              (map (decoder_projection M) h'))
    as (next & Hnext & Hnl & Hnok);
    try assumption.
  { rewrite length_map. congruence. }
  { apply Forall_forall. intros row Hrow.
    apply in_map_iff in Hrow as (x & <- & _). apply Hproj. }
  rewrite Hnext. cbn [bind].
  eexists. split; [reflexivity|]. simpl.
  repeat split; try assumption; try congruence.
  - rewrite length_map. congruence.
  - apply Forall_forall. intros row Hrow.
    apply in_map_iff in Hrow as (x & <- & _). apply Hproj.
Qed.

(** The loop, over positions below [max_len]. *)
Lemma decode_loop_total (M : t) (enc : Tensor3) (mask : LongTensor2)
  (targets : option LongTensor2) (rand : nat -> R) (steps : list nat) :
  (forall x, length (decoder_projection M x) = vocab_size M) ->
  (1 <= vocab_size M)%nat ->
  map (@length Tensor1) enc = map (@length Z) mask ->
  Forall Softmax.binary_mask mask ->
  targets_ok (vocab_size M) (length enc) (max_len M) targets ->
  Forall (fun i => (i < Z.to_nat (max_len M))%nat) steps ->
  forall (h : Tensor2) (inp : LongTensor1),
    length h = length enc ->
    length inp = length enc ->
    Forall (token_ok (vocab_size M)) inp ->
    exists trace,
      decode_loop M enc mask targets rand steps h inp = Some trace
      /\ Forall (fun s => length (s_decoder_output_logit s) = length enc
                          /\ Forall (fun row => length row = vocab_size M)
                               (s_decoder_output_logit s)) trace.
Proof.
  intros Hproj HV Hshape Hbin Ht Hsteps.
  induction Hsteps as [|i steps Hi _ IH]; intros h inp Hh Hinp Hok; simpl.
  - exists []. split; [reflexivity | constructor].
  - destruct (@decode_step_total M enc mask targets (rand i) i h inp)
      as (s & Hs & Hsh & Hsn & Hsok & Hsl & Hsv); try assumption.
    rewrite Hs. cbn [bind].
    destruct (IH _ _ Hsh Hsn Hsok) as (rest & Hrest & Hall).
    rewrite Hrest. cbn [bind].
    exists (s :: rest). split; [reflexivity|].
    constructor; auto.
Qed.

Lemma range_below (max_len : Z) :
  Forall (fun i => (i < Z.to_nat max_len)%nat) (range max_len).
Proof.
  unfold range. apply Forall_forall. intros i Hi.
  apply in_seq in Hi. lia.
Qed.

Lemma binary_inputs_mask (M : t) (inputs : LongTensor2) :
  Forall Softmax.binary_mask (inputs_mask_of M inputs).
Proof.
  unfold inputs_mask_of. apply Forall_forall. intros mrow Hm.
  apply in_map_iff in Hm as (row & <- & _).
  unfold Softmax.binary_mask. apply Forall_forall. intros m Hin.
  apply in_map_iff in Hin as (x & <- & _).
  destruct (x =? pad_index M)%Z; auto.
Qed.

Lemma column_some {A : Type} (i : nat) (t : list (list A)) :
  Forall (fun row => (i < length row)%nat) t ->
  exists col, column i t = Some col
              /\ length col = length t
              /\ Forall (fun x => exists row, In row t /\ In x row) col.
Proof.
  induction 1 as [|row t Hlt _ IH].
  - exists []. repeat split; constructor.
  - destruct IH as (col & Hcol & Hlen & Hin).
    destruct (nth_error row i) as [x|] eqn:Hx.
    2:{ apply nth_error_None in Hx. lia. }
    exists (x :: col). unfold column in *. simpl.
    rewrite Hx, Hcol. simpl. repeat split; [congruence|].
    constructor.
    + exists row. split; [left; reflexivity | eapply nth_error_In; eauto].
    + eapply Forall_impl; [|exact Hin]. simpl.
      intros y (r & Hr & Hy). exists r. auto.
Qed.

Lemma forward_unfold (M : t) (inputs : LongTensor2)
  (targets : option LongTensor2) (rand : nat -> R) :
  forward M inputs targets rand
  = (steps <- forward_steps M inputs targets rand ;;
     stack_dim1 (map s_decoder_output_logit steps)).
Proof.
  unfold forward, forward_steps, decode.
  destruct (encode M inputs) as [[enc mask]|]; reflexivity.
Qed.

(** [encode] on rows of token ids of the vocabulary that have a
    position. *)
Lemma encode_total (M : t) (inputs : LongTensor2) :
  Forall (Forall (token_ok (vocab_size M))) inputs ->
  Forall (fun row => row <> []) inputs ->
  encode M inputs
  = Some (map (gru_outputs (encoder M) (zeros (hidden_size M)))
            (map (map (embedding_weight M)) inputs),
          inputs_mask_of M inputs).
Proof.
  intros H Hne. unfold encode.
  rewrite (@mapM_total _ _ (mapM (embedding M))
             (map (embedding_weight M)) inputs).
  - cbn [bind]. rewrite gru_rows_total; [reflexivity|].
    apply Forall_forall. intros e He.
    apply in_map_iff in He as (row & <- & Hrow).
    rewrite Forall_forall in Hne. specialize (Hne row Hrow).
    destruct row; [congruence | discriminate].
  - intros row Hrow. rewrite Forall_forall in H.
    apply embedding_rows. auto.
Qed.

Lemma inputs_ok_rows (vocab_size sequence_length : nat)
  (inputs : LongTensor2) :
  inputs_ok vocab_size sequence_length inputs ->
  Forall (Forall (token_ok vocab_size)) inputs
  /\ Forall (fun row => row <> []) inputs.
Proof.
  intros [HS Hin]. split.
  - eapply Forall_impl; [|exact Hin]. simpl. tauto.
  - eapply Forall_impl; [|exact Hin]. simpl.
    intros row [Hl _] ->. simpl in Hl. lia.
Qed.

(** [decode] from encoder states that have a first position, with a first
    component. *)
Lemma decode_steps_total (M : t) (enc : Tensor3) (mask : LongTensor2)
  (targets : option LongTensor2) (rand : nat -> R) :
  attention_model_ok M ->
  Forall (fun e => exists x rest, e = x :: rest /\ x <> []) enc ->
  map (@length Tensor1) enc = map (@length Z) mask ->
  Forall Softmax.binary_mask mask ->
  targets_ok (vocab_size M) (length enc) (max_len M) targets ->
  exists trace,
    decode_steps M enc mask targets rand = Some trace
    /\ length trace = Z.to_nat (max_len M)
    /\ Forall (fun s => length (s_decoder_output_logit s) = length enc
                        /\ Forall (fun row => length row = vocab_size M)
                             (s_decoder_output_logit s)) trace.
Proof.
  intros (Hproj & _ & _ & Hstart & Hlen & Hex) Henc Hshape Hbin Ht.
  assert (HV : (1 <= vocab_size M)%nat) by (unfold token_ok in Hstart; lia).
  unfold decode_steps.
  destruct (@column_some Tensor1 0 enc) as (first & Hfirst & Hfl & Hfin).
  { eapply Forall_impl; [|exact Henc]. simpl.
    intros e (x & rest & -> & _). simpl. lia. }
  rewrite Hfirst. cbn [bind].
  assert (Hne : Forall (fun x => x <> []) first).
  { clear - Hfirst Henc. unfold column in Hfirst.
    apply Forall_forall. intros x Hx.
    apply In_nth_error in Hx as (b & Hb).
    destruct (mapM_nth_inv _ _ _ Hfirst Hb) as (e & He & He0).
    rewrite Forall_forall in Henc.
    destruct (Henc e (nth_error_In _ _ He)) as (y & rest & -> & Hy).
    simpl in He0. congruence. }
  destruct (@column_some R 0 (map (map (fun _ => 0)) first))
    as (col & Hcol & Hcl & _).
  { apply Forall_forall. intros row Hrow.
    apply in_map_iff in Hrow as (x & <- & Hx).
    rewrite Forall_forall in Hne. specialize (Hne x Hx).
    rewrite length_map. destruct x; simpl; [congruence | lia]. }
  rewrite (@start_inputs_exact _ _ _ Hex Hcol). cbn [bind].
  rewrite length_map in Hcl.
  destruct (@decode_loop_total M enc mask targets rand (range (max_len M))
              Hproj HV Hshape Hbin Ht (range_below (max_len M))
              (map (map (fun _ => 0)) first)
              (map (fun _ => start_index M) col))
    as (trace & Htrace & Hall).
  - rewrite length_map. congruence.
  - rewrite length_map. congruence.
  - apply Forall_forall. intros x Hx.
    apply in_map_iff in Hx as (y & <- & _). assumption.
  - exists trace. split; [assumption|]. split; [|assumption].
    apply AttentionFacts.decode_loop_nth in Htrace as [Hl _].
    rewrite Hl. apply range_length.
Qed.

(** [forward] on a well-shaped batch: it returns, after [max_len]
    iterations, a tensor of shape [(batch_size, max_len, vocab_size)]. *)
Lemma forward_total (M : t) (inputs : LongTensor2)
  (targets : option LongTensor2) (rand : nat -> R) (sequence_length : nat) :
  attention_model_ok M ->
  inputs_ok (vocab_size M) sequence_length inputs ->
  targets_ok (vocab_size M) (length inputs) (max_len M) targets ->
  exists steps out,
    forward_steps M inputs targets rand = Some steps
    /\ length steps = Z.to_nat (max_len M)
    /\ forward M inputs targets rand = Some out
    /\ has_shape3 out (length inputs) (Z.to_nat (max_len M)) (vocab_size M).
Proof.
  intros HM [HS Hin] Ht.
  pose proof HM as (Hproj & Hcell & Hhid & Hstart & Hlen & Hex).
  destruct (inputs_ok_rows (conj HS Hin)) as [Htok Hne].
  rewrite forward_unfold. unfold forward_steps.
  rewrite (encode_total M Htok Hne). cbn [bind].
  set (enc := map (gru_outputs (encoder M) (zeros (hidden_size M)))
                (map (map (embedding_weight M)) inputs)).
  assert (Hencl : length enc = length inputs)
    by (unfold enc; now rewrite !length_map).
  destruct (@decode_steps_total M enc (inputs_mask_of M inputs) targets rand)
    as (steps & Hsteps & Hsl & Hall); try assumption.
  - unfold enc. rewrite map_map. apply Forall_forall. intros e He.
    apply in_map_iff in He as (row & <- & Hrow).
    rewrite Forall_forall in Hin. destruct (Hin row Hrow) as [Hrl _].
    destruct row as [|x row]; simpl in *; [lia|].
    eexists _, _. split; [reflexivity|].
    intros Hnil. apply (f_equal (@length R)) in Hnil.
    rewrite Hcell in Hnil. simpl in Hnil. lia.
  - unfold enc, inputs_mask_of. rewrite !map_map. apply map_ext.
    intros row. now rewrite gru_outputs_length, !length_map.
  - apply binary_inputs_mask.
  - rewrite Hencl. assumption.
  - exists steps. rewrite Hsteps. cbn [bind].
    destruct (@stack_dim1_total Tensor1 (map s_decoder_output_logit steps)
                (length inputs))
      as (out & Hout & Hol & Hrows).
    + destruct steps; simpl in *; [lia | congruence].
    + apply Forall_forall. intros x Hx.
      apply in_map_iff in Hx as (s & <- & Hs).
      rewrite Forall_forall in Hall. destruct (Hall s Hs). congruence.
    + exists out. repeat split; try assumption.
      apply Forall_forall. intros row Hrow.
      rewrite Forall_forall in Hrows. destruct (Hrows row Hrow) as [Hrl Hrin].
      split; [rewrite Hrl, length_map; assumption|].
      apply Forall_forall. intros x Hx.
      destruct (Hrin x Hx) as (l & Hl & Hxl).
      apply in_map_iff in Hl as (s & <- & Hs).
      rewrite Forall_forall in Hall. destruct (Hall s Hs) as [_ Hv].
      rewrite Forall_forall in Hv. auto.
Qed.

End AttentionShape.

(** ** Seq2SeqAttentionModel: the claims on encode, decode and forward *)

Module AttentionClaims.

Import Seq2SeqAttentionModel Shape ShapeFacts AttentionFacts AttentionShape.
Import Examples Spec.

Local Open Scope R_scope.

Lemma example_model_ok : attention_model_ok attention_model.
Proof.
  unfold attention_model_ok, token_ok; simpl.
  repeat split; intros; lia.
Qed.

Lemma example_inputs_ok : inputs_ok 3 2 padded_inputs.
Proof.
  unfold inputs_ok, padded_inputs, token_ok.
  split; [lia|]. repeat constructor; lia.
Qed.

Lemma example_targets_ok : targets_ok 3 1 2 some_targets.
Proof.
  unfold targets_ok, some_targets, token_ok. simpl.
  split; [reflexivity|]. repeat constructor; simpl; lia.
Qed.

(** X25: in exact real arithmetic (floats as real numbers, without rounding,
    overflow or NaN), whenever [softmax_masked] returns, it gives weight 0
    wherever the mask is 0; hence, in every iteration of a [decode] that
    [forward] runs to its end, the attention weights are 0 at every position
    where the input token is [pad_index]. *)
Theorem exact_attention_ignores_padding :
  (forall (scores : Tensor2) (mask : LongTensor2) (epsilon : R)
          (out : Tensor2) (b i : nat) (mrow : LongTensor1),
      Softmax.softmax_masked scores mask epsilon = Some out ->
      nth_error mask b = Some mrow ->
      nth_error mrow i = Some 0%Z ->
      exists orow, nth_error out b = Some orow /\ nth_error orow i = Some 0)
  /\ (forall (M : t) (inputs : LongTensor2) (targets : option LongTensor2)
             (rand : nat -> R) (steps : list Step) (k : nat) (s : Step)
             (b : nat) (row : LongTensor1) (i : nat),
         forward_steps M inputs targets rand = Some steps ->
         nth_error steps k = Some s ->
         nth_error inputs b = Some row ->
         nth_error row i = Some (pad_index M) ->
         exists att, nth_error (s_att_normazlied s) b = Some att
                     /\ nth_error att i = Some 0).
Proof.
  split.
  - intros. eapply SoftmaxFacts.softmax_masked_zero; eauto.
  - intros M inputs targets rand steps k s b row i H Hk Hb Hi.
    apply forward_steps_inv in H as (enc & _ & H).
    destruct (inputs_mask_pad M inputs b i Hb Hi) as (mrow & Hm & Hz).
    eapply decode_attention_masked; eauto.
Qed.

Lemma exact_attention_ignores_padding_witness :
  (exists out orow,
      Softmax.softmax_masked [[0; 0]] [[1; 0]]%Z Softmax.default_epsilon
      = Some out
      /\ nth_error out 0 = Some orow
      /\ nth_error orow 1 = Some 0)
  /\ exists steps s att,
       forward_steps attention_model padded_inputs None zero_draws
       = Some steps
       /\ nth_error steps 0 = Some s
       /\ nth_error (s_att_normazlied s) 0 = Some att
       /\ nth_error att 1 = Some 0.
Proof.
  split.
  { destruct (@SoftmaxFacts.softmax_masked_binary [[0; 0]] [[1; 0]]%Z
                Softmax.default_epsilon SoftmaxFacts.default_epsilon_pos)
      as (out & Hout);
      [repeat constructor | repeat constructor; SoftmaxFacts.binary_mask_tac|].
    destruct (proj1 exact_attention_ignores_padding [[0; 0]] [[1; 0]]%Z
                Softmax.default_epsilon out 0%nat 1%nat [1; 0]%Z
                Hout eq_refl eq_refl)
      as (orow & Horow & Hzero).
    exists out, orow. auto. }
  destruct (@forward_total attention_model padded_inputs None zero_draws 2
              example_model_ok example_inputs_ok I)
    as (steps & out & Hsteps & Hlen & _).
  destruct steps as [|s steps]; [discriminate|].
  destruct (proj2 exact_attention_ignores_padding attention_model padded_inputs
              None zero_draws (s :: steps) 0%nat s 0%nat [1; 0]%Z 1%nat
              Hsteps eq_refl eq_refl eq_refl)
    as (att & Hatt & Hzero).
  exists (s :: steps), s, att. auto.
Defined.

(** C5: on a batch of shape [(batch_size, sequence_length)] of token ids of
    the vocabulary (targets, when given, of at least [max_len] columns),
    [forward] returns; its loop runs [max_len] iterations, whatever tokens
    are predicted; every iteration projects its hidden states to logits;
    and the result, of shape [(batch_size, max_len, vocab_size)], holds the
    logits of iteration [i] at index [i] of its second dimension. *)
Theorem forward_output_shape (M : t) (inputs : LongTensor2)
  (targets : option LongTensor2) (rand : nat -> R) (sequence_length : nat) :
  attention_model_ok M ->
  inputs_ok (vocab_size M) sequence_length inputs ->
  targets_ok (vocab_size M) (length inputs) (max_len M) targets ->
  exists steps out,
    forward_steps M inputs targets rand = Some steps
    /\ length steps = Z.to_nat (max_len M)
    /\ forward M inputs targets rand = Some out
    /\ has_shape3 out (length inputs) (Z.to_nat (max_len M)) (vocab_size M)
    /\ forall i s, nth_error steps i = Some s ->
         s_decoder_output_logit s
         = map (decoder_projection M) (s_decoder_hidden s)
         /\ column i out = Some (s_decoder_output_logit s).
Proof.
  intros HM Hin Ht.
  destruct (@forward_total M inputs targets rand sequence_length HM Hin Ht)
    as (steps & out & Hsteps & Hlen & Hout & Hshape).
  exists steps, out. repeat (split; [assumption|]).
  intros i s Hs. split.
  - apply forward_steps_inv in Hsteps as (enc & _ & Hsteps).
    apply decode_steps_nth in Hsteps as [_ Hnth].
    destruct (Hnth _ _ Hs) as (h' & inp' & Hstep & _).
    apply decode_step_inv in Hstep
      as (_ & _ & _ & _ & _ & _ & _ & Hlogit & _).
    exact Hlogit.
  - rewrite forward_unfold, Hsteps in Hout. cbn [bind] in Hout.
    apply (stack_dim1_column _ i Hout).
    rewrite nth_error_map, Hs. reflexivity.
Qed.

Lemma forward_output_shape_witness :
  exists steps out,
    forward_steps attention_model padded_inputs some_targets zero_draws
    = Some steps
    /\ length steps = 2%nat
    /\ forward attention_model padded_inputs some_targets zero_draws
       = Some out
    /\ has_shape3 out 1 2 3
    /\ forall i s, nth_error steps i = Some s ->
         s_decoder_output_logit s
         = map (decoder_projection attention_model) (s_decoder_hidden s)
         /\ column i out = Some (s_decoder_output_logit s).
Proof.
  apply (@forward_output_shape attention_model padded_inputs some_targets
           zero_draws 2).
  - exact example_model_ok.
  - exact example_inputs_ok.
  - exact example_targets_ok.
Defined.

(** C6: on a batch of shape [(batch_size, sequence_length)], with
    [sequence_length >= 1], of token ids of the vocabulary, [encode] returns
    one hidden state per input position, the state of a position being the
    encoder cell on the embedding of the token of the position and on the
    state of the position before (zeros before the first), and a mask of the
    shape of the input, 1 where the token differs from [pad_index] and 0
    where it is [pad_index]. *)
Theorem encode_states_and_mask (M : t) (inputs : LongTensor2)
  (sequence_length : nat) :
  inputs_ok (vocab_size M) sequence_length inputs ->
  exists enc mask,
    encode M inputs = Some (enc, mask)
    /\ length enc = length inputs
    /\ length mask = length inputs
    /\ forall b row, nth_error inputs b = Some row ->
         exists e m,
           nth_error enc b = Some e
           /\ nth_error mask b = Some m
           /\ length e = sequence_length
           /\ length m = sequence_length
           /\ forall i x, nth_error row i = Some x ->
                nth_error e i
                = Some (encoder M (embedding_weight M x)
                          (match i with
                           | O => zeros (hidden_size M)
                           | S j => nth j e []
                           end))
                /\ (x <> pad_index M -> nth_error m i = Some 1%Z)
                /\ (x = pad_index M -> nth_error m i = Some 0%Z).
Proof.
  intros H. destruct (inputs_ok_rows H) as [Htok Hne].
  destruct H as [_ Hrows].
  eexists _, _. split; [apply encode_total; assumption|].
  split; [now rewrite !length_map|].
  split; [unfold inputs_mask_of; now rewrite length_map|].
  intros b row Hb.
  assert (Hrl : length row = sequence_length).
  { rewrite Forall_forall in Hrows.
    apply (Hrows row (nth_error_In _ _ Hb)). }
  eexists _, _.
  split; [rewrite !nth_error_map, Hb; reflexivity|].
  split; [unfold inputs_mask_of; rewrite nth_error_map, Hb; reflexivity|].
  split; [now rewrite gru_outputs_length, length_map|].
  split; [now rewrite length_map|].
  intros i x Hi. split.
  - apply gru_outputs_nth. rewrite nth_error_map, Hi. reflexivity.
  - rewrite nth_error_map, Hi. simpl.
    destruct (Z.eqb_spec x (pad_index M)); split; intros; congruence.
Qed.

Lemma encode_states_and_mask_witness :
  exists enc mask,
    encode attention_model padded_inputs = Some (enc, mask)
    /\ length enc = 1%nat
    /\ length mask = 1%nat
    /\ forall b row, nth_error padded_inputs b = Some row ->
         exists e m,
           nth_error enc b = Some e
           /\ nth_error mask b = Some m
           /\ length e = 2%nat
           /\ length m = 2%nat
           /\ forall i x, nth_error row i = Some x ->
                nth_error e i
                = Some (encoder attention_model
                          (embedding_weight attention_model x)
                          (match i with
                           | O => zeros (hidden_size attention_model)
                           | S j => nth j e []
                           end))
                /\ (x <> 0%Z -> nth_error m i = Some 1%Z)
                /\ (x = 0%Z -> nth_error m i = Some 0%Z).
Proof.
  apply (@encode_states_and_mask attention_model padded_inputs 2).
  exact example_inputs_ok.
Defined.

(** *** The context vector *)

Lemma vadd_length (a b : Tensor1) (n : nat) :
  length a = n -> length b = n -> length (vadd a b) = n.
Proof.
  revert b n; induction a as [|x a IH]; intros [|y b] n Ha Hb;
    simpl in *; try congruence.
  destruct n; [discriminate|]. f_equal. apply IH; congruence.
Qed.

Lemma vadd_nth (a b : Tensor1) (j : nat) :
  length a = length b ->
  nth j (vadd a b) 0 = nth j a 0 + nth j b 0.
Proof.
  revert b j; induction a as [|x a IH]; intros [|y b] j H;
    simpl in *; try discriminate.
  - destruct j; lra.
  - destruct j; [reflexivity | apply IH; congruence].
Qed.

Lemma fold_left_vadd (n : nat) (rows : Tensor2) :
  Forall (fun row => length row = n) rows ->
  forall acc, length acc = n ->
    length (fold_left vadd rows acc) = n
    /\ forall j, nth j (fold_left vadd rows acc) 0
                 = nth j acc 0 + col_sum rows j.
Proof.
  induction 1 as [|row rows Hrow _ IH]; intros acc Hacc; simpl.
  - split; [assumption | intros; lra].
  - destruct (IH (vadd acc row) (@vadd_length _ _ _ Hacc Hrow)) as [Hl Hn].
    split; [assumption|]. intros j.
    rewrite Hn, vadd_nth by congruence. lra.
Qed.

Lemma vscale_nth (w : R) (h : Tensor1) (j : nat) :
  nth j (vscale w h) 0 = w * nth j h 0.
Proof.
  unfold vscale. revert j; induction h as [|x h IH]; intros [|j]; simpl;
    try lra. apply IH.
Qed.

Lemma weighted_col_sum (e : Tensor2) (w : Tensor1) (weighted : Tensor2)
  (j : nat) :
  zipM (fun h x => Some (vscale x h)) e w = Some weighted ->
  col_sum weighted j = Spec.context_entry e w j.
Proof.
  revert w weighted; induction e as [|h e IH]; intros [|x w] weighted H;
    simpl in H; try discriminate.
  - inversion H; reflexivity.
  - apply bind_some in H as (rest & Hrest & H). inversion H; subst.
    simpl. rewrite vscale_nth, (IH _ _ Hrest). reflexivity.
Qed.

Lemma weighted_sizes (n : nat) (e : Tensor2) (w : Tensor1)
  (weighted : Tensor2) :
  zipM (fun h x => Some (vscale x h)) e w = Some weighted ->
  Forall (fun x => length x = n) e ->
  Forall (fun x => length x = n) weighted.
Proof.
  revert w weighted; induction e as [|h e IH]; intros [|x w] weighted H He;
    simpl in H; try discriminate.
  - inversion H; constructor.
  - apply bind_some in H as (rest & Hrest & H). inversion H; subst.
    inversion He; subst. constructor; [apply length_map | eauto].
Qed.

Lemma list_as_map_nth (l : Tensor1) :
  l = map (fun j => nth j l 0) (seq 0 (length l)).
Proof.
  induction l as [|x l IH]; simpl; [reflexivity|].
  f_equal. rewrite <- seq_shift, map_map. exact IH.
Qed.

(** [attend] computes the context vector of the specification. *)
Lemma attend_context (e : Tensor2) (w ctx : Tensor1) (n : nat) :
  attend e w = Some ctx ->
  e <> [] ->
  Forall (fun x => length x = n) e ->
  ctx = Spec.context_vector e w n.
Proof.
  unfold attend. intros H Hne He.
  apply bind_some in H as (weighted & Hw & H). inversion H; subst; clear H.
  pose proof (@weighted_sizes _ _ _ _ Hw He) as Hsizes.
  destruct weighted as [|first rest].
  { apply zipM_length in Hw as [_ Hl]. destruct e; simpl in *; congruence. }
  inversion Hsizes as [|? ? Hfirst Hrest]; subst.
  destruct (@fold_left_vadd _ _ Hrest first eq_refl) as [Hl Hn].
  unfold sum_rows, Spec.context_vector.
  rewrite (list_as_map_nth (fold_left vadd rest first)), Hl.
  apply map_ext. intros j. rewrite Hn, <- (@weighted_col_sum _ _ _ j Hw).
  reflexivity.
Qed.

(** X29: in exact real arithmetic (floats as real numbers, without rounding,
    overflow or NaN), in every iteration of [decode], and for every row of
    the batch, the attention weights are [softmax_masked] of the scores of
    the encoder positions under the mask, one weight per position; the
    context vector is the sum over the encoder positions of the weight
    times the encoder hidden state (in any order, the sum being one of real
    numbers); the decoder cell is run on the embedding of the input
    token and on [decoder_hidden_combine] of the previous hidden state
    concatenated with the context vector; and the previous hidden state is
    the one the iteration before produced (all zeros for the first
    iteration). *)
Theorem exact_decode_context_and_hidden (M : t) (enc : Tensor3)
  (mask : LongTensor2) (targets : option LongTensor2) (rand : nat -> R)
  (trace : list Step) (k : nat) (s : Step) :
  decode_steps M enc mask targets rand = Some trace ->
  nth_error trace k = Some s ->
  length (s_decoder_hidden s) = length enc
  /\ (forall b e n,
         nth_error enc b = Some e ->
         Forall (fun x => length x = n) e ->
         exists m hprev tok emb w,
           nth_error mask b = Some m
           /\ nth_error (s_decoder_hidden_in s) b = Some hprev
           /\ nth_error (s_decoder_inputs s) b = Some tok
           /\ embedding M tok = Some emb
           /\ Softmax.softmax_masked_row
                (map (fun x =>
                        attention_reduce M
                          (map tanh (vadd (attention_encoder M x)
                                       (attention_decoder M hprev))))
                   e)
                m Softmax.default_epsilon = Some w
           /\ nth_error (s_att_normazlied s) b = Some w
           /\ length w = length e
           /\ nth_error (s_decoder_hidden_att s) b
              = Some (Spec.context_vector e w n)
           /\ nth_error (s_decoder_hidden s) b
              = Some (decoder M emb
                        (decoder_hidden_combine M
                           (hprev ++ Spec.context_vector e w n))))
  /\ match k with
     | O => Forall (Forall (fun x => x = 0)) (s_decoder_hidden_in s)
     | S k' => exists s', nth_error trace k' = Some s'
                          /\ s_decoder_hidden_in s = s_decoder_hidden s'
     end.
Proof.
  intros H Hk.
  assert (Hfirst : exists first, column 0 enc = Some first).
  { unfold decode_steps in H. apply bind_some in H as (first & Hf & _).
    eauto. }
  destruct Hfirst as (first & Hfirst).
  assert (Hin : match k with
                | O => s_decoder_hidden_in s = map (map (fun _ => 0)) first
                | S k' => exists s', nth_error trace k' = Some s'
                            /\ s_decoder_hidden_in s = s_decoder_hidden s'
                end).
  { unfold decode_steps in H. rewrite Hfirst in H. cbn [bind] in H.
    apply bind_some in H as (inp & _ & H).
    apply decode_loop_nth in H as [_ Hnth].
    destruct (Hnth _ _ Hk) as (i & h' & inp' & _ & Hstep & Hprev).
    apply decode_step_inv in Hstep as (_ & Hh & _).
    destruct k as [|k].
    - destruct Hprev as [-> _]. assumption.
    - destruct Hprev as (s' & Hs' & -> & _). eauto. }
  apply decode_steps_nth in H as [_ Hnth].
  destruct (Hnth _ _ Hk) as (h' & inp' & Hstep & _).
  apply decode_step_inv in Hstep
    as (Hinp & Hh & Hemb & (att & Hatt & Hsm) & Hctx & (cat & Hcat & Hcomb)
        & Hdec & _).
  subst h' inp'.
  pose proof (zipM_length _ _ _ Hctx) as [Hl1 Hl2].
  pose proof (zipM_length _ _ _ Hcat) as [Hl3 Hl4].
  pose proof (zipM_length _ _ _ Hdec) as [Hl5 Hl6].
  split; [|split].
  - rewrite Hl6. apply mapM_length in Hemb. rewrite Hcomb, length_map in Hl5.
    rewrite Hl5, Hl4, Hl3, Hl2. reflexivity.
  - intros b e n Hb He.
    destruct (zipM_nth_left _ _ _ b Hctx Hb) as (w & ctx & Hw & Hc & Hattend).
    assert (Hne : e <> []).
    { unfold column in Hfirst.
      destruct (mapM_nth _ _ _ Hfirst Hb) as (x & _ & Hx).
      intros ->. discriminate. }
    pose proof (attend_context _ Hattend Hne He) as ->.
    unfold Softmax.softmax_masked in Hsm.
    destruct (zipM_nth _ _ _ _ Hsm Hw) as (scores & m & Hscores & Hm & Hrow).
    rewrite nth_error_map in Hscores.
    destruct (nth_error att b) as [attb|] eqn:Hattb; [|discriminate].
    inversion Hscores; subst scores; clear Hscores.
    destruct (zipM_nth _ _ _ _ Hatt Hattb) as (e' & d & He' & Hd & Heq).
    rewrite nth_error_map, Hb in He'. inversion He'; subst e'; clear He'.
    rewrite nth_error_map in Hd.
    destruct (nth_error (s_decoder_hidden_in s) b) as [hprev|] eqn:Hp;
      [|discriminate].
    inversion Hd; subst d; clear Hd.
    inversion Heq; subst attb; clear Heq.
    rewrite !map_map in Hrow.
    destruct (zipM_nth_left _ _ _ b Hcat Hp) as (c' & hc & Hc' & Hhc & Heq).
    assert (c' = Spec.context_vector e w n) by congruence. subst c'.
    inversion Heq; subst hc; clear Heq.
    assert (Hcb : nth_error (s_decoder_hidden_combined s) b
                  = Some (decoder_hidden_combine M
                            (hprev ++ Spec.context_vector e w n)))
      by (rewrite Hcomb, nth_error_map, Hhc; reflexivity).
    destruct (nth_error (s_decoder_inputs_emb s) b) as [emb|] eqn:Hembb.
    2:{ apply nth_error_None in Hembb.
        assert (b < length enc)%nat by (apply nth_error_Some; congruence).
        rewrite Hcomb, length_map in Hl5. lia. }
    destruct (mapM_nth_inv _ _ _ Hemb Hembb) as (tok & Htok & Htokemb).
    destruct (zipM_nth_left _ _ _ b Hdec Hembb) as (c2 & x & Hc2 & Hx & Heq).
    assert (c2 = decoder_hidden_combine M
                   (hprev ++ Spec.context_vector e w n)) by congruence.
    subst c2. inversion Heq; subst x; clear Heq.
    exists m, hprev, tok, emb, w.
    split; [exact Hm|]. split; [reflexivity|]. split; [exact Htok|].
    split; [exact Htokemb|]. split; [exact Hrow|]. split; [exact Hw|].
    split; [|split; [exact Hc | exact Hx]].
    unfold attend in Hattend.
    apply bind_some in Hattend as (weighted & Hwd & _).
    apply zipM_length in Hwd as [Hwl _]. congruence.
  - destruct k as [|k]; [|assumption].
    rewrite Hin. apply Forall_forall. intros row Hrow.
    apply in_map_iff in Hrow as (x & <- & _).
    apply Forall_forall. intros y Hy.
    apply in_map_iff in Hy as (z & <- & _). reflexivity.
Qed.

Lemma exact_decode_context_and_hidden_witness :
  exists trace s,
    decode_steps attention_model [[[1]; [1]]] [[1; 0]]%Z None zero_draws
    = Some trace
    /\ nth_error trace 0 = Some s
    /\ length (s_decoder_hidden s) = 1%nat
    /\ (forall b e n,
          nth_error [[[1]; [1]]] b = Some e ->
          Forall (fun x => length x = n) e ->
          exists m hprev tok emb w,
            nth_error [[1; 0]]%Z b = Some m
            /\ nth_error (s_decoder_hidden_in s) b = Some hprev
            /\ nth_error (s_decoder_inputs s) b = Some tok
            /\ embedding attention_model tok = Some emb
            /\ Softmax.softmax_masked_row
                 (map (fun x =>
                         attention_reduce attention_model
                           (map tanh
                              (vadd (attention_encoder attention_model x)
                                 (attention_decoder attention_model hprev))))
                    e)
                 m Softmax.default_epsilon = Some w
            /\ nth_error (s_att_normazlied s) b = Some w
            /\ length w = length e
            /\ nth_error (s_decoder_hidden_att s) b
               = Some (Spec.context_vector e w n)
            /\ nth_error (s_decoder_hidden s) b
               = Some (decoder attention_model emb
                         (decoder_hidden_combine attention_model
                            (hprev ++ Spec.context_vector e w n))))
    /\ Forall (Forall (fun x => x = 0)) (s_decoder_hidden_in s).
Proof.
  destruct (@decode_steps_total attention_model [[[1]; [1]]] [[1; 0]]%Z
              None zero_draws example_model_ok)
    as (trace & Htrace & Hlen & _).
  - repeat constructor. eexists _, _. split; [reflexivity | discriminate].
  - reflexivity.
  - repeat constructor; SoftmaxFacts.binary_mask_tac.
  - exact I.
  - destruct trace as [|s trace]; [discriminate|].
    exists (s :: trace), s.
    split; [exact Htrace|]. split; [reflexivity|].
    exact (@exact_decode_context_and_hidden attention_model [[[1]; [1]]]
             [[1; 0]]%Z None zero_draws (s :: trace) 0%nat s
             Htrace eq_refl).
Defined.

End AttentionClaims.

(** ** Seq2SeqModel: the iterations of decode *)

Module PlainFacts.

Import Seq2SeqModel.

Local Open Scope R_scope.

Lemma plain_decode_step_inv (M : t) (targets : option LongTensor2) (draw : R)
  (i : nat) (h : Tensor2) (inp : LongTensor1) (s : Step) :
  decode_step M targets draw i h inp = Some s ->
  s_decoder_inputs s = inp
  /\ (exists emb,
         mapM (embedding M) inp = Some emb
         /\ zipM (fun x a => Some (decoder M x a)) emb h
            = Some (s_decoder_hidden s))
  /\ s_decoder_output_logit s = map (decoder_projection M) (s_decoder_hidden s)
  /\ next_decoder_inputs (teacher_forcing M) targets draw i
       (s_decoder_output_logit s) = Some (s_next_inputs s).
Proof.
  unfold decode_step. intros H.
  apply bind_some in H as (emb & Hemb & H).
  apply bind_some in H as (h' & Hh' & H).
  apply bind_some in H as (next & Hnext & H).
  inversion H; subst; clear H; simpl.
  repeat split; eauto.
Qed.




End PlainFacts.

(** ** The claims on the decoding policy *)

Module DecodingClaims.

Import Shape Examples.

Local Open Scope R_scope.

Lemma attention_policy (M : Seq2SeqAttentionModel.t) (enc : Tensor3)
  (mask : LongTensor2) (targets : option LongTensor2) (rand : nat -> R)
  (steps : list Seq2SeqAttentionModel.Step) :
  Seq2SeqAttentionModel.decode_steps M enc mask targets rand = Some steps ->
  Spec.follows_policy Seq2SeqAttentionModel.s_decoder_inputs
    Seq2SeqAttentionModel.s_next_inputs
    Seq2SeqAttentionModel.s_decoder_output_logit
    (Seq2SeqAttentionModel.teacher_forcing M)
    (start_token (Seq2SeqAttentionModel.start_index M)) targets rand steps.
Proof.
  intros H. apply AttentionFacts.decode_steps_nth in H as [_ Hnth].
  split.
  - intros s Hs. destruct (Hnth _ _ Hs) as (h' & inp' & Hstep & ->).
    apply AttentionFacts.decode_step_inv in Hstep as (-> & _).
    apply Forall_forall. intros x Hx. now apply repeat_spec in Hx.
  - intros i s Hs. destruct (Hnth _ _ Hs) as (h' & inp' & Hstep & _).
    apply AttentionFacts.decode_step_inv in Hstep
      as (_ & _ & _ & _ & _ & _ & _ & _ & Hnext).
    split; [|split].
    + intros t -> Hlt.
      now rewrite next_decoder_inputs_forced in Hnext.
    + intros Hfree. now rewrite next_decoder_inputs_free in Hnext.
    + intros s' Hs'.
      destruct (Hnth _ _ Hs') as (h'' & inp'' & Hstep' & (s0 & Hs0 & _ & ->)).
      apply AttentionFacts.decode_step_inv in Hstep' as (-> & _).
      congruence.
Qed.





(** C4: in the [decode] that [forward] runs with targets, an iteration
    hands on the target token exactly when its draw is below
    [teacher_forcing], and the argmax otherwise; of the [n] equally likely
    draws [0/n, ..., (n-1)/n], exactly [k] take the target branch when the
    rate is [k/n], so the branch is taken with probability [k/n], the rate;
    without targets the branch is taken for no rate and no draw, and the
    argmax is handed on; with targets and a draw of [[0, 1)] the branch is
    never taken for the rate 0 and always for the rate 1. *)
Theorem teacher_forcing_rate :
  (forall (M : Seq2SeqAttentionModel.t) (inputs t : LongTensor2)
          (rand : nat -> R) (steps : list Seq2SeqAttentionModel.Step)
          (i : nat) (s : Seq2SeqAttentionModel.Step),
      Seq2SeqAttentionModel.forward_steps M inputs (Some t) rand
      = Some steps ->
      nth_error steps i = Some s ->
      (teacher_forced (Seq2SeqAttentionModel.teacher_forcing M) (Some t)
         (rand i) = true
       <-> rand i < Seq2SeqAttentionModel.teacher_forcing M)
      /\ (rand i < Seq2SeqAttentionModel.teacher_forcing M ->
          column i t = Some (Seq2SeqAttentionModel.s_next_inputs s))
      /\ (~ rand i < Seq2SeqAttentionModel.teacher_forcing M ->
          argmax_rows (Seq2SeqAttentionModel.s_decoder_output_logit s)
          = Some (Seq2SeqAttentionModel.s_next_inputs s)))
  /\ (forall (n k : nat) (t : LongTensor2),
         (0 < n)%nat -> (k <= n)%nat ->
         length (filter (teacher_forced (INR k / INR n) (Some t))
                   (Spec.grid n)) = k)
  /\ (forall (M : Seq2SeqAttentionModel.t) (inputs : LongTensor2)
             (rand : nat -> R) (steps : list Seq2SeqAttentionModel.Step)
             (i : nat) (s : Seq2SeqAttentionModel.Step),
         Seq2SeqAttentionModel.forward_steps M inputs None rand
         = Some steps ->
         nth_error steps i = Some s ->
         teacher_forced (Seq2SeqAttentionModel.teacher_forcing M) None
           (rand i) = false
         /\ argmax_rows (Seq2SeqAttentionModel.s_decoder_output_logit s)
            = Some (Seq2SeqAttentionModel.s_next_inputs s))
  /\ (forall (t : LongTensor2) (u : R),
         0 <= u < 1 ->
         teacher_forced 0 (Some t) u = false
         /\ teacher_forced 1 (Some t) u = true).
Proof.
  split; [|split; [|split]]; cycle 3.
  - intros t u Hu. split.
    + apply teacher_forced_false. right. lra.
    + apply teacher_forced_true. split; [lra | discriminate].
  - intros M inputs t rand steps i s H Hs.
    apply AttentionFacts.forward_steps_inv in H as (enc & _ & H).
    apply attention_policy in H as [_ H].
    destruct (H i s Hs) as (Hforced & Hfree & _).
    split; [|split].
    + rewrite teacher_forced_true. split; [tauto|].
      intros Hlt. split; [assumption | discriminate].
    + intros Hlt. apply Hforced; [reflexivity | assumption].
    + intros Hge. apply Hfree. right. assumption.
  - intros n k t Hn Hk. apply grid_forced_count; assumption.
  - intros M inputs rand steps i s H Hs.
    apply AttentionFacts.forward_steps_inv in H as (enc & _ & H).
    apply attention_policy in H as [_ H].
    destruct (H i s Hs) as (_ & Hfree & _).
    split; [apply teacher_forced_false; left; reflexivity|].
    apply Hfree. left. reflexivity.
Qed.

Lemma teacher_forcing_rate_witness :
  (exists steps s,
      Seq2SeqAttentionModel.forward_steps attention_model padded_inputs
        some_targets zero_draws = Some steps
      /\ nth_error steps 0 = Some s
      /\ column 0 [[2; 0]]%Z
         = Some (Seq2SeqAttentionModel.s_next_inputs s))
  /\ length (filter (teacher_forced (INR 1 / INR 2) some_targets)
               (Spec.grid 2)) = 1%nat
  /\ exists steps s,
       Seq2SeqAttentionModel.forward_steps attention_model padded_inputs
         None zero_draws = Some steps
       /\ nth_error steps 0 = Some s
       /\ argmax_rows (Seq2SeqAttentionModel.s_decoder_output_logit s)
          = Some (Seq2SeqAttentionModel.s_next_inputs s).
Proof.
  destruct teacher_forcing_rate as (Htrain & Hgrid & Hinfer & _).
  split; [|split].
  - destruct (@AttentionShape.forward_total attention_model padded_inputs
                some_targets zero_draws 2 AttentionClaims.example_model_ok
                AttentionClaims.example_inputs_ok
                AttentionClaims.example_targets_ok)
      as (steps & out & Hsteps & Hlen & _).
    destruct steps as [|s steps]; [discriminate|].
    exists (s :: steps), s. split; [exact Hsteps|]. split; [reflexivity|].
    apply (Htrain attention_model padded_inputs [[2; 0]]%Z zero_draws
             (s :: steps) 0%nat s Hsteps eq_refl).
    unfold zero_draws. simpl. lra.
  - apply (Hgrid 2%nat 1%nat [[2; 0]]%Z); lia.
  - destruct (@AttentionShape.forward_total attention_model padded_inputs
                None zero_draws 2 AttentionClaims.example_model_ok
                AttentionClaims.example_inputs_ok I)
      as (steps & out & Hsteps & Hlen & _).
    destruct steps as [|s steps]; [discriminate|].
    exists (s :: steps), s. split; [exact Hsteps|]. split; [reflexivity|].
    apply (Hinfer attention_model padded_inputs zero_draws
             (s :: steps) 0%nat s Hsteps eq_refl).
Defined.

End DecodingClaims.

(** ** SubtitlesDialogDataset *)

Module DatasetFacts.

Import SubtitlesDialogDataset Spec.

Lemma pad_sentence_eq (self : t) (sent : list string) :
  (1 <= max_len self)%Z ->
  _pad_sentnece self sent
  = firstn (end_position self sent) sent
    ++ Vocab.END_TOKEN
       :: repeat Vocab.PAD_TOKEN
            (Z.to_nat (max_len self) - S (end_position self sent)).
Proof.
  intros H. unfold _pad_sentnece, py_slice_to, end_position.
  replace (0 <=? max_len self - 1)%Z with true
    by (symmetry; apply Z.leb_le; lia).
  assert (Hf : firstn (Z.to_nat (max_len self - 1)) sent
               = firstn (Nat.min (length sent)
                           (Z.to_nat (max_len self - 1))) sent).
  { destruct (Nat.le_ge_cases (length sent) (Z.to_nat (max_len self - 1))).
    - rewrite Nat.min_l by assumption.
      rewrite !firstn_all2 by lia. reflexivity.
    - rewrite Nat.min_r by assumption. reflexivity. }
  rewrite Hf. rewrite <- app_assoc. simpl. do 3 f_equal.
  rewrite length_app, length_firstn. simpl. lia.
Qed.

Lemma end_position_bound (self : t) (sent : list string) :
  (1 <= max_len self)%Z ->
  (end_position self sent < Z.to_nat (max_len self))%nat.
Proof. unfold end_position. lia. Qed.

Lemma pad_sentence_length (self : t) (sent : list string) :
  (1 <= max_len self)%Z ->
  length (_pad_sentnece self sent) = Z.to_nat (max_len self).
Proof.
  intros H. rewrite pad_sentence_eq by assumption.
  pose proof (end_position_bound self sent H).
  rewrite length_app, length_firstn. simpl. rewrite repeat_length.
  unfold end_position in *. lia.
Qed.

Lemma lookup_known (self : t) (tok : string) (id : nat) :
  Vocab.__getitem__ (vocab self) tok = Some id -> lookup self tok = Some id.
Proof.
  unfold lookup, Vocab.__contains__, Vocab.__getitem__, Dict.contains.
  intros H. rewrite H. reflexivity.
Qed.

Lemma lookup_unknown (self : t) (tok : string) :
  Vocab.__contains__ (vocab self) tok = false ->
  lookup self tok = Vocab.__getitem__ (vocab self) Vocab.UNK_TOKEN.
Proof. unfold lookup. intros H. rewrite H. reflexivity. Qed.

Lemma lookup_total (self : t) (unk_id : nat) (tok : string) :
  Vocab.__getitem__ (vocab self) Vocab.UNK_TOKEN = Some unk_id ->
  exists id, lookup self tok = Some id.
Proof.
  intros H. unfold lookup, Vocab.__contains__, Dict.contains.
  unfold Vocab.__getitem__ at 1.
  destruct (Dict.get string_dec (Vocab.token2id (vocab self)) tok); eauto.
Qed.

Lemma process_sent_some (self : t) (sent : list string) (unk_id : nat) :
  Vocab.__getitem__ (vocab self) Vocab.UNK_TOKEN = Some unk_id ->
  exists ids,
    mapM (lookup self) (_pad_sentnece self sent) = Some ids
    /\ _process_sent self sent = Some (map Z.of_nat ids).
Proof.
  intros H.
  destruct (@mapM_some _ _ (lookup self) (_pad_sentnece self sent))
    as (ids & Hids).
  { intros tok _. eapply lookup_total; eauto. }
  exists ids. split; [assumption|].
  unfold _process_sent. rewrite Hids. reflexivity.
Qed.

Lemma process_sent_inv (self : t) (sent : list string) (r : list Z) :
  _process_sent self sent = Some r ->
  exists ids,
    mapM (lookup self) (_pad_sentnece self sent) = Some ids
    /\ r = map Z.of_nat ids.
Proof.
  unfold _process_sent. intros H.
  apply bind_some in H as (ids & Hids & H). inversion H. eauto.
Qed.

Lemma process_sent_length (self : t) (sent : list string) (r : list Z) :
  (1 <= max_len self)%Z ->
  _process_sent self sent = Some r ->
  length r = Z.to_nat (max_len self).
Proof.
  intros Hl H. apply process_sent_inv in H as (ids & Hids & ->).
  apply mapM_length in Hids.
  rewrite length_map, Hids. apply pad_sentence_length. assumption.
Qed.

(** The id at a position of the padded sentence. *)
Lemma process_sent_nth (self : t) (sent : list string) (r : list Z)
  (j : nat) (tok : string) (id : nat) :
  _process_sent self sent = Some r ->
  nth_error (_pad_sentnece self sent) j = Some tok ->
  lookup self tok = Some id ->
  nth_error r j = Some (Z.of_nat id).
Proof.
  intros H Hj Hid. apply process_sent_inv in H as (ids & Hids & ->).
  destruct (mapM_nth _ _ _ Hids Hj) as (id' & Hn & Hl).
  rewrite nth_error_map, Hn. simpl. congruence.
Qed.

Lemma pad_sentence_nth_end (self : t) (sent : list string) :
  (1 <= max_len self)%Z ->
  nth_error (_pad_sentnece self sent) (end_position self sent)
  = Some Vocab.END_TOKEN.
Proof.
  intros H. rewrite pad_sentence_eq by assumption.
  assert (Hlen : length (firstn (end_position self sent) sent)
                 = end_position self sent).
  { rewrite length_firstn. unfold end_position. lia. }
  rewrite nth_error_app2 by lia. rewrite Hlen, Nat.sub_diag. reflexivity.
Qed.

Lemma pad_sentence_nth_pad (self : t) (sent : list string) (j : nat) :
  (1 <= max_len self)%Z ->
  (end_position self sent < j < Z.to_nat (max_len self))%nat ->
  nth_error (_pad_sentnece self sent) j = Some Vocab.PAD_TOKEN.
Proof.
  intros H Hj. rewrite pad_sentence_eq by assumption.
  assert (Hlen : length (firstn (end_position self sent) sent)
                 = end_position self sent).
  { rewrite length_firstn. unfold end_position. lia. }
  rewrite nth_error_app2 by lia. rewrite Hlen.
  destruct (j - end_position self sent)%nat as [|d] eqn:E; [lia|].
  simpl. apply nth_error_repeat. lia.
Qed.

Lemma pad_sentence_nth_token (self : t) (sent : list string) (j : nat) :
  (1 <= max_len self)%Z ->
  (j < end_position self sent)%nat ->
  nth_error (_pad_sentnece self sent) j = nth_error sent j.
Proof.
  intros H Hj. rewrite pad_sentence_eq by assumption.
  rewrite nth_error_app1.
  - rewrite nth_error_firstn.
    replace (j <? end_position self sent)%nat with true
      by (symmetry; apply Nat.ltb_lt; assumption).
    reflexivity.
  - rewrite length_firstn. unfold end_position in *. lia.
Qed.

Lemma py_index_nonneg {A : Type} (l : list A) (i : Z) :
  (0 <= i)%Z -> py_index l i = nth_error l (Z.to_nat i).
Proof.
  intros H. unfold py_index.
  replace (0 <=? i)%Z with true by (symmetry; apply Z.leb_le; lia).
  reflexivity.
Qed.

Lemma getitem_inv (self : t) (index : Z) (q r : list Z) :
  __getitem__ self index = Some (q, r) ->
  exists ql rl,
    py_index (lines self) index = Some ql
    /\ py_index (lines self) (index + 1) = Some rl
    /\ _process_sent self ql = Some q
    /\ _process_sent self rl = Some r.
Proof.
  unfold __getitem__. intros H.
  apply bind_some in H as (ql & Hql & H).
  apply bind_some in H as (rl & Hrl & H).
  apply bind_some in H as (q' & Hq & H).
  apply bind_some in H as (r' & Hr & H).
  inversion H; subst. eauto 6.
Qed.

(** C9: with [max_len >= 1] and a vocabulary that holds the end, padding
    and unknown tokens, [_process_sent] returns [max_len] ids: the id of the
    end token at position [min(len(sent), max_len - 1)], the id of the
    padding token at every later position, and before it the id of each
    input token, which is the id of the unknown token for a token the
    vocabulary does not hold.  [__getitem__] returns these sequences for
    line [index] and line [index + 1]. *)
Theorem process_sent_padded (self : t) (sent : list string)
  (end_id pad_id unk_id : nat) :
  (1 <= max_len self)%Z ->
  Vocab.__getitem__ (vocab self) Vocab.END_TOKEN = Some end_id ->
  Vocab.__getitem__ (vocab self) Vocab.PAD_TOKEN = Some pad_id ->
  Vocab.__getitem__ (vocab self) Vocab.UNK_TOKEN = Some unk_id ->
  (exists ids,
      _process_sent self sent = Some ids
      /\ length ids = Z.to_nat (max_len self)
      /\ nth_error ids (end_position self sent) = Some (Z.of_nat end_id)
      /\ (forall j,
             (end_position self sent < j < Z.to_nat (max_len self))%nat ->
             nth_error ids j = Some (Z.of_nat pad_id))
      /\ (forall j tok,
             (j < end_position self sent)%nat ->
             nth_error sent j = Some tok ->
             (Vocab.__contains__ (vocab self) tok = false ->
              nth_error ids j = Some (Z.of_nat unk_id))
             /\ (forall id,
                    Vocab.__getitem__ (vocab self) tok = Some id ->
                    nth_error ids j = Some (Z.of_nat id))))
  /\ (forall index,
         (0 <= index)%Z ->
         (index + 1 < Z.of_nat (length (lines self)))%Z ->
         exists ql rl q r,
           nth_error (lines self) (Z.to_nat index) = Some ql
           /\ nth_error (lines self) (Z.to_nat index + 1) = Some rl
           /\ _process_sent self ql = Some q
           /\ _process_sent self rl = Some r
           /\ __getitem__ self index = Some (q, r))
  /\ (forall index q r,
         __getitem__ self index = Some (q, r) ->
         length q = Z.to_nat (max_len self)
         /\ length r = Z.to_nat (max_len self)).
Proof.
  intros Hlen Hend Hpad Hunk. split; [|split].
  - destruct (process_sent_some self sent Hunk) as (ids & _ & Hids).
    exists (map Z.of_nat ids). split; [assumption|].
    split; [eapply process_sent_length; eauto|].
    split; [|split].
    + eapply process_sent_nth; eauto using pad_sentence_nth_end, lookup_known.
    + intros j Hj.
      eapply process_sent_nth;
        eauto using pad_sentence_nth_pad, lookup_known.
    + intros j tok Hj Htok.
      assert (Hn : nth_error (_pad_sentnece self sent) j = Some tok)
        by (rewrite pad_sentence_nth_token; assumption).
      split.
      * intros Hc. eapply process_sent_nth; eauto.
        rewrite lookup_unknown; assumption.
      * intros id Hid. eapply process_sent_nth; eauto using lookup_known.
  - intros index H0 H1.
    destruct (nth_error (lines self) (Z.to_nat index)) as [ql|] eqn:Hq.
    2:{ apply nth_error_None in Hq. lia. }
    destruct (nth_error (lines self) (Z.to_nat index + 1)) as [rl|] eqn:Hr.
    2:{ apply nth_error_None in Hr. lia. }
    destruct (process_sent_some self ql Hunk) as (q & _ & Hpq).
    destruct (process_sent_some self rl Hunk) as (r & _ & Hpr).
    exists ql, rl, (map Z.of_nat q), (map Z.of_nat r).
    repeat split; try assumption.
    unfold __getitem__.
    rewrite !py_index_nonneg by lia. rewrite Hq.
    replace (Z.to_nat (index + 1)) with (Z.to_nat index + 1)%nat by lia.
    rewrite Hr. cbn [bind]. rewrite Hpq, Hpr. reflexivity.
  - intros index q r H.
    apply getitem_inv in H as (ql & rl & _ & _ & Hq & Hr).
    split; eapply process_sent_length; eauto.
Qed.

Lemma process_sent_padded_witness :
  (exists ids,
      _process_sent Examples.example_dataset ["a"; "z"; "b"; "c"]%string
      = Some ids
      /\ length ids = 3%nat
      /\ nth_error ids 2 = Some 2%Z)
  /\ exists q r,
       __getitem__ Examples.example_dataset 0 = Some (q, r)
       /\ length q = 3%nat /\ length r = 3%nat.
Proof.
  destruct (@process_sent_padded Examples.example_dataset
              ["a"; "z"; "b"; "c"]%string 2 0 3
              ltac:(simpl; lia) eq_refl eq_refl eq_refl)
    as ((ids & Hids & Hlen & Hend & _) & Hget & Hshape).
  split.
  - exists ids. split; [exact Hids|]. split; [exact Hlen | exact Hend].
  - destruct (Hget 0%Z ltac:(lia) ltac:(simpl; lia))
      as (ql & rl & q & r & _ & _ & _ & _ & Hqr).
    exists q, r. split; [exact Hqr|]. exact (Hshape _ _ _ Hqr).
Defined.

End DatasetFacts.

(** ** Dictionaries *)

Module DictFacts.

Section DictFacts.

Variables K V : Type.
Variable eq_dec : forall x y : K, {x = y} + {x <> y}.

Local Abbreviation get := (Dict.get eq_dec).
Local Abbreviation set := (Dict.set eq_dec).
Local Abbreviation pop := (Dict.pop eq_dec).

Lemma get_none (d : Dict.dict K V) (k : K) :
  get d k = None <-> ~ In k (Dict.keys d).
Proof.
  induction d as [|[k' v'] d IH]; simpl; [tauto|].
  destruct (eq_dec k k') as [->|Hne].
  - split; [discriminate | intros H; exfalso; apply H; auto].
  - rewrite IH. split; intros H; [intros [Heq|Hin]; congruence | tauto].
Qed.

Lemma get_some_in (d : Dict.dict K V) (k : K) (v : V) :
  get d k = Some v -> In k (Dict.keys d).
Proof.
  intros H. destruct (in_dec eq_dec k (Dict.keys d)) as [Hin|Hnin];
    [assumption|].
  apply get_none in Hnin. congruence.
Qed.

Lemma get_in (d : Dict.dict K V) (k : K) (v : V) :
  NoDup (Dict.keys d) -> In (k, v) d -> get d k = Some v.
Proof.
  induction d as [|[k' v'] d IH]; simpl; [contradiction|].
  intros Hnd [Heq|Hin].
  - inversion Heq; subst. destruct (eq_dec k k); congruence.
  - inversion Hnd as [|? ? Hnotin Hnd']; subst.
    destruct (eq_dec k k') as [->|Hne]; [|auto].
    exfalso. apply Hnotin. apply (in_map fst) in Hin. exact Hin.
Qed.

Lemma set_fresh (d : Dict.dict K V) (k : K) (v : V) :
  ~ In k (Dict.keys d) -> set d k v = d ++ [(k, v)].
Proof.
  induction d as [|[k' v'] d IH]; simpl; intros H; [reflexivity|].
  destruct (eq_dec k k') as [->|Hne]; [exfalso; auto|].
  rewrite IH by tauto. reflexivity.
Qed.

Lemma keys_set_in (d : Dict.dict K V) (k : K) (v : V) :
  In k (Dict.keys d) -> Dict.keys (set d k v) = Dict.keys d.
Proof.
  induction d as [|[k' v'] d IH]; simpl; intros H; [contradiction|].
  destruct (eq_dec k k') as [->|Hne]; [reflexivity|].
  simpl. f_equal. apply IH. destruct H; congruence.
Qed.

Lemma keys_set (d : Dict.dict K V) (k : K) (v : V) :
  Dict.keys (set d k v)
  = Dict.keys d ++ (if in_dec eq_dec k (Dict.keys d) then [] else [k]).
Proof.
  destruct (in_dec eq_dec k (Dict.keys d)) as [Hin|Hnin].
  - rewrite keys_set_in by assumption. now rewrite app_nil_r.
  - rewrite set_fresh by assumption. unfold Dict.keys.
    now rewrite map_app.
Qed.

Lemma contains_in (d : Dict.dict K V) (k : K) :
  Dict.contains eq_dec d k = true <-> In k (Dict.keys d).
Proof.
  unfold Dict.contains. destruct (get d k) as [v|] eqn:E.
  - split; [intros _; eapply get_some_in; eauto | reflexivity].
  - apply get_none in E. split; [discriminate | contradiction].
Qed.

Lemma pop_some (d : Dict.dict K V) (k : K) :
  In k (Dict.keys d) -> exists d', pop d k = Some d'.
Proof.
  induction d as [|[k' v'] d IH]; simpl; intros H; [contradiction|].
  destruct (eq_dec k k') as [->|Hne]; [eauto|].
  destruct IH as (d' & Hd'); [destruct H; congruence|].
  rewrite Hd'. simpl. eauto.
Qed.

Lemma pop_spec (d d' : Dict.dict K V) (k : K) :
  pop d k = Some d' ->
  NoDup (Dict.keys d) ->
  NoDup (Dict.keys d')
  /\ (forall x, In x (Dict.keys d') <-> In x (Dict.keys d) /\ x <> k)
  /\ (forall x, x <> k -> get d' x = get d x).
Proof.
  revert d'; induction d as [|[k' v'] d IH]; simpl; intros d' H Hnd;
    [discriminate|].
  inversion Hnd as [|? ? Hnotin Hnd']; subst.
  destruct (eq_dec k k') as [->|Hne].
  - inversion H; subst. split; [assumption|]. split.
    + intros x. split.
      * intros Hx. split; [auto | intros ->; contradiction].
      * intros [[Heq|Hin] Hx]; congruence.
    + intros x Hx. destruct (eq_dec x k'); congruence.
  - apply bind_some in H as (d'' & Hd'' & H). inversion H; subst.
    destruct (IH _ Hd'' Hnd') as (Hnd'' & Hkeys & Hget).
    split; [|split].
    + simpl. constructor; [|assumption].
      intros Hin. apply Hkeys in Hin. tauto.
    + intros x. simpl. rewrite Hkeys. split.
      * intros [<-|[Hin Hx]]; [split; [auto | congruence] | tauto].
      * intros [[<-|Hin] Hx]; tauto.
    + intros x Hx. simpl. destruct (eq_dec x k'); auto.
Qed.

(** Assigning fresh, distinct keys one after the other appends them. *)
Lemma fold_set_fresh (items : list (K * V)) :
  forall d : Dict.dict K V,
    NoDup (map fst items) ->
    (forall k, In k (map fst items) -> ~ In k (Dict.keys d)) ->
    fold_left (fun acc p => set acc (fst p) (snd p)) items d = d ++ items.
Proof.
  induction items as [|[k v] items IH]; intros d Hnd Hfresh; simpl.
  - now rewrite app_nil_r.
  - inversion Hnd as [|? ? Hnotin Hnd']; subst.
    rewrite set_fresh by (apply Hfresh; simpl; auto).
    rewrite IH; [now rewrite <- app_assoc | assumption |].
    intros k0 Hk0. unfold Dict.keys. rewrite map_app, in_app_iff. simpl.
    intros [Hin|[<-|[]]]; [|contradiction].
    apply (Hfresh k0); simpl; auto.
Qed.

End DictFacts.

End DictFacts.

(** ** Vocab: the state its methods keep *)

Module VocabFacts.

Import Vocab Spec DictFacts.

Lemma NoDup_snoc {A : Type} (l : list A) (x : A) :
  NoDup l -> ~ In x l -> NoDup (l ++ [x]).
Proof.
  intros Hl Hx. apply NoDup_app; [assumption | repeat constructor; auto |].
  intros a Ha [<-|[]]. contradiction.
Qed.

(** [_rebuild_id2token] turns the items of [token2id] around when no id
    occurs twice. *)
Lemma rebuild_fold (d : Dict.dict string nat) :
  forall acc : Dict.dict nat string,
    NoDup (map snd d) ->
    (forall i, In i (map snd d) -> ~ In i (Dict.keys acc)) ->
    fold_left (fun a '(tok, i) => Dict.set Nat.eq_dec a i tok) d acc
    = acc ++ map (fun p => (snd p, fst p)) d.
Proof.
  induction d as [|[tok i] d IH]; intros acc Hnd Hfresh; simpl.
  - now rewrite app_nil_r.
  - inversion Hnd as [|? ? Hnotin Hnd']; subst.
    rewrite set_fresh by (apply Hfresh; simpl; auto).
    rewrite IH; [now rewrite <- app_assoc | assumption |].
    intros j Hj. unfold Dict.keys. rewrite map_app, in_app_iff. simpl.
    intros [Hin|[<-|[]]]; [|contradiction].
    apply (Hfresh j); simpl; auto.
Qed.

Lemma ids_nodup (d : Dict.dict string nat) :
  map snd d = seq 0 (length d) -> NoDup (map snd d).
Proof. intros ->. apply seq_NoDup. Qed.

Lemma rebuild_id2token (v : t) :
  map snd (token2id v) = seq 0 (length (token2id v)) ->
  id2token (_rebuild_id2token v)
  = map (fun p => (snd p, fst p)) (token2id v).
Proof.
  intros H. unfold _rebuild_id2token. simpl.
  rewrite rebuild_fold; [reflexivity | apply ids_nodup; assumption |].
  intros i _ [].
Qed.

(** One token added. *)
Lemma add_token_core (v : t) (tok : string) :
  vocab_core v ->
  vocab_core (add_token v tok)
  /\ Dict.keys (token2id (add_token v tok))
     = Dict.keys (token2id v)
       ++ (if in_dec string_dec tok (Dict.keys (token2id v))
           then [] else [tok]).
Proof.
  intros (Hnd & Hids & Hcnd & Hkeys).
  unfold add_token, vocab_core. simpl.
  destruct (in_dec string_dec tok (Dict.keys (token2id v))) as [Hin|Hnin].
  - assert (Hc : Dict.contains string_dec (token2id v) tok = true)
      by (apply contains_in; assumption).
    rewrite Hc, app_nil_r.
    rewrite keys_set_in by (apply Hkeys; assumption). auto.
  - assert (Hc : Dict.contains string_dec (token2id v) tok = false).
    { destruct (Dict.contains string_dec (token2id v) tok) eqn:E;
        [apply contains_in in E; contradiction | reflexivity]. }
    rewrite Hc. rewrite (set_fresh string_dec (token2id v)) by assumption.
    assert (Hcn : ~ In tok (Dict.keys (token_counts v)))
      by (rewrite <- Hkeys; assumption).
    rewrite (set_fresh string_dec (token_counts v)) by assumption.
    unfold Dict.keys. rewrite !map_app, length_app. simpl.
    split; [|reflexivity].
    split; [apply NoDup_snoc; assumption|].
    split; [rewrite Hids, Nat.add_1_r, seq_S; reflexivity|].
    split; [apply NoDup_snoc; assumption|].
    intros x. rewrite !in_app_iff. fold (Dict.keys (token2id v)).
    fold (Dict.keys (token_counts v)). rewrite Hkeys. tauto.
Qed.

Lemma add_token_special (v : t) (tok : string) :
  special_tokens (add_token v tok) = special_tokens v.
Proof. reflexivity. Qed.

(** A document added. *)
Lemma add_tokens_core (document : list string) :
  forall v : t,
    vocab_core v ->
    vocab_core (fold_left add_token document v)
    /\ special_tokens (fold_left add_token document v) = special_tokens v
    /\ exists rest,
         Dict.keys (token2id (fold_left add_token document v))
         = Dict.keys (token2id v) ++ rest.
Proof.
  induction document as [|tok document IH]; intros v Hv; simpl.
  - split; [assumption|]. split; [reflexivity|].
    exists []. now rewrite app_nil_r.
  - destruct (add_token_core tok Hv) as [Hv' Hk].
    destruct (IH _ Hv') as (Hcore & Hsp & rest & Hrest).
    split; [assumption|]. split; [rewrite Hsp; reflexivity|].
    rewrite Hrest, Hk, <- app_assoc. eauto.
Qed.

(** The tokens of a document without repetition, all new, are appended in
    order. *)
Lemma add_tokens_fresh (document : list string) :
  forall v : t,
    vocab_core v ->
    NoDup document ->
    (forall tok, In tok document -> ~ In tok (Dict.keys (token2id v))) ->
    Dict.keys (token2id (fold_left add_token document v))
    = Dict.keys (token2id v) ++ document.
Proof.
  induction document as [|tok document IH]; intros v Hv Hnd Hfresh; simpl.
  - now rewrite app_nil_r.
  - inversion Hnd as [|? ? Hnotin Hnd']; subst.
    destruct (add_token_core tok Hv) as [Hv' Hk].
    destruct (in_dec string_dec tok (Dict.keys (token2id v))) as [Hin|_];
      [exfalso; apply (Hfresh tok); simpl; auto|].
    rewrite IH; [rewrite Hk, <- app_assoc; reflexivity | assumption
                 | assumption |].
    intros x Hx. rewrite Hk, in_app_iff. simpl.
    intros [Hin|[<-|[]]]; [|contradiction].
    apply (Hfresh x); simpl; auto.
Qed.

Lemma rebuild_wf (sp : list string) (v : t) :
  special_tokens v = Some sp ->
  vocab_core v ->
  (exists rest, Dict.keys (token2id v) = sp ++ rest) ->
  vocab_wf sp (_rebuild_id2token v).
Proof.
  intros Hsp Hcore Hrest. unfold vocab_wf.
  split; [exact Hsp|].
  split; [unfold vocab_core in *; simpl; exact Hcore|].
  split; [|exact Hrest].
  rewrite rebuild_id2token by apply Hcore. reflexivity.
Qed.

Lemma init_wf (sp : list string) :
  NoDup sp -> vocab_wf sp (__init__ (Some sp)).
Proof.
  intros Hnd. unfold __init__, add_document.
  set (v0 := {| special_tokens := Some sp; token2id := [];
                id2token := []; token_counts := [] |}).
  assert (Hv0 : vocab_core v0).
  { unfold vocab_core, v0. simpl. repeat split; auto; constructor. }
  destruct (add_tokens_core sp Hv0) as (Hcore & Hsp & _).
  apply rebuild_wf; [rewrite Hsp; reflexivity | assumption |].
  exists []. rewrite app_nil_r.
  rewrite add_tokens_fresh; auto.
Qed.

Lemma add_document_wf (sp : list string) (v : t) (document : list string) :
  vocab_wf sp v -> vocab_wf sp (add_document v document true).
Proof.
  intros (Hsp & Hcore & _ & rest & Hrest). unfold add_document.
  destruct (add_tokens_core document Hcore) as (Hcore' & Hsp' & r & Hr).
  apply rebuild_wf; [congruence | assumption |].
  exists (rest ++ r). rewrite Hr, Hrest, app_assoc. reflexivity.
Qed.

Lemma add_documents_wf (sp : list string) (v : t)
  (documents : list (list string)) :
  vocab_wf sp v -> vocab_wf sp (add_documents v documents).
Proof.
  intros (Hsp & Hcore & _ & rest & Hrest). unfold add_documents.
  assert (H : forall docs v,
             special_tokens v = Some sp -> vocab_core v ->
             (exists rest, Dict.keys (token2id v) = sp ++ rest) ->
             let v' := fold_left (fun v doc => add_document v doc false)
                         docs v in
             special_tokens v' = Some sp /\ vocab_core v'
             /\ exists rest, Dict.keys (token2id v') = sp ++ rest).
  { induction docs as [|doc docs IH]; intros w Hw Hc (r & Hr); simpl.
    - eauto.
    - apply IH; unfold add_document;
        destruct (add_tokens_core doc Hc) as (Hc' & Hs' & r' & Hr').
      + congruence.
      + assumption.
      + exists (r ++ r'). rewrite Hr', Hr, app_assoc. reflexivity. }
  destruct (H documents v Hsp Hcore (ex_intro _ rest Hrest))
    as (Hsp' & Hcore' & Hrest').
  apply rebuild_wf; assumption.
Qed.

End VocabFacts.

(** ** Vocab: save and load *)

Module VocabRoundTrip.

Import Vocab Spec DictFacts VocabFacts.








End VocabRoundTrip.

(** ** Vocab: prune_vocab keeps the state *)

Module VocabPrune.

Import Vocab Spec DictFacts VocabFacts.

Lemma mem_true (x : string) (l : list string) : mem x l = true <-> In x l.
Proof.
  unfold mem. destruct (in_dec string_dec x l); split; auto; discriminate.
Qed.

Lemma mem_false (x : string) (l : list string) : mem x l = false <-> ~ In x l.
Proof.
  unfold mem. destruct (in_dec string_dec x l); split; auto;
    try discriminate; contradiction.
Qed.

Lemma insert_by_count_in (x p : string * Z) (l : list (string * Z)) :
  In p (insert_by_count x l) <-> p = x \/ In p l.
Proof.
  induction l as [|y l IH]; simpl.
  - split; intros [H|H]; auto.
  - destruct (snd y <=? snd x)%Z; simpl.
    + split; intros [H|H]; auto.
    + rewrite IH. split; intros H; tauto.
Qed.

Lemma in_firstn {A : Type} (n : nat) (l : list A) (x : A) :
  In x (firstn n l) -> In x l.
Proof.
  intros H. rewrite <- (firstn_skipn n l). apply in_app_iff. auto.
Qed.

Lemma most_common_in (c : Dict.dict string Z) (n : Z) (p : string * Z) :
  In p (most_common c n) -> In p c.
Proof.
  unfold most_common. intros H. apply in_firstn in H.
  induction c as [|x c IH]; simpl in H; [contradiction|].
  apply insert_by_count_in in H as [->|H]; simpl; auto.
Qed.

(** The special tokens get the ids [0, 1, ...]. *)
Lemma fold_enumerate (toks : list string) :
  forall (s : nat) (d : Dict.dict string nat),
    NoDup toks ->
    (forall tok, In tok toks -> ~ In tok (Dict.keys d)) ->
    fold_left (fun d '(i, tok) => Dict.set string_dec d tok i)
      (combine (seq s (length toks)) toks) d
    = d ++ combine toks (seq s (length toks)).
Proof.
  induction toks as [|tok toks IH]; intros s d Hnd Hfresh; simpl.
  - now rewrite app_nil_r.
  - inversion Hnd as [|? ? Hnotin Hnd']; subst.
    rewrite set_fresh by (apply Hfresh; simpl; auto).
    rewrite IH; [now rewrite <- app_assoc | assumption |].
    intros x Hx. unfold Dict.keys. rewrite map_app, in_app_iff. simpl.
    intros [Hin|[<-|[]]]; [|contradiction].
    apply (Hfresh x); simpl; auto.
Qed.

(** The other tokens get the ids that follow. *)
Lemma fold_enumerate_offset (off : nat) (toks : list string) :
  forall (s : nat) (d : Dict.dict string nat),
    NoDup toks ->
    (forall tok, In tok toks -> ~ In tok (Dict.keys d)) ->
    fold_left (fun d '(i, tok) => Dict.set string_dec d tok (i + off))
      (combine (seq s (length toks)) toks) d
    = d ++ combine toks (seq (s + off) (length toks)).
Proof.
  induction toks as [|tok toks IH]; intros s d Hnd Hfresh; simpl.
  - now rewrite app_nil_r.
  - inversion Hnd as [|? ? Hnotin Hnd']; subst.
    rewrite set_fresh by (apply Hfresh; simpl; auto).
    rewrite IH; [now rewrite <- app_assoc | assumption |].
    intros x Hx. unfold Dict.keys. rewrite map_app, in_app_iff. simpl.
    intros [Hin|[<-|[]]]; [|contradiction].
    apply (Hfresh x); simpl; auto.
Qed.

Lemma keys_combine (toks : list string) (ids : list nat) :
  length toks = length ids ->
  Dict.keys (combine toks ids) = toks /\ map snd (combine toks ids) = ids.
Proof.
  revert ids; induction toks as [|tok toks IH]; intros [|i ids] H;
    simpl in *; try discriminate; [auto|].
  destruct (IH ids) as [H1 H2]; [congruence|].
  unfold Dict.keys in *. simpl. split; congruence.
Qed.

(** The counts after the tokens to delete are popped. *)
Lemma fold_pop (del : list string) :
  forall c : Dict.dict string Z,
    NoDup (Dict.keys c) ->
    forall c',
      fold_left (fun c tok => c <- c ;; Dict.pop string_dec c tok) del
        (Some c) = Some c' ->
      NoDup (Dict.keys c')
      /\ forall x, In x (Dict.keys c') <-> In x (Dict.keys c) /\ ~ In x del.
Proof.
  induction del as [|tok del IH]; intros c Hnd c' H; simpl in H.
  - inversion H; subst. split; [assumption|]. intros x. simpl. tauto.
  - destruct (Dict.pop string_dec c tok) as [c1|] eqn:E.
    + destruct (@pop_spec _ _ string_dec c c1 tok E Hnd) as (Hnd1 & Hk1 & _).
      destruct (IH c1 Hnd1 c' H) as (Hnd' & Hk').
      split; [assumption|]. intros x. rewrite Hk', Hk1. simpl.
      split; [intros [[H1 H2] H3] | intros [H1 H2]].
      * split; [assumption|]. intros [Heq|Hin]; [congruence|contradiction].
      * split; [split; [assumption|]|]; intros Hx; apply H2; auto.
    + exfalso. clear - H. induction del as [|x del IH]; simpl in H;
        [discriminate | auto].
Qed.

Lemma prune_vocab_wf (set_iter : list string -> list string)
  (sp : list string) (v v' : t) (max_size : Z) :
  set_iter_ok set_iter ->
  vocab_wf sp v ->
  prune_vocab set_iter v max_size = Some v' ->
  vocab_wf sp v'.
Proof.
  intros Hiter (Hsp & (Hnd & Hids & Hcnd & Hkeys) & Hid2 & rest & Hrest) H.
  unfold prune_vocab in H. rewrite Hsp in H. cbn [bind] in H.
  set (common := map fst (most_common (token_counts v) max_size)) in *.
  set (tmc := filter (fun tok => negb (mem tok sp)) common) in *.
  set (del := filter (fun tok => negb (mem tok tmc) && negb (mem tok sp))
                (Dict.keys (token2id v))) in *.
  apply bind_some in H as (counts & Hcounts & H).
  inversion H; subst v'; clear H.
  destruct (@fold_pop (set_iter del) (token_counts v) Hcnd counts Hcounts)
    as (Hcnd' & Hck).
  destruct (Hiter tmc) as [HTnd HTin].
  destruct (Hiter del) as [_ HDin].
  assert (Hspnd : NoDup sp).
  { rewrite Hrest in Hnd. eapply NoDup_app_remove_r; eauto. }
  assert (Hdisj : forall tok, In tok (set_iter tmc) -> ~ In tok sp).
  { intros tok Ht. apply HTin in Ht. unfold tmc in Ht.
    apply filter_In in Ht as [_ Ht]. apply negb_true_iff in Ht.
    apply mem_false. assumption. }
  assert (Hcommon : forall tok, In tok common ->
                                In tok (Dict.keys (token_counts v))).
  { intros tok Ht. unfold common in Ht.
    apply in_map_iff in Ht as (p & <- & Hp).
    apply most_common_in in Hp. apply in_map. assumption. }
  assert (Ht2 :
    fold_left (fun d '(i, tok) => Dict.set string_dec d tok (i + length sp))
      (enumerate (set_iter tmc))
      (fold_left (fun d '(i, tok) => Dict.set string_dec d tok i)
         (enumerate sp) [])
    = combine sp (seq 0 (length sp))
      ++ combine (set_iter tmc) (seq (length sp) (length (set_iter tmc)))).
  { unfold enumerate.
    rewrite (@fold_enumerate sp 0 [] Hspnd) by (intros ? _ []).
    simpl app.
    rewrite (@fold_enumerate_offset (length sp) (set_iter tmc) 0 _ HTnd).
    - reflexivity.
    - intros tok Ht.
      destruct (@keys_combine sp (seq 0 (length sp))) as [-> _];
        [now rewrite length_seq | auto]. }
  destruct (@keys_combine sp (seq 0 (length sp))) as [Hk1 Hi1];
    [now rewrite length_seq|].
  destruct (@keys_combine (set_iter tmc)
              (seq (length sp) (length (set_iter tmc)))) as [Hk2 Hi2];
    [now rewrite length_seq|].
  apply rebuild_wf; simpl; rewrite ?Ht2.
  - reflexivity.
  - unfold vocab_core. simpl.
    unfold Dict.keys in *. rewrite !map_app, Hk1, Hk2, Hi1, Hi2.
    split; [apply NoDup_app; auto; intros a Ha Hb; exact (Hdisj a Hb Ha)|].
    split.
    { rewrite length_app, !length_combine, !length_seq, !Nat.min_id.
      rewrite seq_app. reflexivity. }
    split; [assumption|].
    intros x. fold (Dict.keys counts). rewrite Hck, in_app_iff.
    rewrite HDin. unfold del. rewrite filter_In, andb_true_iff.
    rewrite !negb_true_iff, !mem_false.
    fold (Dict.keys (token_counts v)). fold (Dict.keys (token2id v)).
    rewrite HTin. unfold tmc at 1. rewrite filter_In, negb_true_iff, mem_false.
    split.
    + intros [Hx|[Hx Hnsp]].
      * split.
        -- apply Hkeys. rewrite Hrest. apply in_app_iff. auto.
        -- intros [_ [_ Hn]]. contradiction.
      * split; [auto|].
        intros [_ [Hn _]]. apply Hn. unfold tmc.
        apply filter_In. split; [assumption|].
        apply negb_true_iff, mem_false. assumption.
    + intros [Hx Hnd2].
      destruct (in_dec string_dec x sp) as [Hs|Hs]; [auto|].
      right. split; [|assumption].
      destruct (in_dec string_dec x tmc) as [Ht|Ht].
      * unfold tmc in Ht. apply filter_In in Ht. tauto.
      * exfalso. apply Hnd2. split; [apply Hkeys; assumption | auto].
  - exists (set_iter tmc). unfold Dict.keys in *.
    rewrite map_app, Hk1, Hk2. reflexivity.
Qed.

(** Every vocabulary built from special tokens without repetition is in
    the state the methods keep. *)
Lemma built_wf (sp : list string) (v : t) :
  NoDup sp -> built sp v -> vocab_wf sp v.
Proof.
  intros Hnd. induction 1.
  - apply init_wf. assumption.
  - apply add_document_wf. assumption.
  - apply add_documents_wf. assumption.
  - eapply prune_vocab_wf; eauto.
Qed.

End VocabPrune.

(** ** Vocab: the claim on save and load *)

Module VocabClaims.

Import Vocab Spec.


(** The order of first occurrence is an iteration order of sets. *)
Lemma nodup_iter_ok : set_iter_ok (nodup string_dec).
Proof.
  intros l. split; [apply NoDup_nodup | intros x; apply nodup_In].
Qed.

Lemma special_tokens_distinct :
  NoDup [PAD_TOKEN; START_TOKEN; END_TOKEN; UNK_TOKEN].
Proof. repeat constructor; simpl; intuition discriminate. Qed.

Lemma example_vocab_built :
  built [PAD_TOKEN; START_TOKEN; END_TOKEN; UNK_TOKEN] Examples.example_vocab.
Proof.
  unfold Examples.example_vocab. apply built_add_documents. apply built_init.
Qed.





End VocabClaims.

(** * The arithmetic of float32 *)

Unset Implicit Arguments.

(** ** Rounding: signs, and what is not rounded to zero *)

Module Float32Facts.
Import Float32.
Local Open Scope Z_scope.

(** digits *)
Lemma digits2_size (p : positive) : digits2_pos p = Pos.size p.
Proof. induction p; simpl; congruence. Qed.

Lemma digits_log2 (p : positive) :
  Z.pos (digits2_pos p) = Z.log2 (Z.pos p) + 1.
Proof.
  rewrite digits2_size. destruct p; simpl; try reflexivity.
  - rewrite Pos.add_1_r. reflexivity.
  - rewrite Pos.add_1_r. reflexivity.
Qed.

Lemma Zdigits2_log2 (m : Z) : 0 < m -> Zdigits2 m = Z.log2 m + 1.
Proof. destruct m; try lia. intros _. apply digits_log2. Qed.

Lemma Zdigits2_nonneg (m : Z) : 0 <= Zdigits2 m.
Proof. destruct m; simpl; lia. Qed.

Lemma Zdigits2_mono (a b : Z) : 0 < a -> a <= b -> Zdigits2 a <= Zdigits2 b.
Proof.
  intros Ha Hab. rewrite !Zdigits2_log2 by lia.
  pose proof (Z.log2_le_mono a b Hab). lia.
Qed.

(** shr *)
Lemma shr_1_m (mrs : shr_record) : shr_m (shr_1 mrs) = Z.quot2 (shr_m mrs).
Proof. destruct mrs as [[|[p|p|]|[p|p|]] r s]; reflexivity. Qed.

Lemma quot2_div (m : Z) : 0 <= m -> Z.quot2 m = m / 2.
Proof.
  intros H. rewrite <- Z.div2_div.
  destruct m as [|[p|p|]|p]; try reflexivity. lia.
Qed.

Lemma iter_shr_m (p : positive) :
  forall mrs, 0 <= shr_m mrs ->
    shr_m (iter_pos shr_1 p mrs) = shr_m mrs / 2 ^ Z.pos p.
Proof.
  induction p as [p IH|p IH|]; intros mrs H; cbn [iter_pos].
  - rewrite IH.
    + rewrite IH.
      * rewrite shr_1_m, quot2_div by assumption.
        rewrite !Z.div_div by lia. f_equal.
        rewrite Pos2Z.inj_xI. rewrite <- !Z.pow_add_r by lia.
        replace (2 * Z.pos p + 1) with (1 + Z.pos p + Z.pos p) by lia.
        rewrite !Z.pow_add_r by lia. lia.
      * rewrite shr_1_m, quot2_div by assumption. apply Z.div_pos; lia.
    + rewrite IH.
      * apply Z.div_pos; [|lia]. rewrite shr_1_m, quot2_div by assumption.
        apply Z.div_pos; lia.
      * rewrite shr_1_m, quot2_div by assumption. apply Z.div_pos; lia.
  - rewrite IH.
    + rewrite IH by assumption.
      rewrite !Z.div_div by lia. f_equal.
      rewrite Pos2Z.inj_xO. rewrite <- Z.pow_add_r by lia. f_equal. lia.
    + rewrite IH by assumption. apply Z.div_pos; lia.
  - rewrite shr_1_m, quot2_div by assumption. reflexivity.
Qed.

(** The mantissa [shr_fexp] leaves. *)
Lemma shr_record_m (m : Z) (l : location) : shr_m (shr_record_of_loc m l) = m.
Proof. destruct l as [|[]]; reflexivity. Qed.

Lemma shr_fexp_m (m e : Z) (l : location) :
  0 <= m ->
  let n := fexp prec emax (Zdigits2 m + e) - e in
  shr_m (fst (shr_fexp prec emax m e l))
  = (if 0 <? n then m / 2 ^ n else m)
  /\ snd (shr_fexp prec emax m e l) = (if 0 <? n then e + n else e).
Proof.
  intros Hm n. unfold shr_fexp, shr. fold n.
  destruct n as [|p|p]; cbn [fst snd].
  - split; [apply shr_record_m | reflexivity].
  - rewrite iter_shr_m by (rewrite shr_record_m; exact Hm).
    rewrite shr_record_m. split; reflexivity.
  - split; [apply shr_record_m | reflexivity].
Qed.

Lemma round_nearest_even_bounds (m : Z) (l : location) :
  m <= round_nearest_even m l <= m + 1.
Proof.
  destruct l as [|[]]; cbn [round_nearest_even]; try lia.
  destruct (Z.even m); lia.
Qed.

Lemma shr_fexp_nonneg (m e : Z) (l : location) :
  0 <= m -> 0 <= shr_m (fst (shr_fexp prec emax m e l)).
Proof.
  intros Hm. destruct (shr_fexp_m m e l Hm) as [-> _].
  destruct (0 <? fexp prec emax (Zdigits2 m + e) - e); [|exact Hm].
  apply Z_div_nonneg_nonneg; [lia | apply Z.pow_nonneg; lia].
Qed.

(** A rounded number that is not negative is no NaN and not negative. *)
Lemma binary_round_aux_nonnegative (mx ex : Z) (lx : location) :
  0 <= mx -> nonnegative (binary_round_aux prec emax false mx ex lx) = true.
Proof.
  intros Hm. unfold binary_round_aux.
  pose proof (shr_fexp_nonneg mx ex lx Hm) as H1.
  destruct (shr_fexp prec emax mx ex lx) as [mrs' e'].
  cbn [fst] in H1.
  pose proof (round_nearest_even_bounds (shr_m mrs')
                (loc_of_shr_record mrs')) as Hb.
  pose proof (shr_fexp_nonneg
                (round_nearest_even (shr_m mrs') (loc_of_shr_record mrs'))
                e' loc_Exact ltac:(lia)) as H2.
  destruct (shr_fexp prec emax _ e' loc_Exact) as [mrs'' e''].
  cbn [fst] in H2.
  destruct (shr_m mrs'') as [|p|p]; [reflexivity | | lia].
  destruct (e'' <=? emax - prec); reflexivity.
Qed.

Lemma shr_fexp_pos (m e : Z) (l : location) :
  0 < m -> emin prec emax < Zdigits2 m + e ->
  0 < shr_m (fst (shr_fexp prec emax m e l))
  /\ forall m', shr_m (fst (shr_fexp prec emax m e l)) <= m' ->
       emin prec emax < Zdigits2 m' + snd (shr_fexp prec emax m e l).
Proof.
  intros Hm HD. destruct (shr_fexp_m m e l ltac:(lia)) as [-> ->].
  set (n := fexp prec emax (Zdigits2 m + e) - e).
  pose proof (Zdigits2_log2 m Hm) as Hd.
  destruct (0 <? n) eqn:E.
  - apply Z.ltb_lt in E.
    assert (Hn : n <= Z.log2 m)
      by (unfold n, fexp, emin, prec, emax in *; lia).
    assert (Hpow : 2 ^ n <= m) by (apply Z.log2_le_pow2; lia).
    assert (Hq : 0 < m / 2 ^ n).
    { apply Z.div_str_pos. split; [apply Z.pow_pos_nonneg; lia | lia]. }
    split; [exact Hq|]. intros m' Hm'.
    rewrite (Zdigits2_log2 m') by lia.
    pose proof (Z.log2_nonneg m').
    unfold n, fexp, emin, prec, emax in *. lia.
  - apply Z.ltb_ge in E. split; [lia|]. intros m' Hm'.
    pose proof (Zdigits2_mono m m' Hm Hm'). lia.
Qed.

(** A rounded number that is at least the least positive float32 is not
    rounded to zero. *)
Lemma binary_round_aux_above_zero (mx ex : Z) (lx : location) :
  0 < mx -> emin prec emax < Zdigits2 mx + ex ->
  above_zero (binary_round_aux prec emax false mx ex lx) = true.
Proof.
  intros Hm HD. unfold binary_round_aux.
  destruct (shr_fexp_pos mx ex lx Hm HD) as [H1 H1'].
  destruct (shr_fexp prec emax mx ex lx) as [mrs' e'].
  cbn [fst snd] in H1, H1'.
  pose proof (round_nearest_even_bounds (shr_m mrs')
                (loc_of_shr_record mrs')) as Hb.
  destruct (shr_fexp_pos
              (round_nearest_even (shr_m mrs') (loc_of_shr_record mrs'))
              e' loc_Exact ltac:(lia) (H1' _ (proj1 Hb))) as [H2 _].
  destruct (shr_fexp prec emax _ e' loc_Exact) as [mrs'' e''].
  cbn [fst] in H2.
  destruct (shr_m mrs'') as [|p|p]; [lia | | lia].
  destruct (e'' <=? emax - prec); reflexivity.
Qed.

Lemma digits_iter_xO (m d : positive) :
  digits2_pos (Pos.iter xO m d) = (digits2_pos m + d)%positive.
Proof.
  induction d as [|d IH] using Pos.peano_ind.
  - simpl. rewrite Pos.add_1_r. reflexivity.
  - rewrite Pos.iter_succ. cbn [digits2_pos]. rewrite IH. lia.
Qed.

(** [shl_align] keeps the magnitude. *)
Lemma shl_align_digits (mx : positive) (ex ex' : Z) :
  Z.pos (digits2_pos (fst (shl_align mx ex ex'))) + snd (shl_align mx ex ex')
  = Z.pos (digits2_pos mx) + ex.
Proof.
  unfold shl_align. destruct (ex' - ex) as [|d|d] eqn:E; cbn [fst snd];
    try reflexivity.
  rewrite digits_iter_xO. lia.
Qed.

Lemma shl_align_exponent (mx : positive) (ex ex' : Z) :
  ex' <= ex -> snd (shl_align mx ex ex') = ex'.
Proof.
  intros H. unfold shl_align.
  destruct (ex' - ex) as [|d|d] eqn:E; cbn [snd]; lia.
Qed.

Lemma binary_round_nonnegative (mx : positive) (ex : Z) :
  nonnegative (binary_round prec emax false mx ex) = true.
Proof.
  unfold binary_round.
  destruct (shl_align mx ex _) as [mz ez].
  apply binary_round_aux_nonnegative. lia.
Qed.

Lemma binary_round_above_zero (mx : positive) (ex : Z) :
  emin prec emax < Z.pos (digits2_pos mx) + ex ->
  above_zero (binary_round prec emax false mx ex) = true.
Proof.
  intros H. unfold binary_round.
  pose proof (shl_align_digits mx ex
                (fexp prec emax (Z.pos (digits2_pos mx) + ex))) as Hd.
  destruct (shl_align mx ex _) as [mz ez]. cbn [fst snd] in Hd.
  apply binary_round_aux_above_zero; [lia|]. cbn [Zdigits2]. lia.
Qed.

Lemma above_zero_nonnegative (x : float32) :
  above_zero x = true -> nonnegative x = true.
Proof. destruct x as [s|[|]| |[|] m e]; simpl; congruence. Qed.

(** The sum of two floats that are not negative is not negative. *)
Lemma add_nonnegative (x y : float32) :
  nonnegative x = true -> nonnegative y = true ->
  nonnegative (add x y) = true.
Proof.
  destruct x as [sx|[|]| |[|] mx ex]; destruct y as [sy|[|]| |[|] my ey];
    simpl; try discriminate; intros _ _; try reflexivity.
  - destruct sx, sy; reflexivity.
  - unfold add, SFadd.
    cbn [cond_Zopp Z.add binary_normalize]. apply binary_round_nonnegative.
Qed.

Lemma sum_nonnegative (t : list float32) :
  Forall (fun x => nonnegative x = true) t ->
  nonnegative (sum t) = true.
Proof.
  unfold sum. assert (H0 : nonnegative zero = true) by reflexivity.
  revert H0. generalize zero.
  induction t as [|x t IH]; intros acc Hacc Ht; cbn [fold_left].
  - exact Hacc.
  - inversion Ht; subst. apply IH; [|assumption].
    apply add_nonnegative; assumption.
Qed.

Lemma positive_exponent (m : positive) (e : Z) :
  bounded prec emax m e = true ->
  emin prec emax < Z.pos (digits2_pos m) + e.
Proof.
  unfold bounded, canonical_mantissa. intros H.
  apply andb_true_iff in H as [H _]. apply Z.eqb_eq in H.
  unfold fexp, emin, prec, emax in *. lia.
Qed.

(** A positive float32 added to a float that is not negative gives a
    positive float (or the infinity): never zero, never a NaN. *)
Lemma add_positive (x eps : float32) :
  nonnegative x = true -> is_positive eps = true ->
  above_zero (add x eps) = true.
Proof.
  destruct eps as [se|se| |[|] me ee]; try discriminate.
  cbn [is_positive]. intros Hx He.
  destruct x as [sx|[|]| |[|] mx ex]; try discriminate; try reflexivity.
  unfold add, SFadd. cbn [cond_Zopp Z.add binary_normalize].
  apply binary_round_above_zero.
  pose proof (positive_exponent me ee He) as Hpos.
  pose proof (shl_align_digits me ee (Z.min ex ee)) as Hd.
  rewrite shl_align_exponent in Hd by lia.
  set (a := fst (shl_align mx ex (Z.min ex ee))) in *.
  set (b := fst (shl_align me ee (Z.min ex ee))) in *.
  pose proof (Zdigits2_mono (Z.pos b) (Z.pos (a + b)) ltac:(lia) ltac:(lia))
    as Hm.
  cbn [Zdigits2] in Hm. lia.
Qed.

(** The quotient of a finite float that is not negative by a positive
    float is not negative. *)
Lemma div_nonnegative (p d : float32) :
  nonnegative p = true -> is_finite p = true ->
  above_zero d = true ->
  nonnegative (div p d) = true.
Proof.
  destruct d as [sd|[|]| |[|] md ed]; try discriminate; intros Hp Hf _;
    destruct p as [sp|sp| |[|] mp ep]; try discriminate; try reflexivity.
  unfold div, SFdiv. cbn [xorb].
  destruct (SFdiv_core_binary prec emax (Z.pos mp) ep (Z.pos md) ed)
    as [[mz ez] lz] eqn:E.
  apply binary_round_aux_nonnegative.
  unfold SFdiv_core_binary in E.
  set (m' := match _ with Z.pos _ => _ | 0 => _ | Z.neg _ => _ end) in E.
  assert (Hm' : 0 <= m').
  { unfold m'. destruct (_ - _ - _) as [|s|s]; try lia.
    apply Z.shiftl_nonneg. lia. }
  pose proof (Z_div_mod m' (Z.pos md) ltac:(lia)) as Hdm.
  destruct (Z.div_eucl m' (Z.pos md)) as [q r].
  inversion E; subst. destruct Hdm as [Heq Hr]. nia.
Qed.

Lemma div_zero (p d : float32) :
  is_zero p = true -> above_zero d = true -> is_zero (div p d) = true.
Proof.
  destruct p; try discriminate.
  destruct d as [sd|[|]| |[|] md ed]; try discriminate; reflexivity.
Qed.

(** Products with the two values of a mask. *)
Lemma mul_mask_zero (x : float32) :
  is_finite x = true -> is_zero (mul x (of_long 0)) = true.
Proof. destruct x; try discriminate; reflexivity. Qed.

Lemma mul_mask_one_nonnegative (x : float32) :
  nonnegative x = true -> nonnegative (mul x (of_long 1)) = true.
Proof.
  destruct x as [sx|[|]| |[|] mx ex]; try discriminate; try reflexivity.
  intros _.
  change (of_long 1) with (S754_finite false 8388608 (-23)).
  unfold mul, SFmul. cbn [xorb]. apply binary_round_aux_nonnegative. lia.
Qed.

(** The product of a finite float32 with the float32 one is exact. *)
Lemma mul_mask_one (x : float32) :
  valid_binary prec emax x = true -> is_finite x = true ->
  mul x (of_long 1) = x.
Proof.
  change (of_long 1) with (S754_finite false 8388608 (-23)).
  destruct x as [sx|sx| |sx mx ex]; try discriminate.
  - intros _ _. destruct sx; reflexivity.
  - cbn [valid_binary]. intros Hb _.
    unfold bounded, canonical_mantissa in Hb.
    apply andb_true_iff in Hb as [Hc He]. apply Z.eqb_eq in Hc.
    unfold mul, SFmul.
    replace (xorb sx false) with sx by (destruct sx; reflexivity).
    replace (mx * 8388608)%positive with (Pos.iter xO mx 23)
      by (rewrite Pos.mul_comm; reflexivity).
    unfold binary_round_aux.
    assert (H1 : shr_fexp prec emax (Z.pos (Pos.iter xO mx 23)) (ex + -23)
                   loc_Exact
                 = ({| shr_m := Z.pos mx; shr_r := false; shr_s := false |},
                    ex)).
    { unfold shr_fexp. cbn [Zdigits2]. rewrite digits_iter_xO.
      replace (Z.pos (digits2_pos mx + 23) + (ex + -23))
        with (Z.pos (digits2_pos mx) + ex) by lia.
      rewrite Hc. replace (ex - (ex + -23)) with 23 by lia.
      unfold shr. f_equal; try reflexivity; lia. }
    rewrite H1. cbn [shr_m loc_of_shr_record round_nearest_even].
    assert (H2 : shr_fexp prec emax (Z.pos mx) ex loc_Exact
                 = ({| shr_m := Z.pos mx; shr_r := false; shr_s := false |},
                    ex)).
    { unfold shr_fexp. cbn [Zdigits2]. rewrite Hc.
      rewrite Z.sub_diag. reflexivity. }
    rewrite H2. cbn [shr_m]. rewrite He. reflexivity.
Qed.

(** float32 holds every integer below 2^24 exactly. *)
Lemma iter_xO_pow2 (p k : positive) :
  Z.pos (Pos.iter xO p k) = Z.pos p * 2 ^ Z.pos k.
Proof.
  induction k as [|k IH] using Pos.peano_ind.
  - simpl. lia.
  - rewrite Pos.iter_succ, Pos2Z.inj_xO, IH, Pos2Z.inj_succ.
    rewrite Z.pow_succ_r by lia. lia.
Qed.

Lemma of_long_small (s : bool) (p : positive) :
  Z.pos p < 2 ^ 24 ->
  exists m e,
    binary_round prec emax s p 0 = S754_finite s m e
    /\ -24 < e <= 0
    /\ Z.pos m = Z.pos p * 2 ^ (- e).
Proof.
  intros Hp.
  assert (Hd : 1 <= Z.pos (digits2_pos p) <= 24).
  { rewrite digits_log2. pose proof (Z.log2_nonneg (Z.pos p)).
    assert (Z.log2 (Z.pos p) < 24) by (apply Z.log2_lt_pow2; lia). lia. }
  unfold binary_round.
  assert (Hf : fexp prec emax (Z.pos (digits2_pos p) + 0)
               = Z.pos (digits2_pos p) - 24)
    by (unfold fexp, emin, prec, emax; lia).
  rewrite Hf.
  pose proof (shl_align_digits p 0 (Z.pos (digits2_pos p) - 24)) as Hdig.
  pose proof (shl_align_exponent p 0 (Z.pos (digits2_pos p) - 24)
                ltac:(lia)) as Hexp.
  assert (Hval : Z.pos (fst (shl_align p 0 (Z.pos (digits2_pos p) - 24)))
                 = Z.pos p * 2 ^ (24 - Z.pos (digits2_pos p))).
  { unfold shl_align.
    destruct (Z.pos (digits2_pos p) - 24 - 0) as [|k|k] eqn:E;
      cbn [fst]; try lia.
    - replace (24 - Z.pos (digits2_pos p)) with 0 by lia. lia.
    - rewrite iter_xO_pow2. f_equal. f_equal. lia. }
  destruct (shl_align p 0 (Z.pos (digits2_pos p) - 24)) as [mz ez].
  cbn [fst snd] in *. subst ez.
  assert (Hmz : Z.pos (digits2_pos mz) = 24) by lia.
  unfold binary_round_aux.
  assert (H1 : forall l,
             shr_fexp prec emax (Z.pos mz) (Z.pos (digits2_pos p) - 24) l
             = (shr_record_of_loc (Z.pos mz) l,
                Z.pos (digits2_pos p) - 24)).
  { intros l. unfold shr_fexp. cbn [Zdigits2]. rewrite Hmz.
    replace (fexp prec emax (24 + (Z.pos (digits2_pos p) - 24))
             - (Z.pos (digits2_pos p) - 24)) with 0
      by (unfold fexp, emin, prec, emax; lia).
    reflexivity. }
  rewrite H1. cbn [shr_record_of_loc shr_m loc_of_shr_record
                   round_nearest_even].
  rewrite H1. cbn [shr_record_of_loc shr_m].
  replace (Z.pos (digits2_pos p) - 24 <=? emax - prec) with true
    by (symmetry; apply Z.leb_le; unfold emax, prec; lia).
  exists mz, (Z.pos (digits2_pos p) - 24).
  split; [reflexivity|]. split; [lia|].
  rewrite Hval. f_equal. f_equal. lia.
Qed.

Lemma exact_long_small (z : Z) : Z.abs z < 2 ^ 24 -> exact_long z.
Proof.
  intros Hz. unfold exact_long, of_long.
  destruct z as [|p|p]; [reflexivity| |].
  - cbn [binary_normalize].
    destruct (of_long_small false p ltac:(lia)) as (m & e & -> & He & Hm).
    cbn [to_long]. cbv zeta.
    assert (Ha : Z.shiftl (Z.pos m) e = Z.pos p).
    { rewrite Hm. replace e with (- (- e)) at 2 by lia.
      rewrite Z.shiftl_opp_r, Z.shiftr_div_pow2 by lia.
      apply Z.div_mul. apply Z.pow_nonzero; lia. }
    rewrite Ha.
    replace ((int64_min <=? Z.pos p) && (Z.pos p <? 2 ^ 63)) with true;
      [reflexivity|].
    symmetry. apply andb_true_iff.
    split; [apply Z.leb_le | apply Z.ltb_lt]; unfold int64_min; lia.
  - cbn [binary_normalize].
    destruct (of_long_small true p ltac:(lia)) as (m & e & -> & He & Hm).
    cbn [to_long]. cbv zeta.
    assert (Ha : Z.shiftl (Z.pos m) e = Z.pos p).
    { rewrite Hm. replace e with (- (- e)) at 2 by lia.
      rewrite Z.shiftl_opp_r, Z.shiftr_div_pow2 by lia.
      apply Z.div_mul. apply Z.pow_nonzero; lia. }
    rewrite Ha.
    replace ((int64_min <=? - Z.pos p) && (- Z.pos p <? 2 ^ 63)) with true;
      [reflexivity|].
    symmetry. apply andb_true_iff.
    split; [apply Z.leb_le | apply Z.ltb_lt]; unfold int64_min; lia.
Qed.
End Float32Facts.

(** ** softmax_masked on float32 tensors *)

Module Softmax32Facts.

Import Float32 Softmax32 Float32Facts.

Lemma masked_exp_cons (exp : float32 -> float32) (x : float32)
  (inputs : list float32) (m : Z) (mask : list Z) :
  masked_exp exp (x :: inputs) (m :: mask)
  = (p <- masked_exp exp inputs mask ;;
     Some (mul (exp x) (of_long m) :: p)).
Proof. reflexivity. Qed.

Lemma masked_exp32_total (exp : float32 -> float32) (inputs : list float32) :
  forall mask, length inputs = length mask ->
    exists p, masked_exp exp inputs mask = Some p
              /\ length p = length inputs.
Proof.
  induction inputs as [|x inputs IH]; intros [|m mask] H; try discriminate.
  - exists []. split; reflexivity.
  - destruct (IH mask ltac:(simpl in H; lia)) as (p & Hp & Hl).
    rewrite masked_exp_cons, Hp. cbn [bind].
    eexists. split; [reflexivity|]. simpl. congruence.
Qed.

Lemma masked_exp_length (exp : float32 -> float32) (inputs : list float32) :
  forall mask p, masked_exp exp inputs mask = Some p ->
    length inputs = length mask /\ length p = length inputs.
Proof.
  induction inputs as [|x inputs IH]; intros [|m mask] p H;
    try discriminate.
  - inversion H. split; reflexivity.
  - rewrite masked_exp_cons in H.
    destruct (masked_exp exp inputs mask) as [q|] eqn:E; [|discriminate].
    inversion H; subst. destruct (IH _ _ E). simpl. split; congruence.
Qed.

(** The products at the positions of a row. *)
Lemma masked_exp_nth (exp : float32 -> float32) (inputs : list float32) :
  forall mask p i x m,
    masked_exp exp inputs mask = Some p ->
    nth_error inputs i = Some x ->
    nth_error mask i = Some m ->
    nth_error p i = Some (mul (exp x) (of_long m)).
Proof.
  induction inputs as [|y inputs IH]; intros [|n mask] p i x m H Hx Hm;
    try discriminate; try (destruct i; discriminate).
  rewrite masked_exp_cons in H.
  destruct (masked_exp exp inputs mask) as [q|] eqn:E; [|discriminate].
  inversion H; subst. destruct i as [|i]; simpl in *.
  - inversion Hx; inversion Hm; subst. reflexivity.
  - eapply IH; eauto.
Qed.

(** The products are not negative when no exponential is a NaN or
    negative and none is infinite where the mask is 0. *)
Lemma masked_exp_nonnegative (exp : float32 -> float32)
  (inputs : list float32) (mask : list Z) :
  Forall2 (fun x m => (m = 0 \/ m = 1)%Z
                      /\ nonnegative (exp x) = true
                      /\ (m = 0%Z -> is_finite (exp x) = true))
    inputs mask ->
  forall p, masked_exp exp inputs mask = Some p ->
    Forall (fun y => nonnegative y = true) p.
Proof.
  induction 1 as [|x m inputs mask (Hm & Hn & Hf) _ IH]; intros p H.
  - inversion H. constructor.
  - rewrite masked_exp_cons in H.
    destruct (masked_exp exp inputs mask) as [q|] eqn:E; [|discriminate].
    inversion H; subst. constructor; [|apply IH; reflexivity].
    destruct Hm as [-> | ->].
    + pose proof (mul_mask_zero (exp x) (Hf eq_refl)) as Hz.
      destruct (mul (exp x) (of_long 0)); try discriminate. reflexivity.
    + apply mul_mask_one_nonnegative. exact Hn.
Qed.

(** With a positive epsilon the denominator is above zero. *)
Lemma denominator_above_zero (p : list float32) (epsilon : float32) :
  Forall (fun y => nonnegative y = true) p ->
  is_positive epsilon = true ->
  above_zero (denominator p epsilon) = true.
Proof.
  intros Hp He. unfold denominator.
  apply add_positive; [apply sum_nonnegative; exact Hp | exact He].
Qed.

Lemma softmax32_row_inv (exp : float32 -> float32)
  (inputs : list float32) (mask : list Z) (epsilon : float32)
  (w : list float32) :
  softmax_masked_row exp inputs mask epsilon = Some w ->
  exists p,
    masked_exp exp inputs mask = Some p
    /\ w = map (fun e => div e (denominator p epsilon)) p.
Proof.
  unfold softmax_masked_row. intros H.
  destruct (masked_exp exp inputs mask) as [p|]; [|discriminate].
  inversion H. eauto.
Qed.

(** The weight of a position the mask excludes. *)
Lemma softmax32_row_zero (exp : float32 -> float32)
  (inputs : list float32) (mask : list Z) (epsilon : float32)
  (w : list float32) (i : nat) :
  softmax_masked_row exp inputs mask epsilon = Some w ->
  is_positive epsilon = true ->
  Forall2 (fun x m => (m = 0 \/ m = 1)%Z
                      /\ nonnegative (exp x) = true
                      /\ (m = 0%Z -> is_finite (exp x) = true))
    inputs mask ->
  nth_error mask i = Some 0%Z ->
  exists y, nth_error w i = Some y /\ is_zero y = true.
Proof.
  intros H He Hall Hi.
  apply softmax32_row_inv in H as (p & Hp & ->).
  pose proof (masked_exp_nonnegative exp inputs mask Hall p Hp) as Hnn.
  pose proof (denominator_above_zero p epsilon Hnn He) as Hd.
  destruct (masked_exp_length exp inputs mask p Hp) as [Hl _].
  destruct (nth_error inputs i) as [x|] eqn:Hx.
  2:{ apply nth_error_None in Hx.
      assert (i < length mask)%nat by (apply nth_error_Some; congruence).
      lia. }
  pose proof (masked_exp_nth exp inputs mask p i x 0%Z Hp Hx Hi) as Hpi.
  rewrite nth_error_map, Hpi. cbn [option_map].
  eexists. split; [reflexivity|].
  apply div_zero; [|exact Hd].
  apply mul_mask_zero.
  clear - Hall Hx Hi. revert mask i Hall Hx Hi.
  induction inputs as [|y inputs IH]; intros mask i Hall Hx Hi;
    [destruct i; discriminate|].
  inversion Hall as [|? m ? mask' (_ & _ & Hf) Hrest]; subst.
  destruct i as [|i]; simpl in *.
  - inversion Hx; inversion Hi; subst. auto.
  - eapply IH; eauto.
Qed.

Lemma softmax32_total (exp : float32 -> float32) :
  forall (inputs : list (list float32)) (mask : list (list Z))
         (epsilon : float32),
    Forall2 (fun row mrow => length row = length mrow) inputs mask ->
    exists out,
      softmax_masked exp inputs mask epsilon = Some out
      /\ Forall2 (fun row orow => length orow = length row) inputs out.
Proof.
  intros inputs mask epsilon H. unfold softmax_masked.
  induction H as [|row mrow inputs mask Hl _ (out & Hout & Hshape)].
  - exists []. split; [reflexivity | constructor].
  - destruct (masked_exp32_total exp row mrow Hl) as (p & Hp & Hpl).
    cbn [zipM]. unfold softmax_masked_row at 1. rewrite Hp. cbn [bind].
    rewrite Hout. cbn [bind]. eexists. split; [reflexivity|].
    constructor; [|exact Hshape]. rewrite length_map. exact Hpl.
Qed.

Lemma softmax32_nth (exp : float32 -> float32) (epsilon : float32) :
  forall (inputs : list (list float32)) (mask : list (list Z))
         (out : list (list float32)) (b : nat) (mrow : list Z),
    softmax_masked exp inputs mask epsilon = Some out ->
    nth_error mask b = Some mrow ->
    exists row orow,
      nth_error inputs b = Some row
      /\ nth_error out b = Some orow
      /\ softmax_masked_row exp row mrow epsilon = Some orow.
Proof.
  unfold softmax_masked.
  induction inputs as [|row inputs IH]; intros [|m mask] out b mrow H Hb;
    try discriminate; try (destruct b; discriminate).
  cbn [zipM] in H.
  destruct (softmax_masked_row exp row m epsilon) as [o|] eqn:Ho;
    [|discriminate].
  cbn [bind] in H.
  destruct (zipM _ inputs mask) as [os|] eqn:Hos; [|discriminate].
  inversion H; subst. destruct b as [|b]; simpl in *.
  - inversion Hb; subst. eauto.
  - eapply IH; eauto.
Qed.

End Softmax32Facts.

(** ** Seq2SeqAttentionModel on float32 tensors: the attention of decode *)

Module Attention32Facts.

Import Float32 Softmax32 Float32Facts Softmax32Facts.
Import Seq2SeqAttentionModel32 Spec Examples.



Lemma suits_mask_binary (exp : float32 -> float32) (scores : list float32)
  (mask : list Z) :
  Softmax.binary_mask mask ->
  no_overflow_where_masked exp scores mask ->
  Forall2 (fun x m => (m = 0 \/ m = 1)%Z
                      /\ nonnegative (exp x) = true
                      /\ (m = 0%Z -> is_finite (exp x) = true))
    scores mask.
Proof.
  intros Hb H. induction H as [|x m scores mask Hx _ IH]; constructor.
  - inversion Hb; subst. tauto.
  - apply IH. inversion Hb; assumption.
Qed.

(** An iteration of [decode] normalises its scores under the mask. *)
Lemma decode_step_attention (exp tanh : float32 -> float32) (M : t)
  (enc : list (list (list float32))) (mask : LongTensor2)
  (targets : option LongTensor2) (draw : R) (i : nat)
  (h : list (list float32)) (inp : LongTensor1) (s : Step) :
  decode_step exp tanh M enc mask targets draw i h inp = Some s ->
  softmax_masked exp (s_att_reduced s) mask default_epsilon
  = Some (s_att_normazlied s).
Proof.
  unfold decode_step. intros H.
  apply MonadFacts.bind_some in H as (emb & _ & H).
  apply MonadFacts.bind_some in H as (att & _ & H).
  apply MonadFacts.bind_some in H as (w & Hw & H).
  apply MonadFacts.bind_some in H as (ctx & _ & H).
  apply MonadFacts.bind_some in H as (cat & _ & H).
  apply MonadFacts.bind_some in H as (h' & _ & H).
  apply MonadFacts.bind_some in H as (next & _ & H).
  inversion H; subst; clear H. exact Hw.
Qed.

Lemma decode_loop_attention (exp tanh : float32 -> float32) (M : t)
  (enc : list (list (list float32))) (mask : LongTensor2)
  (targets : option LongTensor2) (rand : nat -> R) (steps : list nat) :
  forall (h : list (list float32)) (inp : LongTensor1) (trace : list Step),
    decode_loop exp tanh M enc mask targets rand steps h inp = Some trace ->
    length trace = length steps
    /\ Forall (fun s =>
                 softmax_masked exp (s_att_reduced s) mask default_epsilon
                 = Some (s_att_normazlied s)) trace.
Proof.
  induction steps as [|i steps IH]; intros h inp trace H;
    cbn [decode_loop] in H.
  - inversion H. split; [reflexivity | constructor].
  - apply MonadFacts.bind_some in H as (s & Hs & H).
    apply MonadFacts.bind_some in H as (rest & Hrest & H).
    inversion H; subst; clear H.
    destruct (IH _ _ _ Hrest) as [Hl Hall].
    split; [simpl; congruence|].
    constructor; [|exact Hall].
    eapply decode_step_attention; eauto.
Qed.

Lemma forward_steps_attention (exp tanh : float32 -> float32) (M : t)
  (inputs : LongTensor2) (targets : option LongTensor2) (rand : nat -> R)
  (trace : list Step) :
  forward_steps exp tanh M inputs targets rand = Some trace ->
  length trace = Z.to_nat (max_len M)
  /\ Forall (fun s =>
               softmax_masked exp (s_att_reduced s) (inputs_mask_of M inputs)
                 default_epsilon
               = Some (s_att_normazlied s)) trace.
Proof.
  unfold forward_steps, encode, decode_steps. intros H.
  apply MonadFacts.bind_some in H as ([enc mask] & Henc & H).
  apply MonadFacts.bind_some in Henc as (emb & _ & Henc).
  apply MonadFacts.bind_some in Henc as (outs & _ & Henc).
  inversion Henc; subst; clear Henc.
  apply MonadFacts.bind_some in H as (first & _ & H).
  apply MonadFacts.bind_some in H as (inp & _ & H).
  apply decode_loop_attention in H as [Hl Hall].
  split; [|exact Hall]. rewrite Hl. apply PolicyFacts.range_length.
Qed.

Lemma default_epsilon_positive : is_positive default_epsilon = true.
Proof. reflexivity. Qed.

(** The float32 nearest to 0.000001: 1 / 1000000 rounded. *)
Lemma default_epsilon_rounds :
  div (of_long 1) (of_long 1000000) = default_epsilon.
Proof. reflexivity. Qed.


Lemma next_decoder_inputs_none (tf draw : R) (i : nat)
  (logits : list (list float32)) :
  next_decoder_inputs tf None draw i logits = argmax_rows logits.
Proof.
  unfold next_decoder_inputs, teacher_forced.
  destruct (Rlt_dec draw tf); reflexivity.
Qed.

Lemma example_step (tok : Z) (draw : R) (i : nat) :
  tok = 1%Z \/ tok = 2%Z ->
  decode_step exp_table tanh_table attention_model32 [[[zero]; [zero]]]
    [[1; 0]]%Z None draw i [[zero]] [tok]
  = Some (attention_step32 tok).
Proof.
  intros Htok. unfold decode_step.
  assert (Hemb : mapM (embedding attention_model32) [tok] = Some [[zero]])
    by (destruct Htok as [-> | ->]; reflexivity).
  rewrite Hemb. cbn [bind].
  assert (Hatt :
    zipM (fun enc dec => Some (map (fun e => map tanh_table (vadd e dec)) enc))
      (map (map (attention_encoder attention_model32)) [[[zero]; [zero]]])
      (map (attention_decoder attention_model32) [[zero]])
    = Some [[[zero]; [zero]]]) by reflexivity.
  rewrite Hatt. cbn [bind]. cbv zeta.
  assert (Hsoft :
    softmax_masked exp_table
      (map (map (attention_reduce attention_model32)) [[[zero]; [zero]]])
      [[1; 0]]%Z default_epsilon
    = Some [[S754_finite false 16777200 (-24); zero]]) by reflexivity.
  rewrite Hsoft. cbn [bind].
  assert (Hctx :
    zipM attend [[[zero]; [zero]]] [[S754_finite false 16777200 (-24); zero]]
    = Some [[zero]]) by reflexivity.
  rewrite Hctx. cbn [bind zipM app map].
  change (decoder attention_model32 [zero]
            (decoder_hidden_combine attention_model32 [zero; zero]))
    with [zero].
  change (decoder_projection attention_model32 [zero])
    with [zero; zero; of_long 1].
  rewrite next_decoder_inputs_none.
  assert (Harg : argmax_rows [[zero; zero; of_long 1]] = Some [2%Z])
    by reflexivity.
  rewrite Harg. cbn [bind]. reflexivity.
Qed.

Lemma example_run :
  forward_steps exp_table tanh_table attention_model32 [[1; 0]]%Z None
    Examples.zero_draws
  = Some [attention_step32 1; attention_step32 2].
Proof.
  unfold forward_steps.
  assert (Henc : encode attention_model32 [[1; 0]]%Z
                 = Some ([[[zero]; [zero]]], [[1; 0]]%Z)) by reflexivity.
  rewrite Henc. cbn [bind]. unfold decode_steps.
  cbn [column mapM nth_error bind map].
  assert (Hstart : start_inputs (start_index attention_model32) [[zero]]
                   = Some [1%Z]) by reflexivity.
  rewrite Hstart. cbn [bind].
  change (range (max_len attention_model32)) with [0%nat; 1%nat].
  cbn [decode_loop].
  rewrite example_step by (left; reflexivity). cbn [bind].
  change (s_decoder_hidden (attention_step32 1)) with [[zero]].
  change (s_next_inputs (attention_step32 1)) with [2%Z].
  rewrite example_step by (right; reflexivity). reflexivity.
Qed.

Lemma example_decode_run :
  decode_steps exp_table tanh_table attention_model32 [[[zero]; [zero]]]
    [[1; 0]]%Z None Examples.zero_draws
  = Some [attention_step32 1; attention_step32 2].
Proof.
  unfold decode_steps.
  cbn [column mapM nth_error bind map].
  assert (Hstart : start_inputs (start_index attention_model32) [[zero]]
                   = Some [1%Z]) by reflexivity.
  rewrite Hstart. cbn [bind].
  change (range (max_len attention_model32)) with [0%nat; 1%nat].
  cbn [decode_loop].
  rewrite example_step by (left; reflexivity). cbn [bind].
  change (s_decoder_hidden (attention_step32 1)) with [[zero]].
  change (s_next_inputs (attention_step32 1)) with [2%Z].
  rewrite example_step by (right; reflexivity). reflexivity.
Qed.

End Attention32Facts.

(** ** Seq2SeqAttentionModel on float32 tensors: the context vector *)

Module Attention32Context.

Import Float32 Softmax32 Float32Facts Softmax32Facts.
Import Seq2SeqAttentionModel32 Spec Examples Attention32Facts MonadFacts.

Lemma mul_comm (x y : float32) : mul x y = mul y x.
Proof.
  unfold mul, SFmul.
  destruct x as [sx|sx| |sx mx ex], y as [sy|sy| |sy my ey];
    try reflexivity; try (rewrite xorb_comm; reflexivity).
  rewrite xorb_comm, Pos.mul_comm, Z.add_comm. reflexivity.
Qed.

Lemma vadd32_length (a b : list float32) (n : nat) :
  length a = n -> length b = n -> length (vadd a b) = n.
Proof.
  revert b n; induction a as [|x a IH]; intros [|y b] n Ha Hb;
    simpl in *; try congruence.
  destruct n; [discriminate|]. f_equal. apply IH; congruence.
Qed.

Lemma vadd32_nth (a b : list float32) (j : nat) :
  length a = length b ->
  nth j (vadd a b) zero = add (nth j a zero) (nth j b zero).
Proof.
  revert b j; induction a as [|x a IH]; intros [|y b] j H;
    simpl in *; try discriminate.
  - destruct j; reflexivity.
  - destruct j; [reflexivity | apply IH; congruence].
Qed.

Lemma fold_left_vadd32 (n : nat) (rows : list (list float32)) :
  Forall (fun row => length row = n) rows ->
  forall acc, length acc = n ->
    length (fold_left vadd rows acc) = n
    /\ forall j, nth j (fold_left vadd rows acc) zero
                 = fold_left add (map (fun row => nth j row zero) rows)
                     (nth j acc zero).
Proof.
  induction 1 as [|row rows Hrow _ IH]; intros acc Hacc; simpl.
  - split; [assumption | reflexivity].
  - destruct (IH (vadd acc row) (vadd32_length _ _ _ Hacc Hrow)) as [Hl Hn].
    split; [assumption|]. intros j.
    rewrite Hn, vadd32_nth by congruence. reflexivity.
Qed.

Lemma vscale32_nth (w : float32) (h : list float32) (j : nat) :
  (j < length h)%nat ->
  nth j (vscale w h) zero = mul w (nth j h zero).
Proof.
  unfold vscale. revert j; induction h as [|x h IH]; intros [|j] Hj;
    simpl in *; try lia.
  - apply mul_comm.
  - apply IH. lia.
Qed.

Lemma weighted32_sizes (n : nat) (e : list (list float32))
  (w : list float32) (weighted : list (list float32)) :
  zipM (fun h x => Some (vscale x h)) e w = Some weighted ->
  Forall (fun x => length x = n) e ->
  Forall (fun x => length x = n) weighted.
Proof.
  revert w weighted; induction e as [|h e IH]; intros [|x w] weighted H He;
    simpl in H; try discriminate.
  - inversion H; constructor.
  - apply bind_some in H as (rest & Hrest & H). inversion H; subst.
    inversion He; subst. constructor; [apply length_map | eauto].
Qed.

Lemma weighted32_entries (n : nat) (e : list (list float32))
  (w : list float32) (weighted : list (list float32)) (j : nat) :
  zipM (fun h x => Some (vscale x h)) e w = Some weighted ->
  Forall (fun x => length x = n) e ->
  (j < n)%nat ->
  map (fun row => nth j row zero) weighted
  = map (fun hw => mul (snd hw) (nth j (fst hw) zero)) (combine e w).
Proof.
  revert w weighted; induction e as [|h e IH]; intros [|x w] weighted H He Hj;
    simpl in H; try discriminate.
  - inversion H; reflexivity.
  - apply bind_some in H as (rest & Hrest & H). inversion H; subst.
    inversion He; subst. simpl. f_equal.
    + apply vscale32_nth. assumption.
    + apply IH; assumption.
Qed.

Lemma list_as_map_nth32 (l : list float32) :
  l = map (fun j => nth j l zero) (seq 0 (length l)).
Proof.
  induction l as [|x l IH]; simpl; [reflexivity|].
  f_equal. rewrite <- seq_shift, map_map. exact IH.
Qed.

(** [attend] computes the context vector of the specification. *)
Lemma attend32_context (e : list (list float32)) (w ctx : list float32)
  (n : nat) :
  attend e w = Some ctx ->
  e <> [] ->
  Forall (fun x => length x = n) e ->
  ctx = context_vector32 e w n.
Proof.
  unfold attend. intros H Hne He.
  apply bind_some in H as (weighted & Hw & H). inversion H; subst; clear H.
  pose proof (weighted32_sizes _ _ _ _ Hw He) as Hsizes.
  destruct weighted as [|first rest].
  { apply zipM_length in Hw as [_ Hl]. destruct e; simpl in *; congruence. }
  assert (Hfirst : length first = n) by (inversion Hsizes; assumption).
  destruct (fold_left_vadd32 _ _ Hsizes (map (fun _ => zero) first))
    as [Hl Hn].
  { rewrite length_map. exact Hfirst. }
  unfold sum_rows, context_vector32.
  rewrite (list_as_map_nth32 (fold_left vadd (first :: rest) _)), Hl.
  apply map_ext_in. intros j Hj. apply in_seq in Hj.
  rewrite Hn. unfold context_entry32, sum.
  rewrite (weighted32_entries n e w (first :: rest) j Hw He) by lia.
  f_equal.
  clear. revert j. induction first as [|x first IH]; intros [|j];
    simpl; try reflexivity. apply IH.
Qed.

(** What an iteration computes, read off its record. *)
Lemma decode_step32_inv (exp tanh : float32 -> float32) (M : t)
  (enc : list (list (list float32))) (mask : LongTensor2)
  (targets : option LongTensor2) (draw : R) (i : nat)
  (h : list (list float32)) (inp : LongTensor1) (s : Step) :
  decode_step exp tanh M enc mask targets draw i h inp = Some s ->
  s_decoder_inputs s = inp
  /\ s_decoder_hidden_in s = h
  /\ exists emb att cat,
       mapM (embedding M) inp = Some emb
       /\ zipM (fun e d => Some (map (fun x => map tanh (vadd x d)) e))
            (map (map (attention_encoder M)) enc)
            (map (attention_decoder M) h) = Some att
       /\ softmax_masked exp (map (map (attention_reduce M)) att) mask
            default_epsilon = Some (s_att_normazlied s)
       /\ zipM attend enc (s_att_normazlied s) = Some (s_decoder_hidden_att s)
       /\ zipM (fun a c => Some (a ++ c)) h (s_decoder_hidden_att s)
          = Some cat
       /\ zipM (fun x a => Some (decoder M x a)) emb
            (map (decoder_hidden_combine M) cat)
          = Some (s_decoder_hidden s).
Proof.
  unfold decode_step. intros H.
  apply bind_some in H as (emb & Hemb & H).
  apply bind_some in H as (att & Hatt & H).
  cbv zeta in H.
  apply bind_some in H as (w & Hw & H).
  apply bind_some in H as (ctx & Hctx & H).
  apply bind_some in H as (cat & Hcat & H).
  apply bind_some in H as (h' & Hh' & H).
  apply bind_some in H as (next & Hnext & H).
  inversion H; subst; clear H; simpl.
  split; [reflexivity|]. split; [reflexivity|].
  exists emb, att, cat. repeat split; assumption.
Qed.

(** The iterations of the loop, one after the other. *)
Lemma decode_loop32_nth (exp tanh : float32 -> float32) (M : t)
  (enc : list (list (list float32))) (mask : LongTensor2)
  (targets : option LongTensor2) (rand : nat -> R) (steps : list nat) :
  forall (h : list (list float32)) (inp : LongTensor1) (trace : list Step),
    decode_loop exp tanh M enc mask targets rand steps h inp = Some trace ->
    forall k s, nth_error trace k = Some s ->
      exists i h' inp',
        decode_step exp tanh M enc mask targets (rand i) i h' inp' = Some s
        /\ match k with
           | O => h' = h
           | S k' => exists s', nth_error trace k' = Some s'
                                /\ h' = s_decoder_hidden s'
           end.
Proof.
  induction steps as [|i steps IH]; intros h inp trace H;
    cbn [decode_loop] in H.
  - inversion H; subst. intros [|k] s Hk; discriminate.
  - apply bind_some in H as (s0 & Hs0 & H).
    apply bind_some in H as (rest & Hrest & H).
    inversion H; subst; clear H.
    intros [|k] s Hk; simpl in Hk.
    + inversion Hk; subst. exists i, h, inp. auto.
    + destruct (IH _ _ _ Hrest _ _ Hk) as (j & h' & inp' & Hstep & Hprev).
      exists j, h', inp'. split; [assumption|].
      destruct k as [|k].
      * subst h'. exists s0. auto.
      * destruct Hprev as (s' & Hs' & ->). exists s'. auto.
Qed.

End Attention32Context.

(** ** The claims that depend on the arithmetic of float32 *)

Module Float32Claims.

Import Float32 Softmax32 Float32Facts Softmax32Facts.
Import Seq2SeqAttentionModel32 Spec Examples Attention32Facts.
Import MonadFacts Attention32Context.

(** C1 does not hold as stated: when the exponential of a score at a
    masked position overflows, the product with the mask is [inf * 0], a
    NaN, and every weight of the row is a NaN, the one at the masked
    position too; and so it is when a score is a NaN, whatever its
    position. *)
Lemma softmax_masked_overflow_gives_nan :
  softmax_masked exp_table [[of_long 100; zero]] [[0; 1]]%Z default_epsilon
  = Some [[S754_nan; S754_nan]]
  /\ exp_table (of_long 100) = S754_infinity false
  /\ exp_table zero = of_long 1
  /\ softmax_masked exp_table [[zero; S754_nan]] [[0; 1]]%Z default_epsilon
     = Some [[S754_nan; S754_nan]]
  /\ exp_table S754_nan = S754_nan.
Proof. repeat split. Qed.

(** C1 (as amended): [softmax_masked] gives the weight 0 wherever the mask
    is 0, for a row of scores none of whose exponentials is a NaN and none
    of whose exponentials overflows at a position the mask excludes; hence,
    in every iteration of the [decode] that [forward] runs, the attention
    weights are 0 at every position where the input token is [pad_index],
    for the rows whose scores are such. *)
Theorem attention_ignores_padding :
  (forall (exp : float32 -> float32) (scores : list (list float32))
          (mask : LongTensor2) (epsilon : float32)
          (out : list (list float32)) (b i : nat) (mrow : LongTensor1),
      softmax_masked exp scores mask epsilon = Some out ->
      is_positive epsilon = true ->
      nth_error mask b = Some mrow ->
      Softmax.binary_mask mrow ->
      nth_error mrow i = Some 0%Z ->
      exists srow orow,
        nth_error scores b = Some srow
        /\ nth_error out b = Some orow
        /\ (no_overflow_where_masked exp srow mrow ->
            exists w, nth_error orow i = Some w /\ is_zero w = true))
  /\ (forall (exp tanh : float32 -> float32) (M : t) (inputs : LongTensor2)
             (targets : option LongTensor2) (rand : nat -> R)
             (steps : list Step) (k : nat) (s : Step) (b : nat)
             (row : LongTensor1) (i : nat),
         forward_steps exp tanh M inputs targets rand = Some steps ->
         nth_error steps k = Some s ->
         nth_error inputs b = Some row ->
         nth_error row i = Some (pad_index M) ->
         exists scores att,
           nth_error (s_att_reduced s) b = Some scores
           /\ nth_error (s_att_normazlied s) b = Some att
           /\ (no_overflow_where_masked exp scores
                 (map (fun x => if (x =? pad_index M)%Z then 0%Z else 1%Z)
                    row) ->
               exists w, nth_error att i = Some w /\ is_zero w = true)).
Proof.
  assert (Hsoft : forall (exp : float32 -> float32)
                         (scores : list (list float32))
                         (mask : LongTensor2) (epsilon : float32)
                         (out : list (list float32)) (b i : nat)
                         (mrow : LongTensor1),
             softmax_masked exp scores mask epsilon = Some out ->
             is_positive epsilon = true ->
             nth_error mask b = Some mrow ->
             Softmax.binary_mask mrow ->
             nth_error mrow i = Some 0%Z ->
             exists srow orow,
               nth_error scores b = Some srow
               /\ nth_error out b = Some orow
               /\ (no_overflow_where_masked exp srow mrow ->
                   exists w, nth_error orow i = Some w
                             /\ is_zero w = true)).
  { intros exp scores mask epsilon out b i mrow H He Hb Hbin Hi.
    destruct (softmax32_nth exp epsilon scores mask out b mrow H Hb)
      as (srow & orow & Hs & Ho & Hrow).
    exists srow, orow. split; [exact Hs|]. split; [exact Ho|].
    intros Hall.
    apply (softmax32_row_zero exp srow mrow epsilon orow i Hrow He
             (suits_mask_binary exp srow mrow Hbin Hall) Hi). }
  split; [exact Hsoft|].
  intros exp tanh M inputs targets rand steps k s b row i H Hk Hb Hi.
  apply forward_steps_attention in H as [_ Hall].
  rewrite Forall_forall in Hall.
  pose proof (Hall s (nth_error_In _ _ Hk)) as Hs.
  assert (Hm : nth_error (inputs_mask_of M inputs) b
               = Some (map (fun x => if (x =? pad_index M)%Z
                                     then 0%Z else 1%Z) row))
    by (unfold inputs_mask_of; rewrite nth_error_map, Hb; reflexivity).
  apply (Hsoft exp _ _ _ _ b i _ Hs default_epsilon_positive Hm).
  - apply Forall_forall. intros m Hin.
    apply in_map_iff in Hin as (x & <- & _).
    destruct (x =? pad_index M)%Z; auto.
  - rewrite nth_error_map, Hi. cbn [option_map].
    rewrite Z.eqb_refl. reflexivity.
Qed.


Lemma attention_ignores_padding_witness :
  (exists out orow w,
      softmax_masked exp_table [[zero; zero]] [[1; 0]]%Z default_epsilon
      = Some out
      /\ nth_error out 0 = Some orow
      /\ nth_error orow 1 = Some w
      /\ is_zero w = true)
  /\ exists steps s att w,
       forward_steps exp_table tanh_table attention_model32 [[1; 0]]%Z None
         Examples.zero_draws = Some steps
       /\ nth_error steps 0 = Some s
       /\ nth_error (s_att_normazlied s) 0 = Some att
       /\ nth_error att 1 = Some w
       /\ is_zero w = true.
Proof.
  split.
  - eassert (Hout : softmax_masked exp_table [[zero; zero]] [[1; 0]]%Z
                      default_epsilon = Some _) by reflexivity.
    destruct (proj1 attention_ignores_padding exp_table [[zero; zero]]
                [[1; 0]]%Z default_epsilon _ 0%nat 1%nat [1; 0]%Z
                Hout eq_refl eq_refl)
      as (srow & orow & Hs & Ho & Hw).
    + SoftmaxFacts.binary_mask_tac.
    + reflexivity.
    + inversion Hs; subst srow.
      assert (Hok : no_overflow_where_masked exp_table [zero; zero]
                      [1; 0]%Z)
        by (repeat constructor; intros; discriminate).
      destruct (Hw Hok) as (w & Hw' & Hz).
      eexists _, orow, w. split; [exact Hout|].
      split; [exact Ho|]. split; [exact Hw' | exact Hz].
  - destruct (proj2 attention_ignores_padding exp_table tanh_table
                attention_model32 [[1; 0]]%Z None Examples.zero_draws
                _ 0%nat _ 0%nat [1; 0]%Z 1%nat example_run eq_refl eq_refl
                eq_refl)
      as (scores & att & Hs & Ha & Hw).
    inversion Hs; subst scores.
    assert (Hok : no_overflow_where_masked exp_table [zero; zero]
                    [1; 0]%Z)
      by (repeat constructor; intros; discriminate).
    destruct (Hw Hok) as (w & Hw' & Hz).
    exists [attention_step32 1; attention_step32 2], (attention_step32 1), att, w.
    split; [exact example_run|]. split; [reflexivity|].
    split; [exact Ha|]. split; [exact Hw' | exact Hz].
Defined.

(** C8 does not hold as stated: under the all-zero mask a score whose
    exponential overflows has the weight NaN, and so has a score that is a
    NaN. *)
Lemma softmax_masked_all_zero_mask_overflow :
  softmax_masked exp_table [[of_long 100]] [[0]]%Z default_epsilon
  = Some [[S754_nan]]
  /\ exp_table (of_long 100) = S754_infinity false
  /\ softmax_masked exp_table [[S754_nan]] [[0]]%Z default_epsilon
     = Some [[S754_nan]]
  /\ exp_table S754_nan = S754_nan.
Proof. repeat split. Qed.

Lemma masked_exp_zero_mask (exp : float32 -> float32)
  (inputs : list float32) :
  forall mask p,
    masked_exp exp inputs mask = Some p ->
    Forall (fun m => m = 0%Z) mask ->
    Forall (fun x => is_finite (exp x) = true) inputs ->
    Forall (fun y => is_zero y = true) p.
Proof.
  induction inputs as [|x inputs IH]; intros [|m mask] p H Hm Hx;
    try discriminate.
  - inversion H. constructor.
  - rewrite masked_exp_cons in H.
    destruct (masked_exp exp inputs mask) as [q|] eqn:E; [|discriminate].
    inversion H; subst. inversion Hm; inversion Hx; subst.
    constructor; [apply mul_mask_zero; assumption | eapply IH; eauto].
Qed.

Lemma sum_zeros (p : list float32) :
  Forall (fun y => is_zero y = true) p -> is_zero (sum p) = true.
Proof.
  unfold sum. assert (H0 : is_zero zero = true) by reflexivity.
  revert H0. generalize zero.
  induction p as [|y p IH]; intros acc Hacc Hp; cbn [fold_left].
  - exact Hacc.
  - inversion Hp; subst. apply IH; [|assumption].
    destruct acc; try discriminate. destruct y; try discriminate.
    destruct s, s0; reflexivity.
Qed.

(** C8 (as amended): on inputs and a mask of the same shape
    [softmax_masked] returns, whatever the mask (a float32 division raises
    no error); under a mask that is all zeros every weight is 0, for inputs
    none of whose exponentials overflows or is a NaN; and with a positive
    epsilon the denominator of a row is above zero under every 0/1 mask,
    as long as no exponential is a NaN and none overflows at a position the
    mask excludes. *)
Theorem softmax_masked_all_zero_mask (exp : float32 -> float32)
  (inputs : list (list float32)) (mask : LongTensor2) (epsilon : float32) :
  Forall2 (fun row mrow => length row = length mrow) inputs mask ->
  is_positive epsilon = true ->
  exists out,
    softmax_masked exp inputs mask epsilon = Some out
    /\ Forall2 (fun row orow => length orow = length row) inputs out
    /\ (Forall (Forall (fun m => m = 0%Z)) mask ->
        Forall (Forall (fun x => is_finite (exp x) = true)) inputs ->
        Forall (Forall (fun w => is_zero w = true)) out)
    /\ (forall b row mrow p,
           nth_error inputs b = Some row ->
           nth_error mask b = Some mrow ->
           Softmax.binary_mask mrow ->
           no_overflow_where_masked exp row mrow ->
           masked_exp exp row mrow = Some p ->
           above_zero (denominator p epsilon) = true).
Proof.
  intros Hshape He.
  destruct (softmax32_total exp inputs mask epsilon Hshape)
    as (out & Hout & Hlen).
  exists out. split; [exact Hout|]. split; [exact Hlen|]. split.
  - intros Hm Hx. apply Forall_forall. intros orow Ho.
    apply In_nth_error in Ho as (b & Hb).
    assert (Hmb : exists mrow, nth_error mask b = Some mrow).
    { destruct (nth_error mask b) as [mrow|] eqn:E; [eauto|].
      apply nth_error_None in E.
      assert (b < length out)%nat by (apply nth_error_Some; congruence).
      pose proof (Forall2_length Hshape). pose proof (Forall2_length Hlen).
      lia. }
    destruct Hmb as (mrow & Hmb).
    destruct (softmax32_nth exp epsilon inputs mask out b mrow Hout Hmb)
      as (row & orow' & Hrow & Ho' & Hsm).
    assert (orow' = orow) by congruence. subst orow'.
    apply softmax32_row_inv in Hsm as (p & Hp & ->).
    rewrite Forall_forall in Hm, Hx.
    pose proof (masked_exp_zero_mask exp row mrow p Hp
                  (Hm mrow (nth_error_In _ _ Hmb))
                  (Hx row (nth_error_In _ _ Hrow))) as Hz.
    assert (Hd : above_zero (denominator p epsilon) = true).
    { unfold denominator. apply add_positive; [|exact He].
      pose proof (sum_zeros p Hz) as Hs.
      destruct (sum p); try discriminate. reflexivity. }
    apply Forall_forall. intros w Hw.
    apply in_map_iff in Hw as (y & <- & Hy).
    rewrite Forall_forall in Hz.
    apply div_zero; [apply Hz; exact Hy | exact Hd].
  - intros b row mrow p _ _ Hbin Hall Hp.
    apply denominator_above_zero; [|exact He].
    apply (masked_exp_nonnegative exp row mrow
             (suits_mask_binary exp row mrow Hbin Hall) p Hp).
Qed.

Lemma softmax_masked_all_zero_mask_witness :
  exists out,
    softmax_masked exp_table [[zero; zero]] [[0; 0]]%Z default_epsilon
    = Some out
    /\ Forall (Forall (fun w => is_zero w = true)) out.
Proof.
  destruct (softmax_masked_all_zero_mask exp_table [[zero; zero]]
              [[0; 0]]%Z default_epsilon)
    as (out & Hout & _ & Hz & _).
  - repeat constructor.
  - reflexivity.
  - exists out. split; [exact Hout|].
    apply Hz; repeat constructor.
Defined.

(** C2 does not hold as stated: for the score 0 under the mask 1 the only
    weight, and with it the sum of the weights, is 16777200 * 2^-24, about
    0.99999905, not 1; and for a score whose exponential overflows the
    weight is [inf / inf], a NaN, which is not a non-negative number. *)
Lemma softmax_masked_sum_below_one :
  softmax_masked exp_table [[zero]] [[1]]%Z default_epsilon
  = Some [[S754_finite false 16777200 (-24)]]
  /\ sum [S754_finite false 16777200 (-24)]
     = S754_finite false 16777200 (-24)
  /\ SFeqb (sum [S754_finite false 16777200 (-24)]) (of_long 1) = false
  /\ exp_table zero = of_long 1
  /\ softmax_masked exp_table [[of_long 100]] [[1]]%Z default_epsilon
     = Some [[S754_nan]]
  /\ nonnegative S754_nan = false
  /\ exp_table (of_long 100) = S754_infinity false.
Proof. repeat split. Qed.

Lemma masked_exp_finite (exp : float32 -> float32) (inputs : list float32) :
  forall mask p,
    masked_exp exp inputs mask = Some p ->
    Softmax.binary_mask mask ->
    Forall (fun x => finite_nonnegative (exp x) = true) inputs ->
    Forall (fun y => nonnegative y = true /\ is_finite y = true) p.
Proof.
  induction inputs as [|x inputs IH]; intros [|m mask] p H Hm Hx;
    try discriminate.
  - inversion H. constructor.
  - rewrite masked_exp_cons in H.
    destruct (masked_exp exp inputs mask) as [q|] eqn:E; [|discriminate].
    inversion H; subst. inversion Hm as [|? ? Hm0 Hm']; subst.
    inversion Hx as [|? ? Hx0 Hx']; subst.
    constructor; [|eapply IH; eauto].
    unfold finite_nonnegative in Hx0.
    apply andb_true_iff in Hx0 as [Hx0 Hn].
    apply andb_true_iff in Hx0 as [Hv Hf].
    destruct Hm0 as [-> | ->].
    + pose proof (mul_mask_zero (exp x) Hf) as Hz.
      destruct (mul (exp x) (of_long 0)); try discriminate.
      split; reflexivity.
    + rewrite (mul_mask_one (exp x) Hv Hf). split; assumption.
Qed.

(** C2 (as amended): for inputs whose exponentials are numbers of the
    format (no overflow, no NaN), a positive epsilon and 0/1 masks of the
    shape of the inputs, [softmax_masked] returns weights that are not
    negative (and no NaN); they do not sum to 1 in general: for the score 0
    under the mask 1 the weight is 16777200 * 2^-24. *)
Theorem softmax_masked_normalization :
  (forall (exp : float32 -> float32) (inputs : list (list float32))
          (mask : LongTensor2) (epsilon : float32),
      Forall2 (fun row mrow => length row = length mrow) inputs mask ->
      Forall Softmax.binary_mask mask ->
      is_positive epsilon = true ->
      Forall (Forall (fun x => finite_nonnegative (exp x) = true)) inputs ->
      exists out,
        softmax_masked exp inputs mask epsilon = Some out
        /\ Forall2 (fun row orow => length orow = length row) inputs out
        /\ Forall (Forall (fun w => nonnegative w = true)) out)
  /\ (forall exp : float32 -> float32,
         exp zero = of_long 1 ->
         softmax_masked exp [[zero]] [[1]]%Z default_epsilon
         = Some [[S754_finite false 16777200 (-24)]]).
Proof.
  split.
  - intros exp inputs mask epsilon Hshape Hbin He Hx.
    destruct (softmax32_total exp inputs mask epsilon Hshape)
      as (out & Hout & Hlen).
    exists out. split; [exact Hout|]. split; [exact Hlen|].
    apply Forall_forall. intros orow Ho.
    apply In_nth_error in Ho as (b & Hb).
    assert (Hmb : exists mrow, nth_error mask b = Some mrow).
    { destruct (nth_error mask b) as [mrow|] eqn:E; [eauto|].
      apply nth_error_None in E.
      assert (b < length out)%nat by (apply nth_error_Some; congruence).
      pose proof (Forall2_length Hshape). pose proof (Forall2_length Hlen).
      lia. }
    destruct Hmb as (mrow & Hmb).
    destruct (softmax32_nth exp epsilon inputs mask out b mrow Hout Hmb)
      as (row & orow' & Hrow & Ho' & Hsm).
    assert (orow' = orow) by congruence. subst orow'.
    apply softmax32_row_inv in Hsm as (p & Hp & ->).
    rewrite Forall_forall in Hbin, Hx.
    pose proof (masked_exp_finite exp row mrow p Hp
                  (Hbin mrow (nth_error_In _ _ Hmb))
                  (Hx row (nth_error_In _ _ Hrow))) as Hpf.
    assert (Hd : above_zero (denominator p epsilon) = true).
    { apply denominator_above_zero; [|exact He].
      eapply Forall_impl; [|exact Hpf]. simpl. tauto. }
    apply Forall_forall. intros w Hw.
    apply in_map_iff in Hw as (y & <- & Hy).
    rewrite Forall_forall in Hpf. destruct (Hpf y Hy) as [Hn Hf].
    apply div_nonnegative; assumption.
  - intros exp H0. unfold softmax_masked, softmax_masked_row, masked_exp.
    cbn [map zipM bind]. rewrite H0. reflexivity.
Qed.

Lemma softmax_masked_normalization_witness :
  (exists out,
      softmax_masked exp_table [[zero; zero]] [[1; 0]]%Z default_epsilon
      = Some out
      /\ Forall (Forall (fun w => nonnegative w = true)) out)
  /\ softmax_masked exp_table [[zero]] [[1]]%Z default_epsilon
     = Some [[S754_finite false 16777200 (-24)]].
Proof.
  split.
  - destruct (proj1 softmax_masked_normalization exp_table [[zero; zero]]
                [[1; 0]]%Z default_epsilon)
      as (out & Hout & _ & Hn).
    + repeat constructor.
    + constructor; [SoftmaxFacts.binary_mask_tac | constructor].
    + reflexivity.
    + repeat constructor.
    + exists out. split; assumption.
  - apply (proj2 softmax_masked_normalization exp_table). reflexivity.
Defined.

(** C7: in every iteration of [decode], and for every row of the batch, the
    attention weights are [softmax_masked] of the scores of the encoder
    positions under the mask, one weight per position; the context vector
    is the sum over the encoder positions of the weight times the encoder
    hidden state, in float32 ([Spec.context_vector32]: the products are
    added from the first position on); the decoder cell is run on the
    embedding of the input token and on [decoder_hidden_combine] of the
    previous hidden state concatenated with the context vector; and the
    previous hidden state is the one the iteration before produced (all
    zeros for the first iteration). *)
Theorem decode_context_and_hidden (exp tanh : float32 -> float32) (M : t)
  (enc : list (list (list float32))) (mask : LongTensor2)
  (targets : option LongTensor2) (rand : nat -> R) (trace : list Step)
  (k : nat) (s : Step) :
  decode_steps exp tanh M enc mask targets rand = Some trace ->
  nth_error trace k = Some s ->
  length (s_decoder_hidden s) = length enc
  /\ (forall b e n,
         nth_error enc b = Some e ->
         Forall (fun x => length x = n) e ->
         exists m hprev tok emb w,
           nth_error mask b = Some m
           /\ nth_error (s_decoder_hidden_in s) b = Some hprev
           /\ nth_error (s_decoder_inputs s) b = Some tok
           /\ embedding M tok = Some emb
           /\ softmax_masked_row exp
                (map (fun x =>
                        attention_reduce M
                          (map tanh (vadd (attention_encoder M x)
                                       (attention_decoder M hprev))))
                   e)
                m default_epsilon = Some w
           /\ nth_error (s_att_normazlied s) b = Some w
           /\ length w = length e
           /\ nth_error (s_decoder_hidden_att s) b
              = Some (context_vector32 e w n)
           /\ nth_error (s_decoder_hidden s) b
              = Some (decoder M emb
                        (decoder_hidden_combine M
                           (hprev ++ context_vector32 e w n))))
  /\ match k with
     | O => Forall (Forall (fun x => x = zero)) (s_decoder_hidden_in s)
     | S k' => exists s', nth_error trace k' = Some s'
                          /\ s_decoder_hidden_in s = s_decoder_hidden s'
     end.
Proof.
  intros H Hk.
  unfold decode_steps in H.
  apply bind_some in H as (first & Hfirst & H).
  apply bind_some in H as (inp & _ & H).
  destruct (decode_loop32_nth exp tanh M enc mask targets rand _ _ _ _ H
              k s Hk) as (i & h' & inp' & Hstep & Hprev).
  apply decode_step32_inv in Hstep
    as (Hinp & Hh & emb & att & cat & Hemb & Hatt & Hsm & Hctx & Hcat
        & Hdec).
  subst h' inp'.
  pose proof (zipM_length _ _ _ Hctx) as [Hl1 Hl2].
  pose proof (zipM_length _ _ _ Hcat) as [Hl3 Hl4].
  pose proof (zipM_length _ _ _ Hdec) as [Hl5 Hl6].
  rewrite length_map in Hl5.
  split; [|split].
  - rewrite Hl6, Hl5, Hl4, Hl3, Hl2. reflexivity.
  - intros b e n Hb He.
    destruct (zipM_nth_left _ _ _ b Hctx Hb) as (w & ctx & Hw & Hc & Hattend).
    assert (Hne : e <> []).
    { unfold column in Hfirst.
      destruct (mapM_nth _ _ _ Hfirst Hb) as (x & _ & Hx).
      intros ->. discriminate. }
    pose proof (attend32_context _ _ _ _ Hattend Hne He) as ->.
    unfold softmax_masked in Hsm.
    destruct (zipM_nth _ _ _ _ Hsm Hw) as (scores & m & Hscores & Hm & Hrow).
    rewrite nth_error_map in Hscores.
    destruct (nth_error att b) as [attb|] eqn:Hattb; [|discriminate].
    inversion Hscores; subst scores; clear Hscores.
    destruct (zipM_nth _ _ _ _ Hatt Hattb) as (e' & d & He' & Hd & Heq).
    rewrite nth_error_map, Hb in He'. inversion He'; subst e'; clear He'.
    rewrite nth_error_map in Hd.
    destruct (nth_error (s_decoder_hidden_in s) b) as [hprev|] eqn:Hp;
      [|discriminate].
    inversion Hd; subst d; clear Hd.
    inversion Heq; subst attb; clear Heq.
    rewrite !map_map in Hrow.
    destruct (zipM_nth_left _ _ _ b Hcat Hp) as (c' & hc & Hc' & Hhc & Heq).
    assert (c' = context_vector32 e w n) by congruence. subst c'.
    inversion Heq; subst hc; clear Heq.
    destruct (nth_error emb b) as [embb|] eqn:Hembb.
    2:{ apply nth_error_None in Hembb.
        assert (b < length enc)%nat by (apply nth_error_Some; congruence).
        lia. }
    destruct (mapM_nth_inv _ _ _ Hemb Hembb) as (tok & Htok & Htokemb).
    destruct (zipM_nth_left _ _ _ b Hdec Hembb) as (c2 & x & Hc2 & Hx & Heq).
    rewrite nth_error_map, Hhc in Hc2. inversion Hc2; subst c2; clear Hc2.
    inversion Heq; subst x; clear Heq.
    exists m, hprev, tok, embb, w.
    split; [exact Hm|]. split; [reflexivity|]. split; [exact Htok|].
    split; [exact Htokemb|]. split; [exact Hrow|]. split; [exact Hw|].
    split; [|split; [exact Hc | exact Hx]].
    unfold attend in Hattend.
    apply bind_some in Hattend as (weighted & Hwd & _).
    apply zipM_length in Hwd as [Hwl _]. congruence.
  - destruct k as [|k]; [|exact Hprev].
    rewrite Hprev. apply Forall_forall. intros row Hrow.
    apply in_map_iff in Hrow as (x & <- & _).
    apply Forall_forall. intros y Hy.
    apply in_map_iff in Hy as (z & <- & _). reflexivity.
Qed.

Lemma decode_context_and_hidden_witness :
  exists trace s,
    decode_steps exp_table tanh_table attention_model32 [[[zero]; [zero]]]
      [[1; 0]]%Z None Examples.zero_draws = Some trace
    /\ nth_error trace 0 = Some s
    /\ length (s_decoder_hidden s) = 1%nat
    /\ (forall b e n,
          nth_error [[[zero]; [zero]]] b = Some e ->
          Forall (fun x => length x = n) e ->
          exists m hprev tok emb w,
            nth_error [[1; 0]]%Z b = Some m
            /\ nth_error (s_decoder_hidden_in s) b = Some hprev
            /\ nth_error (s_decoder_inputs s) b = Some tok
            /\ embedding attention_model32 tok = Some emb
            /\ softmax_masked_row exp_table
                 (map (fun x =>
                         attention_reduce attention_model32
                           (map tanh_table
                              (vadd (attention_encoder attention_model32 x)
                                 (attention_decoder attention_model32
                                    hprev))))
                    e)
                 m default_epsilon = Some w
            /\ nth_error (s_att_normazlied s) b = Some w
            /\ length w = length e
            /\ nth_error (s_decoder_hidden_att s) b
               = Some (context_vector32 e w n)
            /\ nth_error (s_decoder_hidden s) b
               = Some (decoder attention_model32 emb
                         (decoder_hidden_combine attention_model32
                            (hprev ++ context_vector32 e w n))))
    /\ Forall (Forall (fun x => x = zero)) (s_decoder_hidden_in s).
Proof.
  exists [attention_step32 1; attention_step32 2], (attention_step32 1).
  split; [exact example_decode_run|]. split; [reflexivity|].
  exact (decode_context_and_hidden exp_table tanh_table attention_model32
           [[[zero]; [zero]]] [[1; 0]]%Z None Examples.zero_draws
           [attention_step32 1; attention_step32 2] 0%nat
           (attention_step32 1) example_decode_run eq_refl).
Defined.

End Float32Claims.

(** * Further properties of the code *)

Unset Implicit Arguments.

(** ** Vocab: counting, identifiers and pruning *)

Module VocabExtras.

Import Vocab Spec DictFacts VocabFacts.

Lemma get_set_same {K V : Type} (eq_dec : forall x y : K, {x = y} + {x <> y})
  (d : Dict.dict K V) (k : K) (v : V) :
  Dict.get eq_dec (Dict.set eq_dec d k v) k = Some v.
Proof.
  induction d as [|[k' v'] d IH]; simpl.
  - destruct (eq_dec k k); congruence.
  - destruct (eq_dec k k') as [->|Hne]; simpl.
    + destruct (eq_dec k' k'); congruence.
    + destruct (eq_dec k k'); congruence.
Qed.

Lemma get_set_other {K V : Type}
  (eq_dec : forall x y : K, {x = y} + {x <> y})
  (d : Dict.dict K V) (k k' : K) (v : V) :
  k' <> k ->
  Dict.get eq_dec (Dict.set eq_dec d k v) k' = Dict.get eq_dec d k'.
Proof.
  intros Hne. induction d as [|[k0 v0] d IH]; simpl.
  - destruct (eq_dec k' k); congruence.
  - destruct (eq_dec k k0) as [->|Hk]; simpl.
    + destruct (eq_dec k' k0); congruence.
    + destruct (eq_dec k' k0); congruence.
Qed.

Lemma count_add_token (v : t) (token tok : string) :
  count (token_counts (add_token v token)) tok
  = (count (token_counts v) tok
     + if string_dec token tok then 1 else 0)%Z.
Proof.
  unfold add_token, count at 1. simpl.
  destruct (string_dec token tok) as [->|Hne].
  - rewrite get_set_same. reflexivity.
  - rewrite get_set_other by congruence. unfold count. lia.
Qed.

Lemma count_add_tokens (document : list string) (tok : string) :
  forall v : t,
    count (token_counts (fold_left add_token document v)) tok
    = (count (token_counts v) tok
       + Z.of_nat (count_occ string_dec document tok))%Z.
Proof.
  induction document as [|token document IH]; intros v; simpl; [lia|].
  rewrite IH, count_add_token.
  destruct (string_dec token tok); lia.
Qed.

Lemma rebuild_counts (v : t) :
  token_counts (_rebuild_id2token v) = token_counts v.
Proof. reflexivity. Qed.

Lemma count_add_document (v : t) (document : list string) (rebuild : bool)
  (tok : string) :
  count (token_counts (add_document v document rebuild)) tok
  = (count (token_counts v) tok
     + Z.of_nat (count_occ string_dec document tok))%Z.
Proof.
  unfold add_document. destruct rebuild; simpl; apply count_add_tokens.
Qed.

(** X1: [add_document] and [add_documents] count occurrences: the count of
    every token grows by the number of times the token occurs in the
    document, or in all the documents. *)
Theorem add_document_counts_occurrences :
  (forall (v : t) (document : list string) (rebuild : bool) (tok : string),
      count (token_counts (add_document v document rebuild)) tok
      = (count (token_counts v) tok
         + Z.of_nat (count_occ string_dec document tok))%Z)
  /\ (forall (v : t) (documents : list (list string)) (tok : string),
         count (token_counts (add_documents v documents)) tok
         = (count (token_counts v) tok
            + Z.of_nat (count_occ string_dec (concat documents) tok))%Z).
Proof.
  split; [exact count_add_document|].
  intros v documents tok. unfold add_documents. rewrite rebuild_counts.
  revert v; induction documents as [|doc documents IH]; intros v;
    cbn [fold_left concat]; [simpl; lia|].
  rewrite IH, count_add_document, count_occ_app. lia.
Qed.

(** The id of a token that has one is kept. *)
Lemma add_token_keeps_id (v : t) (token tok : string) (i : nat) :
  __getitem__ v tok = Some i -> __getitem__ (add_token v token) tok = Some i.
Proof.
  unfold __getitem__, add_token. simpl. intros H.
  destruct (Dict.contains string_dec (token2id v) token) eqn:E;
    [assumption|].
  rewrite get_set_other; [assumption|].
  intros ->. unfold Dict.contains in E. rewrite H in E. discriminate.
Qed.

Lemma add_tokens_keep_id (document : list string) (tok : string) (i : nat) :
  forall v : t,
    __getitem__ v tok = Some i ->
    __getitem__ (fold_left add_token document v) tok = Some i.
Proof.
  induction document as [|token document IH]; intros v H; simpl;
    [assumption|].
  apply IH, add_token_keeps_id, H.
Qed.

Lemma add_document_keeps_id (v : t) (document : list string)
  (rebuild : bool) (tok : string) (i : nat) :
  __getitem__ v tok = Some i ->
  __getitem__ (add_document v document rebuild) tok = Some i.
Proof.
  intros H. unfold add_document.
  destruct rebuild; apply (add_tokens_keep_id document tok i v H).
Qed.

(** X2: [add_document] and [add_documents] never change the id of a token
    that is in the vocabulary. *)
Theorem add_document_keeps_ids (v : t) (tok : string) (i : nat) :
  __getitem__ v tok = Some i ->
  (forall document rebuild,
      __getitem__ (add_document v document rebuild) tok = Some i)
  /\ (forall documents, __getitem__ (add_documents v documents) tok = Some i).
Proof.
  intros H. split.
  - intros document rebuild. apply add_document_keeps_id, H.
  - intros documents. unfold add_documents.
    change (__getitem__
              (fold_left (fun v doc => add_document v doc false) documents v)
              tok = Some i).
    revert v H; induction documents as [|doc documents IH]; intros v H;
      cbn [fold_left]; [assumption|].
    apply IH, add_document_keeps_id, H.
Qed.

Lemma add_document_keeps_ids_witness :
  (forall document rebuild,
      __getitem__ (add_document Examples.example_vocab document rebuild)
        "a"%string = Some 4%nat)
  /\ (forall documents,
         __getitem__ (add_documents Examples.example_vocab documents)
           "a"%string = Some 4%nat).
Proof.
  apply (add_document_keeps_ids Examples.example_vocab "a"%string 4).
  reflexivity.
Defined.

Lemma get_some_pair {K V : Type}
  (eq_dec : forall x y : K, {x = y} + {x <> y})
  (d : Dict.dict K V) (k : K) (v : V) :
  Dict.get eq_dec d k = Some v -> In (k, v) d.
Proof.
  induction d as [|[k' v'] d IH]; simpl; [discriminate|].
  destruct (eq_dec k k') as [->|Hne]; intros H.
  - inversion H; auto.
  - auto.
Qed.

Lemma get_iff_in {K V : Type}
  (eq_dec : forall x y : K, {x = y} + {x <> y})
  (d : Dict.dict K V) (k : K) (v : V) :
  NoDup (Dict.keys d) -> (Dict.get eq_dec d k = Some v <-> In (k, v) d).
Proof.
  intros Hnd. split; [apply get_some_pair|].
  apply (@get_in K V eq_dec d k v Hnd).
Qed.

Lemma in_swap (d : Dict.dict string nat) (tok : string) (i : nat) :
  In (i, tok) (map (fun p => (snd p, fst p)) d) <-> In (tok, i) d.
Proof.
  rewrite in_map_iff. split.
  - intros ([tok' i'] & Heq & Hin). simpl in Heq. congruence.
  - intros Hin. exists (tok, i). auto.
Qed.

(** In a vocabulary in the state the methods keep, [id2token] is
    [token2id] read backwards, on the ids [0 .. len - 1]. *)
Lemma wf_inverse (sp : list string) (v : t) :
  vocab_wf sp v ->
  (forall tok i,
      __getitem__ v tok = Some i
      <-> Dict.get Nat.eq_dec (id2token v) i = Some tok)
  /\ (forall i, (i < __len__ v)%nat
                <-> exists tok, Dict.get Nat.eq_dec (id2token v) i = Some tok).
Proof.
  intros (_ & (Hnd & Hids & _) & Hid2 & _).
  assert (Hnd2 : NoDup (Dict.keys (id2token v))).
  { rewrite Hid2. unfold Dict.keys. rewrite map_map. simpl.
    apply ids_nodup. exact Hids. }
  assert (H1 : forall tok i,
             __getitem__ v tok = Some i
             <-> Dict.get Nat.eq_dec (id2token v) i = Some tok).
  { intros tok i. unfold __getitem__.
    rewrite (get_iff_in string_dec _ _ _ Hnd).
    rewrite (get_iff_in Nat.eq_dec _ _ _ Hnd2), Hid2.
    symmetry. apply in_swap. }
  split; [exact H1|].
  intros i. unfold __len__. split.
  - intros Hlt.
    assert (Hin : In i (map snd (token2id v)))
      by (rewrite Hids; apply in_seq; lia).
    apply in_map_iff in Hin as ([tok i'] & Heq & Hin). simpl in Heq. subst i'.
    exists tok. apply H1. unfold __getitem__.
    apply (get_iff_in string_dec _ _ _ Hnd). exact Hin.
  - intros (tok & Htok). apply H1 in Htok. unfold __getitem__ in Htok.
    apply get_some_pair in Htok. apply (in_map snd) in Htok. simpl in Htok.
    rewrite Hids in Htok. apply in_seq in Htok. lia.
Qed.

(** X3: in every vocabulary built by the constructor from special tokens
    without repetition and by [add_document] with [rebuild=True] (the
    default), [add_documents] and [prune_vocab], [id2token] is the inverse
    of [token2id], and the ids are exactly [0 .. len(vocab) - 1]. *)
Theorem id2token_inverts_token2id (sp : list string) (v : t) :
  NoDup sp ->
  built sp v ->
  (forall tok i,
      __getitem__ v tok = Some i
      <-> Dict.get Nat.eq_dec (id2token v) i = Some tok)
  /\ (forall i, (i < __len__ v)%nat
                <-> exists tok, Dict.get Nat.eq_dec (id2token v) i = Some tok).
Proof.
  intros Hnd Hb. apply (wf_inverse sp). apply VocabPrune.built_wf; assumption.
Qed.

Lemma id2token_inverts_token2id_witness :
  (forall tok i,
      __getitem__ Examples.example_vocab tok = Some i
      <-> Dict.get Nat.eq_dec (id2token Examples.example_vocab) i = Some tok)
  /\ (forall i, (i < __len__ Examples.example_vocab)%nat
                <-> exists tok,
                      Dict.get Nat.eq_dec (id2token Examples.example_vocab) i
                      = Some tok).
Proof.
  apply (id2token_inverts_token2id
           [PAD_TOKEN; START_TOKEN; END_TOKEN; UNK_TOKEN]).
  - exact VocabClaims.special_tokens_distinct.
  - exact VocabClaims.example_vocab_built.
Defined.

(** X4: a vocabulary that has tokens and no list of special tokens (built
    with [Vocab()]) cannot be saved: [save] stops with the [TypeError] of
    [token in None]. *)
Theorem save_without_special_tokens (v : t) :
  special_tokens v = None ->
  token2id v <> [] ->
  save v = None.
Proof.
  intros Hsp Hne. unfold save.
  destruct (token2id v) as [|p d]; [congruence|]. simpl.
  rewrite Hsp.
  destruct (Dict.get Nat.eq_dec (id2token v) 0); reflexivity.
Qed.

Lemma save_without_special_tokens_witness :
  save (add_document (__init__ None) ["a"%string] true) = None.
Proof.
  apply save_without_special_tokens; [reflexivity | discriminate].
Defined.

End VocabExtras.

(** ** Vocab: what prune_vocab keeps *)

Module PruneExtras.

Import Vocab Spec Views DictFacts VocabFacts VocabPrune VocabExtras.

(** Popping distinct tokens that are counted succeeds, and leaves the other
    counts as they are. *)
Lemma fold_pop_total (del : list string) :
  forall c : Dict.dict string Z,
    NoDup (Dict.keys c) ->
    NoDup del ->
    (forall x, In x del -> In x (Dict.keys c)) ->
    exists c',
      fold_left (fun c tok => c <- c ;; Dict.pop string_dec c tok) del
        (Some c) = Some c'
      /\ (forall x, ~ In x del ->
                    Dict.get string_dec c' x = Dict.get string_dec c x)
      /\ (forall x, In x del -> Dict.get string_dec c' x = None).
Proof.
  induction del as [|tok del IH]; intros c Hnd Hdel Hin; simpl.
  - exists c. split; [reflexivity|]. split; [auto | intros x []].
  - inversion Hdel as [|? ? Hnotin Hdel']; subst.
    destruct (@pop_some string Z string_dec c tok (Hin tok (or_introl eq_refl)))
      as (c1 & Hc1).
    rewrite Hc1. simpl.
    destruct (@pop_spec string Z string_dec c c1 tok Hc1 Hnd)
      as (Hnd1 & Hk1 & Hg1).
    destruct (IH c1 Hnd1 Hdel') as (c' & Hc' & Hkeep & Hgone).
    { intros x Hx. apply Hk1. split; [apply Hin; right; exact Hx|].
      intros ->. contradiction. }
    exists c'. split; [exact Hc'|]. split.
    + intros x Hx. rewrite Hkeep by (intros Hd; apply Hx; right; exact Hd).
      apply Hg1. intros ->. apply Hx. left. reflexivity.
    + intros x [<-|Hx]; [|apply Hgone; exact Hx].
      rewrite Hkeep by exact Hnotin.
      apply get_none. intros Hk. apply Hk1 in Hk. tauto.
Qed.

(** What [prune_vocab] returns on a vocabulary in the state the methods
    keep. *)
Lemma prune_vocab_result (set_iter : list string -> list string)
  (sp : list string) (v : t) (max_size : Z) :
  set_iter_ok set_iter ->
  vocab_wf sp v ->
  exists v',
    prune_vocab set_iter v max_size = Some v'
    /\ Dict.keys (token2id v') = sp ++ set_iter (kept v sp max_size)
    /\ (forall x, ~ In x (deleted v sp max_size) ->
                  Dict.get string_dec (token_counts v') x
                  = Dict.get string_dec (token_counts v) x)
    /\ (forall x, In x (deleted v sp max_size) ->
                  Dict.get string_dec (token_counts v') x = None).
Proof.
  intros Hiter Hwf.
  pose proof Hwf as (Hsp & (Hnd & Hids & Hcnd & Hkeys) & Hid2 & rest & Hrest).
  destruct (Hiter (deleted v sp max_size)) as [HDnd HDin].
  destruct (fold_pop_total (set_iter (deleted v sp max_size))
              (token_counts v) Hcnd HDnd) as (c' & Hc' & Hkeep & Hgone).
  { intros x Hx. apply HDin in Hx. unfold deleted in Hx.
    apply filter_In in Hx as [Hx _]. apply Hkeys. exact Hx. }
  assert (Hp : exists v', prune_vocab set_iter v max_size = Some v'
                          /\ token_counts v' = c').
  { unfold prune_vocab. rewrite Hsp. cbn [bind].
    fold (kept v sp max_size). fold (deleted v sp max_size).
    rewrite Hc'. cbn [bind]. eexists. split; reflexivity. }
  destruct Hp as (v' & Hv' & Hcounts).
  exists v'. split; [exact Hv'|].
  pose proof (@prune_vocab_wf set_iter sp v v' max_size Hiter Hwf Hv')
    as (_ & _ & _ & rest' & Hrest').
  split.
  - (* the keys, read off the definition *)
    clear Hrest'. unfold prune_vocab in Hv'. rewrite Hsp in Hv'.
    cbn [bind] in Hv'.
    fold (kept v sp max_size) in Hv'. fold (deleted v sp max_size) in Hv'.
    rewrite Hc' in Hv'. cbn [bind] in Hv'. inversion Hv'; subst v'; clear Hv'.
    simpl. unfold enumerate.
    assert (Hspnd : NoDup sp).
    { rewrite Hrest in Hnd. eapply NoDup_app_remove_r; eauto. }
    destruct (Hiter (kept v sp max_size)) as [HTnd HTin].
    rewrite (@fold_enumerate sp 0 [] Hspnd) by (intros ? _ []).
    simpl app.
    destruct (@keys_combine sp (seq 0 (length sp))) as [Hk1 _];
      [now rewrite length_seq|].
    rewrite (@fold_enumerate_offset (length sp)
               (set_iter (kept v sp max_size)) 0 _ HTnd).
    + unfold Dict.keys in *. rewrite map_app, Hk1. f_equal.
      destruct (@keys_combine (set_iter (kept v sp max_size))
                  (seq (0 + length sp)
                     (length (set_iter (kept v sp max_size)))))
        as [Hk2 _]; [now rewrite length_seq|].
      exact Hk2.
    + intros tok Ht. rewrite Hk1. apply HTin in Ht. unfold kept in Ht.
      apply filter_In in Ht as [_ Ht]. apply negb_true_iff in Ht.
      apply mem_false. exact Ht.
  - rewrite Hcounts. split.
    + intros x Hx. apply Hkeep. rewrite HDin. exact Hx.
    + intros x Hx. apply Hgone. rewrite HDin. exact Hx.
Qed.

Lemma contains_keys (v : t) (tok : string) :
  __contains__ v tok = true <-> In tok (Dict.keys (token2id v)).
Proof. unfold __contains__. apply contains_in. Qed.

Lemma not_contains_keys (v : t) (tok : string) :
  __contains__ v tok = false <-> ~ In tok (Dict.keys (token2id v)).
Proof.
  rewrite <- contains_keys. destruct (__contains__ v tok); split;
    congruence.
Qed.

Lemma kept_in_counts (v : t) (sp : list string) (max_size : Z)
  (tok : string) :
  In tok (kept v sp max_size) ->
  ~ In tok sp
  /\ exists n, In (tok, n) (most_common (token_counts v) max_size).
Proof.
  unfold kept. intros H. apply filter_In in H as [Hc Hs].
  apply negb_true_iff, mem_false in Hs. split; [exact Hs|].
  apply in_map_iff in Hc as ([tok' n] & Heq & Hin). simpl in Heq. subst tok'.
  exists n. exact Hin.
Qed.

(** The id of item [j] of a [token2id] with the ids in order. *)
Lemma getitem_nth (d : Dict.dict string nat) (j : nat) (tok : string) :
  NoDup (Dict.keys d) ->
  map snd d = seq 0 (length d) ->
  nth_error (Dict.keys d) j = Some tok ->
  Dict.get string_dec d tok = Some j.
Proof.
  intros Hnd Hids Hj.
  apply (@get_in string nat string_dec d tok j Hnd).
  unfold Dict.keys in Hj. rewrite nth_error_map in Hj.
  destruct (nth_error d j) as [[tok' i]|] eqn:E; [|discriminate].
  simpl in Hj. inversion Hj; subst tok'.
  assert (Hi : nth_error (map snd d) j = Some i)
    by (rewrite nth_error_map, E; reflexivity).
  rewrite Hids, nth_error_seq in Hi.
  destruct (j <? length d)%nat; [|discriminate].
  inversion Hi; subst i. simpl. eapply nth_error_In; eauto.
Qed.

(** X5: on a vocabulary built from special tokens without repetition (by
    the constructor, [add_document] with [rebuild=True], [add_documents]
    and [prune_vocab]) [prune_vocab] succeeds; it keeps at most
    [len(special_tokens) + max(max_size, 0)] tokens, the special tokens
    with their positions in the list as ids, adds no token, keeps the count
    of every token it keeps and forgets the count of every other token. *)
Theorem prune_vocab_keeps (set_iter : list string -> list string)
  (sp : list string) (v : t) (max_size : Z) :
  set_iter_ok set_iter ->
  NoDup sp ->
  built sp v ->
  exists v',
    prune_vocab set_iter v max_size = Some v'
    /\ (__len__ v' <= length sp + Z.to_nat max_size)%nat
    /\ (forall j tok, nth_error sp j = Some tok ->
                      __getitem__ v' tok = Some j)
    /\ (forall tok,
           __contains__ v' tok = true ->
           __contains__ v tok = true
           /\ count (token_counts v') tok = count (token_counts v) tok)
    /\ (forall tok, __contains__ v' tok = false ->
                    count (token_counts v') tok = 0%Z).
Proof.
  intros Hiter Hspnd Hb.
  pose proof (@built_wf sp v Hspnd Hb) as Hwf.
  destruct (prune_vocab_result set_iter sp v max_size Hiter Hwf)
    as (v' & Hv' & Hk' & Hkeep & Hgone).
  pose proof (@prune_vocab_wf set_iter sp v v' max_size Hiter Hwf Hv')
    as (_ & (Hnd' & Hids' & _ & Hkeys') & _).
  pose proof Hwf as (_ & (_ & _ & _ & Hkeys) & _ & rest & Hrest).
  destruct (Hiter (kept v sp max_size)) as [HTnd HTin].
  exists v'. split; [exact Hv'|]. split; [|split; [|split]].
  - unfold __len__.
    replace (length (token2id v')) with (length (Dict.keys (token2id v')))
      by (unfold Dict.keys; apply length_map).
    rewrite Hk', length_app. apply Nat.add_le_mono_l.
    transitivity (length (kept v sp max_size)).
    + apply NoDup_incl_length; [exact HTnd|].
      intros x Hx. apply HTin. exact Hx.
    + unfold kept.
      etransitivity; [apply filter_length_le|].
      rewrite length_map. unfold most_common. apply firstn_le_length.
  - intros j tok Hj. unfold __getitem__.
    apply getitem_nth; [exact Hnd' | exact Hids'|].
    rewrite Hk'. rewrite nth_error_app1; [exact Hj|].
    apply nth_error_Some. congruence.
  - intros tok Hc. apply contains_keys in Hc. rewrite Hk' in Hc.
    assert (Hnot : ~ In tok (deleted v sp max_size)).
    { unfold deleted. rewrite filter_In, andb_true_iff, !negb_true_iff.
      rewrite !mem_false. intros (_ & Hnk & Hns).
      apply in_app_iff in Hc as [Hc|Hc]; [contradiction|].
      apply HTin in Hc. contradiction. }
    split.
    + apply contains_keys.
      apply in_app_iff in Hc as [Hc|Hc].
      * rewrite Hrest. apply in_app_iff. auto.
      * apply HTin, kept_in_counts in Hc as (_ & n & Hn).
        apply most_common_in in Hn. apply Hkeys.
        apply (in_map fst) in Hn. exact Hn.
    + unfold count. rewrite (Hkeep tok Hnot). reflexivity.
  - intros tok Hc. apply not_contains_keys in Hc. rewrite Hkeys' in Hc.
    apply (proj2 (@get_none string Z string_dec (token_counts v') tok))
      in Hc.
    unfold count. rewrite Hc. reflexivity.
Qed.

Lemma prune_vocab_keeps_witness :
  exists v',
    prune_vocab (nodup string_dec) Examples.example_vocab 2 = Some v'
    /\ (__len__ v' <= 4 + 2)%nat
    /\ (forall j tok,
           nth_error [PAD_TOKEN; START_TOKEN; END_TOKEN; UNK_TOKEN] j
           = Some tok ->
           __getitem__ v' tok = Some j)
    /\ (forall tok,
           __contains__ v' tok = true ->
           __contains__ Examples.example_vocab tok = true
           /\ count (token_counts v') tok
              = count (token_counts Examples.example_vocab) tok)
    /\ (forall tok, __contains__ v' tok = false ->
                    count (token_counts v') tok = 0%Z).
Proof.
  apply (prune_vocab_keeps (nodup string_dec)
           [PAD_TOKEN; START_TOKEN; END_TOKEN; UNK_TOKEN]
           Examples.example_vocab 2).
  - exact VocabClaims.nodup_iter_ok.
  - exact VocabClaims.special_tokens_distinct.
  - exact VocabClaims.example_vocab_built.
Defined.

(** *** The most frequent tokens are the ones kept *)

Lemma insert_by_count_sorted (x : string * Z) (l : list (string * Z)) :
  StronglySorted by_count l -> StronglySorted by_count (insert_by_count x l).
Proof.
  induction 1 as [|y l Hl IH Hy]; simpl.
  - constructor; constructor.
  - destruct (snd y <=? snd x)%Z eqn:E.
    + apply Z.leb_le in E. constructor; [constructor; assumption|].
      constructor; [exact E|].
      rewrite Forall_forall in *. intros z Hz. specialize (Hy z Hz).
      unfold by_count in *. lia.
    + apply Z.leb_gt in E. constructor; [exact IH|].
      rewrite Forall_forall in *. intros z Hz.
      apply insert_by_count_in in Hz as [->|Hz];
        [unfold by_count; lia | auto].
Qed.

Lemma sorted_by_count (c : Dict.dict string Z) :
  StronglySorted by_count (fold_right insert_by_count [] c).
Proof.
  induction c as [|x c IH]; simpl; [constructor|].
  apply insert_by_count_sorted, IH.
Qed.

Lemma sorted_in (c : Dict.dict string Z) (p : string * Z) :
  In p (fold_right insert_by_count [] c) <-> In p c.
Proof.
  induction c as [|x c IH]; simpl; [tauto|].
  rewrite insert_by_count_in, IH. split; intros [H|H]; auto.
Qed.

Lemma sorted_firstn_skipn (l : list (string * Z)) (n : nat)
  (a b : string * Z) :
  StronglySorted by_count l ->
  In a (firstn n l) -> In b (skipn n l) -> by_count a b.
Proof.
  intros Hl. revert n. induction Hl as [|y l Hl IH Hy]; intros n Ha Hb.
  - destruct n; contradiction.
  - destruct n as [|n]; [contradiction|]. simpl in Ha, Hb.
    destruct Ha as [<-|Ha].
    + rewrite Forall_forall in Hy. apply Hy.
      rewrite <- (firstn_skipn n l). apply in_app_iff. auto.
    + eapply IH; eauto.
Qed.

(** X6: the tokens [prune_vocab] keeps besides the special tokens are the
    most frequent: every token it removes is counted at most as often as
    every such token it keeps. *)
Theorem prune_vocab_keeps_most_common (set_iter : list string -> list string)
  (sp : list string) (v v' : t) (max_size : Z) (x y : string) :
  set_iter_ok set_iter ->
  NoDup sp ->
  built sp v ->
  prune_vocab set_iter v max_size = Some v' ->
  __contains__ v x = true ->
  __contains__ v' x = false ->
  __contains__ v' y = true ->
  ~ In y sp ->
  (count (token_counts v) x <= count (token_counts v) y)%Z.
Proof.
  intros Hiter Hspnd Hb Hv' Hx Hx' Hy Hysp.
  pose proof (@built_wf sp v Hspnd Hb) as Hwf.
  destruct (prune_vocab_result set_iter sp v max_size Hiter Hwf)
    as (v'' & Hv'' & Hk' & _).
  assert (v'' = v') by congruence. subst v''.
  pose proof Hwf as (_ & (_ & _ & Hcnd & Hkeys) & _).
  destruct (Hiter (kept v sp max_size)) as [_ HTin].
  set (L := fold_right insert_by_count [] (token_counts v)).
  apply contains_keys in Hy. rewrite Hk' in Hy.
  apply in_app_iff in Hy as [Hy|Hy]; [contradiction|].
  apply HTin, kept_in_counts in Hy as (_ & cy & Hcy).
  unfold most_common in Hcy. fold L in Hcy.
  assert (Hgy : count (token_counts v) y = cy).
  { unfold count.
    rewrite (@get_in string Z string_dec (token_counts v) y cy Hcnd);
      [reflexivity|].
    apply sorted_in. eapply in_firstn; eauto. }
  apply contains_keys, Hkeys in Hx.
  apply in_map_iff in Hx as ([x' cx] & Heq & Hcx). simpl in Heq. subst x'.
  assert (Hgx : count (token_counts v) x = cx).
  { unfold count.
    rewrite (@get_in string Z string_dec (token_counts v) x cx Hcnd Hcx).
    reflexivity. }
  rewrite Hgx, Hgy.
  apply sorted_in in Hcx. fold L in Hcx.
  rewrite <- (firstn_skipn (Z.to_nat max_size) L) in Hcx.
  apply in_app_iff in Hcx as [Hcx|Hcx].
  - exfalso. apply not_contains_keys in Hx'. apply Hx'. rewrite Hk'.
    apply in_app_iff.
    destruct (in_dec string_dec x sp) as [Hs|Hs]; [auto|].
    right. apply HTin. unfold kept. apply filter_In. split.
    + apply in_map_iff. exists (x, cx). split; [reflexivity|].
      unfold most_common. exact Hcx.
    + apply negb_true_iff, mem_false. exact Hs.
  - apply (sorted_firstn_skipn L (Z.to_nat max_size) (y, cy) (x, cx));
      [apply sorted_by_count | exact Hcy | exact Hcx].
Qed.

Lemma prune_vocab_keeps_most_common_witness :
  (count (token_counts Examples.example_vocab) "b"
   <= count (token_counts Examples.example_vocab) "a")%Z.
Proof.
  eassert (Hp : prune_vocab (nodup string_dec) Examples.example_vocab 1
                = Some _) by (vm_compute; reflexivity).
  apply (prune_vocab_keeps_most_common (nodup string_dec)
           [PAD_TOKEN; START_TOKEN; END_TOKEN; UNK_TOKEN]
           Examples.example_vocab _ 1 "b"%string "a"%string
           VocabClaims.nodup_iter_ok VocabClaims.special_tokens_distinct
           VocabClaims.example_vocab_built Hp).
  - reflexivity.
  - reflexivity.
  - reflexivity.
  - simpl. intuition discriminate.
Defined.

End PruneExtras.

(** ** Vocab: load, then save *)

Module LoadSave.

Import Vocab Spec DictFacts VocabFacts VocabExtras.

(** The loop of [load] over rows of distinct tokens. *)
Lemma load_fold (rows : list Row) :
  forall (s : nat) (a : Dict.dict string nat) (b : Dict.dict string Z)
         (c : list string),
    NoDup (map row_token rows) ->
    (forall tok, In tok (map row_token rows) ->
                 ~ In tok (Dict.keys a) /\ ~ In tok (Dict.keys b)) ->
    fold_left load_row (combine (seq s (length rows)) rows) (a, b, c)
    = (a ++ combine (map row_token rows) (seq s (length rows)),
       b ++ map (fun row => (row_token row, row_counts row)) rows,
       c ++ map row_token
              (filter (fun row => negb (row_is_special row =? 0)%Z) rows)).
Proof.
  induction rows as [|row rows IH]; intros s a b c Hnd Hfresh; simpl.
  - now rewrite !app_nil_r.
  - inversion Hnd as [|? ? Hnotin Hnd']; subst.
    destruct (Hfresh (row_token row) (or_introl eq_refl)) as [Ha Hb].
    rewrite !(@set_fresh string _ string_dec) by assumption.
    rewrite IH; [|assumption|].
    + rewrite <- !app_assoc. simpl.
      destruct (negb (row_is_special row =? 0)%Z); simpl;
        rewrite <- ?app_assoc; reflexivity.
    + intros x Hx. unfold Dict.keys. rewrite !map_app, !in_app_iff. simpl.
      destruct (Hfresh x (or_intror Hx)) as [Hxa Hxb].
      split; intros [Hin|[<-|[]]]; contradiction.
Qed.

(** What [load] builds from rows of distinct tokens. *)
Lemma load_distinct (file : list Row) :
  NoDup (map row_token file) ->
  token2id (load file)
  = combine (map row_token file) (seq 0 (length file))
  /\ id2token (load file)
     = combine (seq 0 (length file)) (map row_token file)
  /\ token_counts (load file)
     = map (fun row => (row_token row, row_counts row)) file
  /\ special_tokens (load file)
     = Some (map row_token
               (filter (fun row => negb (row_is_special row =? 0)%Z) file)).
Proof.
  intros Hnd. unfold load, enumerate.
  rewrite (load_fold file 0 [] [] [] Hnd) by (intros tok _; split; intros []).
  simpl app.
  assert (Hids : map snd (combine (map row_token file) (seq 0 (length file)))
                 = seq 0 (length file)).
  { apply VocabPrune.keys_combine. now rewrite length_map, length_seq. }
  split; [reflexivity|]. split; [|split; reflexivity].
  rewrite rebuild_id2token; simpl.
  - clear. generalize 0%nat. induction file as [|row file IH]; intros s;
      simpl; [reflexivity|]. now rewrite IH.
  - rewrite Hids, length_combine, length_map, length_seq, Nat.min_id.
    reflexivity.
Qed.

Lemma mapM_ext_in {A B : Type} (f g : A -> option B) (l : list A) :
  (forall a, In a l -> f a = g a) -> mapM f l = mapM g l.
Proof.
  induction l as [|a l IH]; intros Hext; simpl; [reflexivity|].
  rewrite (Hext a (or_introl eq_refl)).
  rewrite IH; [reflexivity|]. intros x Hx. apply Hext. right. exact Hx.
Qed.

Lemma get_combine_seq (toks : list string) (s i : nat) (tok : string) :
  NoDup toks ->
  nth_error toks i = Some tok ->
  Dict.get Nat.eq_dec (combine (seq s (length toks)) toks) (s + i)
  = Some tok.
Proof.
  intros Hnd Hi.
  apply (@get_in nat string Nat.eq_dec).
  - unfold Dict.keys. 
    replace (map fst (combine (seq s (length toks)) toks))
      with (seq s (length toks)); [apply seq_NoDup|].
    clear. revert s. induction toks as [|x toks IH]; intros s; simpl;
      [reflexivity|]. now rewrite <- IH.
  - clear Hnd. revert s i Hi.
    induction toks as [|x toks IH]; intros s [|i] Hi; simpl in *;
      try discriminate.
    + inversion Hi. left. f_equal. lia.
    + right. rewrite <- Nat.add_succ_comm. apply IH. exact Hi.
Qed.

(** X7: a file whose rows name distinct tokens and flag them with 0 or 1
    is written back unchanged by [save] after [load]. *)
Theorem save_after_load (file : list Row) :
  NoDup (map row_token file) ->
  Forall (fun row => row_is_special row = 0%Z \/ row_is_special row = 1%Z)
    file ->
  save (load file) = Some file.
Proof.
  intros Hnd Hflags.
  destruct (load_distinct file Hnd) as (Ht & Hi & Hc & Hs).
  unfold save. rewrite Ht, Hi, Hc, Hs.
  rewrite length_combine, length_map, length_seq, Nat.min_id.
  set (sp := map row_token
               (filter (fun row => negb (row_is_special row =? 0)%Z) file)).
  transitivity (mapM (fun idx => nth_error file idx) (seq 0 (length file))).
  - assert (Hext : forall idx, In idx (seq 0 (length file)) ->
        (token <- Dict.get Nat.eq_dec
                    (combine (seq 0 (length file)) (map row_token file)) idx ;;
         sp0 <- Some sp ;;
         Some {| row_token := token;
                 row_counts :=
                   count (map (fun row => (row_token row, row_counts row))
                            file) token;
                 row_is_special := if mem token sp0 then 1%Z else 0%Z |})
        = nth_error file idx).
    { intros idx Hidx. apply in_seq in Hidx.
      destruct (nth_error file idx) as [row|] eqn:Hrow.
      2:{ apply nth_error_None in Hrow. lia. }
      assert (Htok : nth_error (map row_token file) idx
                     = Some (row_token row))
        by (rewrite nth_error_map, Hrow; reflexivity).
      pose proof (get_combine_seq (map row_token file) 0 idx (row_token row)
                    Hnd Htok) as Hget.
      rewrite length_map in Hget. simpl in Hget. rewrite Hget. cbn [bind].
      f_equal. destruct row as [tok n flag]. simpl in *. f_equal.
      - unfold count.
        rewrite (@get_in string Z string_dec _ tok n); [reflexivity| |].
        + unfold Dict.keys. rewrite map_map. simpl. exact Hnd.
        + apply in_map_iff.
          exists {| row_token := tok; row_counts := n;
                    row_is_special := flag |}.
          split; [reflexivity | eapply nth_error_In; eauto].
      - assert (Hflag : flag = 0%Z \/ flag = 1%Z).
        { rewrite Forall_forall in Hflags.
          apply (Hflags _ (nth_error_In _ _ Hrow)). }
        assert (Hmem : mem tok sp = negb (flag =? 0)%Z).
        { destruct (negb (flag =? 0)%Z) eqn:E.
          - apply VocabPrune.mem_true. unfold sp. apply in_map_iff.
            exists {| row_token := tok; row_counts := n;
                      row_is_special := flag |}.
            split; [reflexivity|]. apply filter_In.
            split; [eapply nth_error_In; eauto | exact E].
          - apply VocabPrune.mem_false. unfold sp. intros Hin.
            apply in_map_iff in Hin as (row' & Heq & Hin).
            apply filter_In in Hin as [Hin Hf].
            assert (row' = {| row_token := tok; row_counts := n;
                              row_is_special := flag |}).
            { apply In_nth_error in Hin as (j & Hj).
              assert (Hj' : nth_error (map row_token file) j = Some tok)
                by (rewrite nth_error_map, Hj; simpl; congruence).
              assert (j = idx).
              { apply (proj1 (NoDup_nth_error (map row_token file)) Hnd).
                - apply nth_error_Some. congruence.
                - congruence. }
              subst j. congruence. }
            subst row'. simpl in Hf. congruence. }
        rewrite Hmem. destruct Hflag; subst flag; reflexivity. }
    apply mapM_ext_in. exact Hext.
  - clear.
    assert (G : forall pre, mapM (fun idx => nth_error (pre ++ file) idx)
                              (seq (length pre) (length file)) = Some file).
    { induction file as [|row file IH]; intros pre; simpl; [reflexivity|].
      rewrite nth_error_app2 by lia. rewrite Nat.sub_diag. simpl.
      specialize (IH (pre ++ [row])).
      rewrite <- app_assoc, length_app in IH. simpl in IH.
      rewrite Nat.add_1_r in IH. rewrite IH. reflexivity. }
    apply (G []).
Qed.

Lemma save_after_load_witness :
  save (load [ {| row_token := "<pad>"; row_counts := 1;
                  row_is_special := 1 |};
               {| row_token := "the"; row_counts := 7;
                  row_is_special := 0 |} ])
  = Some [ {| row_token := "<pad>"; row_counts := 1; row_is_special := 1 |};
           {| row_token := "the"; row_counts := 7; row_is_special := 0 |} ].
Proof.
  apply save_after_load.
  - repeat constructor; simpl; intuition discriminate.
  - apply Forall_cons; [right; reflexivity|].
    apply Forall_cons; [left; reflexivity|]. apply Forall_nil.
Defined.

End LoadSave.

(** ** SubtitlesDialogDataset: the constructor and the indices *)

Module DatasetExtras.

Import SubtitlesDialogDataset Spec DictFacts VocabFacts VocabExtras.
Import DatasetFacts.

Lemma getitem_below_len (v : Vocab.t) (tok : string) (i : nat) :
  vocab_core v -> Vocab.__getitem__ v tok = Some i ->
  (i < Vocab.__len__ v)%nat.
Proof.
  intros (_ & Hids & _) H. unfold Vocab.__getitem__ in H.
  apply get_some_pair in H.
  assert (Hin : In i (map snd (Vocab.token2id v))).
  { apply in_map_iff. exists (tok, i). auto. }
  rewrite Hids in Hin. apply in_seq in Hin. unfold Vocab.__len__. lia.
Qed.

Lemma lookup_below_len (self : t) (tok : string) (id : nat) :
  vocab_core (vocab self) -> lookup self tok = Some id ->
  (id < Vocab.__len__ (vocab self))%nat.
Proof.
  intros Hcore H. unfold lookup in H.
  destruct (Vocab.__contains__ (vocab self) tok);
    eapply getitem_below_len; eauto.
Qed.

Lemma process_sent_below_len (self : t) (sent : list string) (r : list Z) :
  vocab_core (vocab self) ->
  _process_sent self sent = Some r ->
  Forall (fun x => (0 <= x < Z.of_nat (Vocab.__len__ (vocab self)))%Z) r.
Proof.
  intros Hcore H. apply process_sent_inv in H as (ids & Hids & ->).
  apply Forall_forall. intros x Hx.
  apply in_map_iff in Hx as (id & <- & Hid).
  apply In_nth_error in Hid as (j & Hj).
  destruct (mapM_nth_inv _ _ _ Hids Hj) as (tok & _ & Hl).
  pose proof (lookup_below_len self tok id Hcore Hl). lia.
Qed.

Lemma special_id (sp : list string) (v : Vocab.t) (j : nat) (tok : string) :
  vocab_wf sp v -> nth_error sp j = Some tok ->
  Vocab.__getitem__ v tok = Some j.
Proof.
  intros (_ & (Hnd & Hids & _) & _ & (rest & Hkeys)) Hj.
  apply PruneExtras.getitem_nth; try assumption.
  rewrite Hkeys, nth_error_app1; [assumption|].
  apply nth_error_Some. congruence.
Qed.

Lemma constructed_vocab (set_iter : list string -> list string)
  (lines : list (list string)) (max_vocab_size : Z) :
  set_iter_ok set_iter ->
  exists v,
    Vocab.prune_vocab set_iter
      (Vocab.add_documents
         (Vocab.__init__ (Some DatasetConstruction.default_special_tokens))
         lines) max_vocab_size = Some v
    /\ built DatasetConstruction.default_special_tokens v.
Proof.
  intros Hiter.
  assert (Hb : built DatasetConstruction.default_special_tokens
                 (Vocab.add_documents
                    (Vocab.__init__
                       (Some DatasetConstruction.default_special_tokens))
                    lines))
    by (apply built_add_documents, built_init).
  destruct (PruneExtras.prune_vocab_result set_iter
              DatasetConstruction.default_special_tokens _ max_vocab_size
              Hiter
              (@VocabPrune.built_wf _ _ VocabClaims.special_tokens_distinct
                 Hb))
    as (v & Hv & _).
  exists v. split; [exact Hv|].
  eapply built_prune_vocab; eauto.
Qed.

(** X8: the constructor.  Without a vocabulary and with a [max_len], it
    returns a dataset of the first [max_lines] lines of the file whose
    vocabulary is built from the four special tokens, which get the ids 0
    (padding), 1 (start), 2 (end) and 3 (unknown); [__len__] returns one
    less than the number of lines read.  With [max_len=None] it raises,
    whatever the other arguments. *)
Theorem init_builds_dataset (set_iter : list string -> list string)
  (file_lines : list (list string)) (max_lines max_len max_vocab_size : Z) :
  set_iter_ok set_iter ->
  (exists ds,
      DatasetConstruction.__init__ set_iter file_lines None max_lines
        (Some max_len) max_vocab_size = Some ds
      /\ lines ds = firstn (Z.to_nat max_lines) file_lines
      /\ SubtitlesDialogDataset.max_len ds = max_len
      /\ __len__ ds
         = (Z.min (Z.of_nat (length file_lines)) max_lines - 1)%Z
      /\ built DatasetConstruction.default_special_tokens (vocab ds)
      /\ Vocab.__getitem__ (vocab ds) Vocab.PAD_TOKEN = Some 0%nat
      /\ Vocab.__getitem__ (vocab ds) Vocab.START_TOKEN = Some 1%nat
      /\ Vocab.__getitem__ (vocab ds) Vocab.END_TOKEN = Some 2%nat
      /\ Vocab.__getitem__ (vocab ds) Vocab.UNK_TOKEN = Some 3%nat)
  /\ forall vocab,
       DatasetConstruction.__init__ set_iter file_lines vocab max_lines None
         max_vocab_size = None.
Proof.
  intros Hiter. split.
  - destruct (constructed_vocab set_iter
                (firstn (Z.to_nat max_lines) file_lines) max_vocab_size Hiter)
      as (v & Hv & Hb).
    pose proof (@VocabPrune.built_wf _ _ VocabClaims.special_tokens_distinct
                  Hb) as Hwf.
    eexists. unfold DatasetConstruction.__init__. rewrite Hv. cbn [bind].
    split; [reflexivity|]. cbn [lines SubtitlesDialogDataset.max_len vocab].
    split; [reflexivity|]. split; [reflexivity|].
    split; [|split; [exact Hb|]].
    + unfold __len__. cbn [SubtitlesDialogDataset.max_lines].
      rewrite length_firstn. lia.
    + repeat split; apply (special_id _ _ _ _ Hwf); reflexivity.
  - intros vocab. unfold DatasetConstruction.__init__.
    destruct vocab as [vocab|]; cbn [bind]; [reflexivity|].
    destruct (Vocab.prune_vocab _ _ _); reflexivity.
Qed.

Lemma init_builds_dataset_witness :
  exists ds,
    DatasetConstruction.__init__ (nodup string_dec)
      [["how"; "are"; "you"]; ["fine"]; ["you"]]%string None 1000
      (Some 50%Z) 50000 = Some ds
    /\ __len__ ds = 2%Z
    /\ Vocab.__getitem__ (vocab ds) Vocab.UNK_TOKEN = Some 3%nat.
Proof.
  destruct (init_builds_dataset (nodup string_dec)
              [["how"; "are"; "you"]; ["fine"]; ["you"]]%string 1000 50 50000
              VocabClaims.nodup_iter_ok)
    as ((ds & Hds & _ & _ & Hlen & _ & _ & _ & _ & Hunk) & _).
  exists ds. split; [exact Hds|]. split; [exact Hlen | exact Hunk].
Defined.

Lemma constructed_items (set_iter : list string -> list string)
  (file_lines : list (list string)) (max_lines max_len max_vocab_size : Z)
  (ds : t) (index : Z) :
  set_iter_ok set_iter ->
  (1 <= max_len)%Z ->
  DatasetConstruction.__init__ set_iter file_lines None max_lines
    (Some max_len) max_vocab_size = Some ds ->
  (0 <= index < __len__ ds)%Z ->
  exists q r,
    __getitem__ ds index = Some (q, r)
    /\ length q = Z.to_nat max_len
    /\ length r = Z.to_nat max_len
    /\ Forall (fun x => (0 <= x < Z.of_nat (Vocab.__len__ (vocab ds)))%Z) q
    /\ Forall (fun x => (0 <= x < Z.of_nat (Vocab.__len__ (vocab ds)))%Z) r.
Proof.
  intros Hiter Hlen Hds Hindex.
  destruct (constructed_vocab set_iter
              (firstn (Z.to_nat max_lines) file_lines) max_vocab_size Hiter)
    as (v & Hv & Hb).
  pose proof (@VocabPrune.built_wf _ _ VocabClaims.special_tokens_distinct
                Hb) as Hwf.
  unfold DatasetConstruction.__init__ in Hds. rewrite Hv in Hds.
  cbn [bind] in Hds. inversion Hds as [Hds']. clear Hds.
  set (self := {| lines := firstn (Z.to_nat max_lines) file_lines;
                  max_lines :=
                    Z.min (Z.of_nat
                             (length (firstn (Z.to_nat max_lines)
                                        file_lines))) max_lines;
                  vocab := v;
                  SubtitlesDialogDataset.max_len := max_len |}) in *.
  subst ds.
  assert (Hunk : Vocab.__getitem__ (vocab self) Vocab.UNK_TOKEN
                 = Some 3%nat)
    by (apply (special_id _ _ _ _ Hwf); reflexivity).
  assert (Hcore : vocab_core (vocab self)) by apply Hwf.
  unfold __len__, self in Hindex.
  cbn [SubtitlesDialogDataset.max_lines] in Hindex.
  rewrite length_firstn in Hindex.
  destruct (nth_error (lines self) (Z.to_nat index)) as [ql|] eqn:Hq.
  2:{ apply nth_error_None in Hq. unfold self in Hq. cbn [lines] in Hq.
      rewrite length_firstn in Hq. lia. }
  destruct (nth_error (lines self) (Z.to_nat (index + 1))) as [rl|] eqn:Hr.
  2:{ apply nth_error_None in Hr. unfold self in Hr. cbn [lines] in Hr.
      rewrite length_firstn in Hr. lia. }
  destruct (process_sent_some self ql Hunk) as (q & _ & Hpq).
  destruct (process_sent_some self rl Hunk) as (r & _ & Hpr).
  exists (map Z.of_nat q), (map Z.of_nat r).
  split; [|split; [|split; [|split]]].
  - unfold __getitem__. rewrite !py_index_nonneg by lia.
    rewrite Hq, Hr. cbn [bind]. rewrite Hpq, Hpr. reflexivity.
  - apply (process_sent_length self ql); [exact Hlen | exact Hpq].
  - apply (process_sent_length self rl); [exact Hlen | exact Hpr].
  - eapply process_sent_below_len; eauto.
  - eapply process_sent_below_len; eauto.
Qed.

(** X9: every index below [len(dataset)] of a dataset the constructor
    built, with [max_len >= 1], gives a query and a response of [max_len]
    ids each, and every id is below [len(dataset.vocab)]. *)
Theorem constructed_dataset_items (set_iter : list string -> list string)
  (file_lines : list (list string)) (max_lines max_len max_vocab_size : Z)
  (ds : t) (index : Z) :
  set_iter_ok set_iter ->
  (1 <= max_len)%Z ->
  DatasetConstruction.__init__ set_iter file_lines None max_lines
    (Some max_len) max_vocab_size = Some ds ->
  (0 <= index < __len__ ds)%Z ->
  exists q r,
    __getitem__ ds index = Some (q, r)
    /\ length q = Z.to_nat max_len
    /\ length r = Z.to_nat max_len
    /\ Forall (fun x => (0 <= x < Z.of_nat (Vocab.__len__ (vocab ds)))%Z) q
    /\ Forall (fun x => (0 <= x < Z.of_nat (Vocab.__len__ (vocab ds)))%Z) r.
Proof. apply constructed_items. Qed.

Lemma constructed_dataset_items_witness :
  exists ds q r,
    DatasetConstruction.__init__ (nodup string_dec)
      [["how"; "are"; "you"]; ["fine"]; ["you"]]%string None 1000
      (Some 5%Z) 50000 = Some ds
    /\ __getitem__ ds 1 = Some (q, r)
    /\ length q = 5%nat /\ length r = 5%nat.
Proof.
  eassert (Hds : DatasetConstruction.__init__ (nodup string_dec)
                   [["how"; "are"; "you"]; ["fine"]; ["you"]]%string None
                   1000 (Some 5%Z) 50000 = Some _)
    by (vm_compute; reflexivity).
  destruct (constructed_dataset_items (nodup string_dec) _ 1000 5 50000 _ 1
              VocabClaims.nodup_iter_ok ltac:(lia) Hds
              ltac:(vm_compute; split; [discriminate | reflexivity]))
    as (q & r & Hqr & Hq & Hr & _).
  eexists. exists q, r. split; [exact Hds|].
  split; [exact Hqr|]. split; [exact Hq | exact Hr].
Defined.

Lemma last_cons {A : Type} (l : list A) :
  forall x d : A, last (x :: l) d = last l x.
Proof.
  induction l as [|y l IH]; intros x d; [reflexivity|].
  change (last (x :: y :: l) d) with (last (y :: l) d).
  rewrite (IH y d), (IH y x). reflexivity.
Qed.

(** X10: the indices [__getitem__] refuses, and the one it wraps.  An index
    from [len(lines) - 1] on, or below [-len(lines)], is an [IndexError];
    when there is a line, index [-1] pairs the last line with the first. *)
Theorem getitem_edges (self : t) (unk_id : nat) :
  Vocab.__getitem__ (vocab self) Vocab.UNK_TOKEN = Some unk_id ->
  (forall index,
      (Z.of_nat (length (lines self)) - 1 <= index
       \/ index < - Z.of_nat (length (lines self)))%Z ->
      __getitem__ self index = None)
  /\ forall first rest,
       lines self = first :: rest ->
       exists q r,
         _process_sent self (last rest first) = Some q
         /\ _process_sent self first = Some r
         /\ __getitem__ self (-1) = Some (q, r).
Proof.
  intros Hunk. split.
  - intros index Hindex. unfold __getitem__, py_index.
    destruct (0 <=? index)%Z eqn:E0.
    + apply Z.leb_le in E0.
      replace (0 <=? index + 1)%Z with true
        by (symmetry; apply Z.leb_le; lia).
      destruct (nth_error (lines self) (Z.to_nat index)); [|reflexivity].
      cbn [bind].
      replace (nth_error (lines self) (Z.to_nat (index + 1)))
        with (@None (list string)); [reflexivity|].
      symmetry. apply nth_error_None. lia.
    + apply Z.leb_gt in E0.
      replace (- Z.of_nat (length (lines self)) <=? index)%Z with false
        by (symmetry; apply Z.leb_gt; lia).
      reflexivity.
  - intros first rest Hl.
    destruct (process_sent_some self (last rest first) Hunk)
      as (q & _ & Hq).
    destruct (process_sent_some self first Hunk) as (r & _ & Hr).
    exists (map Z.of_nat q), (map Z.of_nat r).
    split; [exact Hq|]. split; [exact Hr|].
    unfold __getitem__, py_index. rewrite Hl.
    replace (0 <=? -1)%Z with false by reflexivity.
    replace (- Z.of_nat (length (first :: rest)) <=? -1)%Z with true
      by (symmetry; apply Z.leb_le; simpl length; lia).
    replace (Z.to_nat (Z.of_nat (length (first :: rest)) + -1))
      with (length rest) by (simpl length; lia).
    assert (Hlast : nth_error (first :: rest) (length rest)
                    = Some (last rest first)).
    { clear. revert first. induction rest as [|x rest IH]; intros first.
      - reflexivity.
      - simpl length.
        change (nth_error (first :: x :: rest) (S (length rest)))
          with (nth_error (x :: rest) (length rest)).
        rewrite IH, last_cons. reflexivity. }
    rewrite Hlast. cbn [bind]. simpl (-1 + 1)%Z. cbn.
    rewrite Hq, Hr. reflexivity.
Qed.

Lemma getitem_edges_witness :
  __getitem__ Examples.example_dataset 1 = None
  /\ exists q r,
       __getitem__ Examples.example_dataset (-1) = Some (q, r).
Proof.
  destruct (getitem_edges Examples.example_dataset 3 eq_refl)
    as (Hout & Hwrap).
  split.
  - apply Hout. left. simpl. lia.
  - destruct (Hwrap _ _ eq_refl) as (q & r & _ & _ & H).
    exists q, r. exact H.
Defined.

End DatasetExtras.

(** ** The decoders: what the draws and the targets are read for *)

Module DecodingExtras.

Import Shape Views.

Local Open Scope R_scope.

Ltac bind_stage :=
  match goal with
  | |- bind ?m _ = bind ?m _ =>
      destruct m; cbn [bind]; cbv zeta; [|reflexivity]
  end.

Lemma attention_step_policy (M : Seq2SeqAttentionModel.t) (enc : Tensor3)
  (mask : LongTensor2) (targets targets' : option LongTensor2)
  (draw draw' : R) (i : nat) (h : Tensor2) (x : LongTensor1) :
  (forall logits,
      next_decoder_inputs (Seq2SeqAttentionModel.teacher_forcing M) targets
        draw i logits
      = next_decoder_inputs (Seq2SeqAttentionModel.teacher_forcing M) targets'
          draw' i logits) ->
  Seq2SeqAttentionModel.decode_step M enc mask targets draw i h x
  = Seq2SeqAttentionModel.decode_step M enc mask targets' draw' i h x.
Proof.
  intros H. unfold Seq2SeqAttentionModel.decode_step. cbv zeta.
  repeat bind_stage. rewrite H. reflexivity.
Qed.

Lemma attention_loop_policy (M : Seq2SeqAttentionModel.t) (enc : Tensor3)
  (mask : LongTensor2) (targets targets' : option LongTensor2)
  (rand rand' : nat -> R) (steps : list nat) :
  (forall i logits,
      next_decoder_inputs (Seq2SeqAttentionModel.teacher_forcing M) targets
        (rand i) i logits
      = next_decoder_inputs (Seq2SeqAttentionModel.teacher_forcing M) targets'
          (rand' i) i logits) ->
  forall h x,
    Seq2SeqAttentionModel.decode_loop M enc mask targets rand steps h x
    = Seq2SeqAttentionModel.decode_loop M enc mask targets' rand' steps h x.
Proof.
  intros H. induction steps as [|i steps IH]; intros h x; [reflexivity|].
  cbn [Seq2SeqAttentionModel.decode_loop].
  rewrite (attention_step_policy M enc mask targets targets' (rand i)
             (rand' i) i h x (H i)).
  bind_stage. rewrite IH. reflexivity.
Qed.

Lemma attention_forward_policy (M : Seq2SeqAttentionModel.t)
  (inputs : LongTensor2) (targets targets' : option LongTensor2)
  (rand rand' : nat -> R) :
  (forall i logits,
      next_decoder_inputs (Seq2SeqAttentionModel.teacher_forcing M) targets
        (rand i) i logits
      = next_decoder_inputs (Seq2SeqAttentionModel.teacher_forcing M) targets'
          (rand' i) i logits) ->
  Seq2SeqAttentionModel.forward M inputs targets rand
  = Seq2SeqAttentionModel.forward M inputs targets' rand'.
Proof.
  intros H. unfold Seq2SeqAttentionModel.forward.
  destruct (Seq2SeqAttentionModel.encode M inputs) as [[enc mask]|];
    cbn [bind]; [|reflexivity].
  unfold Seq2SeqAttentionModel.decode, Seq2SeqAttentionModel.decode_steps.
  destruct (column 0 enc) as [first|]; cbn [bind]; cbv zeta; [|reflexivity].
  destruct (start_inputs _ _) as [x|]; cbn [bind]; [|reflexivity].
  rewrite (attention_loop_policy M enc mask targets targets' rand rand' _ H).
  reflexivity.
Qed.

Lemma plain_step_policy (M : Seq2SeqModel.t)
  (targets targets' : option LongTensor2)
  (draw draw' : R) (i : nat) (h : Tensor2) (x : LongTensor1) :
  (forall logits,
      next_decoder_inputs (Seq2SeqModel.teacher_forcing M) targets
        draw i logits
      = next_decoder_inputs (Seq2SeqModel.teacher_forcing M) targets'
          draw' i logits) ->
  Seq2SeqModel.decode_step M targets draw i h x
  = Seq2SeqModel.decode_step M targets' draw' i h x.
Proof.
  intros H. unfold Seq2SeqModel.decode_step. cbv zeta.
  repeat bind_stage. rewrite H. reflexivity.
Qed.

Lemma plain_loop_policy (M : Seq2SeqModel.t)
  (targets targets' : option LongTensor2)
  (rand rand' : nat -> R) (steps : list nat) :
  (forall i logits,
      next_decoder_inputs (Seq2SeqModel.teacher_forcing M) targets
        (rand i) i logits
      = next_decoder_inputs (Seq2SeqModel.teacher_forcing M) targets'
          (rand' i) i logits) ->
  forall h x,
    Seq2SeqModel.decode_loop M targets rand steps h x
    = Seq2SeqModel.decode_loop M targets' rand' steps h x.
Proof.
  intros H. induction steps as [|i steps IH]; intros h x; [reflexivity|].
  cbn [Seq2SeqModel.decode_loop].
  rewrite (plain_step_policy M targets targets' (rand i) (rand' i) i h x
             (H i)).
  bind_stage. rewrite IH. reflexivity.
Qed.

Lemma plain_forward_policy (M : Seq2SeqModel.t)
  (inputs : LongTensor2) (targets targets' : option LongTensor2)
  (rand rand' : nat -> R) :
  (forall i logits,
      next_decoder_inputs (Seq2SeqModel.teacher_forcing M) targets
        (rand i) i logits
      = next_decoder_inputs (Seq2SeqModel.teacher_forcing M) targets'
          (rand' i) i logits) ->
  Seq2SeqModel.forward M inputs targets rand
  = Seq2SeqModel.forward M inputs targets' rand'.
Proof.
  intros H. unfold Seq2SeqModel.forward.
  destruct (Seq2SeqModel.encode M inputs) as [h|]; cbn [bind]; [|reflexivity].
  unfold Seq2SeqModel.decode, Seq2SeqModel.decode_steps.
  destruct (start_inputs _ _) as [x|]; cbn [bind]; [|reflexivity].
  rewrite (plain_loop_policy M targets targets' rand rand' _ H).
  reflexivity.
Qed.

Lemma next_same_side (tf : R) (targets : option LongTensor2) (d d' : R)
  (i : nat) (logits : Tensor2) :
  (d < tf <-> d' < tf) ->
  next_decoder_inputs tf targets d i logits
  = next_decoder_inputs tf targets d' i logits.
Proof.
  intros H. unfold next_decoder_inputs, teacher_forced.
  destruct (Rlt_dec d tf) as [Hd|Hd], (Rlt_dec d' tf) as [Hd'|Hd'];
    try reflexivity; tauto.
Qed.

Lemma next_not_forced (tf : R) (targets : option LongTensor2) (d d' : R)
  (i : nat) (logits : Tensor2) :
  ~ d < tf ->
  next_decoder_inputs tf targets d i logits
  = next_decoder_inputs tf None d' i logits.
Proof.
  intros H. rewrite !next_decoder_inputs_free; auto.
Qed.

(** X11: what the two models read the draws and the targets for.  The
    output of [forward] is the same for two runs whose draws fall on the
    same side of the teacher forcing rate in every iteration; when no draw
    is below the rate the targets are not read, and the output is that of
    the call without targets; and without targets the output does not
    depend on the draws. *)
Theorem forward_reads_draws_by_comparison
  (A : Seq2SeqAttentionModel.t) (P : Seq2SeqModel.t)
  (inputs : LongTensor2) (targets : option LongTensor2)
  (rand rand' : nat -> R) :
  ((forall i, rand i < Seq2SeqAttentionModel.teacher_forcing A
              <-> rand' i < Seq2SeqAttentionModel.teacher_forcing A) ->
   Seq2SeqAttentionModel.forward A inputs targets rand
   = Seq2SeqAttentionModel.forward A inputs targets rand')
  /\ ((forall i, ~ rand i < Seq2SeqAttentionModel.teacher_forcing A) ->
      Seq2SeqAttentionModel.forward A inputs targets rand
      = Seq2SeqAttentionModel.forward A inputs None rand')
  /\ Seq2SeqAttentionModel.forward A inputs None rand
     = Seq2SeqAttentionModel.forward A inputs None rand'
  /\ ((forall i, rand i < Seq2SeqModel.teacher_forcing P
                 <-> rand' i < Seq2SeqModel.teacher_forcing P) ->
      Seq2SeqModel.forward P inputs targets rand
      = Seq2SeqModel.forward P inputs targets rand')
  /\ ((forall i, ~ rand i < Seq2SeqModel.teacher_forcing P) ->
      Seq2SeqModel.forward P inputs targets rand
      = Seq2SeqModel.forward P inputs None rand')
  /\ Seq2SeqModel.forward P inputs None rand
     = Seq2SeqModel.forward P inputs None rand'.
Proof.
  repeat split.
  - intros H. apply attention_forward_policy. intros i logits.
    apply next_same_side, H.
  - intros H. apply attention_forward_policy. intros i logits.
    apply next_not_forced, H.
  - apply attention_forward_policy. intros i logits.
    rewrite !next_decoder_inputs_free; auto.
  - intros H. apply plain_forward_policy. intros i logits.
    apply next_same_side, H.
  - intros H. apply plain_forward_policy. intros i logits.
    apply next_not_forced, H.
  - apply plain_forward_policy. intros i logits.
    rewrite !next_decoder_inputs_free; auto.
Qed.

Lemma forward_reads_draws_by_comparison_witness :
  Seq2SeqAttentionModel.forward Examples.attention_model
    Examples.padded_inputs Examples.some_targets (fun _ => 1)
  = Seq2SeqAttentionModel.forward Examples.attention_model
      Examples.padded_inputs None Examples.zero_draws
  /\ Seq2SeqModel.forward Examples.plain_model [[0%Z]]
       (Some [[0%Z]]) (fun _ => 1)
     = Seq2SeqModel.forward Examples.plain_model [[0%Z]] None
         Examples.zero_draws.
Proof.
  destruct (forward_reads_draws_by_comparison Examples.attention_model
              Examples.plain_model Examples.padded_inputs
              Examples.some_targets (fun _ => 1) Examples.zero_draws)
    as (_ & Ha & _).
  destruct (forward_reads_draws_by_comparison Examples.attention_model
              Examples.plain_model [[0%Z]] (Some [[0%Z]]) (fun _ => 1)
              Examples.zero_draws)
    as (_ & _ & _ & _ & Hp & _).
  split.
  - apply Ha. intros i. simpl. lra.
  - apply Hp. intros i. simpl. lra.
Defined.

End DecodingExtras.

(** ** Padding at the end of the input rows *)

Module PaddingExtras.

Import Shape ShapeFacts Views FurtherExamples.

Local Open Scope R_scope.

Lemma mapM_app {A B : Type} (f : A -> option B) (l1 l2 : list A) :
  mapM f (l1 ++ l2)
  = (r1 <- mapM f l1 ;; r2 <- mapM f l2 ;; Some (r1 ++ r2)).
Proof.
  induction l1 as [|a l1 IH]; simpl.
  - destruct (mapM f l2); reflexivity.
  - destruct (f a); cbn [bind]; [|reflexivity].
    rewrite IH. destruct (mapM f l1); cbn [bind]; [|reflexivity].
    destruct (mapM f l2); reflexivity.
Qed.

Lemma zipM_mismatch {A B C : Type} (f : A -> B -> option C)
  (l1 : list A) (l2 : list B) :
  length l1 <> length l2 -> zipM f l1 l2 = None.
Proof.
  intros H. destruct (zipM f l1 l2) as [r|] eqn:E; [|reflexivity].
  apply zipM_length in E as [E _]. contradiction.
Qed.

Lemma zipM_app {A B C : Type} (f : A -> B -> option C)
  (a1 a2 : list A) (b1 b2 : list B) :
  length a2 = length b2 ->
  zipM f (a1 ++ a2) (b1 ++ b2)
  = (r1 <- zipM f a1 b1 ;; r2 <- zipM f a2 b2 ;; Some (r1 ++ r2)).
Proof.
  intros Hlen. revert b1. induction a1 as [|x a1 IH]; intros [|y b1].
  - simpl. destruct (zipM f a2 b2); reflexivity.
  - change (zipM f [] (y :: b1)) with (@None (list C)). cbn [bind].
    apply zipM_mismatch. simpl. rewrite length_app. lia.
  - change (zipM f (x :: a1) []) with (@None (list C)). cbn [bind].
    apply zipM_mismatch. simpl. rewrite length_app. lia.
  - simpl. destruct (f x y); cbn [bind]; [|reflexivity].
    rewrite IH. destruct (zipM f a1 b1); cbn [bind]; [|reflexivity].
    destruct (zipM f a2 b2); reflexivity.
Qed.

Lemma gru_outputs_app (cell : Tensor1 -> Tensor1 -> Tensor1)
  (xs ys : Tensor2) :
  forall h, exists h',
    gru_outputs cell h (xs ++ ys)
    = gru_outputs cell h xs ++ gru_outputs cell h' ys.
Proof.
  induction xs as [|x xs IH]; intros h; simpl.
  - exists h. reflexivity.
  - destruct (IH (cell x h)) as (h' & Hh'). exists h'. now rewrite Hh'.
Qed.

Lemma py_index_app {A : Type} (l ext : list A) (i : Z) :
  (0 <= i < Z.of_nat (length l))%Z ->
  py_index (l ++ ext) i = py_index l i.
Proof.
  intros H. unfold py_index.
  replace (0 <=? i)%Z with true by (symmetry; apply Z.leb_le; lia).
  apply nth_error_app1. lia.
Qed.

(** The number of tokens of a row that are not padding, as [encode] counts
    them. *)
Lemma length_count (pad : Z) (row : LongTensor1) :
  (0 <= fold_right Z.add 0%Z
          (map (fun x => if (x =? pad)%Z then 0%Z else 1%Z) row)
   <= Z.of_nat (length row))%Z.
Proof.
  induction row as [|x row IH]; simpl fold_right; simpl length; [lia|].
  destruct (x =? pad)%Z; lia.
Qed.

Lemma length_count_pos (pad : Z) (row : LongTensor1) :
  (exists x, In x row /\ x <> pad) ->
  (1 <= fold_right Z.add 0%Z
          (map (fun x => if (x =? pad)%Z then 0%Z else 1%Z) row))%Z.
Proof.
  intros (x & Hin & Hx). induction row as [|y row IH]; [contradiction|].
  simpl fold_right. pose proof (length_count pad row).
  destruct Hin as [->|Hin].
  - replace (x =? pad)%Z with false by (symmetry; apply Z.eqb_neq; exact Hx).
    lia.
  - specialize (IH Hin). destruct (y =? pad)%Z; lia.
Qed.

Lemma length_count_app (pad : Z) (row : LongTensor1) (k : nat) :
  fold_right Z.add 0%Z
    (map (fun x => if (x =? pad)%Z then 0%Z else 1%Z)
       (row ++ repeat pad k))
  = fold_right Z.add 0%Z
      (map (fun x => if (x =? pad)%Z then 0%Z else 1%Z) row).
Proof.
  induction row as [|x row IH]; simpl.
  - induction k as [|k IHk]; simpl; [reflexivity|].
    rewrite Z.eqb_refl. exact IHk.
  - now rewrite IH.
Qed.

Lemma embedding_padding (vocab_size : nat) (weight : Z -> Tensor1)
  (pad : Z) (k : nat) :
  token_ok vocab_size pad ->
  mapM (embedding_lookup vocab_size weight) (repeat pad k)
  = Some (repeat (weight pad) k).
Proof.
  intros Hpad. rewrite embedding_rows.
  - f_equal. induction k; simpl; congruence.
  - apply Forall_forall. intros x Hx. apply repeat_spec in Hx. now subst.
Qed.

(** *** Seq2SeqModel *)

Lemma plain_encode_cons (M : Seq2SeqModel.t) (row : LongTensor1)
  (inputs : LongTensor2) :
  Seq2SeqModel.encode M (row :: inputs)
  = (h <- (e <- mapM (Seq2SeqModel.embedding M) row ;;
           py_index
             (gru_outputs (Seq2SeqModel.encoder M)
                (zeros (Seq2SeqModel.hidden_size M)) e)
             (fold_right Z.add 0%Z
                (map (fun x => if (x =? Seq2SeqModel.pad_index M)%Z
                               then 0%Z else 1%Z) row) - 1)) ;;
     hs <- Seq2SeqModel.encode M inputs ;;
     Some (h :: hs)).
Proof.
  unfold Seq2SeqModel.encode. cbv zeta. cbn [mapM map].
  destruct (mapM (Seq2SeqModel.embedding M) row) as [e|]; cbn [bind];
    [|reflexivity].
  destruct (mapM (mapM (Seq2SeqModel.embedding M)) inputs) as [es|];
    cbn [bind map zipM].
  - reflexivity.
  - destruct (py_index _ _); reflexivity.
Qed.

Lemma plain_encode_row (M : Seq2SeqModel.t) (row : LongTensor1) (k : nat) :
  token_ok (Seq2SeqModel.vocab_size M) (Seq2SeqModel.pad_index M) ->
  (exists x, In x row /\ x <> Seq2SeqModel.pad_index M) ->
  (e <- mapM (Seq2SeqModel.embedding M)
          (row ++ repeat (Seq2SeqModel.pad_index M) k) ;;
   py_index
     (gru_outputs (Seq2SeqModel.encoder M)
        (zeros (Seq2SeqModel.hidden_size M)) e)
     (fold_right Z.add 0%Z
        (map (fun x => if (x =? Seq2SeqModel.pad_index M)%Z
                       then 0%Z else 1%Z)
           (row ++ repeat (Seq2SeqModel.pad_index M) k)) - 1))
  = (e <- mapM (Seq2SeqModel.embedding M) row ;;
     py_index
       (gru_outputs (Seq2SeqModel.encoder M)
          (zeros (Seq2SeqModel.hidden_size M)) e)
       (fold_right Z.add 0%Z
          (map (fun x => if (x =? Seq2SeqModel.pad_index M)%Z
                         then 0%Z else 1%Z) row) - 1)).
Proof.
  intros Hpad Htok. rewrite mapM_app, length_count_app.
  destruct (mapM (Seq2SeqModel.embedding M) row) as [e|] eqn:He;
    cbn [bind]; [|reflexivity].
  unfold Seq2SeqModel.embedding at 1.
  rewrite embedding_padding by exact Hpad. cbn [bind].
  destruct (gru_outputs_app (Seq2SeqModel.encoder M) e
              (repeat (Seq2SeqModel.embedding_weight M
                         (Seq2SeqModel.pad_index M)) k)
              (zeros (Seq2SeqModel.hidden_size M))) as (h' & ->).
  apply py_index_app. rewrite gru_outputs_length.
  apply mapM_length in He. rewrite He.
  pose proof (length_count (Seq2SeqModel.pad_index M) row).
  pose proof (length_count_pos (Seq2SeqModel.pad_index M) row Htok). lia.
Qed.

Lemma plain_encode_padding (M : Seq2SeqModel.t) (inputs : LongTensor2)
  (k : nat) :
  token_ok (Seq2SeqModel.vocab_size M) (Seq2SeqModel.pad_index M) ->
  Forall (fun row => exists x, In x row /\ x <> Seq2SeqModel.pad_index M)
    inputs ->
  Seq2SeqModel.encode M (pad_more (Seq2SeqModel.pad_index M) k inputs)
  = Seq2SeqModel.encode M inputs.
Proof.
  intros Hpad. induction 1 as [|row inputs Hrow _ IH]; [reflexivity|].
  unfold pad_more in *. cbn [map]. rewrite !plain_encode_cons.
  rewrite plain_encode_row by assumption. rewrite IH. reflexivity.
Qed.

(** X12: [Seq2SeqModel] does not see padding at the end of its input.
    When every row holds a token that is not padding, [k] more padding
    tokens at the end of every row change neither the state [encode]
    returns nor the output of [forward]. *)
Theorem plain_forward_ignores_padding (M : Seq2SeqModel.t)
  (inputs : LongTensor2) (targets : option LongTensor2) (rand : nat -> R)
  (k : nat) :
  token_ok (Seq2SeqModel.vocab_size M) (Seq2SeqModel.pad_index M) ->
  Forall (fun row => exists x, In x row /\ x <> Seq2SeqModel.pad_index M)
    inputs ->
  Seq2SeqModel.encode M (pad_more (Seq2SeqModel.pad_index M) k inputs)
  = Seq2SeqModel.encode M inputs
  /\ Seq2SeqModel.forward M (pad_more (Seq2SeqModel.pad_index M) k inputs)
       targets rand
     = Seq2SeqModel.forward M inputs targets rand.
Proof.
  intros Hpad Hrows.
  pose proof (plain_encode_padding M inputs k Hpad Hrows) as H.
  split; [exact H|]. unfold Seq2SeqModel.forward. rewrite H. reflexivity.
Qed.

Lemma plain_forward_ignores_padding_witness :
  Seq2SeqModel.encode plain_model_two [[1; 0; 0]]%Z
  = Seq2SeqModel.encode plain_model_two [[1]]%Z
  /\ Seq2SeqModel.forward plain_model_two [[1; 0; 0]]%Z None
       Examples.zero_draws
     = Seq2SeqModel.forward plain_model_two [[1]]%Z None Examples.zero_draws.
Proof.
  apply (plain_forward_ignores_padding plain_model_two [[1]]%Z None
           Examples.zero_draws 2).
  - unfold token_ok. simpl. lia.
  - constructor; [|constructor]. exists 1%Z. simpl. split; [auto | lia].
Defined.

(** *** Seq2SeqAttentionModel *)

Lemma sum_list_zeros (p : Tensor1) (k : nat) :
  sum_list (p ++ repeat 0 k) = sum_list p.
Proof.
  unfold sum_list. induction p as [|x p IH]; simpl.
  - induction k as [|k IHk]; simpl; lra.
  - rewrite IH. reflexivity.
Qed.

Lemma tmul_zero_mask (ys : Tensor1) :
  zipM (fun x y => Some (x * y)) (map exp ys)
    (map IZR (repeat 0%Z (length ys)))
  = Some (repeat 0 (length ys)).
Proof.
  induction ys as [|y ys IH]; simpl; [reflexivity|].
  rewrite IH. cbn [bind]. do 2 f_equal. lra.
Qed.

Lemma tdiv_zeros (d : R) (k : nat) :
  d <> 0 -> mapM (fun e => tdiv e d) (repeat 0 k) = Some (repeat 0 k).
Proof.
  intros Hd. induction k as [|k IH]; simpl; [reflexivity|].
  rewrite IH. unfold tdiv. destruct (Req_dec_T d 0); [contradiction|].
  cbn [bind]. do 2 f_equal. unfold Rdiv. lra.
Qed.

Lemma softmax_row_padding (xs ys : Tensor1) (ms : LongTensor1)
  (epsilon : R) :
  xs <> [] ->
  Softmax.softmax_masked_row (xs ++ ys) (ms ++ repeat 0%Z (length ys))
    epsilon
  = option_map (fun w => w ++ repeat 0 (length ys))
      (Softmax.softmax_masked_row xs ms epsilon).
Proof.
  intros Hne. unfold Softmax.softmax_masked_row, tmul, to_float.
  rewrite !map_app.
  rewrite zipM_app by (rewrite !length_map, repeat_length; reflexivity).
  destruct (zipM (fun x y => Some (x * y)) (map exp xs) (map IZR ms))
    as [p|] eqn:Hp; cbn [bind option_map]; [|reflexivity].
  rewrite tmul_zero_mask. cbn [bind]. rewrite sum_list_zeros, mapM_app.
  destruct (Req_dec_T (sum_list p + epsilon) 0) as [Hd|Hd].
  - assert (Hnone : mapM (fun e => tdiv e (sum_list p + epsilon)) p = None).
    { apply zipM_length in Hp as [_ Hl]. rewrite length_map in Hl.
      destruct p as [|x p]; [destruct xs; simpl in Hl; congruence|].
      cbn [mapM]. unfold tdiv at 1.
      destruct (Req_dec_T (sum_list (x :: p) + epsilon) 0);
        [reflexivity | contradiction]. }
    rewrite Hnone. reflexivity.
  - rewrite tdiv_zeros by exact Hd.
    destruct (mapM _ p); reflexivity.
Qed.

Lemma vadd_zero_row (a h : Tensor1) :
  length h = length a -> vadd a (vscale 0 h) = a.
Proof.
  revert h; induction a as [|x a IH]; intros [|y h] Hl; simpl in *;
    try discriminate; [reflexivity|].
  rewrite IH by congruence. f_equal. lra.
Qed.

Lemma fold_vadd_zero_rows (n : nat) (ext : Tensor2) :
  Forall (fun x => length x = n) ext ->
  forall a, length a = n -> fold_left vadd (map (vscale 0) ext) a = a.
Proof.
  induction 1 as [|h ext Hh _ IH]; intros a Ha; simpl; [reflexivity|].
  rewrite vadd_zero_row by congruence. apply IH. exact Ha.
Qed.

Lemma weigh_zero_rows (ext : Tensor2) :
  zipM (fun h w => Some (vscale w h)) ext (repeat 0 (length ext))
  = Some (map (vscale 0) ext).
Proof.
  induction ext as [|h ext IH]; simpl; [reflexivity|].
  rewrite IH. reflexivity.
Qed.

Lemma attend_padding (n : nat) (e ext : Tensor2) (w : Tensor1) :
  e <> [] ->
  Forall (fun x => length x = n) e ->
  Forall (fun x => length x = n) ext ->
  Seq2SeqAttentionModel.attend (e ++ ext) (w ++ repeat 0 (length ext))
  = Seq2SeqAttentionModel.attend e w.
Proof.
  intros Hne He Hext. unfold Seq2SeqAttentionModel.attend.
  rewrite zipM_app by (rewrite repeat_length; reflexivity).
  destruct (zipM (fun h x => Some (vscale x h)) e w) as [ws|] eqn:Hws;
    cbn [bind]; [|reflexivity].
  rewrite weigh_zero_rows. cbn [bind]. f_equal.
  pose proof (@AttentionClaims.weighted_sizes n e w ws Hws He) as Hsizes.
  destruct ws as [|first rest].
  { apply zipM_length in Hws as [_ Hl]. destruct e; simpl in *; congruence. }
  inversion Hsizes as [|? ? Hfirst Hrest]; subst.
  simpl. rewrite fold_left_app.
  apply (fold_vadd_zero_rows (length first) ext Hext).
  apply (@AttentionClaims.fold_left_vadd (length first) rest Hrest first
           eq_refl).
Qed.

Lemma context_row_padding (M : Seq2SeqAttentionModel.t) (n : nat)
  (e ext : Tensor2) (m : LongTensor1) (h : Tensor1) :
  e <> [] ->
  Forall (fun x => length x = n) e ->
  Forall (fun x => length x = n) ext ->
  context_row M (e ++ ext) (m ++ repeat 0%Z (length ext)) h
  = context_row M e m h.
Proof.
  intros Hne He Hext. unfold context_row. cbv zeta. rewrite !map_app.
  pose proof (softmax_row_padding
                (map (Seq2SeqAttentionModel.attention_reduce M)
                   (map (fun e0 =>
                           map tanh
                             (vadd (Seq2SeqAttentionModel.attention_encoder M
                                      e0)
                                (Seq2SeqAttentionModel.attention_decoder M
                                   h))) e))
                (map (Seq2SeqAttentionModel.attention_reduce M)
                   (map (fun e0 =>
                           map tanh
                             (vadd (Seq2SeqAttentionModel.attention_encoder M
                                      e0)
                                (Seq2SeqAttentionModel.attention_decoder M
                                   h))) ext))
                m Softmax.default_epsilon) as Hs.
  rewrite !length_map in Hs. rewrite Hs.
  2:{ destruct e; [congruence | discriminate]. }
  destruct (Softmax.softmax_masked_row _ m _) as [w|];
    cbn [option_map bind]; [|reflexivity].
  apply (attend_padding n); assumption.
Qed.

Ltac crush_binds :=
  repeat (cbn [bind option_map]; cbv zeta; try reflexivity;
          match goal with
          | |- context [bind ?m _] =>
              lazymatch m with
              | Some _ => fail
              | None => fail
              | _ => destruct m
              end
          end).

(** The three statements of [decode] that compute the context vectors, as
    one pass over the rows of the batch. *)
Lemma context_stages (M : Seq2SeqAttentionModel.t) (enc : Tensor3) :
  forall (mask : LongTensor2) (h : Tensor2),
    (att <- zipM (fun enc dec =>
                    Some (map (fun e => map tanh (vadd e dec)) enc))
              (map (map (Seq2SeqAttentionModel.attention_encoder M)) enc)
              (map (Seq2SeqAttentionModel.attention_decoder M) h) ;;
     w <- Softmax.softmax_masked
            (map (map (Seq2SeqAttentionModel.attention_reduce M)) att) mask
            Softmax.default_epsilon ;;
     zipM Seq2SeqAttentionModel.attend enc w)
    = context_rows M enc mask h.
Proof.
  induction enc as [|e enc IH]; intros mask h.
  - destruct h as [|x h], mask as [|m mask]; reflexivity.
  - destruct h as [|x h]; [destruct mask; reflexivity|].
    destruct mask as [|m mask].
    + cbn [map zipM bind context_rows].
      destruct (zipM _ _ _); reflexivity.
    + cbn [context_rows]. rewrite <- IH. clear IH.
      cbn [map zipM bind].
      destruct (zipM _ (map (map (Seq2SeqAttentionModel.attention_encoder M))
                          enc) _) as [atts|]; cbn [bind].
      2:{ destruct (context_row M e m x); reflexivity. }
      unfold context_row, Softmax.softmax_masked. cbv zeta.
      cbn [map zipM]. rewrite !map_map.
      destruct (Softmax.softmax_masked_row _ m _) as [r|]; cbn [bind];
        [|reflexivity].
      destruct (zipM _ _ mask) as [rs|]; cbn [bind zipM].
      * reflexivity.
      * destruct (Seq2SeqAttentionModel.attend e r); reflexivity.
Qed.

Lemma decode_step_observe (M : Seq2SeqAttentionModel.t) (enc : Tensor3)
  (mask : LongTensor2) (targets : option LongTensor2) (draw : R) (i : nat)
  (h : Tensor2) (x : LongTensor1) :
  option_map observe
    (Seq2SeqAttentionModel.decode_step M enc mask targets draw i h x)
  = (emb <- mapM (Seq2SeqAttentionModel.embedding M) x ;;
     ctx <- context_rows M enc mask h ;;
     cat <- zipM (fun h c => Some (h ++ c)) h ctx ;;
     h' <- zipM (fun x h => Some (Seq2SeqAttentionModel.decoder M x h)) emb
             (map (Seq2SeqAttentionModel.decoder_hidden_combine M) cat) ;;
     next <- next_decoder_inputs (Seq2SeqAttentionModel.teacher_forcing M)
               targets draw i
               (map (Seq2SeqAttentionModel.decoder_projection M) h') ;;
     Some (x, h, h',
           map (Seq2SeqAttentionModel.decoder_projection M) h', next)).
Proof.
  rewrite <- context_stages. unfold Seq2SeqAttentionModel.decode_step.
  crush_binds.
Qed.

Lemma context_rows_padding (M : Seq2SeqAttentionModel.t) (k n : nat)
  (enc enc' : Tensor3) :
  Forall2 (padded_states k n) enc enc' ->
  forall (mask : LongTensor2) (h : Tensor2),
    context_rows M enc' (map (fun m => m ++ repeat 0%Z k) mask) h
    = context_rows M enc mask h.
Proof.
  induction 1 as [|e e' enc enc' (ext & -> & Hk & Hne & He & Hext) _ IH];
    intros mask h.
  - destruct mask, h; reflexivity.
  - destruct mask as [|m mask]; [reflexivity|].
    destruct h as [|x h]; [reflexivity|].
    cbn [map context_rows]. rewrite IH. subst k.
    rewrite (context_row_padding M n) by assumption. reflexivity.
Qed.

Lemma decode_loop_padding (M : Seq2SeqAttentionModel.t)
  (enc enc' : Tensor3) (mask mask' : LongTensor2)
  (targets : option LongTensor2) (rand : nat -> R) (steps : list nat) :
  (forall h, context_rows M enc' mask' h = context_rows M enc mask h) ->
  forall h x,
    option_map (map observe)
      (Seq2SeqAttentionModel.decode_loop M enc' mask' targets rand steps h x)
    = option_map (map observe)
        (Seq2SeqAttentionModel.decode_loop M enc mask targets rand steps h x).
Proof.
  intros Hctx. induction steps as [|i steps IH]; intros h x; [reflexivity|].
  cbn [Seq2SeqAttentionModel.decode_loop].
  pose proof (decode_step_observe M enc' mask' targets (rand i) i h x) as H'.
  pose proof (decode_step_observe M enc mask targets (rand i) i h x) as H.
  rewrite Hctx, <- H in H'. clear H.
  destruct (Seq2SeqAttentionModel.decode_step M enc' mask' targets (rand i) i
              h x) as [s'|];
    destruct (Seq2SeqAttentionModel.decode_step M enc mask targets (rand i) i
                h x) as [s|];
    simpl in H'; try discriminate; [|reflexivity].
  inversion H' as [[Hin Hhin Hh Hlog Hnext]]. cbn [bind].
  rewrite Hh, Hnext. specialize (IH (Seq2SeqAttentionModel.s_decoder_hidden s)
                                   (Seq2SeqAttentionModel.s_next_inputs s)).
  destruct (Seq2SeqAttentionModel.decode_loop M enc' mask' targets rand steps
              _ _) as [rest'|];
    destruct (Seq2SeqAttentionModel.decode_loop M enc mask targets rand steps
                _ _) as [rest|];
    simpl in IH; try discriminate; [|reflexivity].
  inversion IH as [Hrest]. simpl. unfold observe at 1 3.
  rewrite Hin, Hhin, Hh, Hlog, Hnext, Hrest. reflexivity.
Qed.

Lemma column_padding (k n : nat) (enc enc' : Tensor3) :
  Forall2 (padded_states k n) enc enc' -> column 0 enc' = column 0 enc.
Proof.
  unfold column.
  induction 1 as [|e e' enc enc' (ext & -> & _ & Hne & _) _ IH];
    [reflexivity|].
  cbn [mapM]. rewrite IH. destruct e; [congruence | reflexivity].
Qed.

Lemma logits_observed (steps : list Seq2SeqAttentionModel.Step) :
  map Seq2SeqAttentionModel.s_decoder_output_logit steps
  = map observed_logits (map observe steps).
Proof. rewrite map_map. reflexivity. Qed.

Lemma decode_padding (M : Seq2SeqAttentionModel.t) (k n : nat)
  (enc enc' : Tensor3) (mask : LongTensor2) (targets : option LongTensor2)
  (rand : nat -> R) :
  Forall2 (padded_states k n) enc enc' ->
  Seq2SeqAttentionModel.decode M enc' (map (fun m => m ++ repeat 0%Z k) mask)
    targets rand
  = Seq2SeqAttentionModel.decode M enc mask targets rand.
Proof.
  intros Hpad.
  unfold Seq2SeqAttentionModel.decode, Seq2SeqAttentionModel.decode_steps.
  rewrite (column_padding k n enc enc' Hpad).
  destruct (column 0 enc) as [first|]; cbn [bind]; cbv zeta; [|reflexivity].
  destruct (start_inputs _ _) as [x|]; cbn [bind]; [|reflexivity].
  pose proof (decode_loop_padding M enc enc' mask
                (map (fun m => m ++ repeat 0%Z k) mask) targets rand
                (range (Seq2SeqAttentionModel.max_len M))
                (context_rows_padding M k n enc enc' Hpad mask)
                (map (map (fun _ => 0)) first) x) as H.
  destruct (Seq2SeqAttentionModel.decode_loop M enc' _ targets rand _ _ _)
    as [steps'|];
    destruct (Seq2SeqAttentionModel.decode_loop M enc mask targets rand _ _ _)
      as [steps|];
    simpl in H; try discriminate; [|reflexivity].
  inversion H as [Hsteps]. cbn [bind].
  rewrite !logits_observed, Hsteps. reflexivity.
Qed.

Lemma inputs_mask_padding (M : Seq2SeqAttentionModel.t)
  (inputs : LongTensor2) (k : nat) :
  Seq2SeqAttentionModel.inputs_mask_of M
    (pad_more (Seq2SeqAttentionModel.pad_index M) k inputs)
  = map (fun m => m ++ repeat 0%Z k)
      (Seq2SeqAttentionModel.inputs_mask_of M inputs).
Proof.
  unfold Seq2SeqAttentionModel.inputs_mask_of, pad_more. rewrite !map_map.
  apply map_ext. intros row. rewrite map_app. f_equal.
  induction k as [|k IH]; simpl; [reflexivity|].
  rewrite Z.eqb_refl, IH. reflexivity.
Qed.

Lemma embed_rows_padding (M : Seq2SeqAttentionModel.t)
  (inputs : LongTensor2) (k : nat) :
  token_ok (Seq2SeqAttentionModel.vocab_size M)
    (Seq2SeqAttentionModel.pad_index M) ->
  mapM (mapM (Seq2SeqAttentionModel.embedding M))
    (pad_more (Seq2SeqAttentionModel.pad_index M) k inputs)
  = option_map
      (map (fun e => e ++ repeat (Seq2SeqAttentionModel.embedding_weight M
                                    (Seq2SeqAttentionModel.pad_index M)) k))
      (mapM (mapM (Seq2SeqAttentionModel.embedding M)) inputs).
Proof.
  intros Hpad. unfold pad_more.
  induction inputs as [|row inputs IH]; [reflexivity|].
  cbn [map mapM]. rewrite IH, mapM_app.
  unfold Seq2SeqAttentionModel.embedding at 2.
  rewrite embedding_padding by exact Hpad.
  destruct (mapM (Seq2SeqAttentionModel.embedding M) row); cbn [bind];
    [|reflexivity].
  destruct (mapM (mapM (Seq2SeqAttentionModel.embedding M)) inputs);
    reflexivity.
Qed.

Lemma encoder_states_padding (M : Seq2SeqAttentionModel.t) (k : nat)
  (pad : Tensor1) (es : Tensor3) :
  (forall x h, length (Seq2SeqAttentionModel.encoder M x h)
               = Seq2SeqAttentionModel.hidden_size M) ->
  Forall (fun e => e <> []) es ->
  Forall2 (padded_states k (Seq2SeqAttentionModel.hidden_size M))
    (map (gru_outputs (Seq2SeqAttentionModel.encoder M)
            (zeros (Seq2SeqAttentionModel.hidden_size M))) es)
    (map (gru_outputs (Seq2SeqAttentionModel.encoder M)
            (zeros (Seq2SeqAttentionModel.hidden_size M)))
       (map (fun e => e ++ repeat pad k) es)).
Proof.
  intros Hcell. induction 1 as [|e es Hne _ IH]; cbn [map]; constructor;
    [|exact IH].
  destruct (gru_outputs_app (Seq2SeqAttentionModel.encoder M) e
              (repeat pad k) (zeros (Seq2SeqAttentionModel.hidden_size M)))
    as (h' & Hh').
  exists (gru_outputs (Seq2SeqAttentionModel.encoder M) h' (repeat pad k)).
  split; [exact Hh'|]. split; [|split; [|split]].
  - rewrite gru_outputs_length. apply repeat_length.
  - destruct e; [congruence | discriminate].
  - apply gru_outputs_sizes. exact Hcell.
  - apply gru_outputs_sizes. exact Hcell.
Qed.

(** X13: [Seq2SeqAttentionModel] does not see padding at the end of its
    input.  For rows that hold a token, [k] more padding tokens at the end
    of every row leave the output of [forward] as it is, with or without
    targets and whatever the draws. *)
Theorem attention_forward_ignores_padding (M : Seq2SeqAttentionModel.t)
  (inputs : LongTensor2) (targets : option LongTensor2) (rand : nat -> R)
  (k : nat) :
  token_ok (Seq2SeqAttentionModel.vocab_size M)
    (Seq2SeqAttentionModel.pad_index M) ->
  (forall x h, length (Seq2SeqAttentionModel.encoder M x h)
               = Seq2SeqAttentionModel.hidden_size M) ->
  Forall (fun row => row <> []) inputs ->
  Seq2SeqAttentionModel.forward M
    (pad_more (Seq2SeqAttentionModel.pad_index M) k inputs) targets rand
  = Seq2SeqAttentionModel.forward M inputs targets rand.
Proof.
  intros Hpad Hcell Hrows.
  unfold Seq2SeqAttentionModel.forward, Seq2SeqAttentionModel.encode.
  cbv zeta. rewrite inputs_mask_padding, embed_rows_padding by exact Hpad.
  destruct (mapM (mapM (Seq2SeqAttentionModel.embedding M)) inputs)
    as [es|] eqn:Hes; cbn [option_map bind]; [|reflexivity].
  assert (Hne : Forall (fun e : Tensor2 => e <> []) es).
  { clear - Hes Hrows. revert es Hes.
    induction Hrows as [|row inputs Hrow _ IH]; intros es Hes.
    - inversion Hes. constructor.
    - cbn [mapM] in Hes.
      apply bind_some in Hes as (e & He & Hes).
      apply bind_some in Hes as (es' & Hes' & Hes). inversion Hes; subst.
      constructor; [|apply IH; exact Hes'].
      apply mapM_length in He. destruct e; [|discriminate].
      destruct row; [congruence | discriminate]. }
  rewrite !gru_rows_total; [| exact Hne |].
  2:{ apply Forall_forall. intros e He.
      apply in_map_iff in He as (e0 & <- & He0).
      rewrite Forall_forall in Hne. specialize (Hne e0 He0).
      destruct e0; [congruence | discriminate]. }
  cbn [bind].
  apply (decode_padding M k (Seq2SeqAttentionModel.hidden_size M)).
  apply (encoder_states_padding M k); [exact Hcell | exact Hne].
Qed.

Lemma attention_forward_ignores_padding_witness :
  Seq2SeqAttentionModel.forward Examples.attention_model [[1; 0; 0]]%Z
    Examples.some_targets Examples.zero_draws
  = Seq2SeqAttentionModel.forward Examples.attention_model [[1]]%Z
      Examples.some_targets Examples.zero_draws.
Proof.
  apply (attention_forward_ignores_padding Examples.attention_model [[1]]%Z
           Examples.some_targets Examples.zero_draws 2).
  - unfold token_ok. simpl. lia.
  - intros x h. reflexivity.
  - constructor; [discriminate | constructor].
Defined.

End PaddingExtras.

(** ** Seq2SeqModel: forward returns, and the shape of its result *)

Module PlainShape.

Import Seq2SeqModel Shape ShapeFacts Views FurtherExamples.

Local Open Scope R_scope.

Lemma py_index_last_state {A : Type} (out : list A) (len : Z) :
  out <> [] ->
  (0 <= len <= Z.of_nat (length out))%Z ->
  exists x, py_index out (len - 1) = Some x /\ In x out.
Proof.
  intros Hne Hlen. unfold py_index.
  assert (Hpos : (0 < Z.of_nat (length out))%Z)
    by (destruct out; simpl; [congruence | lia]).
  destruct (0 <=? len - 1)%Z eqn:E0.
  - apply Z.leb_le in E0.
    destruct (nth_error out (Z.to_nat (len - 1))) as [x|] eqn:Hx.
    + exists x. split; [reflexivity | eapply nth_error_In; eauto].
    + apply nth_error_None in Hx. lia.
  - apply Z.leb_gt in E0.
    replace (- Z.of_nat (length out) <=? len - 1)%Z with true
      by (symmetry; apply Z.leb_le; lia).
    destruct (nth_error out (Z.to_nat (Z.of_nat (length out) + (len - 1))))
      as [x|] eqn:Hx.
    + exists x. split; [reflexivity | eapply nth_error_In; eauto].
    + apply nth_error_None in Hx. lia.
Qed.

Lemma plain_encode_total (M : t) (sequence_length : nat)
  (inputs : LongTensor2) :
  (forall x h, length (encoder M x h) = hidden_size M) ->
  inputs_ok (vocab_size M) sequence_length inputs ->
  exists h,
    encode M inputs = Some h
    /\ length h = length inputs
    /\ Forall (fun x => length x = hidden_size M) h.
Proof.
  intros Hcell [HL Hin]. induction Hin as [|row inputs [Hrl Hrow] _ IH].
  - exists []. repeat split; constructor.
  - destruct IH as (hs & Hhs & Hhl & Hhn).
    rewrite PaddingExtras.plain_encode_cons.
    unfold embedding at 1. rewrite (embedding_rows _ Hrow). cbn [bind].
    destruct (@py_index_last_state Tensor1
                (gru_outputs (encoder M) (zeros (hidden_size M))
                   (map (embedding_weight M) row))
                (fold_right Z.add 0%Z
                   (map (fun x => if (x =? pad_index M)%Z then 0%Z else 1%Z)
                      row)))
      as (x & Hx & Hxin).
    + intros Hnil. apply (f_equal (@length Tensor1)) in Hnil.
      rewrite gru_outputs_length, length_map in Hnil. simpl in Hnil. lia.
    + rewrite gru_outputs_length, length_map.
      apply PaddingExtras.length_count.
    + rewrite Hx, Hhs. cbn [bind]. exists (x :: hs).
      split; [reflexivity|]. split; [simpl; congruence|].
      constructor; [|exact Hhn].
      pose proof (@gru_outputs_sizes (encoder M) (hidden_size M)
                    (map (embedding_weight M) row) Hcell
                    (zeros (hidden_size M))) as Hs.
      rewrite Forall_forall in Hs. apply Hs. exact Hxin.
Qed.

Lemma plain_decode_step_total (M : t) (B : nat) (targets : option LongTensor2)
  (draw : R) (i : nat) (h : Tensor2) (inp : LongTensor1) :
  (forall x, length (decoder_projection M x) = vocab_size M) ->
  (1 <= vocab_size M)%nat ->
  targets_ok (vocab_size M) B (max_len M) targets ->
  (i < Z.to_nat (max_len M))%nat ->
  length h = B ->
  length inp = B ->
  Forall (token_ok (vocab_size M)) inp ->
  exists s,
    decode_step M targets draw i h inp = Some s
    /\ length (s_decoder_hidden s) = B
    /\ length (s_next_inputs s) = B
    /\ Forall (token_ok (vocab_size M)) (s_next_inputs s)
    /\ length (s_decoder_output_logit s) = B
    /\ Forall (fun row => length row = vocab_size M)
         (s_decoder_output_logit s).
Proof.
  intros Hproj HV Ht Hi Hh Hinp Hok.
  unfold decode_step, embedding.
  rewrite (embedding_rows _ Hok). cbn [bind].
  rewrite (@zipM_total _ _ _ (fun x a => Some (decoder M x a))
             (fun x a => decoder M x a));
    [| rewrite length_map; congruence | reflexivity].
  cbn [bind]. cbv zeta.
  set (h' := map (fun p => decoder M (fst p) (snd p))
               (combine (map (embedding_weight M) inp) h)).
  assert (Hh' : length h' = B).
  { unfold h'. rewrite length_map, length_combine, length_map. lia. }
  destruct (@AttentionShape.next_inputs_total (vocab_size M) B
              (teacher_forcing M) (max_len M) targets draw i
              (map (decoder_projection M) h'))
    as (next & Hnext & Hnl & Hnok); try assumption.
  - rewrite length_map. exact Hh'.
  - apply Forall_forall. intros row Hrow.
    apply in_map_iff in Hrow as (x & <- & _). apply Hproj.
  - rewrite Hnext. cbn [bind]. eexists. split; [reflexivity|]. simpl.
    repeat split; try assumption.
    + rewrite length_map. exact Hh'.
    + apply Forall_forall. intros row Hrow.
      apply in_map_iff in Hrow as (x & <- & _). apply Hproj.
Qed.

Lemma plain_decode_loop_total (M : t) (B : nat) (targets : option LongTensor2)
  (rand : nat -> R) (steps : list nat) :
  (forall x, length (decoder_projection M x) = vocab_size M) ->
  (1 <= vocab_size M)%nat ->
  targets_ok (vocab_size M) B (max_len M) targets ->
  Forall (fun i => (i < Z.to_nat (max_len M))%nat) steps ->
  forall (h : Tensor2) (inp : LongTensor1),
    length h = B ->
    length inp = B ->
    Forall (token_ok (vocab_size M)) inp ->
    exists trace,
      decode_loop M targets rand steps h inp = Some trace
      /\ length trace = length steps
      /\ Forall (fun s => length (s_decoder_output_logit s) = B
                          /\ Forall (fun row => length row = vocab_size M)
                               (s_decoder_output_logit s)) trace.
Proof.
  intros Hproj HV Ht Hsteps.
  induction Hsteps as [|i steps Hi _ IH]; intros h inp Hh Hinp Hok;
    cbn [decode_loop].
  - exists []. repeat split; constructor.
  - destruct (plain_decode_step_total M B targets (rand i) i h inp)
      as (s & Hs & Hsh & Hsn & Hsok & Hsl & Hsv); try assumption.
    rewrite Hs. cbn [bind].
    destruct (IH _ _ Hsh Hsn Hsok) as (rest & Hrest & Hrl & Hall).
    rewrite Hrest. cbn [bind].
    exists (s :: rest). split; [reflexivity|].
    split; [simpl; congruence|]. constructor; auto.
Qed.

(** [torch.stack] of the logits of the iterations. *)
Lemma stack_logits_shape (logits : Tensor3) (B V : nat) :
  logits <> [] ->
  Forall (fun l => length l = B /\ Forall (fun row => length row = V) l)
    logits ->
  exists out,
    stack_dim1 logits = Some out /\ has_shape3 out B (length logits) V.
Proof.
  intros Hne Hall.
  destruct (@stack_dim1_total Tensor1 logits B Hne)
    as (out & Hout & Hol & Hrows).
  { eapply Forall_impl; [|exact Hall]. simpl. tauto. }
  exists out. split; [exact Hout|]. split; [exact Hol|].
  apply Forall_forall. intros row Hrow.
  rewrite Forall_forall in Hrows. destruct (Hrows row Hrow) as [Hrl Hrin].
  split; [exact Hrl|].
  apply Forall_forall. intros x Hx.
  destruct (Hrin x Hx) as (l & Hl & Hxl).
  rewrite Forall_forall in Hall. destruct (Hall l Hl) as [_ Hv].
  rewrite Forall_forall in Hv. auto.
Qed.

(** X14: for a model whose layers have the constructor's sizes, with
    [max_len >= 1] and a start index that is in the vocabulary and that
    float32 holds exactly, on a batch of shape
    [(batch_size, sequence_length)], [sequence_length >= 1], of token ids
    of the vocabulary (targets, when given, of at least [max_len] columns),
    [Seq2SeqModel.forward] returns a tensor of shape
    [(batch_size, max_len, vocab_size)], whatever the draws. *)
Theorem plain_forward_output_shape (M : t) (inputs : LongTensor2)
  (targets : option LongTensor2) (rand : nat -> R) (sequence_length : nat) :
  plain_model_ok M ->
  inputs_ok (vocab_size M) sequence_length inputs ->
  targets_ok (vocab_size M) (length inputs) (max_len M) targets ->
  exists out,
    forward M inputs targets rand = Some out
    /\ has_shape3 out (length inputs) (Z.to_nat (max_len M)) (vocab_size M).
Proof.
  intros (Hproj & Hcell & Hhid & Hstart & Hlen & Hex) Hin Ht.
  assert (HV : (1 <= vocab_size M)%nat) by (unfold token_ok in Hstart; lia).
  destruct (plain_encode_total M sequence_length inputs Hcell Hin)
    as (h & Hh & Hhl & Hhn).
  unfold forward. rewrite Hh. cbn [bind].
  unfold decode, decode_steps.
  destruct (@AttentionShape.column_some R 0 h) as (col & Hcol & Hcl & _).
  { eapply Forall_impl; [|exact Hhn]. simpl. intros x Hx. lia. }
  rewrite (@start_inputs_exact _ _ _ Hex Hcol). cbn [bind].
  destruct (plain_decode_loop_total M (length inputs) targets rand
              (range (max_len M)) Hproj HV Ht
              (AttentionShape.range_below (max_len M)) h
              (map (fun _ => start_index M) col))
    as (trace & Htrace & Htl & Hall).
  - exact Hhl.
  - rewrite length_map. congruence.
  - apply Forall_forall. intros x Hx.
    apply in_map_iff in Hx as (y & <- & _). exact Hstart.
  - rewrite Htrace. cbn [bind].
    rewrite range_length in Htl.
    destruct (stack_logits_shape (map s_decoder_output_logit trace)
                (length inputs) (vocab_size M))
      as (out & Hout & Hshape).
    + destruct trace; simpl in *; [lia | congruence].
    + apply Forall_forall. intros l Hl.
      apply in_map_iff in Hl as (s & <- & Hs).
      rewrite Forall_forall in Hall. apply Hall. exact Hs.
    + exists out. split; [exact Hout|].
      rewrite length_map, Htl in Hshape. exact Hshape.
Qed.

Lemma plain_forward_output_shape_witness :
  exists out,
    forward plain_model_two [[1; 0]]%Z (Some [[1]]%Z) Examples.zero_draws
    = Some out
    /\ has_shape3 out 1 1 2.
Proof.
  apply (plain_forward_output_shape plain_model_two [[1; 0]]%Z
           (Some [[1]]%Z) Examples.zero_draws 2).
  - unfold plain_model_ok, token_ok. simpl.
    repeat split; try reflexivity; lia.
  - unfold inputs_ok, token_ok. split; [lia|].
    repeat constructor; simpl; lia.
  - unfold targets_ok, token_ok. simpl. split; [reflexivity|].
    repeat constructor; simpl; lia.
Defined.

End PlainShape.

(** ** softmax_masked: the weights of the positions the mask keeps *)

Module SoftmaxExtras.

Import Softmax SoftmaxFacts.

Local Open Scope R_scope.

Lemma weight_at (inputs : Tensor1) (mask : LongTensor1) (d : R) (i : nat)
  (x : R) (m : Z) :
  nth_error inputs i = Some x ->
  nth_error mask i = Some m ->
  nth_error (map (fun p => exp (fst p) * IZR (snd p) / d)
               (combine inputs mask)) i
  = Some (exp x * IZR m / d).
Proof.
  revert mask i; induction inputs as [|y inputs IH]; intros [|n mask] [|i];
    simpl; intros Hx Hm; try discriminate.
  - inversion Hx; inversion Hm; subst. reflexivity.
  - apply IH; assumption.
Qed.

(** X15: in exact real arithmetic (floats as real numbers, without
    rounding, overflow or NaN), among the positions the mask keeps, the
    weights of [softmax_masked] are those of a softmax up to one common
    factor: each lies strictly between 0 and 1, two of them are in the
    ratio of the exponentials of their scores, and the larger score has
    the larger weight. *)
Theorem softmax_masked_kept_weights (inputs : Tensor1) (mask : LongTensor1)
  (epsilon : R) (w : Tensor1) (i j : nat) (xi xj : R) :
  0 < epsilon ->
  binary_mask mask ->
  softmax_masked_row inputs mask epsilon = Some w ->
  nth_error inputs i = Some xi ->
  nth_error inputs j = Some xj ->
  nth_error mask i = Some 1%Z ->
  nth_error mask j = Some 1%Z ->
  exists wi wj,
    nth_error w i = Some wi
    /\ nth_error w j = Some wj
    /\ 0 < wi < 1
    /\ wi * exp xj = wj * exp xi
    /\ (xi <= xj <-> wi <= wj).
Proof.
  intros He Hm H Hxi Hxj Hmi Hmj.
  apply softmax_masked_row_inv in H as (Hlen & -> & _).
  assert (H1 : In 1%Z mask) by (eapply nth_error_In; eauto).
  pose proof (masked_exp_sum_pos inputs Hm Hlen H1) as Hpos.
  assert (Hle : exp xi <= masked_exp_sum inputs mask).
  { clear - Hm Hxi Hmi. revert mask i Hm Hxi Hmi.
    induction inputs as [|y inputs IH]; intros [|n mask] [|i] Hm Hxi Hmi;
      simpl in *; try discriminate.
    - inversion Hxi; inversion Hmi; subst.
      inversion Hm as [|? ? _ Hrest]; subst.
      pose proof (masked_exp_sum_nonneg inputs Hrest). simpl. lra.
    - inversion Hm as [|? ? Hn Hrest]; subst.
      specialize (IH mask i Hrest Hxi Hmi). pose proof (exp_pos y).
      destruct Hn; subst; simpl; lra. }
  exists (exp xi * 1 / (masked_exp_sum inputs mask + epsilon)),
         (exp xj * 1 / (masked_exp_sum inputs mask + epsilon)).
  split; [apply weight_at; assumption|].
  split; [apply weight_at; assumption|].
  pose proof (exp_pos xi) as Hei. pose proof (exp_pos xj) as Hej.
  generalize dependent (masked_exp_sum inputs mask). intros total Hpos Hle.
  assert (Hd : 0 < total + epsilon) by lra.
  assert (Hinv : 0 < / (total + epsilon)) by (apply Rinv_0_lt_compat; lra).
  split; [|split].
  - split.
    + unfold Rdiv. rewrite Rmult_1_r. apply Rmult_lt_0_compat; assumption.
    + apply (Rmult_lt_reg_r (total + epsilon)); [assumption|].
      unfold Rdiv. rewrite Rmult_assoc, Rinv_l by lra. lra.
  - field. lra.
  - unfold Rdiv. rewrite !Rmult_1_r. split.
    + intros Hx. apply Rmult_le_compat_r; [lra|].
      destruct Hx as [Hx|Hx]; [left; apply exp_increasing; exact Hx|].
      subst. right. reflexivity.
    + intros Hw. apply Rmult_le_reg_r in Hw; [|assumption].
      destruct (Rle_or_lt xi xj) as [Hx|Hx]; [assumption|].
      apply exp_increasing in Hx. lra.
Qed.

Lemma softmax_masked_kept_weights_witness :
  exists w wi wj,
    softmax_masked_row [0; 1; 2] [1; 0; 1]%Z default_epsilon = Some w
    /\ nth_error w 0 = Some wi
    /\ nth_error w 2 = Some wj
    /\ 0 < wi < 1
    /\ wi * exp 2 = wj * exp 0
    /\ (0 <= 2 <-> wi <= wj).
Proof.
  assert (Hm : binary_mask [1; 0; 1]%Z).
  { unfold binary_mask.
    repeat (apply Forall_cons; [auto|]). apply Forall_nil. }
  pose proof (softmax_masked_row_binary [0; 1; 2] default_epsilon_pos Hm
                eq_refl) as H.
  destruct (softmax_masked_kept_weights [0; 1; 2] [1; 0; 1]%Z
              default_epsilon _ 0 2 0 2 default_epsilon_pos Hm H
              eq_refl eq_refl eq_refl eq_refl)
    as (wi & wj & Hi & Hj & Hrest).
  eexists. exists wi, wj. split; [exact H|].
  split; [exact Hi|]. split; [exact Hj | exact Hrest].
Defined.

End SoftmaxExtras.

(** ** create_embeddings_matrix *)

Module EmbeddingsExtras.

Import Vocab Spec Embeddings Views DictFacts VocabFacts VocabExtras.

Local Open Scope R_scope.

Lemma set_nth_app {A : Type} (done tl : list A) (x y : A) :
  set_nth (done ++ x :: tl) (length done) y = done ++ y :: tl.
Proof.
  induction done as [|a done IH]; simpl; [reflexivity | now rewrite IH].
Qed.

Lemma assign_next_row (done : Tensor2) (n E : nat) (row : Tensor1) :
  length row = E ->
  assign_row (done ++ repeat (zeros E) (S n)) (length done) row E
  = Some ((done ++ [row]) ++ repeat (zeros E) n).
Proof.
  intros Hrow. unfold assign_row.
  replace (length done <? length (done ++ repeat (zeros E) (S n)))%nat
    with true
    by (symmetry; apply Nat.ltb_lt; rewrite length_app, repeat_length; lia).
  replace (length row =? E)%nat with true
    by (symmetry; apply Nat.eqb_eq; exact Hrow).
  cbn [repeat]. rewrite set_nth_app, <- app_assoc. reflexivity.
Qed.

Lemma uniform_length (rand : nat -> nat -> R) (call size : nat) :
  length (uniform rand call size) = size.
Proof. unfold uniform. now rewrite length_map, length_seq. Qed.

Lemma embedding_row_length (rand : nat -> nat -> R)
  (we : Dict.dict string Tensor1) (E : nat) (toks : list string) (i : nat)
  (t : string) :
  Forall (fun p => length (snd p) = E) we ->
  length (embedding_row rand we E toks i t) = E.
Proof.
  intros Hwe. unfold embedding_row.
  destruct (string_dec t UNK_TOKEN); [apply uniform_length|].
  destruct (string_dec t PAD_TOKEN); [apply repeat_length|].
  destruct (Dict.get string_dec we t) as [vec|] eqn:Hget;
    [|apply uniform_length].
  apply get_some_pair in Hget. rewrite Forall_forall in Hwe.
  apply (Hwe (t, vec) Hget).
Qed.

Lemma drawn_special (we : Dict.dict string Tensor1) (t : string) :
  t = UNK_TOKEN \/ t = PAD_TOKEN -> drawn we t = false.
Proof.
  intros H. unfold drawn.
  replace (mem t [UNK_TOKEN; PAD_TOKEN]) with true; [reflexivity|].
  symmetry. apply VocabPrune.mem_true. simpl. intuition congruence.
Qed.

Lemma drawn_word (we : Dict.dict string Tensor1) (t : string) :
  t <> UNK_TOKEN -> t <> PAD_TOKEN ->
  drawn we t = negb (Dict.contains string_dec we t).
Proof.
  intros Hu Hp. unfold drawn.
  replace (mem t [UNK_TOKEN; PAD_TOKEN]) with false; [reflexivity|].
  symmetry. apply VocabPrune.mem_false. simpl. intuition congruence.
Qed.

(** One iteration of the loop writes the row of its token. *)
Lemma embed_token_row (rand : nat -> nat -> R)
  (we : Dict.dict string Tensor1) (E : nat) (pre rest : list string)
  (t : string) (done : Tensor2) :
  Forall (fun p => length (snd p) = E) we ->
  length done = length pre ->
  embed_token rand we
    (Dict.set string_dec [(UNK_TOKEN, uniform rand 0 E)] PAD_TOKEN (zeros E))
    E
    (done ++ repeat (zeros E) (S (length rest)),
     length (filter (drawn we) pre))
    (length pre, t)
  = Some ((done ++ [embedding_row rand we E (pre ++ t :: rest) (length pre) t])
            ++ repeat (zeros E) (length rest),
          length (filter (drawn we) (pre ++ [t]))).
Proof.
  intros Hwe Hdone.
  pose proof (embedding_row_length rand we E (pre ++ t :: rest) (length pre)
                t Hwe) as Hlen.
  unfold embed_token, embedding_row in *.
  rewrite filter_app, length_app. cbn [filter].
  change (Dict.set string_dec [(UNK_TOKEN, uniform rand 0 E)] PAD_TOKEN
            (zeros E))
    with [(UNK_TOKEN, uniform rand 0 E); (PAD_TOKEN, zeros E)].
  unfold Dict.contains at 1. cbn [Dict.get].
  rewrite firstn_app, Nat.sub_diag, firstn_all, firstn_O, app_nil_r in *.
  rewrite <- Hdone.
  destruct (string_dec t UNK_TOKEN) as [Hu|Hu].
  { rewrite drawn_special by (left; exact Hu).
    cbn [bind length]. rewrite assign_next_row by exact Hlen.
    cbn [bind]. rewrite Nat.add_0_r. reflexivity. }
  destruct (string_dec t PAD_TOKEN) as [Hp|Hp].
  { rewrite drawn_special by (right; exact Hp).
    cbn [bind length]. rewrite assign_next_row by exact Hlen.
    cbn [bind]. rewrite Nat.add_0_r. reflexivity. }
  rewrite (drawn_word we t Hu Hp). unfold Dict.contains.
  destruct (Dict.get string_dec we t) as [vec|];
    cbn [bind negb length]; rewrite assign_next_row by exact Hlen;
    cbn [bind]; [rewrite Nat.add_0_r | rewrite Nat.add_1_r]; reflexivity.
Qed.

Lemma embed_tokens_rows (rand : nat -> nat -> R)
  (we : Dict.dict string Tensor1) (E : nat) (toks rest : list string) :
  Forall (fun p => length (snd p) = E) we ->
  forall (pre : list string) (done : Tensor2),
    toks = pre ++ rest ->
    length done = length pre ->
    fold_left (fun state item =>
                 state <- state ;;
                 embed_token rand we
                   (Dict.set string_dec [(UNK_TOKEN, uniform rand 0 E)]
                      PAD_TOKEN (zeros E)) E state item)
      (combine (seq (length pre) (length rest)) rest)
      (Some (done ++ repeat (zeros E) (length rest),
             length (filter (drawn we) pre)))
    = Some (done
            ++ map (fun it => embedding_row rand we E toks (fst it) (snd it))
                 (combine (seq (length pre) (length rest)) rest),
            length (filter (drawn we) toks)).
Proof.
  intros Hwe. induction rest as [|t rest IH]; intros pre done Htoks Hdone.
  - simpl. rewrite app_nil_r in Htoks. subst. reflexivity.
  - cbn [length seq combine fold_left bind map fst snd].
    subst toks.
    rewrite (embed_token_row rand we E pre rest t done Hwe Hdone).
    specialize (IH (pre ++ [t])
                  (done ++ [embedding_row rand we E (pre ++ t :: rest)
                              (length pre) t])).
    rewrite !length_app in IH. cbn [length] in IH.
    rewrite !Nat.add_1_r in IH.
    rewrite <- app_assoc in IH. cbn [app] in IH.
    rewrite IH; [| reflexivity | congruence].
    rewrite <- app_assoc. reflexivity.
Qed.

Lemma id2token_enumerate (sp : list string) (v : t) :
  vocab_wf sp v -> id2token v = enumerate (Dict.keys (token2id v)).
Proof.
  intros (_ & (_ & Hids & _) & Hid & _). rewrite Hid. unfold enumerate.
  unfold Dict.keys. rewrite length_map, <- Hids.
  clear. induction (token2id v) as [|[tok i] d IH]; simpl; [reflexivity|].
  now rewrite IH.
Qed.

Lemma getitem_position (sp : list string) (v : t) (tok : string) (i : nat) :
  vocab_wf sp v -> __getitem__ v tok = Some i ->
  nth_error (Dict.keys (token2id v)) i = Some tok.
Proof.
  intros (_ & (_ & Hids & _) & _) H. unfold __getitem__ in H.
  apply get_some_pair in H. apply In_nth_error in H as (j & Hj).
  assert (Hi : nth_error (map snd (token2id v)) j = Some i)
    by (rewrite nth_error_map, Hj; reflexivity).
  rewrite Hids, nth_error_seq in Hi.
  destruct (j <? length (token2id v))%nat; [|discriminate].
  inversion Hi; subst. unfold Dict.keys. rewrite nth_error_map, Hj.
  reflexivity.
Qed.

Lemma nth_error_enumerate {A : Type} (l : list A) (i : nat) (x : A)
  (s : nat) :
  nth_error l i = Some x ->
  nth_error (combine (seq s (length l)) l) i = Some ((s + i)%nat, x).
Proof.
  revert i s. induction l as [|y l IH]; intros [|i] s H; simpl in *;
    try discriminate.
  - inversion H. rewrite Nat.add_0_r. reflexivity.
  - rewrite IH by exact H. do 2 f_equal. lia.
Qed.

(** X16: in exact real arithmetic (the rounding of the matrix to float32
    is left out), on a vocabulary built from special tokens without
    repetition (by the constructor, [add_document] with [rebuild=True],
    [add_documents] and [prune_vocab]) and a non-empty dictionary of
    pretrained vectors that all have [embedding_size] components,
    [create_embeddings_matrix] returns a matrix of [len(vocab)] rows of
    [embedding_size] entries.  The row of a token's id is the first vector
    drawn for the unknown token, zeros for the padding token, the
    pretrained vector of any other token that has one, and a vector drawn
    for it otherwise; the count it prints is the number of tokens it drew
    a vector for. *)
Theorem create_embeddings_matrix_rows (rand : nat -> nat -> R)
  (we : Dict.dict string Tensor1) (sp : list string) (v : t) (E : nat) :
  NoDup sp ->
  built sp v ->
  we <> [] ->
  Forall (fun p => length (snd p) = E) we ->
  exists W_emb,
    create_embeddings_matrix rand we v
    = Some (W_emb, length (filter (drawn we) (Dict.keys (token2id v))))
    /\ length W_emb = __len__ v
    /\ Forall (fun row => length row = E) W_emb
    /\ forall tok i,
         __getitem__ v tok = Some i ->
         nth_error W_emb i
         = Some (embedding_row rand we E (Dict.keys (token2id v)) i tok).
Proof.
  intros Hsp Hb Hne Hwe.
  pose proof (@VocabPrune.built_wf sp v Hsp Hb) as Hwf.
  destruct we as [|[first vec] we']; [congruence|].
  assert (Hvec : length vec = E) by (inversion Hwe; assumption).
  unfold create_embeddings_matrix.
  cbn [Dict.keys map nth_error bind Dict.get fst].
  destruct (string_dec first first) as [_|Hn]; [|congruence].
  cbn [bind]. cbv zeta. rewrite Hvec.
  rewrite (id2token_enumerate sp v Hwf). unfold enumerate, __len__.
  set (toks := Dict.keys (token2id v)).
  assert (Hn : length (token2id v) = length toks)
    by (unfold toks, Dict.keys; now rewrite length_map).
  rewrite Hn.
  pose proof (embed_tokens_rows rand ((first, vec) :: we') E toks toks Hwe
                [] [] eq_refl eq_refl) as Hfold.
  cbn [length app filter] in Hfold. rewrite Hfold.
  eexists. split; [reflexivity|].
  split; [now rewrite length_map, length_combine, length_seq, Nat.min_id|].
  split.
  - apply Forall_forall. intros row Hrow.
    apply in_map_iff in Hrow as (it & <- & _).
    apply embedding_row_length. exact Hwe.
  - intros tok i Hi.
    pose proof (getitem_position sp v tok i Hwf Hi) as Hpos.
    fold toks in Hpos. rewrite nth_error_map.
    rewrite (nth_error_enumerate toks i tok 0 Hpos). reflexivity.
Qed.

Lemma create_embeddings_matrix_rows_witness :
  exists W_emb,
    create_embeddings_matrix (fun k j => INR k)
      [("a"%string, [5; 6])] Examples.example_vocab
    = Some (W_emb, 4%nat)
    /\ length W_emb = 7%nat
    /\ nth_error W_emb 0 = Some [0; 0]
    /\ nth_error W_emb 4 = Some [5; 6].
Proof.
  destruct (create_embeddings_matrix_rows (fun k j => INR k)
              [("a"%string, [5; 6])]
              [PAD_TOKEN; START_TOKEN; END_TOKEN; UNK_TOKEN]
              Examples.example_vocab 2
              VocabClaims.special_tokens_distinct
              VocabClaims.example_vocab_built
              ltac:(discriminate)
              ltac:(repeat constructor))
    as (W & HW & Hlen & _ & Hrows).
  exists W. split; [exact HW|]. split; [exact Hlen|].
  split.
  - exact (Hrows PAD_TOKEN 0%nat eq_refl).
  - exact (Hrows "a"%string 4%nat eq_refl).
Defined.

End EmbeddingsExtras.

(** ** generate_response *)

Module ResponseExtras.

Import Vocab Spec Shape ShapeFacts Response DictFacts VocabFacts VocabExtras.

Local Open Scope R_scope.

Lemma id_to_token_total (sp : list string) (v : t) (V : nat) (idx : Z) :
  vocab_wf sp v ->
  (V <= __len__ v)%nat ->
  token_ok V idx ->
  exists tok,
    id_to_token v idx = Some tok /\ __contains__ v tok = true.
Proof.
  intros Hwf HV [H0 H1]. unfold id_to_token.
  replace (0 <=? idx)%Z with true by (symmetry; apply Z.leb_le; exact H0).
  destruct (wf_inverse sp v Hwf) as [Hinv Hdom].
  destruct (proj1 (Hdom (Z.to_nat idx)) ltac:(lia)) as (tok & Htok).
  exists tok. split; [exact Htok|].
  apply Hinv in Htok. unfold __getitem__ in Htok.
  unfold __contains__, Dict.contains. rewrite Htok. reflexivity.
Qed.

Lemma filter_length_le {A : Type} (f : A -> bool) (l : list A) :
  (length (filter f l) <= length l)%nat.
Proof.
  induction l as [|x l IH]; simpl; [lia|]. destruct (f x); simpl; lia.
Qed.

(** The tokens [generate_response] joins. *)
Lemma response_tokens_spec (model : LongTensor2 -> option Tensor3)
  (dataset : SubtitlesDialogDataset.t) (query : list string)
  (sp : list string) (q : list Z) (out : Tensor3) (L V : nat) :
  NoDup sp ->
  built sp (SubtitlesDialogDataset.vocab dataset) ->
  SubtitlesDialogDataset._process_sent dataset query = Some q ->
  model [q] = Some out ->
  has_shape3 out 1 L V ->
  (1 <= V <= __len__ (SubtitlesDialogDataset.vocab dataset))%nat ->
  exists response,
    response_tokens model dataset query = Some response
    /\ generate_response model dataset query
       = Some (String.concat " " response)
    /\ (length response <= L)%nat
    /\ Forall (fun tok =>
                 ~ In tok sp
                 /\ __contains__ (SubtitlesDialogDataset.vocab dataset) tok
                    = true) response.
Proof.
  intros Hsp Hb Hq Hout (Hone & Hrows) HV.
  pose proof (@VocabPrune.built_wf sp _ Hsp Hb) as Hwf.
  destruct out as [|logits [|]]; try discriminate.
  inversion Hrows as [|? ? [HL Hlog] _]; subst.
  destruct (@argmax_rows_total V logits ltac:(lia) Hlog)
    as (indices & Hind & Hil & Hiok).
  destruct (@mapM_some _ _
              (id_to_token (SubtitlesDialogDataset.vocab dataset)) indices)
    as (toks & Htoks).
  { intros idx Hidx. rewrite Forall_forall in Hiok.
    destruct (id_to_token_total sp _ V idx Hwf (proj2 HV) (Hiok idx Hidx))
      as (tok & Htok & _).
    eauto. }
  assert (Hresp : response_tokens model dataset query
                  = Some (filter (fun t => negb (mem t sp)) toks)).
  { unfold response_tokens. rewrite Hq. cbn [bind]. rewrite Hout.
    cbn [bind response_indices]. rewrite Hind. cbn [bind].
    rewrite Htoks. cbn [bind].
    destruct toks as [|tok toks]; [reflexivity|].
    destruct Hwf as (Hspv & _). rewrite Hspv. reflexivity. }
  exists (filter (fun t => negb (mem t sp)) toks).
  split; [exact Hresp|].
  split; [unfold generate_response; rewrite Hresp; reflexivity|].
  split.
  - pose proof (filter_length_le (fun t => negb (mem t sp)) toks).
    apply mapM_length in Htoks. lia.
  - apply Forall_forall. intros tok Htok.
    apply filter_In in Htok as [Hin Hns].
    split.
    + apply negb_true_iff in Hns. apply VocabPrune.mem_false in Hns.
      exact Hns.
    + apply In_nth_error in Hin as (j & Hj).
      destruct (mapM_nth_inv _ _ _ Htoks Hj) as (idx & Hidx & Hid).
      rewrite Forall_forall in Hiok.
      destruct (id_to_token_total sp _ V idx Hwf (proj2 HV)
                  (Hiok idx (nth_error_In _ _ Hidx)))
        as (tok' & Htok' & Hc).
      congruence.
Qed.

(** The tokens of the predicted ids. *)
Lemma id_to_token_ids (sp : list string) (v : t) (indices : list Z)
  (toks : list string) :
  vocab_wf sp v ->
  mapM (id_to_token v) indices = Some toks ->
  Forall2 (fun idx tok => (0 <= idx)%Z
                          /\ __getitem__ v tok = Some (Z.to_nat idx))
    indices toks.
Proof.
  intros Hwf. destruct (wf_inverse sp v Hwf) as [Hinv _].
  revert toks; induction indices as [|idx indices IH]; intros toks H;
    cbn [mapM] in H.
  - inversion H. constructor.
  - apply bind_some in H as (tok & Htok & H).
    apply bind_some in H as (rest & Hrest & H). inversion H; subst.
    constructor; [|apply IH; exact Hrest].
    unfold id_to_token in Htok.
    destruct (0 <=? idx)%Z eqn:E; [|discriminate].
    apply Z.leb_le in E. split; [exact E|].
    apply Hinv. exact Htok.
Qed.

Lemma response_tokens_argmax (model : LongTensor2 -> option Tensor3)
  (dataset : SubtitlesDialogDataset.t) (query : list string)
  (sp : list string) (q : list Z) (out : Tensor3) (L V : nat) :
  NoDup sp ->
  built sp (SubtitlesDialogDataset.vocab dataset) ->
  SubtitlesDialogDataset._process_sent dataset query = Some q ->
  model [q] = Some out ->
  has_shape3 out 1 L V ->
  (1 <= V <= __len__ (SubtitlesDialogDataset.vocab dataset))%nat ->
  exists logits indices toks,
    out = [logits]
    /\ argmax_rows logits = Some indices
    /\ length indices = L
    /\ Forall2 (fun idx tok =>
                  (0 <= idx)%Z
                  /\ __getitem__ (SubtitlesDialogDataset.vocab dataset) tok
                     = Some (Z.to_nat idx))
         indices toks
    /\ generate_response model dataset query
       = Some (String.concat " "
                 (filter (fun tok => negb (mem tok sp)) toks)).
Proof.
  intros Hsp Hb Hq Hout (Hone & Hrows) HV.
  pose proof (@VocabPrune.built_wf sp _ Hsp Hb) as Hwf.
  destruct out as [|logits [|]]; try discriminate.
  inversion Hrows as [|? ? [HL Hlog] _]; subst.
  destruct (@argmax_rows_total V logits ltac:(lia) Hlog)
    as (indices & Hind & Hil & Hiok).
  destruct (@mapM_some _ _
              (id_to_token (SubtitlesDialogDataset.vocab dataset)) indices)
    as (toks & Htoks).
  { intros idx Hidx. rewrite Forall_forall in Hiok.
    destruct (id_to_token_total sp _ V idx Hwf (proj2 HV) (Hiok idx Hidx))
      as (tok & Htok & _).
    eauto. }
  exists logits, indices, toks.
  split; [reflexivity|]. split; [exact Hind|]. split; [exact Hil|].
  split; [exact (id_to_token_ids sp _ indices toks Hwf Htoks)|].
  unfold generate_response, response_tokens. rewrite Hq. cbn [bind].
  rewrite Hout. cbn [bind response_indices]. rewrite Hind. cbn [bind].
  rewrite Htoks. cbn [bind].
  destruct toks as [|tok toks]; [reflexivity|].
  destruct Hwf as (Hspv & _). rewrite Hspv. reflexivity.
Qed.

(** X17: when the model answers the processed query with logits of shape
    [(1, L, V)], for [1 <= V <= len(vocab)], on a dataset whose vocabulary
    was built from special tokens without repetition (by the constructor,
    [add_document] with [rebuild=True], [add_documents] and
    [prune_vocab]), [generate_response]
    returns the tokens of the predicted ids joined by spaces, without the
    special tokens: the predicted ids are the argmax of the logits of each
    of the [L] steps, and the token of an id is the token of the vocabulary
    that has this id. *)
Theorem generate_response_tokens (model : LongTensor2 -> option Tensor3)
  (dataset : SubtitlesDialogDataset.t) (query : list string)
  (sp : list string) (q : list Z) (out : Tensor3) (L V : nat) :
  NoDup sp ->
  built sp (SubtitlesDialogDataset.vocab dataset) ->
  SubtitlesDialogDataset._process_sent dataset query = Some q ->
  model [q] = Some out ->
  has_shape3 out 1 L V ->
  (1 <= V <= __len__ (SubtitlesDialogDataset.vocab dataset))%nat ->
  exists logits indices toks,
    out = [logits]
    /\ argmax_rows logits = Some indices
    /\ length indices = L
    /\ Forall2 (fun idx tok =>
                  (0 <= idx)%Z
                  /\ __getitem__ (SubtitlesDialogDataset.vocab dataset) tok
                     = Some (Z.to_nat idx))
         indices toks
    /\ generate_response model dataset query
       = Some (String.concat " "
                 (filter (fun tok => negb (mem tok sp)) toks)).
Proof. apply response_tokens_argmax. Qed.

Lemma generate_response_tokens_witness :
  exists logits indices toks,
    [[[0; 0; 0; 0; 1; 0; 0]; [0; 0; 1; 0; 0; 0; 0]; [0; 0; 0; 0; 0; 1; 0]]]
    = [logits]
    /\ argmax_rows logits = Some indices
    /\ length indices = 3%nat
    /\ Forall2 (fun idx tok =>
                  (0 <= idx)%Z
                  /\ __getitem__ Examples.example_vocab tok
                     = Some (Z.to_nat idx))
         indices toks
    /\ generate_response
         (fun _ => Some [[[0; 0; 0; 0; 1; 0; 0]; [0; 0; 1; 0; 0; 0; 0];
                          [0; 0; 0; 0; 0; 1; 0]]])
         Examples.example_dataset ["a"; "b"]%string
       = Some (String.concat " "
                 (filter
                    (fun tok =>
                       negb (mem tok [PAD_TOKEN; START_TOKEN; END_TOKEN;
                                      UNK_TOKEN]))
                    toks)).
Proof.
  eassert (Hq : SubtitlesDialogDataset._process_sent Examples.example_dataset
                  ["a"; "b"]%string = Some _) by (vm_compute; reflexivity).
  apply (generate_response_tokens
           (fun _ => Some [[[0; 0; 0; 0; 1; 0; 0]; [0; 0; 1; 0; 0; 0; 0];
                            [0; 0; 0; 0; 0; 1; 0]]])
           Examples.example_dataset ["a"; "b"]%string
           [PAD_TOKEN; START_TOKEN; END_TOKEN; UNK_TOKEN] _
           [[[0; 0; 0; 0; 1; 0; 0]; [0; 0; 1; 0; 0; 0; 0];
             [0; 0; 0; 0; 0; 1; 0]]] 3 7
           VocabClaims.special_tokens_distinct
           VocabClaims.example_vocab_built Hq eq_refl).
  - split; [reflexivity|]. repeat constructor.
  - split; [lia|]. vm_compute. lia.
Defined.

End ResponseExtras.

(** ** From the dataset to the model *)

Module PipelineExtras.

Import SubtitlesDialogDataset Spec Shape DatasetFacts DatasetExtras.

Local Open Scope R_scope.

(** X18: the batches of a dataset the constructor built suit a model
    configured from it.  For an attention model whose layers have the
    constructor's sizes, of [len(dataset.vocab)] tokens, with
    [1 <= max_len <=] the [max_len] of the dataset and a start index that
    is in the vocabulary and that float32 holds exactly, the items at any
    indices below [len(dataset)], the queries as inputs and the responses
    as targets, make [forward] return logits of shape
    [(batch_size, max_len, vocab_size)]. *)
Theorem dataset_batches_feed_model (set_iter : list string -> list string)
  (file_lines : list (list string)) (max_lines max_len max_vocab_size : Z)
  (ds : t) (M : Seq2SeqAttentionModel.t) (indices : list Z)
  (rand : nat -> R) :
  set_iter_ok set_iter ->
  (1 <= max_len)%Z ->
  DatasetConstruction.__init__ set_iter file_lines None max_lines
    (Some max_len) max_vocab_size = Some ds ->
  attention_model_ok M ->
  Seq2SeqAttentionModel.vocab_size M = Vocab.__len__ (vocab ds) ->
  (Seq2SeqAttentionModel.max_len M <= max_len)%Z ->
  Forall (fun index => (0 <= index < __len__ ds)%Z) indices ->
  exists batch out,
    mapM (__getitem__ ds) indices = Some batch
    /\ Seq2SeqAttentionModel.forward M (map fst batch)
         (Some (map snd batch)) rand = Some out
    /\ has_shape3 out (length indices)
         (Z.to_nat (Seq2SeqAttentionModel.max_len M))
         (Seq2SeqAttentionModel.vocab_size M).
Proof.
  intros Hiter Hlen Hds HM HV HL Hidx.
  assert (Hbatch : exists batch,
             mapM (__getitem__ ds) indices = Some batch
             /\ Forall (fun qr =>
                          length (fst qr) = Z.to_nat max_len
                          /\ length (snd qr) = Z.to_nat max_len
                          /\ Forall (token_ok
                                       (Seq2SeqAttentionModel.vocab_size M))
                               (fst qr)
                          /\ Forall (token_ok
                                       (Seq2SeqAttentionModel.vocab_size M))
                               (snd qr)) batch).
  { induction Hidx as [|index indices Hi _ IH].
    - exists []. split; [reflexivity | constructor].
    - destruct IH as (batch & Hb & Hall).
      destruct (constructed_items set_iter file_lines max_lines max_len
                  max_vocab_size ds index Hiter Hlen Hds Hi)
        as (q & r & Hqr & Hq & Hr & Hqok & Hrok).
      exists ((q, r) :: batch). cbn [mapM]. rewrite Hqr, Hb.
      split; [reflexivity|]. constructor; [|exact Hall].
      unfold token_ok. rewrite HV. simpl. auto. }
  destruct Hbatch as (batch & Hb & Hall).
  exists batch.
  destruct (@AttentionShape.forward_total M (map fst batch)
              (Some (map snd batch)) rand (Z.to_nat max_len) HM)
    as (steps & out & _ & _ & Hout & Hshape).
  - split; [lia|]. apply Forall_forall. intros row Hrow.
    apply in_map_iff in Hrow as (qr & <- & Hqr).
    rewrite Forall_forall in Hall. destruct (Hall qr Hqr) as (H1 & _ & H3 & _).
    auto.
  - simpl. rewrite !length_map. split; [reflexivity|].
    apply Forall_forall. intros row Hrow.
    apply in_map_iff in Hrow as (qr & <- & Hqr).
    rewrite Forall_forall in Hall.
    destruct (Hall qr Hqr) as (_ & H2 & _ & H4).
    split; [lia | exact H4].
  - exists out. split; [exact Hb|]. split; [exact Hout|].
    rewrite length_map in Hshape. apply mapM_length in Hb.
    rewrite Hb in Hshape. exact Hshape.
Qed.

Lemma dataset_batches_feed_model_witness :
  exists ds batch out,
    DatasetConstruction.__init__ (nodup string_dec)
      [["how"; "are"; "you"]; ["fine"]; ["you"]]%string None 1000
      (Some 3%Z) 50000 = Some ds
    /\ mapM (__getitem__ ds) [0; 1]%Z = Some batch
    /\ Seq2SeqAttentionModel.forward (FurtherExamples.attention_model_of 8 3)
         (map fst batch) (Some (map snd batch)) Examples.zero_draws
       = Some out
    /\ has_shape3 out 2 3 8.
Proof.
  eassert (Hds : DatasetConstruction.__init__ (nodup string_dec)
                   [["how"; "are"; "you"]; ["fine"]; ["you"]]%string None
                   1000 (Some 3%Z) 50000 = Some _)
    by (vm_compute; reflexivity).
  destruct (dataset_batches_feed_model (nodup string_dec) _ 1000 3 50000 _
              (FurtherExamples.attention_model_of 8 3) [0; 1]%Z
              Examples.zero_draws
              VocabClaims.nodup_iter_ok ltac:(lia) Hds)
    as (batch & out & Hb & Hout & Hshape).
  - unfold attention_model_ok, token_ok. simpl.
    repeat split; try reflexivity; lia.
  - reflexivity.
  - simpl. lia.
  - repeat constructor; vm_compute; congruence.
  - eexists. exists batch, out. split; [exact Hds|].
    split; [exact Hb|]. split; [exact Hout | exact Hshape].
Defined.

End PipelineExtras.

(** ** Vocab: the tokens a fresh vocabulary holds *)

Module VocabContents.

Import Vocab Spec DictFacts VocabFacts VocabExtras PruneExtras.

Lemma core_empty (sp : option (list string)) :
  vocab_core {| special_tokens := sp; token2id := []; id2token := [];
                token_counts := [] |}.
Proof.
  unfold vocab_core. simpl. repeat split; try constructor; auto.
Qed.

Lemma keys_add_tokens (document : list string) :
  forall v : t,
    vocab_core v ->
    forall tok,
      In tok (Dict.keys (token2id (fold_left add_token document v)))
      <-> In tok (Dict.keys (token2id v)) \/ In tok document.
Proof.
  induction document as [|x document IH]; intros v Hcore tok;
    cbn [fold_left].
  - simpl. tauto.
  - destruct (@add_token_core v x Hcore) as [Hcore' Hkeys].
    rewrite (IH _ Hcore' tok), Hkeys, in_app_iff.
    destruct (in_dec string_dec x (Dict.keys (token2id v))) as [Hin|Hin];
      simpl; intuition (subst; auto).
Qed.

Lemma add_documents_tokens (documents : list (list string)) :
  forall v : t,
    fold_left (fun v doc => add_document v doc false) documents v
    = fold_left add_token (concat documents) v.
Proof.
  induction documents as [|doc documents IH]; intros v; cbn [fold_left concat].
  - reflexivity.
  - rewrite IH, fold_left_app. reflexivity.
Qed.

Lemma add_tokens_ignore_id2token (document : list string) :
  forall v v' : t,
    token2id v = token2id v' ->
    token_counts v = token_counts v' ->
    token2id (fold_left add_token document v)
    = token2id (fold_left add_token document v').
Proof.
  induction document as [|x document IH]; intros v v' H2 Hc;
    cbn [fold_left]; [assumption|].
  apply IH; unfold add_token; cbn [token2id token_counts];
    rewrite ?H2, ?Hc; reflexivity.
Qed.

Lemma fresh_vocab_tokens (sp : list string) (documents : list (list string)) :
  token2id (add_documents (__init__ (Some sp)) documents)
  = token2id
      (fold_left add_token (sp ++ concat documents)
         {| special_tokens := Some sp; token2id := []; id2token := [];
            token_counts := [] |}).
Proof.
  unfold add_documents, __init__, add_document.
  rewrite add_documents_tokens, fold_left_app.
  cbn [token2id _rebuild_id2token].
  apply add_tokens_ignore_id2token; reflexivity.
Qed.

(** X19: a fresh vocabulary holds exactly the tokens it has seen, each
    once: after [Vocab(special_tokens)] and [add_documents], a token is in
    the vocabulary exactly when it is a special token or occurs in a
    document, and [len(vocab)] is the number of distinct tokens among
    them. *)
Theorem fresh_vocab_contents (sp : list string)
  (documents : list (list string)) :
  (forall tok,
      __contains__ (add_documents (__init__ (Some sp)) documents) tok = true
      <-> In tok sp \/ exists doc, In doc documents /\ In tok doc)
  /\ __len__ (add_documents (__init__ (Some sp)) documents)
     = length (nodup string_dec (sp ++ concat documents)).
Proof.
  set (v0 := {| special_tokens := Some sp; token2id := []; id2token := [];
                token_counts := [] |}).
  assert (Hcore : vocab_core (fold_left add_token (sp ++ concat documents) v0))
    by (apply add_tokens_core, core_empty).
  assert (Hin : forall tok,
             In tok (Dict.keys (token2id (add_documents (__init__ (Some sp))
                                            documents)))
             <-> In tok (sp ++ concat documents)).
  { intros tok. rewrite fresh_vocab_tokens. fold v0.
    rewrite (keys_add_tokens _ v0 (core_empty (Some sp)) tok). simpl. tauto. }
  split.
  - intros tok. rewrite contains_keys, Hin, in_app_iff, in_concat.
    split; intros [H|H]; auto; right; destruct H as (doc & H1 & H2); eauto.
  - unfold __len__.
    rewrite <- (length_map fst (token2id (add_documents _ _))).
    fold (Dict.keys (token2id (add_documents (__init__ (Some sp))
                                 documents))).
    assert (Hnd : NoDup (Dict.keys (token2id (add_documents
                                                (__init__ (Some sp))
                                                documents)))).
    { rewrite fresh_vocab_tokens. apply Hcore. }
    apply Nat.le_antisymm; apply NoDup_incl_length;
      try assumption; try apply NoDup_nodup.
    + intros tok H. apply nodup_In, Hin, H.
    + intros tok H. apply Hin, (nodup_In string_dec), H.
Qed.

End VocabContents.

(** ** prune_vocab, twice *)

Module PruneTwice.

Import Vocab Spec Views DictFacts VocabFacts VocabPrune VocabExtras.
Import PruneExtras.

Lemma filter_all {A : Type} (f : A -> bool) (l : list A) :
  (forall x, In x l -> f x = true) -> filter f l = l.
Proof.
  induction l as [|x l IH]; intros H; simpl; [reflexivity|].
  rewrite (H x (or_introl eq_refl)), IH; [reflexivity|].
  intros y Hy. apply H. right. exact Hy.
Qed.

Lemma filter_none {A : Type} (f : A -> bool) (l : list A) :
  (forall x, In x l -> f x = false) -> filter f l = [].
Proof.
  induction l as [|x l IH]; intros H; simpl; [reflexivity|].
  rewrite (H x (or_introl eq_refl)). apply IH.
  intros y Hy. apply H. right. exact Hy.
Qed.

Lemma filter_filter {A : Type} (f g : A -> bool) (l : list A) :
  filter f (filter g l) = filter (fun x => g x && f x) l.
Proof.
  induction l as [|x l IH]; simpl; [reflexivity|].
  destruct (g x); simpl; [destruct (f x)|]; rewrite IH; reflexivity.
Qed.

(** [pop] drops the item of its key. *)
Lemma pop_filter (c : Dict.dict string Z) (k : string) :
  forall c',
    NoDup (Dict.keys c) ->
    Dict.pop string_dec c k = Some c' ->
    c' = filter (fun p => negb (mem (fst p) [k])) c.
Proof.
  induction c as [|[k' n] c IH]; intros c' Hnd H; simpl in H;
    [discriminate|].
  inversion Hnd as [|? ? Hnotin Hnd']; subst. cbn [filter fst].
  destruct (string_dec k k') as [->|Hne].
  - inversion H; subst.
    replace (mem k' [k']) with true
      by (symmetry; apply mem_true; left; reflexivity).
    cbn [negb]. symmetry. apply filter_all. intros [x m] Hx. cbn [fst].
    apply negb_true_iff, mem_false. intros [->|[]].
    apply Hnotin. apply in_map_iff. exists (x, m). auto.
  - apply bind_some in H as (d & Hd & H). inversion H; subst.
    replace (mem k' [k]) with false
      by (symmetry; apply mem_false; intros [->|[]]; congruence).
    cbn [negb]. f_equal. apply IH; assumption.
Qed.

Lemma fold_pop_none (del : list string) :
  fold_left (fun c tok => c <- c ;; Dict.pop string_dec c tok) del
    (@None (Dict.dict string Z))
  = None.
Proof. induction del as [|x del IH]; simpl; [reflexivity | exact IH]. Qed.

Lemma fold_pop_filter (del : list string) :
  forall c c' : Dict.dict string Z,
    NoDup (Dict.keys c) ->
    fold_left (fun c tok => c <- c ;; Dict.pop string_dec c tok) del (Some c)
    = Some c' ->
    c' = filter (fun p => negb (mem (fst p) del)) c.
Proof.
  induction del as [|tok del IH]; intros c c' Hnd H; cbn [fold_left] in H.
  - inversion H; subst. symmetry. apply filter_all. reflexivity.
  - cbn [bind] in H.
    destruct (Dict.pop string_dec c tok) as [c1|] eqn:Hpop.
    2:{ rewrite fold_pop_none in H. discriminate. }
    pose proof (pop_filter c tok c1 Hnd Hpop) as Hc1.
    destruct (@pop_spec string Z string_dec c c1 tok Hpop Hnd) as (Hnd1 & _).
    rewrite (IH c1 c' Hnd1 H), Hc1, filter_filter.
    apply filter_ext. intros [x n]. cbn [fst].
    unfold mem.
    destruct (in_dec string_dec x [tok]) as [H1|H1],
             (in_dec string_dec x del) as [H2|H2],
             (in_dec string_dec x (tok :: del)) as [H3|H3];
      try reflexivity; exfalso; simpl in *; intuition.
Qed.

(** Dropping items commutes with the order of [most_common]. *)
Lemma insert_by_count_filter (f : string * Z -> bool) (x : string * Z)
  (l : list (string * Z)) :
  StronglySorted by_count l ->
  filter f (insert_by_count x l)
  = if f x then insert_by_count x (filter f l) else filter f l.
Proof.
  induction 1 as [|y l Hs IH Hall]; cbn [insert_by_count filter].
  - destruct (f x); reflexivity.
  - destruct (snd y <=? snd x)%Z eqn:E.
    + cbn [filter]. destruct (f x) eqn:Hx; [|reflexivity].
      destruct (f y) eqn:Hy.
      * cbn [insert_by_count]. rewrite E. reflexivity.
      * apply Z.leb_le in E.
        assert (Hle : Forall (fun z => (snd z <= snd x)%Z) (filter f l)).
        { apply Forall_forall. intros z Hz. apply filter_In in Hz as [Hz _].
          rewrite Forall_forall in Hall. specialize (Hall z Hz).
          unfold by_count in Hall. lia. }
        destruct (filter f l) as [|z rest]; [reflexivity|].
        cbn [insert_by_count]. inversion Hle as [|? ? Hz _]; subst.
        replace (snd z <=? snd x)%Z with true
          by (symmetry; apply Z.leb_le; exact Hz).
        reflexivity.
    + cbn [filter]. rewrite IH.
      destruct (f y) eqn:Hy, (f x) eqn:Hx; try reflexivity.
      cbn [insert_by_count]. rewrite E. reflexivity.
Qed.

Lemma sorted_filter (f : string * Z -> bool) (c : Dict.dict string Z) :
  fold_right insert_by_count [] (filter f c)
  = filter f (fold_right insert_by_count [] c).
Proof.
  induction c as [|x c IH]; cbn [filter fold_right]; [reflexivity|].
  rewrite insert_by_count_filter by apply sorted_by_count.
  destruct (f x); cbn [fold_right]; rewrite IH; reflexivity.
Qed.

Lemma firstn_filter {A : Type} (f : A -> bool) (n : nat) (l : list A) :
  (forall x, In x (firstn n l) -> f x = true) ->
  firstn n (filter f l) = firstn n l.
Proof.
  revert l. induction n as [|n IH]; intros l H; [reflexivity|].
  destruct l as [|x l]; [reflexivity|]. cbn [firstn] in H. cbn [filter].
  rewrite (H x (or_introl eq_refl)). cbn [firstn]. f_equal.
  apply IH. intros y Hy. apply H. right. exact Hy.
Qed.

(** X20: pruning twice is pruning once.  On a vocabulary built from special
    tokens without repetition, a second [prune_vocab] with the same
    [max_size] leaves the vocabulary as the first one made it: the same
    tokens with the same ids and counts. *)
Theorem prune_vocab_idempotent (set_iter : list string -> list string)
  (sp : list string) (v v' : t) (max_size : Z) :
  set_iter_ok set_iter ->
  NoDup sp ->
  built sp v ->
  prune_vocab set_iter v max_size = Some v' ->
  prune_vocab set_iter v' max_size = Some v'.
Proof.
  intros Hiter Hsp Hb Hv'.
  pose proof (@built_wf sp v Hsp Hb) as Hwf.
  pose proof Hwf as (Hspv & (Hnd & Hids & Hcnd & Hkeys) & Hid2 & rest & Hrest).
  destruct (prune_vocab_result set_iter sp v max_size Hiter Hwf)
    as (v1 & Hv1 & Hk1 & _).
  assert (v1 = v') by congruence. subst v1. clear Hv1.
  unfold prune_vocab in Hv'. rewrite Hspv in Hv'. cbn [bind] in Hv'.
  fold (kept v sp max_size) in Hv'. fold (deleted v sp max_size) in Hv'.
  apply bind_some in Hv' as (counts & Hcounts & Hv'). injection Hv' as Hv.
  assert (F1 : special_tokens v' = Some sp) by (rewrite <- Hv; reflexivity).
  assert (F2 : token_counts v' = counts) by (rewrite <- Hv; reflexivity).
  pose proof (fold_pop_filter _ _ _ Hcnd Hcounts) as Hfilter.
  assert (Hcommon : most_common counts max_size
                    = most_common (token_counts v) max_size).
  { unfold most_common. rewrite Hfilter, sorted_filter.
    apply firstn_filter. intros [tok n] Hin. cbn [fst].
    apply negb_true_iff, mem_false. intros Hdel.
    apply (proj1 (proj2 (Hiter _) tok)) in Hdel.
    unfold deleted in Hdel. apply filter_In in Hdel as [_ Hdel].
    apply andb_true_iff in Hdel as [Hnk Hns].
    apply negb_true_iff, mem_false in Hnk.
    apply negb_true_iff in Hns.
    apply Hnk. unfold kept. apply filter_In. split.
    - apply in_map_iff. exists (tok, n). split; [reflexivity|].
      unfold most_common. exact Hin.
    - rewrite Hns. reflexivity. }
  assert (Hkept : kept v' sp max_size = kept v sp max_size).
  { unfold kept. rewrite F2, Hcommon. reflexivity. }
  assert (Hnone : deleted v' sp max_size = []).
  { unfold deleted. rewrite Hkept, Hk1. apply filter_none. intros tok Hin.
    apply in_app_iff in Hin as [Hin|Hin].
    - replace (mem tok sp) with true by (symmetry; apply mem_true; exact Hin).
      apply andb_false_r.
    - apply (proj1 (proj2 (Hiter (kept v sp max_size)) tok)) in Hin.
      replace (mem tok (kept v sp max_size)) with true
        by (symmetry; apply mem_true; exact Hin).
      reflexivity. }
  assert (Hempty : set_iter [] = []).
  { destruct (set_iter []) as [|x l] eqn:E; [reflexivity|].
    exfalso. apply (proj2 (Hiter []) x). rewrite E. left. reflexivity. }
  unfold prune_vocab. rewrite F1. cbn [bind].
  fold (kept v' sp max_size). fold (deleted v' sp max_size).
  rewrite Hnone, Hempty, Hkept. cbn [fold_left bind]. rewrite F2.
  rewrite <- Hv. reflexivity.
Qed.

Lemma prune_vocab_idempotent_witness :
  exists v',
    prune_vocab (nodup string_dec) Examples.example_vocab 2 = Some v'
    /\ prune_vocab (nodup string_dec) v' 2 = Some v'.
Proof.
  eassert (Hp : prune_vocab (nodup string_dec) Examples.example_vocab 2
                = Some _) by (vm_compute; reflexivity).
  eexists. split; [exact Hp|].
  exact (prune_vocab_idempotent (nodup string_dec)
           [PAD_TOKEN; START_TOKEN; END_TOKEN; UNK_TOKEN]
           Examples.example_vocab _ 2
           VocabClaims.nodup_iter_ok VocabClaims.special_tokens_distinct
           VocabClaims.example_vocab_built Hp).
Defined.

End PruneTwice.

(** ** Targets that are too short *)

Module TargetsExtras.

Import Shape.

Local Open Scope R_scope.

Lemma column_short {A : Type} (i : nat) (t : list (list A)) (row : list A) :
  In row t -> (length row <= i)%nat -> column i t = None.
Proof.
  unfold column. induction t as [|r t IH]; intros Hin Hlen; [contradiction|].
  cbn [mapM]. destruct Hin as [->|Hin].
  - replace (nth_error row i) with (@None A)
      by (symmetry; apply nth_error_None; exact Hlen).
    reflexivity.
  - rewrite (IH Hin Hlen). destruct (nth_error r i); reflexivity.
Qed.

Lemma forced_beyond_targets (tf : R) (t : LongTensor2) (row : list Z)
  (draw : R) (i : nat) (logits : Tensor2) :
  In row t -> (length row <= i)%nat -> draw < tf ->
  next_decoder_inputs tf (Some t) draw i logits = None.
Proof.
  intros Hin Hlen Hd. rewrite next_decoder_inputs_forced by exact Hd.
  eapply column_short; eauto.
Qed.

Ltac none_stage :=
  match goal with
  | |- bind ?m _ = None => destruct m; cbn [bind]; cbv zeta; [|reflexivity]
  end.

Lemma attention_loop_fails (M : Seq2SeqAttentionModel.t) (enc : Tensor3)
  (mask : LongTensor2) (targets : option LongTensor2) (rand : nat -> R)
  (i : nat) (steps : list nat) :
  (forall logits,
      next_decoder_inputs (Seq2SeqAttentionModel.teacher_forcing M) targets
        (rand i) i logits = None) ->
  In i steps ->
  forall h x,
    Seq2SeqAttentionModel.decode_loop M enc mask targets rand steps h x
    = None.
Proof.
  intros Hnext. induction steps as [|j steps IH]; intros Hin h x;
    [contradiction|].
  cbn [Seq2SeqAttentionModel.decode_loop].
  destruct (Seq2SeqAttentionModel.decode_step M enc mask targets (rand j) j
              h x) as [s|] eqn:Hs; cbn [bind]; [|reflexivity].
  destruct (Nat.eq_dec j i) as [->|Hne].
  - exfalso. apply AttentionFacts.decode_step_inv in Hs.
    destruct Hs as (_ & _ & _ & _ & _ & _ & _ & _ & Hn).
    rewrite Hnext in Hn. discriminate.
  - destruct Hin as [Hin|Hin]; [congruence|].
    rewrite (IH Hin). reflexivity.
Qed.

Lemma plain_loop_fails (M : Seq2SeqModel.t) (targets : option LongTensor2)
  (rand : nat -> R) (i : nat) (steps : list nat) :
  (forall logits,
      next_decoder_inputs (Seq2SeqModel.teacher_forcing M) targets
        (rand i) i logits = None) ->
  In i steps ->
  forall h x, Seq2SeqModel.decode_loop M targets rand steps h x = None.
Proof.
  intros Hnext. induction steps as [|j steps IH]; intros Hin h x;
    [contradiction|].
  cbn [Seq2SeqModel.decode_loop].
  destruct (Seq2SeqModel.decode_step M targets (rand j) j h x) as [s|] eqn:Hs;
    cbn [bind]; [|reflexivity].
  destruct (Nat.eq_dec j i) as [->|Hne].
  - exfalso. apply PlainFacts.plain_decode_step_inv in Hs.
    destruct Hs as (_ & _ & _ & Hn).
    rewrite Hnext in Hn. discriminate.
  - destruct Hin as [Hin|Hin]; [congruence|].
    rewrite (IH Hin). reflexivity.
Qed.

Lemma in_range (max_len : Z) (i : nat) :
  (i < Z.to_nat max_len)%nat -> In i (range max_len).
Proof. intros H. unfold range. apply in_seq. lia. Qed.

(** X21: targets that are too short.  When an iteration [i] of the loop is
    teacher-forced (its draw is below [teacher_forcing]) and a row of the
    targets has no column [i], [forward] raises, in both models and
    whatever the inputs. *)
Theorem forced_step_beyond_targets (A : Seq2SeqAttentionModel.t)
  (P : Seq2SeqModel.t) (inputs t : LongTensor2) (rand : nat -> R)
  (row : list Z) (i : nat) :
  In row t ->
  (length row <= i)%nat ->
  ((i < Z.to_nat (Seq2SeqAttentionModel.max_len A))%nat ->
   rand i < Seq2SeqAttentionModel.teacher_forcing A ->
   Seq2SeqAttentionModel.forward A inputs (Some t) rand = None)
  /\ ((i < Z.to_nat (Seq2SeqModel.max_len P))%nat ->
      rand i < Seq2SeqModel.teacher_forcing P ->
      Seq2SeqModel.forward P inputs (Some t) rand = None).
Proof.
  intros Hrow Hlen. split; intros Hi Hd.
  - unfold Seq2SeqAttentionModel.forward.
    destruct (Seq2SeqAttentionModel.encode A inputs) as [[enc mask]|];
      cbn [bind]; [|reflexivity].
    unfold Seq2SeqAttentionModel.decode, Seq2SeqAttentionModel.decode_steps.
    destruct (column 0 enc) as [first|]; cbn [bind]; cbv zeta; [|reflexivity].
    destruct (start_inputs _ _) as [x|]; cbn [bind]; [|reflexivity].
    rewrite (attention_loop_fails A enc mask (Some t) rand i); try reflexivity.
    + intros logits. eapply forced_beyond_targets; eauto.
    + apply in_range. exact Hi.
  - unfold Seq2SeqModel.forward.
    destruct (Seq2SeqModel.encode P inputs) as [h|]; cbn [bind];
      [|reflexivity].
    unfold Seq2SeqModel.decode, Seq2SeqModel.decode_steps.
    destruct (start_inputs _ _) as [x|]; cbn [bind]; [|reflexivity].
    rewrite (plain_loop_fails P (Some t) rand i); try reflexivity.
    + intros logits. eapply forced_beyond_targets; eauto.
    + apply in_range. exact Hi.
Qed.

Lemma forced_step_beyond_targets_witness :
  Seq2SeqAttentionModel.forward Examples.attention_model
    Examples.padded_inputs (Some [[2%Z]]) Examples.zero_draws = None
  /\ Seq2SeqModel.forward Examples.plain_model [[0%Z]] (Some [[]])
       Examples.zero_draws = None.
Proof.
  split.
  - apply (proj1 (forced_step_beyond_targets Examples.attention_model
                    Examples.plain_model Examples.padded_inputs [[2%Z]]
                    Examples.zero_draws [2%Z] 1
                    (or_introl eq_refl) (le_n 1))).
    + simpl. lia.
    + unfold Examples.zero_draws. simpl. lra.
  - apply (proj2 (forced_step_beyond_targets Examples.attention_model
                    Examples.plain_model [[0%Z]] [[]]
                    Examples.zero_draws [] 0
                    (or_introl eq_refl) (le_n 0))).
    + simpl. lia.
    + unfold Examples.zero_draws. simpl. lra.
Defined.

End TargetsExtras.

(** ** Seq2SeqAttentionModel: the rows of a batch *)

Module BatchExtras.

Import Shape ShapeFacts Views PaddingExtras.

Local Open Scope R_scope.

Lemma zipM_nth_fwd {A B C : Type} (f : A -> B -> option C)
  (l1 : list A) (l2 : list B) (r : list C) (i : nat) (a : A) (b : B) :
  zipM f l1 l2 = Some r ->
  nth_error l1 i = Some a ->
  nth_error l2 i = Some b ->
  exists c, nth_error r i = Some c /\ f a b = Some c.
Proof.
  intros H Ha Hb.
  destruct (nth_error r i) as [c|] eqn:Hc.
  - exists c. split; [reflexivity|].
    destruct (@zipM_nth _ _ _ f l1 l2 r i c H Hc) as (a' & b' & Ha' & Hb' & Hf).
    congruence.
  - apply nth_error_None in Hc. apply zipM_length in H as [_ Hl].
    assert (i < length l1)%nat by (apply nth_error_Some; congruence). lia.
Qed.

Lemma context_rows_nth (M : Seq2SeqAttentionModel.t) (enc : Tensor3) :
  forall (mask : LongTensor2) (h ctx : Tensor2) (b : nat) (e : Tensor2),
    context_rows M enc mask h = Some ctx ->
    nth_error enc b = Some e ->
    exists m x c,
      nth_error mask b = Some m
      /\ nth_error h b = Some x
      /\ nth_error ctx b = Some c
      /\ context_row M e m x = Some c.
Proof.
  induction enc as [|e0 enc IH]; intros mask h ctx b e H He.
  - destruct b; discriminate.
  - destruct mask as [|m0 mask]; [discriminate|].
    destruct h as [|x0 h]; [discriminate|].
    cbn [context_rows] in H.
    apply bind_some in H as (c0 & Hc0 & H).
    apply bind_some in H as (cs & Hcs & H). inversion H; subst; clear H.
    destruct b as [|b]; simpl in He |- *.
    + inversion He; subst. exists m0, x0, c0. auto.
    + apply (IH mask h cs b e Hcs He).
Qed.

(** The token one row hands on. *)
Lemma next_inputs_row (tf : R) (targets : option LongTensor2) (draw : R)
  (i : nat) (logits : Tensor2) (next : LongTensor1) (b : nat) (l : Tensor1)
  (trow : list Z) :
  next_decoder_inputs tf targets draw i logits = Some next ->
  nth_error logits b = Some l ->
  (forall t, targets = Some t -> nth_error t b = Some trow) ->
  exists x,
    nth_error next b = Some x
    /\ next_decoder_inputs tf (option_map (fun _ => [trow]) targets) draw i
         [l] = Some [x].
Proof.
  unfold next_decoder_inputs. intros H Hl Ht.
  assert (Hsame : teacher_forced tf (option_map (fun _ => [trow]) targets)
                    draw
                  = teacher_forced tf targets draw)
    by (unfold teacher_forced; destruct targets; reflexivity).
  rewrite Hsame.
  destruct (teacher_forced tf targets draw) eqn:E.
  - apply teacher_forced_true in E as [_ Hsome].
    destruct targets as [t|]; [|congruence]. cbn [bind option_map] in *.
    unfold column in *.
    destruct (mapM_nth _ _ _ H (Ht t eq_refl)) as (x & Hx & Hi).
    exists x. split; [exact Hx|]. cbn [mapM]. rewrite Hi. reflexivity.
  - unfold argmax_rows in *.
    destruct (mapM_nth _ _ _ H Hl) as (x & Hx & Hi).
    exists x. split; [exact Hx|]. cbn [mapM]. rewrite Hi. reflexivity.
Qed.

(** One iteration, on the batch and on one of its rows. *)
Lemma decode_step_row (M : Seq2SeqAttentionModel.t) (enc : Tensor3)
  (mask : LongTensor2) (targets : option LongTensor2) (draw : R) (i : nat)
  (h : Tensor2) (x : LongTensor1) (s : Seq2SeqAttentionModel.Step)
  (b : nat) (e : Tensor2) (m : LongTensor1) (hb : Tensor1) (xb : Z)
  (trow : list Z) :
  Seq2SeqAttentionModel.decode_step M enc mask targets draw i h x = Some s ->
  nth_error enc b = Some e ->
  nth_error mask b = Some m ->
  nth_error h b = Some hb ->
  nth_error x b = Some xb ->
  (forall t, targets = Some t -> nth_error t b = Some trow) ->
  exists s1 hb' xb' l,
    Seq2SeqAttentionModel.decode_step M [e] [m]
      (option_map (fun _ => [trow]) targets) draw i [hb] [xb] = Some s1
    /\ Seq2SeqAttentionModel.s_decoder_hidden s1 = [hb']
    /\ Seq2SeqAttentionModel.s_next_inputs s1 = [xb']
    /\ Seq2SeqAttentionModel.s_decoder_output_logit s1 = [l]
    /\ nth_error (Seq2SeqAttentionModel.s_decoder_hidden s) b = Some hb'
    /\ nth_error (Seq2SeqAttentionModel.s_next_inputs s) b = Some xb'
    /\ nth_error (Seq2SeqAttentionModel.s_decoder_output_logit s) b = Some l.
Proof.
  intros Hs He Hm Hh Hx Ht.
  pose proof (decode_step_observe M enc mask targets draw i h x) as Hobs.
  rewrite Hs in Hobs. cbn [option_map] in Hobs. symmetry in Hobs.
  apply bind_some in Hobs as (emb & Hemb & Hobs).
  apply bind_some in Hobs as (ctx & Hctx & Hobs).
  apply bind_some in Hobs as (cat & Hcat & Hobs).
  apply bind_some in Hobs as (h' & Hh' & Hobs).
  apply bind_some in Hobs as (next & Hnext & Hobs).
  unfold observe in Hobs. injection Hobs as H1 H2 H3 H4 H5.
  destruct (mapM_nth _ _ _ Hemb Hx) as (eb & Heb & Hembb).
  destruct (context_rows_nth M enc mask h ctx b e Hctx He)
    as (m' & hb0 & c & Hm' & Hhb0 & Hc & Hrow).
  assert (m' = m) by congruence. assert (hb0 = hb) by congruence.
  subst m' hb0.
  destruct (zipM_nth_fwd _ _ _ _ b _ _ Hcat Hh Hc) as (catb & Hcatb & Hcb).
  inversion Hcb; subst catb. clear Hcb.
  assert (Hcomb : nth_error
                    (map (Seq2SeqAttentionModel.decoder_hidden_combine M) cat)
                    b
                  = Some (Seq2SeqAttentionModel.decoder_hidden_combine M
                            (hb ++ c)))
    by (rewrite nth_error_map, Hcatb; reflexivity).
  destruct (zipM_nth_fwd _ _ _ _ b _ _ Hh' Heb Hcomb) as (hb' & Hhb' & Hd).
  inversion Hd; subst hb'. clear Hd.
  assert (Hlog : nth_error
                   (map (Seq2SeqAttentionModel.decoder_projection M) h') b
                 = Some (Seq2SeqAttentionModel.decoder_projection M
                           (Seq2SeqAttentionModel.decoder M eb
                              (Seq2SeqAttentionModel.decoder_hidden_combine M
                                 (hb ++ c)))))
    by (rewrite nth_error_map, Hhb'; reflexivity).
  destruct (next_inputs_row _ targets draw i _ next b _ trow Hnext Hlog Ht)
    as (xb' & Hxb' & Hnext1).
  pose proof (decode_step_observe M [e] [m]
                (option_map (fun _ => [trow]) targets) draw i [hb] [xb])
    as Hobs1.
  cbn [mapM context_rows] in Hobs1.
  rewrite Hembb, Hrow in Hobs1. cbn [bind zipM map] in Hobs1.
  rewrite Hnext1 in Hobs1. cbn [bind] in Hobs1.
  destruct (Seq2SeqAttentionModel.decode_step M [e] [m] _ draw i [hb] [xb])
    as [s1|]; [|discriminate].
  unfold observe in Hobs1. injection Hobs1 as G1 G2 G3 G4 G5.
  eexists s1, _, xb', _. split; [reflexivity|].
  split; [exact G3|]. split; [exact G5|]. split; [exact G4|].
  rewrite <- H3, <- H5, <- H4. auto.
Qed.

Lemma decode_loop_row (M : Seq2SeqAttentionModel.t) (enc : Tensor3)
  (mask : LongTensor2) (targets : option LongTensor2) (rand : nat -> R)
  (b : nat) (e : Tensor2) (m : LongTensor1) (trow : list Z)
  (steps : list nat) :
  nth_error enc b = Some e ->
  nth_error mask b = Some m ->
  (forall t, targets = Some t -> nth_error t b = Some trow) ->
  forall (h : Tensor2) (x : LongTensor1) (hb : Tensor1) (xb : Z)
         (trace : list Seq2SeqAttentionModel.Step),
    Seq2SeqAttentionModel.decode_loop M enc mask targets rand steps h x
    = Some trace ->
    nth_error h b = Some hb ->
    nth_error x b = Some xb ->
    exists trace1,
      Seq2SeqAttentionModel.decode_loop M [e] [m]
        (option_map (fun _ => [trow]) targets) rand steps [hb] [xb]
      = Some trace1
      /\ Forall2 (fun s s1 =>
                    exists l,
                      Seq2SeqAttentionModel.s_decoder_output_logit s1 = [l]
                      /\ nth_error
                           (Seq2SeqAttentionModel.s_decoder_output_logit s) b
                         = Some l) trace trace1.
Proof.
  intros He Hm Ht.
  induction steps as [|i steps IH]; intros h x hb xb trace H Hh Hx;
    cbn [Seq2SeqAttentionModel.decode_loop] in *.
  - inversion H; subst. exists []. split; [reflexivity | constructor].
  - apply bind_some in H as (s & Hs & H).
    apply bind_some in H as (rest & Hrest & H). inversion H; subst; clear H.
    destruct (decode_step_row M enc mask targets (rand i) i h x s b e m hb xb
                trow Hs He Hm Hh Hx Ht)
      as (s1 & hb' & xb' & l & Hs1 & G1 & G2 & G3 & N1 & N2 & N3).
    rewrite Hs1. cbn [bind]. rewrite G1, G2.
    destruct (IH _ _ hb' xb' rest Hrest N1 N2) as (rest1 & Hrest1 & Hall).
    rewrite Hrest1. cbn [bind]. exists (s1 :: rest1).
    split; [reflexivity|]. constructor; [|exact Hall].
    exists l. auto.
Qed.

(** [torch.stack] of the logits, on the batch and on one of its rows. *)
Lemma stack_dim1_row {A : Type} (b : nat) (ts : list (list A)) :
  forall (ts1 : list (list A)) (out : list (list A)),
    stack_dim1 ts = Some out ->
    Forall2 (fun t t1 => exists l, t1 = [l] /\ nth_error t b = Some l)
      ts ts1 ->
    exists o, nth_error out b = Some o /\ stack_dim1 ts1 = Some [o].
Proof.
  induction ts as [|t ts IH]; intros ts1 out H Hall; [discriminate|].
  inversion Hall as [|? t1 ? ts1' (l & -> & Hl) Hrest]; subst.
  destruct ts as [|t' ts].
  - inversion Hrest; subst. cbn [stack_dim1] in *. inversion H; subst.
    exists [l]. split; [|reflexivity].
    rewrite nth_error_map, Hl. reflexivity.
  - change (stack_dim1 (t :: t' :: ts))
      with (bind (stack_dim1 (t' :: ts))
              (fun rest => zipM (fun row rows => Some (row :: rows)) t rest))
      in H.
    apply bind_some in H as (rest & Hstack & Hzip).
    destruct (IH ts1' rest Hstack Hrest) as (o' & Ho' & Hs1).
    destruct (zipM_nth_fwd _ _ _ _ b _ _ Hzip Hl Ho') as (o & Ho & Heq).
    inversion Heq; subst o. exists (l :: o'). split; [exact Ho|].
    inversion Hrest as [|? t1' ? ts1'' _ _]; subst.
    change (stack_dim1 ([l] :: t1' :: ts1''))
      with (bind (stack_dim1 (t1' :: ts1''))
              (fun rest => zipM (fun row rows => Some (row :: rows)) [l]
                             rest)).
    rewrite Hs1. reflexivity.
Qed.

(** X22: the items of a batch do not influence each other.  When [forward]
    returns on a batch, it returns on each row alone (with the targets of
    the row, and the same draws), and the logits of the row alone are
    row [b] of the logits of the batch. *)
Theorem attention_forward_row_by_row (M : Seq2SeqAttentionModel.t)
  (inputs : LongTensor2) (targets : option LongTensor2) (rand : nat -> R)
  (out : Tensor3) (b : nat) (row trow : list Z) :
  Seq2SeqAttentionModel.forward M inputs targets rand = Some out ->
  nth_error inputs b = Some row ->
  (forall t, targets = Some t -> nth_error t b = Some trow) ->
  exists o,
    nth_error out b = Some o
    /\ Seq2SeqAttentionModel.forward M [row]
         (option_map (fun _ => [trow]) targets) rand = Some [o].
Proof.
  intros H Hrow Ht. unfold Seq2SeqAttentionModel.forward in *.
  apply bind_some in H as ([enc mask] & Henc & H).
  unfold Seq2SeqAttentionModel.encode in Henc.
  apply bind_some in Henc as (embs & Hembs & Henc).
  apply bind_some in Henc as (outs & Houts & Henc).
  inversion Henc; subst enc mask; clear Henc.
  apply gru_rows_inv in Houts as [-> Hne].
  destruct (mapM_nth _ _ _ Hembs Hrow) as (er & Her & Hemb).
  assert (Hner : Forall (fun e : Tensor2 => e <> []) [er]).
  { constructor; [|constructor]. rewrite Forall_forall in Hne.
    apply Hne. eapply nth_error_In. exact Her. }
  set (e := gru_outputs (Seq2SeqAttentionModel.encoder M)
              (zeros (Seq2SeqAttentionModel.hidden_size M)) er).
  assert (He : nth_error
                 (map (gru_outputs (Seq2SeqAttentionModel.encoder M)
                         (zeros (Seq2SeqAttentionModel.hidden_size M))) embs)
                 b = Some e)
    by (rewrite nth_error_map, Her; reflexivity).
  assert (Hm : nth_error (Seq2SeqAttentionModel.inputs_mask_of M inputs) b
               = Some (map (fun x =>
                              if (x =? Seq2SeqAttentionModel.pad_index M)%Z
                              then 0%Z else 1%Z) row))
    by (unfold Seq2SeqAttentionModel.inputs_mask_of;
        rewrite nth_error_map, Hrow; reflexivity).
  unfold Seq2SeqAttentionModel.encode.
  change (mapM (mapM (Seq2SeqAttentionModel.embedding M)) [row])
    with (bind (mapM (Seq2SeqAttentionModel.embedding M) row)
            (fun b0 => Some [b0])).
  rewrite Hemb. cbn [bind]. rewrite (gru_rows_total _ _ Hner).
  cbn [bind map Seq2SeqAttentionModel.inputs_mask_of].
  fold e.
  unfold Seq2SeqAttentionModel.decode, Seq2SeqAttentionModel.decode_steps
    in *.
  apply bind_some in H as (trace & Htrace & Hstack).
  apply bind_some in Htrace as (first & Hfirst & Htrace).
  apply bind_some in Htrace as (x0 & Hx0 & Htrace).
  unfold column in Hfirst.
  destruct (mapM_nth _ _ _ Hfirst He) as (f0 & Hf0 & He0).
  assert (Hh0 : nth_error (map (map (fun _ : R => 0)) first) b
                = Some (map (fun _ : R => 0) f0))
    by (rewrite nth_error_map, Hf0; reflexivity).
  pose proof Hx0 as Hx0'. unfold start_inputs in Hx0'.
  apply bind_some in Hx0' as (col & Hcol & Hx0').
  destruct ((Float32.int64_min <=? Seq2SeqAttentionModel.start_index M)
            && (Seq2SeqAttentionModel.start_index M <? 2 ^ 63))%Z
    eqn:Hrange; [|discriminate].
  inversion Hx0'; subst x0; clear Hx0'. unfold column in Hcol.
  destruct (mapM_nth _ _ _ Hcol Hh0) as (z & Hz & Hz0).
  assert (Hxb : nth_error
                  (map (fun _ : R =>
                          start_token (Seq2SeqAttentionModel.start_index M))
                     col) b
                = Some (start_token (Seq2SeqAttentionModel.start_index M)))
    by (rewrite nth_error_map, Hz; reflexivity).
  destruct (decode_loop_row M _ _ targets rand b e _ trow
              (range (Seq2SeqAttentionModel.max_len M)) He Hm Ht _ _ _ _
              trace Htrace Hh0 Hxb)
    as (trace1 & Htrace1 & Hall).
  destruct (stack_dim1_row b
              (map Seq2SeqAttentionModel.s_decoder_output_logit trace)
              (map Seq2SeqAttentionModel.s_decoder_output_logit trace1)
              out Hstack) as (o & Ho & Hstack1).
  { clear - Hall. induction Hall as [|s s1 tr tr1 (l & H1 & H2) _ IH];
      cbn [map]; constructor; [|exact IH].
    exists l. auto. }
  exists o. split; [exact Ho|].
  unfold column. cbn [mapM]. rewrite He0. cbn [bind map].
  unfold start_inputs, column. cbn [mapM]. rewrite Hz0. cbn [bind map].
  rewrite Hrange. cbn [bind]. rewrite Htrace1. cbn [bind]. exact Hstack1.
Qed.

Lemma attention_forward_row_by_row_witness :
  exists out o,
    Seq2SeqAttentionModel.forward Examples.attention_model
      [[1; 0]; [2; 1]]%Z (Some [[2; 0]; [1; 2]]%Z) Examples.zero_draws
    = Some out
    /\ nth_error out 1 = Some o
    /\ Seq2SeqAttentionModel.forward Examples.attention_model [[2; 1]]%Z
         (Some [[1; 2]]%Z) Examples.zero_draws = Some [o].
Proof.
  destruct (@AttentionShape.forward_total Examples.attention_model
              [[1; 0]; [2; 1]]%Z (Some [[2; 0]; [1; 2]]%Z)
              Examples.zero_draws 2 AttentionClaims.example_model_ok)
    as (steps & out & _ & _ & Hout & _).
  - unfold inputs_ok, token_ok. split; [lia|].
    repeat constructor; simpl; lia.
  - unfold targets_ok, token_ok. simpl. split; [reflexivity|].
    repeat constructor; simpl; lia.
  - destruct (attention_forward_row_by_row Examples.attention_model
                [[1; 0]; [2; 1]]%Z (Some [[2; 0]; [1; 2]]%Z)
                Examples.zero_draws out 1 [2; 1]%Z [1; 2]%Z Hout eq_refl)
      as (o & Ho & H1).
    + intros t Heq. inversion Heq. reflexivity.
    + exists out, o. split; [exact Hout|]. split; [exact Ho | exact H1].
Defined.

End BatchExtras.

(** ** generate_response with the attention model *)

Module InferenceExtras.

Import SubtitlesDialogDataset Spec Shape DatasetFacts DatasetExtras.
Import Response ResponseExtras.

Local Open Scope R_scope.

(** X23: [generate_response] answers every query.  On a dataset the
    constructor built (with [max_len >= 1]) and an attention model whose
    layers have the constructor's sizes, of [len(dataset.vocab)] tokens,
    with [max_len >= 1] and a start index that is in the vocabulary and
    that float32 holds exactly, called without targets, it returns for
    any query and any draws the space-joined tokens of at most the model's
    [max_len] predictions, all of them in the vocabulary and none a special
    token. *)
Theorem generate_response_returns (set_iter : list string -> list string)
  (file_lines : list (list string)) (max_lines max_len max_vocab_size : Z)
  (ds : t) (M : Seq2SeqAttentionModel.t) (query : list string)
  (rand : nat -> R) :
  set_iter_ok set_iter ->
  (1 <= max_len)%Z ->
  DatasetConstruction.__init__ set_iter file_lines None max_lines
    (Some max_len) max_vocab_size = Some ds ->
  attention_model_ok M ->
  Seq2SeqAttentionModel.vocab_size M = Vocab.__len__ (vocab ds) ->
  exists response,
    generate_response
      (fun inputs => Seq2SeqAttentionModel.forward M inputs None rand)
      ds query
    = Some (String.concat " " response)
    /\ (length response <= Z.to_nat (Seq2SeqAttentionModel.max_len M))%nat
    /\ Forall (fun tok =>
                 ~ In tok DatasetConstruction.default_special_tokens
                 /\ Vocab.__contains__ (vocab ds) tok = true) response.
Proof.
  intros Hiter Hlen Hds HM HV.
  destruct (constructed_vocab set_iter
              (firstn (Z.to_nat max_lines) file_lines) max_vocab_size Hiter)
    as (v & Hv & Hb).
  pose proof (@VocabPrune.built_wf _ _ VocabClaims.special_tokens_distinct
                Hb) as Hwf.
  unfold DatasetConstruction.__init__ in Hds. rewrite Hv in Hds.
  cbn [bind] in Hds. injection Hds as Hds.
  assert (Hvocab : vocab ds = v) by (rewrite <- Hds; reflexivity).
  assert (Hmax : SubtitlesDialogDataset.max_len ds = max_len)
    by (rewrite <- Hds; reflexivity).
  rewrite <- Hvocab in Hb, Hwf.
  assert (Hunk : Vocab.__getitem__ (vocab ds) Vocab.UNK_TOKEN = Some 3%nat)
    by (apply (special_id _ _ _ _ Hwf); reflexivity).
  destruct (process_sent_some ds query Hunk) as (ids & _ & Hq).
  assert (Hql : length (map Z.of_nat ids) = Z.to_nat max_len).
  { rewrite <- Hmax. apply (process_sent_length ds query); [lia | exact Hq]. }
  assert (Hqok : Forall (token_ok (Seq2SeqAttentionModel.vocab_size M))
                   (map Z.of_nat ids)).
  { unfold token_ok. rewrite HV.
    apply (process_sent_below_len ds query); [apply Hwf | exact Hq]. }
  destruct (@AttentionShape.forward_total M [map Z.of_nat ids] None rand
              (Z.to_nat max_len) HM)
    as (steps & out & _ & _ & Hout & Hshape).
  { split; [lia|]. constructor; [auto | constructor]. }
  { exact I. }
  destruct (response_tokens_spec
              (fun inputs => Seq2SeqAttentionModel.forward M inputs None rand)
              ds query DatasetConstruction.default_special_tokens
              (map Z.of_nat ids) out
              (Z.to_nat (Seq2SeqAttentionModel.max_len M))
              (Seq2SeqAttentionModel.vocab_size M)
              VocabClaims.special_tokens_distinct Hb Hq Hout Hshape)
    as (response & _ & Hgen & Hrl & Hall).
  { destruct HM as (_ & _ & _ & Hstart & _). unfold token_ok in Hstart. lia. }
  exists response. auto.
Qed.

Lemma generate_response_returns_witness :
  exists ds response,
    DatasetConstruction.__init__ (nodup string_dec)
      [["how"; "are"; "you"]; ["fine"]; ["you"]]%string None 1000
      (Some 3%Z) 50000 = Some ds
    /\ generate_response
         (fun inputs =>
            Seq2SeqAttentionModel.forward
              (FurtherExamples.attention_model_of 8 3) inputs None
              Examples.zero_draws)
         ds ["who"; "are"; "you"]%string
       = Some (String.concat " " response)
    /\ (length response <= 3)%nat.
Proof.
  eassert (Hds : DatasetConstruction.__init__ (nodup string_dec)
                   [["how"; "are"; "you"]; ["fine"]; ["you"]]%string None
                   1000 (Some 3%Z) 50000 = Some _)
    by (vm_compute; reflexivity).
  destruct (generate_response_returns (nodup string_dec) _ 1000 3 50000 _
              (FurtherExamples.attention_model_of 8 3)
              ["who"; "are"; "you"]%string Examples.zero_draws
              VocabClaims.nodup_iter_ok ltac:(lia) Hds)
    as (response & Hgen & Hlen & _).
  - unfold attention_model_ok, token_ok. simpl.
    repeat split; try reflexivity; lia.
  - reflexivity.
  - eexists. exists response. split; [exact Hds|].
    split; [exact Hgen | exact Hlen].
Defined.

End InferenceExtras.

(** ** Seq2SeqModel: the state encode returns *)

Module EncodeExtras.

Import Seq2SeqModel Shape ShapeFacts Views PaddingExtras.

Local Open Scope R_scope.

Lemma count_no_padding (pad : Z) (toks : LongTensor1) :
  Forall (fun x => x <> pad) toks ->
  fold_right Z.add 0%Z
    (map (fun x => if (x =? pad)%Z then 0%Z else 1%Z) toks)
  = Z.of_nat (length toks).
Proof.
  induction 1 as [|x toks Hx _ IH]; [reflexivity|].
  cbn [map fold_right length]. rewrite IH.
  replace (x =? pad)%Z with false by (symmetry; apply Z.eqb_neq; exact Hx).
  lia.
Qed.

Lemma nth_error_last {A : Type} (l : list A) (d : A) :
  l <> [] -> nth_error l (length l - 1) = Some (last l d).
Proof.
  induction l as [|x l IH]; [congruence|]. intros _.
  destruct l as [|y l]; [reflexivity|].
  cbn [length]. replace (S (S (length l)) - 1)%nat with (S (length l)) by lia.
  change (nth_error (x :: y :: l) (S (length l)))
    with (nth_error (y :: l) (length l)).
  change (last (x :: y :: l) d) with (last (y :: l) d).
  rewrite <- IH by discriminate. cbn [length]. f_equal. lia.
Qed.

(** X24: [Seq2SeqModel.encode] returns the encoder state after the last
    token of the sentence.  For a row made of tokens of the vocabulary
    other than the padding token, at least one, followed by any number of
    padding tokens, the state returned is the last output of the encoder
    run on the tokens alone. *)
Theorem plain_encode_last_state (M : t) (toks : LongTensor1) (k : nat) :
  token_ok (vocab_size M) (pad_index M) ->
  toks <> [] ->
  Forall (fun x => x <> pad_index M) toks ->
  Forall (token_ok (vocab_size M)) toks ->
  encode M [toks ++ repeat (pad_index M) k]
  = Some [last (gru_outputs (encoder M) (zeros (hidden_size M))
                  (map (embedding_weight M) toks)) []].
Proof.
  intros Hpad Hne Hnopad Hok.
  change [toks ++ repeat (pad_index M) k]
    with (pad_more (pad_index M) k [toks]).
  rewrite plain_encode_padding.
  2: exact Hpad.
  2:{ constructor; [|constructor].
      destruct toks as [|x toks]; [congruence|].
      exists x. split; [left; reflexivity|].
      inversion Hnopad; assumption. }
  rewrite plain_encode_cons. unfold embedding at 1.
  rewrite (embedding_rows _ Hok). cbn [bind].
  rewrite count_no_padding by exact Hnopad.
  set (out := gru_outputs (encoder M) (zeros (hidden_size M))
                (map (embedding_weight M) toks)).
  assert (Hlen : length out = length toks)
    by (unfold out; rewrite gru_outputs_length, length_map; reflexivity).
  assert (Hpos : (0 < length toks)%nat)
    by (destruct toks; simpl; [congruence | lia]).
  rewrite DatasetFacts.py_index_nonneg by lia.
  replace (Z.to_nat (Z.of_nat (length toks) - 1)) with (length out - 1)%nat
    by lia.
  rewrite (nth_error_last out []).
  - reflexivity.
  - intros Hnil. rewrite Hnil in Hlen. simpl in Hlen. lia.
Qed.

Lemma plain_encode_last_state_witness :
  encode FurtherExamples.plain_model_two [[1; 1; 0; 0]]%Z = Some [[1]].
Proof.
  apply (plain_encode_last_state FurtherExamples.plain_model_two [1; 1]%Z 2).
  - unfold token_ok. simpl. lia.
  - discriminate.
  - repeat constructor; simpl; lia.
  - repeat constructor; simpl; lia.
Defined.

End EncodeExtras.

(** ** The start index that float32 holds *)

Module StartIndexExtras.

Import Policy.

(** X28: a start index below 2^24 in absolute value passes through the
    float32 tensor of [decode] unchanged: on hidden states of
    [batch_size] rows that are not empty, the first inputs of [decode]
    ([torch.full_like(decoder_hidden[:, 0], start_index).long()]) are
    [batch_size] times [start_index] itself. *)
Theorem small_start_index_is_exact (A : Type) (start_index : Z)
  (decoder_hidden : list (list A)) :
  (Z.abs start_index < 2 ^ 24)%Z ->
  Forall (fun row => row <> []) decoder_hidden ->
  start_inputs start_index decoder_hidden
  = Some (repeat start_index (length decoder_hidden)).
Proof.
  intros Hsmall Hrows.
  pose proof (Float32Facts.exact_long_small start_index Hsmall) as Hex.
  unfold start_inputs.
  destruct (@AttentionShape.column_some A 0 decoder_hidden)
    as (col & Hcol & Hlen & _).
  { eapply Forall_impl; [|exact Hrows]. simpl.
    intros [|x row] Hrow; [congruence | simpl; lia]. }
  rewrite Hcol. cbn [bind].
  rewrite (proj2 (andb_true_iff _ _)).
  - unfold start_token. rewrite Hex. rewrite <- Hlen.
    f_equal. clear. induction col as [|x col IH]; simpl;
      [reflexivity | rewrite IH; reflexivity].
  - split; [apply Z.leb_le | apply Z.ltb_lt];
      unfold Float32.int64_min; lia.
Qed.

Lemma small_start_index_is_exact_witness :
  start_inputs 1%Z [[7%Z]; [8%Z]] = Some [1%Z; 1%Z].
Proof.
  apply (small_start_index_is_exact Z 1%Z [[7%Z]; [8%Z]]).
  - reflexivity.
  - repeat constructor; discriminate.
Defined.

End StartIndexExtras.
